(** * Flow engine of [tube_planning]: networks, flows, BFS, Edmonds-Karp

    A shallow embedding of [tube_planning/networks/network.py] and
    [tube_planning/flow.py], and of the scoring of proposals built on them:
    [networks/proposal.py], [criteria/base.py], [criteria/performance.py],
    [criteria/group.py] and [evaluation.py].

    Conventions of the embedding.
    - numpy [float] entries are idealised as exact rationals ([Q]); the
      comparisons of the source are the boolean comparisons on [Q]. The
      program computes in double precision: the two agree on whole numbers
      of moderate size ([whole_capacities], [whole_amounts]), and the
      statements whose truth depends on exact arithmetic are made for such
      data. [Module Double] holds the loop of [edmonds_karp] on doubles, to
      run it where rounding matters.
    - a two-dimensional array is a list of rows ([matrix]).
    - Python [int]s (node ids, predecessor traces) are [Z]; a subscript with
      an [int] follows Python's rule (negative subscripts count from the end,
      anything else out of range raises [IndexError]).
    - a call either returns, raises, or does not terminate: [result].
    - an object mutated in place ([Flow.send_flow_along]) is modelled by
      returning the state of the object after the call next to the outcome;
      so is the class attribute [Proposal._all_proposals], which the
      constructor reads and extends.
    - the subclasses of [Criteria] are the instances of a class of types;
      [CostCriteria] (it takes square roots) is not embedded. *)

From Stdlib Require Import QArith Qabs Qminmax ZArith Lia Lqa String.
From Stdlib Require Floats.PrimFloat.
From stdpp Require Import base list.

Local Open Scope Z_scope.

(** ** Exceptions and outcomes *)

Inductive exn : Type :=
  | TubePlanningError (msg : string)
  | TypeError (msg : string)
  | ValueError (msg : string)
  | IndexError (msg : string).

Inductive result (A : Type) : Type :=
  | Ok (a : A)
  | Raise (e : exn)
  | Diverge.
Arguments Ok {A} a.
Arguments Raise {A} e.
Arguments Diverge {A}.

#[global] Instance result_bind : MBind result := fun A B f r =>
  match r with
  | Ok a => f a
  | Raise e => Raise e
  | Diverge => Diverge
  end.
#[global] Instance result_ret : MRet result := fun A a => Ok a.

(** The error kinds of the design, identified by the message of the
    [raise] statement that produces them. *)
Definition ConvergenceFailure : exn :=
  TubePlanningError "Maximum iterations reached without convergence.".
Definition NegativeCapacity : exn :=
  TubePlanningError "Adjacency matrix must be non-negative.".
Definition TerminalsNotDisjoint : exn :=
  TubePlanningError "Sources and sinks must be disjoint.".
Definition TerminalsMissing : exn :=
  TubePlanningError "Provide at least one source and one sink.".
Definition ConflictingTerminals (e : exn) : Prop :=
  e = TerminalsNotDisjoint \/ e = TerminalsMissing.
Definition InsufficientSupply : exn :=
  TubePlanningError "Insufficient total supply to meet demand.".
Definition DemandNotSatisfied : exn :=
  TubePlanningError "Could not satisfy all demand.".
Definition PathTooShort : exn :=
  TubePlanningError "Path must contain at least two nodes.".
Definition PathInvalidIndex : exn :=
  TubePlanningError "Path contains invalid node index.".
Definition InvalidPath (e : exn) : Prop :=
  e = PathTooShort \/ e = PathInvalidIndex.

(** ** Numbers, arrays and subscripts *)

Definition Qltb (x y : Q) : bool := negb (Qle_bool y x).

Definition Qsum (l : list Q) : Q := foldr Qplus 0%Q l.

Abbreviation matrix := (list (list Q)).

(** [a[i]] for a Python [int] subscript. *)
Definition py_index {A} (l : list A) (i : Z) : result A :=
  let n := Z.of_nat (length l) in
  let k := if i <? 0 then i + n else i in
  if (k <? 0) || (n <=? k) then Raise (IndexError "index out of bounds")
  else match l !! Z.to_nat k with
       | Some x => Ok x
       | None => Raise (IndexError "index out of bounds")
       end.

(** [m[i, j]]. *)
Definition mat_index (m : matrix) (i j : Z) : result Q :=
  row ← py_index m i; py_index row j.

(** Entry [(i, j)] of a matrix, [0] outside of it: used to state properties,
    and by the code only below a bounds check. *)
Definition mget (m : matrix) (i j : nat) : Q :=
  match m !! i with
  | Some row => match row !! j with Some x => x | None => 0%Q end
  | None => 0%Q
  end.

(** [matrix.shape[0] == matrix.shape[1]] for a two-dimensional array. *)
Definition is_square (m : matrix) : bool :=
  forallb (fun row => Nat.eqb (length row) (length m)) m.

(** [a - b] entry-wise, for arrays of one shape. *)
Definition mat_sub (a b : matrix) : matrix := zip_with (zip_with Qminus) a b.

(** [a + b] entry-wise, for arrays of one shape. *)
Definition mat_add (a b : matrix) : matrix := zip_with (zip_with Qplus) a b.

(** [np.zeros((k, k))]. *)
Definition zeros (k : nat) : matrix := replicate k (replicate k 0%Q).

(** [e = np.zeros((k, k)); e[:n, :n] = a] for an [n * n] array [a], [n <= k]. *)
Definition zero_pad (k : nat) (a : matrix) : matrix :=
  map (fun row => row ++ replicate (k - length row) 0%Q) a
  ++ replicate (k - length a) (replicate k 0%Q).

(** [a[:n, :n]]. *)
Definition block (n : nat) (a : matrix) : matrix := take n (map (take n) a).

(** [a[i, j] = x] below a bounds check. *)
Definition mset (a : matrix) (i j : nat) (x : Q) : matrix :=
  alter (fun row => <[j := x]> row) i a.

(** [a[i, j] += x] below a bounds check. *)
Definition madd (a : matrix) (i j : nat) (x : Q) : matrix :=
  alter (alter (fun y => (y + x)%Q) j) i a.

(** [a.T] for a square array. *)
Definition transpose (a : matrix) : matrix :=
  map (fun j => map (fun row => nth j row 0%Q) a) (seq 0 (length a)).

Definition mat_neg (a : matrix) : matrix := map (map Qopp) a.

(** [np.diag(a)]. *)
Definition diag (a : matrix) : list Q := imap (fun i row => nth i row 0%Q) a.

(** [np.fill_diagonal(a, 0.0)]. *)
Definition fill_diagonal (a : matrix) : matrix :=
  imap (fun i row => <[i := 0%Q]> row) a.

(** [np.isclose(a, b, rtol, atol)]: [|a - b| <= atol + rtol * |b|]. *)
Definition isclose (rtol atol a b : Q) : bool :=
  Qle_bool (Qabs (a - b)) (atol + rtol * Qabs b).

Definition allclose_vec (rtol atol : Q) (a b : list Q) : bool :=
  forallb (fun p => isclose rtol atol (fst p) (snd p)) (zip a b).

(** [np.allclose(a, b, rtol, atol)] on two arrays of one shape. *)
Definition allclose (rtol atol : Q) (a b : matrix) : bool :=
  forallb (fun p => allclose_vec rtol atol (fst p) (snd p)) (zip a b).

(** numpy's defaults for [rtol] and [atol]. *)
Definition default_rtol : Q := 1 # 100000.
Definition default_atol : Q := 1 # 100000000.

(** [tuple(dict.fromkeys(l))]: duplicates dropped, first occurrences kept
    in order. *)
Fixpoint dedup (seen l : list Z) : list Z :=
  match l with
  | [] => []
  | x :: l' =>
      if bool_decide (x ∈ seen) then dedup seen l'
      else x :: dedup (x :: seen) l'
  end.
Definition fromkeys (l : list Z) : list Z := dedup [] l.

(** [zip(path[:-1], path[1:], strict=True)]: both slices have the same
    length, so [strict] never raises. *)
Definition path_edges (path : list Z) : list (Z * Z) :=
  zip (removelast path) (tail path).

(** [min(xs)]: the first smallest element; [ValueError] on an empty
    sequence. *)
Definition py_min (xs : list Q) : result Q :=
  match xs with
  | [] => Raise (ValueError "min() iterable argument is empty")
  | x :: xs' => Ok (foldl Qmin x xs')
  end.

(** ** [flow.py] *)

Module Flow.

Definition _EPS : Q := 1 # 1000000000.

Record t : Type := mk {
  flow_matrix : matrix;
  sources : list Z;
  sinks : list Z
}.

(** Column sums. *)
Definition flow_in (f : t) : list Q := map Qsum (transpose (flow_matrix f)).

(** Row sums. *)
Definition flow_out (f : t) : list Q := map Qsum (flow_matrix f).

Definition net_flow (f : t) : list Q :=
  zip_with Qminus (flow_in f) (flow_out f).

Definition value (f : t) : result Q :=
  match sources f with
  | _ :: _ => xs ← mapM (py_index (flow_out f)) (sources f); Ok (Qsum xs)
  | [] =>
      match sinks f with
      | _ :: _ => xs ← mapM (py_index (flow_in f)) (sinks f); Ok (Qsum xs)
      | [] => Ok 0%Q
      end
  end.

Definition _conserves_flow (f : t) : bool :=
  if negb (allclose default_rtol _EPS (flow_matrix f)
             (mat_neg (transpose (flow_matrix f)))) then false
  else if negb (forallb (fun d => isclose default_rtol _EPS d 0%Q)
                  (diag (flow_matrix f))) then false
  else
    forallb (fun b => b)
      (imap (fun idx value =>
               if bool_decide (Z.of_nat idx ∈ sources f ++ sinks f) then true
               else isclose default_rtol _EPS value 0%Q)
            (net_flow f)).

(** [Flow.__init__]. *)
Definition __init__ (m : matrix) (srcs snks : list Z) : result t :=
  if negb (is_square m) then
    Raise (TubePlanningError "Flow matrix must be square.")
  else
    let n := Z.of_nat (length m) in
    let self := mk m (fromkeys srcs) (fromkeys snks) in
    if existsb (fun node => (node <? 0) || (n <=? node))
         (sources self ++ sinks self) then
      Raise (TubePlanningError "Source or sink index out of bounds.")
    else if negb (_conserves_flow self) then
      Raise (TubePlanningError "Flow does not conserve at intermediate nodes.")
    else Ok self.

Definition zero_flow (n_nodes : nat) (srcs snks : list Z) : result t :=
  __init__ (zeros n_nodes) srcs snks.

(** The loop of [send_flow_along] over the consecutive pairs of the path;
    the matrix returned is the one the object holds when the loop ends,
    normally or by the [raise]. [F[v, u] -= amount] adds [- amount]
    ([y - amount] is [y + - amount] by the definition of [Qminus]). *)
Fixpoint send_edges (m : matrix) (edges : list (Z * Z)) (amount : Q)
  : matrix * result unit :=
  match edges with
  | [] => (m, Ok tt)
  | (u, v) :: rest =>
      let n := Z.of_nat (length m) in
      if (u <? 0) || (v <? 0) || (n <=? u) || (n <=? v) then
        (m, Raise PathInvalidIndex)
      else
        let m1 := madd m (Z.to_nat u) (Z.to_nat v) amount in
        let m2 := madd m1 (Z.to_nat v) (Z.to_nat u) (- amount)%Q in
        send_edges m2 rest amount
  end.

(** [Flow.send_flow_along]: the flow after the call, and the outcome. *)
Definition send_flow_along (self : t) (path : list Z) (amount : Q)
  : t * result unit :=
  if (length path <? 2)%nat then (self, Raise PathTooShort)
  else
    let '(m, r) := send_edges (flow_matrix self) (path_edges path) amount in
    (mk m (sources self) (sinks self), r).

End Flow.

(** ** [networks/network.py] *)

Module Network.

Record t : Type := mk { adjacency_matrix : matrix }.

Definition n_nodes (self : t) : nat := length (adjacency_matrix self).

(** [adj[u, v] += w] with Python subscripts on a square array. *)
Definition madd_index (adj : matrix) (u v : Z) (w : Q) : result matrix :=
  let n := Z.of_nat (length adj) in
  let u' := if u <? 0 then u + n else u in
  let v' := if v <? 0 then v + n else v in
  if (u' <? 0) || (n <=? u') || (v' <? 0) || (n <=? v') then
    Raise (IndexError "index out of bounds")
  else Ok (madd adj (Z.to_nat u') (Z.to_nat v') w).

(** The second loop of [_build_adj_from_edges]. *)
Fixpoint add_edges (processed : list (Z * Z * Q)) (adj : matrix)
  : result matrix :=
  match processed with
  | [] => Ok adj
  | (u, v, w) :: rest =>
      if u =? v then add_edges rest adj
      else
        adj1 ← madd_index adj u v w;
        adj2 ← madd_index adj1 v u w;
        add_edges rest adj2
  end.

(** [Network._build_adj_from_edges]; an entry of the table is a triple
    [(u, v, weight)] by its type. *)
Definition _build_adj_from_edges (edge_table : option (list (Z * Z * Q)))
  : result matrix :=
  match edge_table with
  | None => Raise (TubePlanningError "Edge table must not be None.")
  | Some edges =>
      if bool_decide (edges = []) then
        Raise (TubePlanningError "Edge table is empty.")
      else
        let max_index :=
          foldl (fun acc e => Z.max (Z.max acc (fst (fst e))) (snd (fst e)))
                (-1) edges in
        let size := Z.to_nat (max_index + 1) in
        add_edges edges (zeros size)
  end.

(** Lines 96-105 of [Network.__init__], on the two-dimensional array
    [m]. *)
Definition check_adjacency (m : matrix) : result t :=
  if negb (is_square m) then
    Raise (TubePlanningError "Adjacency matrix must be square.")
  else if existsb (existsb (fun x => Qltb x 0%Q)) m then
    Raise NegativeCapacity
  else Ok (mk (fill_diagonal m)).

(** [Network.__init__(adj_mat=..., edge_table=...)]; [None] is an argument
    left out. *)
Definition __init__ (adj_mat : option matrix)
    (edge_table : option (list (Z * Z * Q))) : result t :=
  match adj_mat, edge_table with
  | None, None =>
      Raise (TubePlanningError "Provide either adjacency matrix or edge table.")
  | Some _, Some _ =>
      Raise (TubePlanningError "Specify only one of adj_mat or edge_table.")
  | Some adj_mat, None => check_adjacency adj_mat
  | None, Some _ =>
      adj_mat ← _build_adj_from_edges edge_table;
      check_adjacency adj_mat
  end.

(** The [while] loop of [path_from_bfs]. The subscripts the loop can use
    without an [IndexError] are the [2 * len(path_trace)] values from
    [-len(path_trace)] to [len(path_trace) - 1], so a walk that has not
    stopped after that many steps has come back to a subscript it has
    already used and never stops. *)
Fixpoint path_walk (fuel : nat) (path_trace : list Z) (cur : Z)
    (path : list Z) : result (list Z) :=
  p ← py_index path_trace cur;
  if p =? cur then Ok path
  else match fuel with
       | O => Diverge
       | S fuel' => path_walk fuel' path_trace p (path ++ [p])
       end.

Definition path_from_bfs (path_trace : list Z) (dest : Z)
  : result (list Z) :=
  if (dest <? 0) || (Z.of_nat (length path_trace) <=? dest) then
    Raise (TubePlanningError "Destination node out of bounds.")
  else
    td ← py_index path_trace dest;
    if td <? 0 then
      Raise (TubePlanningError "Destination is unreachable from root.")
    else
      path ← path_walk (2 * length path_trace) path_trace dest [dest];
      Ok (rev path).

(** [np.nonzero(mask)[0]]: the positions of the [True] entries, in
    increasing order. *)
Fixpoint nonzero_from (j : nat) (mask : list bool) : list nat :=
  match mask with
  | [] => []
  | b :: mask' =>
      if b then j :: nonzero_from (S j) mask' else nonzero_from (S j) mask'
  end.
Definition nonzero (mask : list bool) : list nat := nonzero_from 0 mask.

(** The local variables of [bfs]. The [for] loop reads [queue] through a
    cursor while its body appends to it. *)
Record bfs_state : Type := mk_bfs {
  visited : list bool;
  path_trace : list Z;
  queue : list nat
}.

(** The body of the inner loop, for one neighbour [nb] of [current];
    [visited] and [path_trace] have the same length. *)
Definition bfs_visit (current : nat) (st : bfs_state) (nb : nat)
  : result bfs_state :=
  match visited st !! nb with
  | None => Raise (IndexError "index out of bounds")
  | Some true => Ok st
  | Some false =>
      Ok (mk_bfs (<[nb := true]> (visited st))
                 (<[nb := Z.of_nat current]> (path_trace st))
                 (queue st ++ [nb]))
  end.

(** The inner loop [for nb in neighbours]. *)
Fixpoint bfs_neighbours (current : nat) (st : bfs_state)
    (neighbours : list nat) : result bfs_state :=
  match neighbours with
  | [] => Ok st
  | nb :: rest =>
      st' ← bfs_visit current st nb;
      bfs_neighbours current st' rest
  end.

(** The outer loop, with the cursor at position [i] of the queue. *)
Fixpoint bfs_loop (fuel : nat) (adj : matrix) (i : nat) (st : bfs_state)
  : result bfs_state :=
  match queue st !! i with
  | None => Ok st
  | Some current =>
      match fuel with
      | O => Diverge
      | S fuel' =>
          match adj !! current with
          | None => Raise (IndexError "index out of bounds")
          | Some row =>
              let neighbours := nonzero (map (Qltb 0%Q) row) in
              st' ← bfs_neighbours current st neighbours;
              bfs_loop fuel' adj (S i) st'
          end
      end
  end.

(** [Network.bfs]. Every pass of the outer loop consumes one entry of the
    queue and a node enters the queue at most once, so [n_nodes] passes
    are enough (lemma [bfs_returns] below). *)
Definition bfs (self : t) (root : Z) : result (list Z) :=
  let n := n_nodes self in
  if (root <? 0) || (Z.of_nat n <=? root) then
    Raise (TubePlanningError "Root node out of bounds.")
  else
    let r := Z.to_nat root in
    let st := mk_bfs (<[r := true]> (replicate n false))
                     (<[r := root]> (replicate n (-1)))
                     [r] in
    st' ← bfs_loop n (adjacency_matrix self) 0 st;
    Ok (path_trace st').

(** [Network.capacity_constraint]; the argument is a [Flow] by its type. *)
Definition capacity_constraint (self : t) (flow : Flow.t) : result bool :=
  let fm := Flow.flow_matrix flow in
  let am := adjacency_matrix self in
  if negb (bool_decide (map length fm = map length am)) then
    Raise (TubePlanningError "Flow matrix and adjacency matrix shapes differ.")
  else if negb (allclose default_rtol Flow._EPS fm (mat_neg (transpose fm)))
  then Raise (TubePlanningError "Flow matrix must be skew-symmetric.")
  else if existsb (existsb (fun d => Qltb Flow._EPS d))
            (mat_sub (map (map Qabs) fm) am)
  then Raise (TubePlanningError "Flow exceeds edge capacity.")
  else Ok true.

(** One pass of the loop of [edmonds_karp]: [(true, f)] when the pass
    leaves the loop by [break], [(false, f')] when it augments. *)
Definition ek_iteration (self : t) (source sink : Z) (f : Flow.t)
  : result (bool * Flow.t) :=
  residual ← __init__ (Some (mat_sub (adjacency_matrix self)
                                 (Flow.flow_matrix f))) None;
  path_trace ← bfs residual source;
  ts ← py_index path_trace sink;
  if ts <? 0 then Ok (true, f)
  else
    path ← path_from_bfs path_trace sink;
    caps ← mapM (fun e => mat_index (adjacency_matrix residual) (fst e) (snd e))
                (path_edges path);
    augment ← py_min caps;
    let sent := Flow.send_flow_along f path augment in
    _ ← snd sent; Ok (false, fst sent).

(** The loop [for _ in range(maxiter)] followed by the test of
    [converged]. *)
Fixpoint ek_loop (maxiter : nat) (self : t) (source sink : Z) (f : Flow.t)
  : result Flow.t :=
  match maxiter with
  | O => Raise ConvergenceFailure
  | S k =>
      ek_iteration self source sink f ≫= fun r : bool * Flow.t =>
      if fst r then Ok (snd r) else ek_loop k self source sink (snd r)
  end.

Definition edmonds_karp (self : t) (source sink : Z) (maxiter : Z)
  : result Flow.t :=
  if source =? sink then
    Raise (TubePlanningError "Source and sink must differ.")
  else
    let n := Z.of_nat (n_nodes self) in
    if (source <? 0) || (sink <? 0) || (n <=? source) || (n <=? sink) then
      Raise (TubePlanningError "Source or sink out of bounds.")
    else
      f ← Flow.zero_flow (n_nodes self) [source] [sink];
      ek_loop (Z.to_nat maxiter) self source sink f.

(** The two loops of the reductions that connect the terminals to the
    synthetic nodes: [items] are the pairs (node, capacity) in iteration
    order. *)
Fixpoint attach_sources (n super_source : nat) (items : list (Z * Q))
    (expanded : matrix) : result matrix :=
  match items with
  | [] => Ok expanded
  | (node, capacity) :: rest =>
      if (node <? 0) || (Z.of_nat n <=? node) then
        Raise (TubePlanningError "Source index out of bounds.")
      else
        let e1 := mset expanded super_source (Z.to_nat node) capacity in
        let e2 := mset e1 (Z.to_nat node) super_source capacity in
        attach_sources n super_source rest e2
  end.

Fixpoint attach_sinks (n super_sink : nat) (items : list (Z * Q))
    (expanded : matrix) : result matrix :=
  match items with
  | [] => Ok expanded
  | (node, capacity) :: rest =>
      if (node <? 0) || (Z.of_nat n <=? node) then
        Raise (TubePlanningError "Sink index out of bounds.")
      else
        let e1 := mset expanded (Z.to_nat node) super_sink capacity in
        let e2 := mset e1 super_sink (Z.to_nat node) capacity in
        attach_sinks n super_sink rest e2
  end.

Definition maximum_flow (self : t) (sources sinks : list Z) (maxiter : Z)
  : result Flow.t :=
  let sources := fromkeys sources in
  let sinks := fromkeys sinks in
  if existsb (fun s => bool_decide (s ∈ sinks)) sources then
    Raise TerminalsNotDisjoint
  else if bool_decide (sources = []) || bool_decide (sinks = []) then
    Raise TerminalsMissing
  else
    let n := n_nodes self in
    let total := Qsum (map Qsum (adjacency_matrix self)) in
    let total_capacity := if Qle_bool total 0%Q then 1%Q else total in
    let super_source := n in
    let super_sink := S n in
    let expanded := zero_pad (n + 2) (adjacency_matrix self) in
    expanded ← attach_sources n super_source
                 (map (fun s => (s, total_capacity)) sources) expanded;
    expanded ← attach_sinks n super_sink
                 (map (fun s => (s, total_capacity)) sinks) expanded;
    expanded_net ← __init__ (Some expanded) None;
    expanded_flow ← edmonds_karp expanded_net (Z.of_nat super_source)
                      (Z.of_nat super_sink) maxiter;
    let base_flow := block n (Flow.flow_matrix expanded_flow) in
    Flow.__init__ base_flow sources sinks.

(** Lines 234-252 of [sufficient_flow]: the expansion with the synthetic
    nodes and the search on it. *)
Definition sufficient_search (self : t) (sources sinks : list (Z * Q))
    (maxiter : Z) : result Flow.t :=
  let n := n_nodes self in
  let super_source := n in
  let super_sink := S n in
  let expanded := zero_pad (n + 2) (adjacency_matrix self) in
  expanded ← attach_sources n super_source sources expanded;
  expanded ← attach_sinks n super_sink sinks expanded;
  expanded_net ← __init__ (Some expanded) None;
  edmonds_karp expanded_net (Z.of_nat super_source) (Z.of_nat super_sink)
    maxiter.

(** [sum(d.values())]. *)
Definition total (d : list (Z * Q)) : Q := foldl Qplus 0%Q (map snd d).

(** [Network.sufficient_flow]; a mapping node -> amount is the list of its
    items in insertion order. *)
Definition sufficient_flow (self : t) (sources sinks : list (Z * Q))
    (maxiter : Z) : result Flow.t :=
  if bool_decide (sources = []) || bool_decide (sinks = []) then
    Raise (TubePlanningError "Sources and sinks must be provided.")
  else if existsb (fun p => Qltb (snd p) 0%Q) sources
          || existsb (fun p => Qltb (snd p) 0%Q) sinks then
    Raise (TubePlanningError "Supplies and demands must be non-negative.")
  else
    let n := n_nodes self in
    let total_supply := total sources in
    let total_demand := total sinks in
    if Qltb (total_supply + Flow._EPS)%Q total_demand then
      Raise InsufficientSupply
    else
      expanded_flow ← sufficient_search self sources sinks maxiter;
      v ← Flow.value expanded_flow;
      if Qltb (v + Flow._EPS)%Q total_demand then Raise DemandNotSatisfied
      else
        let base_flow := block n (Flow.flow_matrix expanded_flow) in
        Flow.__init__ base_flow (map fst sources) (map fst sinks).

(** [Network.__add__]; [other] is a [Network] by its type. *)
Definition __add__ (self other : t) : result t :=
  let larger := if (n_nodes other <? n_nodes self)%nat then self else other in
  let smaller := if (n_nodes other <? n_nodes self)%nat then other else self in
  let smaller_expanded_matrix :=
    zero_pad (n_nodes larger) (adjacency_matrix smaller) in
  __init__ (Some (mat_add (adjacency_matrix larger) smaller_expanded_matrix))
    None.

(** [Network.__eq__]; [other] has an [adjacency_matrix] by its type. Two
    square arrays of different sizes broadcast only when one of them is
    [1 * 1]; otherwise [np.allclose] raises. *)
Definition __eq__ (self other : t) : result bool :=
  let a := adjacency_matrix self in
  let b := adjacency_matrix other in
  let stretch (k : nat) (m : matrix) := replicate k (replicate k (mget m 0 0)) in
  if bool_decide (length a = length b) then
    Ok (allclose default_rtol default_atol a b)
  else if bool_decide (length a = 1%nat) then
    Ok (allclose default_rtol default_atol (stretch (length b) a) b)
  else if bool_decide (length b = 1%nat) then
    Ok (allclose default_rtol default_atol a (stretch (length a) b))
  else Raise (ValueError "operands could not be broadcast together").

End Network.
Import Network.

(** ** The module-level function [edmonds_karp] of [network.py] *)

Definition ek_fn_iteration (G : Network.t) (s t : Z) (f : Flow.t)
  : result (bool * Flow.t) :=
  rg ← Network.__init__
         (Some (mat_sub (Network.adjacency_matrix G) (Flow.flow_matrix f)))
         None;
  pt ← Network.bfs rg s;
  pt_t ← py_index pt t;
  if pt_t <? 0 then Ok (true, f)
  else
    p ← Network.path_from_bfs pt t;
    caps ← mapM (fun e => mat_index (Network.adjacency_matrix rg) (fst e) (snd e))
                (path_edges p);
    a ← py_min caps;
    let sent := Flow.send_flow_along f p a in
    _ ← snd sent; Ok (false, fst sent).

(** The function raises [TubePlanningError()], without a message, when the
    budget is exhausted. *)
Fixpoint ek_fn_loop (mi : nat) (G : Network.t) (s t : Z) (f : Flow.t)
  : result Flow.t :=
  match mi with
  | O => Raise (TubePlanningError EmptyString)
  | S k =>
      ek_fn_iteration G s t f ≫= fun r : bool * Flow.t =>
      if fst r then Ok (snd r) else ek_fn_loop k G s t (snd r)
  end.

Definition edmonds_karp (G : Network.t) (s t : Z) (mi : Z) : result Flow.t :=
  f ← Flow.zero_flow (Network.n_nodes G) [s] [t];
  ek_fn_loop (Z.to_nat mi) G s t f.

(** ** The loop of [edmonds_karp] in double precision

    The statements of [flow.py] and [network.py] that [edmonds_karp] runs,
    once more, on IEEE 754 binary64 numbers with the operations of the
    machine: what the program computes where the entries are not whole
    numbers. The parts of the search that do not compute with the entries
    ([path_from_bfs], the inner loop of [bfs]) are those of the exact
    embedding. *)

Module Double.

Import PrimFloat.
#[local] Set Warnings "-inexact-float".

Abbreviation array2 := (list (list float)).

(** [np.zeros((k, k))]. *)
Definition zeros (k : nat) : array2 := replicate k (replicate k 0%float).

(** [matrix.shape[0] == matrix.shape[1]] for a two-dimensional array. *)
Definition is_square (m : array2) : bool :=
  forallb (fun row => Nat.eqb (length row) (length m)) m.

(** [a - b] entry-wise, for arrays of one shape. *)
Definition mat_sub (a b : array2) : array2 := zip_with (zip_with sub) a b.

(** [a.T] for a square array. *)
Definition transpose (a : array2) : array2 :=
  map (fun j => map (fun row => nth j row 0%float) a) (seq 0 (length a)).

Definition mat_neg (a : array2) : array2 := map (map opp) a.

(** [np.diag(a)]. *)
Definition diag (a : array2) : list float :=
  imap (fun i row => nth i row 0%float) a.

(** [np.fill_diagonal(a, 0.0)]. *)
Definition fill_diagonal (a : array2) : array2 :=
  imap (fun i row => <[i := 0%float]> row) a.

(** [a[i, j] += x] and [a[i, j] -= x] below a bounds check. *)
Definition madd (a : array2) (i j : nat) (x : float) : array2 :=
  alter (alter (fun y => (y + x)%float) j) i a.
Definition msub (a : array2) (i j : nat) (x : float) : array2 :=
  alter (alter (fun y => (y - x)%float) j) i a.

(** [m[i, j]]. *)
Definition mat_index (m : array2) (i j : Z) : result float :=
  row ← py_index m i; py_index row j.

(** [np.isclose(a, b, rtol, atol)] on finite numbers:
    [abs(a - b) <= atol + rtol * abs(b)]. *)
Definition isclose (rtol atol a b : float) : bool :=
  leb (abs (a - b)) (atol + rtol * abs b).

Definition allclose_vec (rtol atol : float) (a b : list float) : bool :=
  forallb (fun p => isclose rtol atol (fst p) (snd p)) (zip a b).

(** [np.allclose(a, b, rtol, atol)] on two arrays of one shape. *)
Definition allclose (rtol atol : float) (a b : array2) : bool :=
  forallb (fun p => allclose_vec rtol atol (fst p) (snd p)) (zip a b).

(** numpy's default [rtol]. *)
Definition default_rtol : float := 1e-5%float.

(** [a.sum()] of a one-dimensional array. numpy chooses the order of the
    additions; every sum taken in the runs below has at most two terms
    that are not zero, and is the same in any order. *)
Definition fsum (l : list float) : float := foldl add 0%float l.

(** [min(xs)]: the first smallest element; [ValueError] on an empty
    sequence. *)
Definition py_min (xs : list float) : result float :=
  match xs with
  | [] => Raise (ValueError "min() iterable argument is empty")
  | x :: xs' => Ok (foldl (fun m y => if ltb y m then y else m) x xs')
  end.

Module Flow.

Definition _EPS : float := 1e-9%float.

Record t : Type := mk {
  flow_matrix : array2;
  sources : list Z;
  sinks : list Z
}.

(** Column sums. *)
Definition flow_in (f : t) : list float :=
  map fsum (transpose (flow_matrix f)).

(** Row sums. *)
Definition flow_out (f : t) : list float := map fsum (flow_matrix f).

Definition net_flow (f : t) : list float :=
  zip_with sub (flow_in f) (flow_out f).

Definition _conserves_flow (f : t) : bool :=
  if negb (allclose default_rtol _EPS (flow_matrix f)
             (mat_neg (transpose (flow_matrix f)))) then false
  else if negb (forallb (fun d => isclose default_rtol _EPS d 0%float)
                  (diag (flow_matrix f))) then false
  else
    forallb (fun b => b)
      (imap (fun idx value =>
               if bool_decide (Z.of_nat idx ∈ sources f ++ sinks f) then true
               else isclose default_rtol _EPS value 0%float)
            (net_flow f)).

(** [Flow.__init__]. *)
Definition __init__ (m : array2) (srcs snks : list Z) : result t :=
  if negb (is_square m) then
    Raise (TubePlanningError "Flow matrix must be square.")
  else
    let n := Z.of_nat (length m) in
    let self := mk m (fromkeys srcs) (fromkeys snks) in
    if existsb (fun node => (node <? 0) || (n <=? node))
         (sources self ++ sinks self) then
      Raise (TubePlanningError "Source or sink index out of bounds.")
    else if negb (_conserves_flow self) then
      Raise (TubePlanningError "Flow does not conserve at intermediate nodes.")
    else Ok self.

Definition zero_flow (n_nodes : nat) (srcs snks : list Z) : result t :=
  __init__ (zeros n_nodes) srcs snks.

(** The loop of [send_flow_along] over the consecutive pairs of the path;
    the matrix returned is the one the object holds when the loop ends,
    normally or by the [raise]. *)
Fixpoint send_edges (m : array2) (edges : list (Z * Z)) (amount : float)
  : array2 * result unit :=
  match edges with
  | [] => (m, Ok tt)
  | (u, v) :: rest =>
      let n := Z.of_nat (length m) in
      if (u <? 0) || (v <? 0) || (n <=? u) || (n <=? v) then
        (m, Raise PathInvalidIndex)
      else
        let m1 := madd m (Z.to_nat u) (Z.to_nat v) amount in
        let m2 := msub m1 (Z.to_nat v) (Z.to_nat u) amount in
        send_edges m2 rest amount
  end.

(** [Flow.send_flow_along]: the flow after the call, and the outcome. *)
Definition send_flow_along (self : t) (path : list Z) (amount : float)
  : t * result unit :=
  if (length path <? 2)%nat then (self, Raise PathTooShort)
  else
    let '(m, r) := send_edges (flow_matrix self) (path_edges path) amount in
    (mk m (sources self) (sinks self), r).

End Flow.

Module Network.

Record t : Type := mk { adjacency_matrix : array2 }.

Definition n_nodes (self : t) : nat := length (adjacency_matrix self).

(** [Network(adj_mat=m)] for a two-dimensional array [m]: lines 96-105 of
    [Network.__init__]. *)
Definition __init__ (m : array2) : result t :=
  if negb (is_square m) then
    Raise (TubePlanningError "Adjacency matrix must be square.")
  else if existsb (existsb (fun x => ltb x 0%float)) m then
    Raise NegativeCapacity
  else Ok (mk (fill_diagonal m)).

(** The outer loop of [bfs], with the cursor at position [i] of the
    queue. *)
Fixpoint bfs_loop (fuel : nat) (adj : array2) (i : nat) (st : bfs_state)
  : result bfs_state :=
  match queue st !! i with
  | None => Ok st
  | Some current =>
      match fuel with
      | O => Diverge
      | S fuel' =>
          match adj !! current with
          | None => Raise (IndexError "index out of bounds")
          | Some row =>
              let neighbours := nonzero (map (fun x => ltb 0%float x) row) in
              st' ← bfs_neighbours current st neighbours;
              bfs_loop fuel' adj (S i) st'
          end
      end
  end.

(** [Network.bfs]. *)
Definition bfs (self : t) (root : Z) : result (list Z) :=
  let n := n_nodes self in
  if (root <? 0) || (Z.of_nat n <=? root) then
    Raise (TubePlanningError "Root node out of bounds.")
  else
    let r := Z.to_nat root in
    let st := mk_bfs (<[r := true]> (replicate n false))
                     (<[r := root]> (replicate n (-1)))
                     [r] in
    st' ← bfs_loop n (adjacency_matrix self) 0 st;
    Ok (path_trace st').

(** One pass of the loop of [edmonds_karp]: [(true, f)] when the pass
    leaves the loop by [break], [(false, f')] when it augments. *)
Definition ek_iteration (self : t) (source sink : Z) (f : Flow.t)
  : result (bool * Flow.t) :=
  residual ← __init__ (mat_sub (adjacency_matrix self) (Flow.flow_matrix f));
  trace ← bfs residual source;
  ts ← py_index trace sink;
  if ts <? 0 then Ok (true, f)
  else
    path ← path_from_bfs trace sink;
    caps ← mapM (fun e => mat_index (adjacency_matrix residual) (fst e) (snd e))
                (path_edges path);
    augment ← py_min caps;
    let sent := Flow.send_flow_along f path augment in
    _ ← snd sent; Ok (false, fst sent).

(** The loop [for _ in range(maxiter)] followed by the test of
    [converged]. *)
Fixpoint ek_loop (maxiter : nat) (self : t) (source sink : Z) (f : Flow.t)
  : result Flow.t :=
  match maxiter with
  | O => Raise ConvergenceFailure
  | S k =>
      ek_iteration self source sink f ≫= fun r : bool * Flow.t =>
      if fst r then Ok (snd r) else ek_loop k self source sink (snd r)
  end.

(** [Network.edmonds_karp]. *)
Definition edmonds_karp (self : t) (source sink : Z) (maxiter : Z)
  : result Flow.t :=
  if source =? sink then
    Raise (TubePlanningError "Source and sink must differ.")
  else
    let n := Z.of_nat (n_nodes self) in
    if (source <? 0) || (sink <? 0) || (n <=? source) || (n <=? sink) then
      Raise (TubePlanningError "Source or sink out of bounds.")
    else
      f ← Flow.zero_flow (n_nodes self) [source] [sink];
      ek_loop (Z.to_nat maxiter) self source sink f.

End Network.

(** [x < 0.0]. *)
Definition negative (x : float) : bool := ltb x 0%float.

(** [m[i][j]] for positions inside the array, [0.0] outside. *)
Definition entry (m : array2) (i j : nat) : float :=
  nth j (nth i m []) 0%float.

(** A network of four nodes; its capacities 0.3 and 0.9 are not binary
    fractions. *)
Definition rounded : array2 :=
  [[0; 0.3; 5; 0]; [0.3; 0; 5; 0.9]; [5; 5; 0; 0]; [0; 0.9; 0; 0]]%float.

(** The matrix [lopsided] of the examples, whose entries are whole
    numbers. *)
Definition lopsided : array2 := [[0; 1000000]; [-1000001; 0]]%float.

End Double.

(** ** [networks/proposal.py] *)

#[global] Instance string_eq_dec : EqDecision string := string_dec.

Module Proposal.

(** A [Proposal] is a [Network] with a name. *)
Record t : Type := mk { name : string; network : Network.t }.

(** [names_in_use], on the class attribute [_all_proposals]. *)
Definition names_in_use (_all_proposals : list t) : list string :=
  map name _all_proposals.

(** [Proposal.__init__]: the class attribute [_all_proposals] after the
    call, and the outcome. *)
Definition __init__ (_all_proposals : list t) (name : string)
    (adj_mat : option matrix) (edge_table : option (list (Z * Z * Q)))
  : list t * result t :=
  if bool_decide (name ∈ names_in_use _all_proposals) then
    (_all_proposals,
     Raise (TubePlanningError
              (String.append "Proposal name '"
                 (String.append name "' already in use."))))
  else
    match Network.__init__ adj_mat edge_table with
    | Ok net => (_all_proposals ++ [mk name net], Ok (mk name net))
    | Raise e => (_all_proposals, Raise e)
    | Diverge => (_all_proposals, Diverge)
    end.

End Proposal.

(** ** [criteria/base.py] *)

Module Criteria.

(** [costing_information]: a [dict], or [None]. *)
Abbreviation costing := (option (list (string * Q))).

(** What the class [Criteria] shares with its subclasses and what it asks
    of them: the attribute [weight] and the method [_evaluate]. *)
Class Criterion (C : Type) : Type := {
  weight : C -> Q;
  _evaluate : C -> Network.t -> Network.t -> costing -> result Q
}.

(** [Criteria.__post_init__], on the weight. *)
Definition __post_init__ (weight : Q) : result unit :=
  if Qle_bool weight 0%Q then
    Raise (TubePlanningError "Criteria.weight must be positive.")
  else Ok tt.

(** [Criteria.evaluate]. *)
Definition evaluate {C : Type} `{Criterion C} (self : C)
    (proposed current : Network.t) (costing_information : costing)
  : result Q :=
  v ← _evaluate self proposed current costing_information;
  Ok (weight self * v)%Q.

(** An instance of some subclass of [Criteria]. *)
Record any : Type := pack {
  class : Type;
  class_criterion : Criterion class;
  self : class
}.

Definition evaluate_any (crit : any) (proposed current : Network.t)
    (costing_information : costing) : result Q :=
  @evaluate (class crit) (class_criterion crit) (self crit) proposed current
    costing_information.

End Criteria.

(** ** [criteria/performance.py] *)

(** [try: body except TubePlanningError: handler]. *)
Definition except_planning_error {A : Type} (body handler : result A)
  : result A :=
  match body with
  | Raise (TubePlanningError _) => handler
  | _ => body
  end.

(** [d[k] = v] on the items of a [dict] in insertion order. *)
Fixpoint dict_set (d : list (Z * Q)) (k : Z) (v : Q) : list (Z * Q) :=
  match d with
  | [] => [(k, v)]
  | (k', v') :: d' =>
      if bool_decide (k' = k) then (k', v) :: d'
      else (k', v') :: dict_set d' k v
  end.

(** [dict(zip(keys, values, strict=True))]. *)
Definition dict_zip (keys : list Z) (values : list Q)
  : result (list (Z * Q)) :=
  if (length values <? length keys)%nat then
    Raise (ValueError "zip() argument 2 is shorter than argument 1")
  else if (length keys <? length values)%nat then
    Raise (ValueError "zip() argument 2 is longer than argument 1")
  else Ok (foldl (fun d p => dict_set d (fst p) (snd p)) [] (zip keys values)).

Module PerformanceCriteria.

Record t : Type := mk {
  description : string;
  weight : Q;
  sources : list Z;
  sinks : list Z;
  supplies : option (list Q);
  demands : option (list Q)
}.

Definition is_sufficient_problem (self : t) : bool :=
  match supplies self, demands self with
  | Some _, Some _ => true
  | _, _ => false
  end.

(** [PerformanceCriteria.__init__]. *)
Definition __init__ (sources sinks : list Z) (supplies demands : option (list Q))
    (description : string) (weight : Q) : result t :=
  _ ← Criteria.__post_init__ weight;
  let self := mk description weight sources sinks supplies demands in
  if bool_decide (sources = []) || bool_decide (sinks = []) then
    Raise (TubePlanningError "At least one source and one sink required.")
  else
    match supplies, demands with
    | Some sup, Some dem =>
        if negb (length sources =? length sup)%nat
           || negb (length sinks =? length dem)%nat then
          Raise (TubePlanningError
                   "Supplies/demands must align with sources/sinks.")
        else if existsb (fun v => Qltb v 0%Q) (sup ++ dem) then
          Raise (TubePlanningError "Supplies and demands must be non-negative.")
        else Ok self
    | _, _ => Ok self
    end.

(** [PerformanceCriteria._evaluate]; the sum [current + proposed] is taken
    outside of the [try]. *)
Definition _evaluate (self : t) (proposed current : Network.t)
    (costing_information : Criteria.costing) : result Q :=
  combined ← Network.__add__ current proposed;
  except_planning_error
    (match supplies self, demands self with
     | Some sup, Some dem =>
         source_caps ← dict_zip (sources self) sup;
         sink_caps ← dict_zip (sinks self) dem;
         flow ← Network.sufficient_flow combined source_caps sink_caps 1000;
         v ← Flow.value flow;
         Ok (if Qle_bool (foldl Qplus 0%Q dem) v then 1%Q else (-1)%Q)
     | _, _ =>
         combined_flow ← Network.maximum_flow combined (sources self)
                           (sinks self) 1000;
         current_flow ← Network.maximum_flow current (sources self)
                          (sinks self) 1000;
         v1 ← Flow.value combined_flow;
         v2 ← Flow.value current_flow;
         Ok (v1 - v2)%Q
     end)
    (Ok (-1)%Q).

#[global] Instance criterion : Criteria.Criterion t := {|
  Criteria.weight := weight;
  Criteria._evaluate := _evaluate
|}.

End PerformanceCriteria.

(** ** [criteria/group.py] *)

Module CriteriaGroup.

Record t : Type := mk {
  desirable : list Criteria.any;
  essential : list Criteria.any
}.

(** The loop over the essential criteria, from the values of [score] and
    [failed] on entry. *)
Fixpoint essential_loop (crits : list Criteria.any)
    (proposed current : Network.t) (costing_information : Criteria.costing)
    (score : Q) (failed : list Criteria.any)
  : result (Q * list Criteria.any) :=
  match crits with
  | [] => Ok (score, failed)
  | crit :: rest =>
      val ← Criteria.evaluate_any crit proposed current costing_information;
      let failed := if Qle_bool val 0%Q then failed ++ [crit] else failed in
      essential_loop rest proposed current costing_information
        (score + val)%Q failed
  end.

(** The loop over the desirable criteria. *)
Fixpoint desirable_loop (crits : list Criteria.any)
    (proposed current : Network.t) (costing_information : Criteria.costing)
    (score : Q) : result Q :=
  match crits with
  | [] => Ok score
  | crit :: rest =>
      val ← Criteria.evaluate_any crit proposed current costing_information;
      desirable_loop rest proposed current costing_information (score + val)%Q
  end.

(** [CriteriaGroup.evaluate]. *)
Definition evaluate (self : t) (proposed current : Network.t)
    (costing_information : Criteria.costing)
  : result (Q * list Criteria.any) :=
  r ← essential_loop (essential self) proposed current costing_information
        0%Q [];
  score ← desirable_loop (desirable self) proposed current
            costing_information (fst r);
  Ok (score, snd r).

End CriteriaGroup.

(** ** [evaluation.py] *)

(** [evaluate_proposal]; a [Proposal] is used as the [Network] it is. *)
Definition evaluate_proposal (proposal : Proposal.t) (current : Network.t)
    (criteria : CriteriaGroup.t) (costing_information : Criteria.costing)
  : result (Q * list Criteria.any) :=
  CriteriaGroup.evaluate criteria (Proposal.network proposal) current
    costing_information.

Abbreviation ranked := (Proposal.t * Q * list Criteria.any)%type.

(** [list.sort(key=lambda t: t[1], reverse=True)]: a stable sort, entries
    with equal scores keep their order. [rank_insert] puts an entry behind
    the entries of the sorted list whose score is not smaller. *)
Fixpoint rank_insert (x : ranked) (sorted : list ranked) : list ranked :=
  match sorted with
  | [] => [x]
  | y :: rest =>
      if Qle_bool (snd (fst x)) (snd (fst y)) then y :: rank_insert x rest
      else x :: y :: rest
  end.
Definition sort_by_score (results : list ranked) : list ranked :=
  foldl (fun sorted x => rank_insert x sorted) [] results.

(** The loop of [evaluate_proposals]. *)
Fixpoint evaluate_each (proposals : list Proposal.t) (current : Network.t)
    (criteria : CriteriaGroup.t) (costing_information : Criteria.costing)
    (results : list ranked) : result (list ranked) :=
  match proposals with
  | [] => Ok results
  | p :: rest =>
      r ← evaluate_proposal p current criteria costing_information;
      evaluate_each rest current criteria costing_information
        (results ++ [(p, fst r, snd r)])
  end.

Definition evaluate_proposals (proposals : list Proposal.t)
    (current : Network.t) (criteria : CriteriaGroup.t)
    (costing_information : Criteria.costing) : result (list ranked) :=
  results ← evaluate_each proposals current criteria costing_information [];
  Ok (sort_by_score results).

(** * Specification *)

(** ** Matrices *)

(** [m] is an [n * n] array. *)
Definition square (n : nat) (m : matrix) : Prop :=
  length m = n /\ Forall (fun row => length row = n) m.

(** No entry of [m] is negative. *)
Definition nonneg (n : nat) (m : matrix) : Prop :=
  forall i j, (i < n)%nat -> (j < n)%nat -> (0 <= mget m i j)%Q.


(** [F[i][j] == -F[j][i]], exactly. *)
Definition skew (n : nat) (m : matrix) : Prop :=
  forall i j, (i < n)%nat -> (j < n)%nat -> (mget m i j == - mget m j i)%Q.

(** [F[i][j] <= A[i][j]] entry-wise. *)
Definition within (n : nat) (A m : matrix) : Prop :=
  forall i j, (i < n)%nat -> (j < n)%nat -> (mget m i j <= mget A i j)%Q.

(** Sum of column [j] and of row [i] of a matrix. *)
Definition col_sum (m : matrix) (j : nat) : Q :=
  Qsum (map (fun row => nth j row 0%Q) m).
Definition row_sum (m : matrix) (i : nat) : Q :=
  Qsum (nth i m []).

(** A pair of node positions as a pair of Python [int]s. *)
Definition zpair (e : nat * nat) : Z * Z := (Z.of_nat (fst e), Z.of_nat (snd e)).

(** ** Networks and flows *)

(** A value of the class [Network]: what the constructor returns. *)
Definition is_network (N : Network.t) : Prop :=
  exists adj_mat edge_table, Network.__init__ adj_mat edge_table = Ok N.

(** The three checks of [Flow._conserves_flow], entry by entry. *)
Definition skew_close (m : matrix) : Prop :=
  forall i j, (i < length m)%nat -> (j < length m)%nat ->
    (Qabs (mget m i j + mget m j i) <=
       Flow._EPS + default_rtol * Qabs (mget m j i))%Q.
Definition diag_close (m : matrix) : Prop :=
  forall i, (i < length m)%nat -> (Qabs (mget m i i) <= Flow._EPS)%Q.
Definition conserves (m : matrix) (terminals : list Z) : Prop :=
  forall i, (i < length m)%nat -> Z.of_nat i ∉ terminals ->
    (Qabs (col_sum m i - row_sum m i) <= Flow._EPS)%Q.

(** Every node of the list is a valid index of an [n]-node matrix. *)
Definition in_bounds (n : nat) (nodes : list Z) : Prop :=
  forall x, x ∈ nodes -> 0 <= x < Z.of_nat n.

(** Every amount of a supply or demand map is non-negative. *)
Definition amounts_nonneg (d : list (Z * Q)) : Prop :=
  forall p, p ∈ d -> (0 <= snd p)%Q.

(** ** Breadth-first search *)

(** An edge the search follows: strictly positive capacity. *)
Definition edge (adj : matrix) (u v : nat) : Prop := (0 < mget adj u v)%Q.

(** [x] can be reached from [root] along edges of positive capacity. *)
Inductive reachable (adj : matrix) (n root : nat) : nat -> Prop :=
  | reach_root : reachable adj n root root
  | reach_step u v :
      reachable adj n root u -> edge adj u v -> (v < n)%nat ->
      reachable adj n root v.

(** [q] is an order in which a search from [root] can have put the nodes in
    its queue, and [tr] records it: the root is its own predecessor, and
    every later node has as predecessor a node queued before it, from which
    an edge leads to it. *)
Inductive bfs_order (adj : matrix) (root : nat) (tr : list Z)
  : list nat -> Prop :=
  | bo_root :
      tr !! root = Some (Z.of_nat root) -> bfs_order adj root tr [root]
  | bo_snoc q x p :
      bfs_order adj root tr q -> x ∉ q -> p ∈ q ->
      tr !! x = Some (Z.of_nat p) -> edge adj p x ->
      bfs_order adj root tr (q ++ [x]).

(** The number of nodes not yet visited. *)
Fixpoint unvisited (v : list bool) : nat :=
  match v with
  | [] => 0
  | b :: v' => (if b then 0 else 1) + unvisited v'
  end.

(** The quantity that one pass of the outer loop of [bfs] decreases by one,
    counted from the cursor. *)
Definition measure (st : bfs_state) : nat :=
  (length (queue st) + unvisited (visited st))%nat.

(** The invariant of the two loops of [bfs]. *)
Record bfs_inv (adj : matrix) (n root : nat) (st : bfs_state) : Prop := {
  inv_visited_len : length (visited st) = n;
  inv_trace_len : length (path_trace st) = n;
  inv_visited : forall x, visited st !! x = Some true <-> x ∈ queue st;
  inv_unreached :
    forall x, (x < n)%nat -> x ∉ queue st -> path_trace st !! x = Some (-1);
  inv_order : bfs_order adj root (path_trace st) (queue st)
}.

(** The neighbours of the first [i] nodes of the queue are in the queue. *)
Definition closed_upto (adj : matrix) (n i : nat) (q : list nat) : Prop :=
  forall k u v, (k < i)%nat -> q !! k = Some u -> edge adj u v -> (v < n)%nat ->
    v ∈ q.

(** What [bfs] returns from [root]: the trace [tr] and, as a ghost, the
    order [q] in which the nodes entered the queue. *)
Record bfs_post (adj : matrix) (n root : nat) (tr : list Z) (q : list nat)
  : Prop := {
  post_len : length tr = n;
  post_order : bfs_order adj root tr q;
  post_unreached : forall x, (x < n)%nat -> x ∉ q -> tr !! x = Some (-1);
  post_closed : forall u v, u ∈ q -> edge adj u v -> (v < n)%nat -> v ∈ q;
  post_queue_len : (length q <= n)%nat
}.

(** A path of the BFS tree from [root] to a node, root first. *)
Inductive tree_path (adj : matrix) (root : nat) : nat -> list nat -> Prop :=
  | tp_root : tree_path adj root root [root]
  | tp_snoc u v p :
      tree_path adj root u p -> v ∉ p -> edge adj u v ->
      tree_path adj root v (p ++ [v]).

(** ** Sums, cuts and feasible flows *)

(** The sum of [h x] over the nodes [x] of a list. *)
Definition sum_over (l : list nat) (h : nat -> Q) : Q := Qsum (map h l).

(** The edges [es] lead from [x] to [y], each starting where the one before
    it ended. *)
Fixpoint chain (es : list (nat * nat)) (x y : nat) : Prop :=
  match es with
  | [] => x = y
  | (u, v) :: es' => u = x /\ chain es' v y
  end.

(** [a] at node [x], [0] elsewhere. *)
Definition at_node (x : nat) (a : Q) (i : nat) : Q :=
  if decide (i = x) then a else 0%Q.

(** A flow matrix [g] that is feasible on the capacities [A] between the
    terminals [s] and [t]: square, skew-symmetric, nowhere above the
    capacity, and with zero net outflow at every other node. *)
Definition feasible (n : nat) (A : matrix) (s t : nat) (g : matrix) : Prop :=
  square n g /\ skew n g /\ within n A g /\
  forall i, (i < n)%nat -> i <> s -> i <> t -> (row_sum g i == 0)%Q.

(** The nodes below [n] that are in [q], and those that are not. *)
Definition inside (n : nat) (q : list nat) : list nat :=
  List.filter (fun v => bool_decide (v ∈ q)) (seq 0 n).
Definition outside (n : nat) (q : list nat) : list nat :=
  List.filter (fun v => negb (bool_decide (v ∈ q))) (seq 0 n).

(** The flow of [g] across the cut between [q] and the other nodes. *)
Definition across (n : nat) (q : list nat) (g : matrix) : Q :=
  sum_over (inside n q) (fun u => sum_over (outside n q) (fun v => mget g u v)).

(** ** Edmonds-Karp *)

(** The capacity matrix of the residual network of [f] in [N]. *)
Definition residual (N : Network.t) (f : Flow.t) : matrix :=
  fill_diagonal (mat_sub (adjacency_matrix N) (Flow.flow_matrix f)).

(** The invariant of the loop of [edmonds_karp]. *)
Record ek_inv (N : Network.t) (source sink : Z) (f : Flow.t) : Prop := {
  ek_square : square (n_nodes N) (Flow.flow_matrix f);
  ek_within : within (n_nodes N) (adjacency_matrix N) (Flow.flow_matrix f);
  ek_skew : skew (n_nodes N) (Flow.flow_matrix f);
  ek_conserved :
    forall i, (i < n_nodes N)%nat ->
      Z.of_nat i <> source -> Z.of_nat i <> sink ->
      (row_sum (Flow.flow_matrix f) i == 0)%Q;
  ek_sources : Flow.sources f = [source];
  ek_sinks : Flow.sinks f = [sink]
}.

(** [k] consecutive passes of the loop of [edmonds_karp] that found the
    sink and augmented, from flow [f] to flow [f']. *)
Inductive augments (N : Network.t) (source sink : Z)
  : nat -> Flow.t -> Flow.t -> Prop :=
  | aug_O f : augments N source sink 0 f f
  | aug_S k f f1 f2 :
      ek_iteration N source sink f = Ok (false, f1) ->
      augments N source sink k f1 f2 ->
      augments N source sink (S k) f f2.


(** [f] is a maximum flow of [N] from [source] to [sink]: it is feasible,
    and no feasible flow matrix has a larger net outflow at the source. *)
Definition is_maximum_flow (N : Network.t) (source sink : Z) (f : Flow.t)
  : Prop :=
  let n := n_nodes N in
  let A := adjacency_matrix N in
  let s := Z.to_nat source in
  let t := Z.to_nat sink in
  feasible n A s t (Flow.flow_matrix f) /\
  (exists v, Flow.value f = Ok v /\ (v == row_sum (Flow.flow_matrix f) s)%Q) /\
  forall g, feasible n A s t g ->
    (row_sum g s <= row_sum (Flow.flow_matrix f) s)%Q.

(** Two exceptions of the same class ([TubePlanningError]s may differ in
    their message). *)
Definition same_class (e1 e2 : exn) : Prop :=
  match e1, e2 with
  | TubePlanningError _, TubePlanningError _ => True
  | _, _ => e1 = e2
  end.

(** Two calls with the same outcome: the same flow returned, or an
    exception of the same class raised. *)
Definition same_outcome (r1 r2 : result Flow.t) : Prop :=
  match r1, r2 with
  | Ok f1, Ok f2 =>
      Flow.flow_matrix f1 = Flow.flow_matrix f2 /\
      Flow.sources f1 = Flow.sources f2 /\ Flow.sinks f1 = Flow.sinks f2
  | Raise e1, Raise e2 => same_class e1 e2
  | Diverge, Diverge => True
  | _, _ => False
  end.

(** ** Data on which double precision is exact

    The embedding computes with exact rationals, the program in double
    precision. On whole numbers the two agree: sums, differences and minima
    of whole numbers of magnitude up to [2^53] are whole numbers that the
    program computes exactly, and comparing one of them with another one
    moved by the tolerance [1e-9] gives the answer of the exact comparison.
    A run of the flow engine on capacities and amounts that are whole
    numbers with a total of at most [2^52] meets no other number. The
    statements whose truth depends on exact arithmetic are made for such
    data. *)

Definition whole (x : Q) : Prop := exists k : Z, (x == inject_Z k)%Q.

Definition exact_range : Q := inject_Z (2 ^ 52).

(** Whole capacities, of total [np.sum(adjacency_matrix)] in range. *)
Definition whole_capacities (N : Network.t) : Prop :=
  (forall i j, whole (mget (adjacency_matrix N) i j)) /\
  (Qsum (map Qsum (adjacency_matrix N)) <= exact_range)%Q.

(** Whole supplies or demands, of total in range. *)
Definition whole_amounts (d : list (Z * Q)) : Prop :=
  (forall p, p ∈ d -> whole (snd p)) /\ (total d <= exact_range)%Q.

(** ** Inputs of the examples *)

(** The two-node network with one edge of capacity 3. *)
Definition net3 : matrix := [[0; 3]; [3; 0]]%Q.

(** A matrix that passes [np.allclose(F, -F.T, atol=1e-9)] through the
    relative tolerance although [F[0][1] + F[1][0] = -1]. *)
Definition lopsided : matrix := [[0; 1000000]; [-1000001; 0]]%Q.


(** The two-node network with one edge of capacity 1, and a flow of 2
    units on that edge. *)
Definition net1 : matrix := [[0; 1]; [1; 0]]%Q.
Definition overfull : Flow.t := Flow.mk [[0; 2]; [-2; 0]]%Q [0] [1].

(** ** Notions used by the further properties *)

(** How many times the consecutive pairs [es] of a path go from [u] to
    [v]. *)
Fixpoint crossings (es : list (Z * Z)) (u v : Z) : Z :=
  match es with
  | [] => 0
  | e :: es' => (if bool_decide (e = (u, v)) then 1 else 0) + crossings es' u v
  end.

(** Every node of the path is a valid index of an [n]-node matrix. *)
Definition edges_in_bounds (n : nat) (es : list (Z * Z)) : Prop :=
  forall u v, (u, v) ∈ es -> 0 <= u < Z.of_nat n /\ 0 <= v < Z.of_nat n.

(** A nested sequence that [np.asarray] turns into a two-dimensional
    array: there is a row, and all rows have one length. *)
Definition rectangular (m : matrix) : Prop :=
  m <> [] /\ exists c, Forall (fun row => length row = c) m.

(** [A[i][j] = A[j][i]], exactly. *)
Definition symmetric_eq (n : nat) (m : matrix) : Prop :=
  forall i j, (i < n)%nat -> (j < n)%nat -> mget m i j = mget m j i.

(** The sum of the weights of the rows of an edge table that join [i] and
    [j], in either orientation. *)
Definition joins (e : Z * Z * Q) (i j : Z) : bool :=
  bool_decide ((e.1.1 = i /\ e.1.2 = j) \/ (e.1.1 = j /\ e.1.2 = i)).
Definition weight_between (edges : list (Z * Z * Q)) (i j : Z) : Q :=
  Qsum (map (fun e => if joins e i j then e.2 else 0%Q) edges).

(** Weights on which the additions of [_build_adj_from_edges] are exact in
    double precision: whole numbers, of absolute values that add up to at
    most [2^52]. *)
Definition whole_weights (edges : list (Z * Z * Q)) : Prop :=
  (forall e, e ∈ edges -> whole e.2) /\
  (Qsum (map (fun e => Qabs e.2) edges) <= exact_range)%Q.

(** Two networks that differ by one part in a million. *)
Definition unit_link : matrix := [[0; 1]; [1; 0]]%Q.
Definition near_unit_link : matrix :=
  [[0; 1000001 # 1000000]; [1000001 # 1000000; 0]]%Q.

(** An entry of the expanded matrix that the loops of the reductions may
    write for the terminals [items] and the synthetic node [super]. *)
Definition attaches (super i j : nat) (p : Z * Q) : Prop :=
  (i = super /\ j = Z.to_nat p.1) \/ (j = super /\ i = Z.to_nat p.1).
Definition attached (super : nat) (items : list (Z * Q)) (i j : nat) : Prop :=
  Exists (attaches super i j) items.

(** The terminals are valid node indices, with non-negative capacities. *)
Definition valid_items (n : nat) (items : list (Z * Q)) : Prop :=
  forall p, p ∈ items -> 0 <= p.1 < Z.of_nat n /\ (0 <= p.2)%Q.

(** What the reductions' expanded Network [E] has in its capacity matrix. *)
Definition expands (N : Network.t) (srcs snks : list (Z * Q)) (E : Network.t)
  : Prop :=
  let n := n_nodes N in
  let A := adjacency_matrix N in
  is_network E /\ n_nodes E = (n + 2)%nat /\
  (forall i j, ~ attached n srcs i j -> ~ attached (S n) snks i j ->
     mget (adjacency_matrix E) i j = mget A i j) /\
  (forall i j, attached n srcs i j -> ~ attached (S n) snks i j ->
     exists p, p ∈ srcs /\ attaches n i j p /\
       mget (adjacency_matrix E) i j = p.2) /\
  (forall i j, attached (S n) snks i j ->
     exists p, p ∈ snks /\ attaches (S n) i j p /\
       mget (adjacency_matrix E) i j = p.2).

(** [maximum_flow] behind its two guards: the search of [sufficient_flow]
    with the total capacity on every synthetic edge, then the Flow on the
    original nodes. *)
Definition total_capacity (N : Network.t) : Q :=
  let total := Qsum (map Qsum (adjacency_matrix N)) in
  if Qle_bool total 0 then 1%Q else total.

(** A flow matrix [g] that is feasible on the capacities [A] between the
    sources [S] and the sinks [T]: square, skew-symmetric, nowhere above
    the capacity, and with zero net outflow at every node that is not a
    terminal. *)
Definition multi_feasible (n : nat) (A : matrix) (S T : list Z) (g : matrix)
  : Prop :=
  square n g /\ skew n g /\ within n A g /\
  forall i, (i < n)%nat -> Z.of_nat i ∉ S ++ T -> (row_sum g i == 0)%Q.

(** The total net outflow of the nodes [S]. *)
Definition outflow (g : matrix) (S : list Z) : Q :=
  Qsum (map (fun s => row_sum g (Z.to_nat s)) S).

(** The [k * k] matrix with entries [h i j]. *)
Definition tabulate (k : nat) (h : nat -> nat -> Q) : matrix :=
  map (fun i => map (fun j => h i j) (seq 0 k)) (seq 0 k).

(** The flow [g] on [n] nodes, carried to the expanded network: the
    super-source [n] feeds every source with its net outflow, and every
    sink hands its net inflow to the super-sink [n + 1]. *)
Definition lift (n : nat) (S T : list Z) (g : matrix) : matrix :=
  tabulate (n + 2) (fun i j =>
    if bool_decide ((i < n)%nat /\ (j < n)%nat) then mget g i j
    else if bool_decide (i = n /\ Z.of_nat j ∈ S) then row_sum g j
    else if bool_decide (j = n /\ Z.of_nat i ∈ S) then (- row_sum g i)%Q
    else if bool_decide (i = Datatypes.S n /\ Z.of_nat j ∈ T) then row_sum g j
    else if bool_decide (j = Datatypes.S n /\ Z.of_nat i ∈ T) then (- row_sum g i)%Q
    else 0%Q).

(** No flow enters the node [s] and none leaves the node [t]. *)
Definition one_way_terminals (n s t : nat) (F : matrix) : Prop :=
  (forall x, (x < n)%nat -> (0 <= mget F s x)%Q) /\
  (forall x, (x < n)%nat -> (0 <= mget F x t)%Q).

(** The values that the class attribute [Proposal._all_proposals] can take:
    the empty list of a fresh interpreter, and what a call of the
    constructor leaves behind, whether the call returns or raises. *)
Inductive registry : list Proposal.t -> Prop :=
  | registry_empty : registry []
  | registry_init reg name adj_mat edge_table :
      registry reg ->
      registry (fst (Proposal.__init__ reg name adj_mat edge_table)).

(** The conditions that [PerformanceCriteria.__init__] checks. *)
Definition well_formed (c : PerformanceCriteria.t) : Prop :=
  (0 < PerformanceCriteria.weight c)%Q /\
  PerformanceCriteria.sources c <> [] /\ PerformanceCriteria.sinks c <> [] /\
  forall sup dem,
    PerformanceCriteria.supplies c = Some sup ->
    PerformanceCriteria.demands c = Some dem ->
    length (PerformanceCriteria.sources c) = length sup /\
    length (PerformanceCriteria.sinks c) = length dem /\
    (forall v, v ∈ sup ++ dem -> (0 <= v)%Q).

(** The criterion [crit] evaluates to [v]. *)
Definition evaluates (proposed current : Network.t) (k : Criteria.costing)
    (crit : Criteria.any) (v : Q) : Prop :=
  Criteria.evaluate_any crit proposed current k = Ok v.

(** The criteria whose value is not positive, in the order of the list. *)
Definition failing (crits : list Criteria.any) (vals : list Q)
  : list Criteria.any :=
  map fst (List.filter (fun cv => Qle_bool (snd cv) 0%Q) (zip crits vals)).

(** The score of an entry of the ranking. *)
Definition score_of (r : ranked) : Q := snd (fst r).

(** The entry [r] is the evaluation of the proposal [p]. *)
Definition scored (current : Network.t) (criteria : CriteriaGroup.t)
    (k : Criteria.costing) (p : Proposal.t) (r : ranked) : Prop :=
  fst (fst r) = p /\
  evaluate_proposal p current criteria k = Ok (score_of r, snd r).

(** From the best score to the worst. *)
Definition descending (l : list ranked) : Prop :=
  forall i j a b, (i < j)%nat -> l !! i = Some a -> l !! j = Some b ->
    (score_of b <= score_of a)%Q.

(** The entries of the list whose score equals [q], in order. *)
Definition with_score (q : Q) (l : list ranked) : list ranked :=
  List.filter (fun r => Qeq_bool (score_of r) q) l.

(** The call raised a [TubePlanningError]. *)
Definition planning_error {A : Type} (r : result A) : Prop :=
  exists msg, r = Raise (TubePlanningError msg).

(** The call returned, or raised a [TubePlanningError]. *)
Definition returns_or_planning_error {A : Type} (r : result A) : Prop :=
  (exists a, r = Ok a) \/ planning_error r.

(** Two plans whose sum has whole capacities that add up to at most
    [2^52]. *)
Definition whole_plans (current proposed : Network.t) : Prop :=
  whole_capacities current /\ whole_capacities proposed /\
  (Qsum (map Qsum (adjacency_matrix current)) +
   Qsum (map Qsum (adjacency_matrix proposed)) <= exact_range)%Q.

(** A [PerformanceCriteria] as a member of a [CriteriaGroup]. *)
Definition performance (c : PerformanceCriteria.t) : Criteria.any :=
  Criteria.pack PerformanceCriteria.t PerformanceCriteria.criterion c.

(** * Properties of the embedding *)

(** ** Subscripts and matrices *)

Lemma is_square_spec m : is_square m = true <-> square (length m) m.
Proof.
  unfold is_square, square. rewrite forallb_forall, Forall_forall.
  split.
  - intros H. split; [done|]. intros row Hr. apply Nat.eqb_eq, H. by apply list_elem_of_In.
  - intros [_ H] row Hr. apply Nat.eqb_eq, H. by apply list_elem_of_In.
Qed.

Lemma py_index_nat {A} (l : list A) (i : nat) x :
  l !! i = Some x -> py_index l (Z.of_nat i) = Ok x.
Proof.
  intros H. pose proof (lookup_lt_Some _ _ _ H) as Hlt.
  unfold py_index.
  destruct (Z.ltb_spec (Z.of_nat i) 0); [lia|].
  destruct (Z.ltb_spec (Z.of_nat i) 0); [lia|].
  destruct (Z.leb_spec (Z.of_nat (length l)) (Z.of_nat i)); [lia|].
  simpl. rewrite Nat2Z.id. by rewrite H.
Qed.

Lemma square_lookup n m i :
  square n m -> (i < n)%nat -> exists row, m !! i = Some row /\ length row = n.
Proof.
  intros [Hl Hf] Hi.
  destruct (lookup_lt_is_Some_2 m i) as [row Hrow]; [lia|].
  exists row. split; [done|].
  rewrite Forall_forall in Hf. apply Hf. eapply list_elem_of_lookup_2; eauto.
Qed.

Lemma square_mget n m i j :
  square n m -> (i < n)%nat -> (j < n)%nat ->
  exists row, m !! i = Some row /\ row !! j = Some (mget m i j).
Proof.
  intros Hs Hi Hj. destruct (square_lookup n m i Hs Hi) as (row & Hrow & Hlen).
  exists row. split; [done|]. unfold mget. rewrite Hrow.
  destruct (lookup_lt_is_Some_2 row j) as [x Hx]; [lia|]. by rewrite Hx.
Qed.

Lemma mat_index_nat n m i j :
  square n m -> (i < n)%nat -> (j < n)%nat ->
  mat_index m (Z.of_nat i) (Z.of_nat j) = Ok (mget m i j).
Proof.
  intros Hs Hi Hj. destruct (square_mget n m i j Hs Hi Hj) as (row & Hrow & Hx).
  unfold mat_index. rewrite (py_index_nat _ _ _ Hrow). simpl.
  by apply py_index_nat.
Qed.

Lemma mget_lookup m i j row x :
  m !! i = Some row -> row !! j = Some x -> mget m i j = x.
Proof. intros H1 H2. unfold mget. by rewrite H1, H2. Qed.

Lemma square_zip_with (f : Q -> Q -> Q) n a b :
  square n a -> square n b -> square n (zip_with (zip_with f) a b).
Proof.
  intros [Ha1 Ha2] [Hb1 Hb2]. split.
  - rewrite length_zip_with. lia.
  - apply Forall_forall. intros row Hrow.
    apply list_elem_of_lookup in Hrow as [i Hi].
    apply lookup_zip_with_Some in Hi as (ra & rb & -> & Ea & Eb).
    rewrite length_zip_with.
    rewrite Forall_forall in Ha2, Hb2.
    rewrite (Ha2 ra), (Hb2 rb); [lia| |]; eapply list_elem_of_lookup_2; eauto.
Qed.

Lemma mget_zip_with (f : Q -> Q -> Q) n a b i j :
  square n a -> square n b -> (i < n)%nat -> (j < n)%nat ->
  mget (zip_with (zip_with f) a b) i j = f (mget a i j) (mget b i j).
Proof.
  intros Ha Hb Hi Hj.
  destruct (square_mget n a i j Ha Hi Hj) as (ra & Hra & Hxa).
  destruct (square_mget n b i j Hb Hi Hj) as (rb & Hrb & Hxb).
  apply (mget_lookup _ i j (zip_with f ra rb)).
  - rewrite lookup_zip_with, Hra, Hrb. reflexivity.
  - rewrite lookup_zip_with, Hxa, Hxb. reflexivity.
Qed.

Lemma square_fill_diagonal n a : square n a -> square n (fill_diagonal a).
Proof.
  intros [H1 H2]. split.
  - unfold fill_diagonal. by rewrite length_imap.
  - apply Forall_forall. intros row Hrow.
    apply list_elem_of_lookup in Hrow as [i Hi].
    unfold fill_diagonal in Hi. rewrite list_lookup_imap in Hi.
    destruct (a !! i) as [ra|] eqn:Ea; [|discriminate Hi].
    injection Hi as <-. rewrite length_insert.
    rewrite Forall_forall in H2. apply H2. eapply list_elem_of_lookup_2; eauto.
Qed.

Lemma mget_fill_diagonal n a i j :
  square n a -> (i < n)%nat -> (j < n)%nat ->
  mget (fill_diagonal a) i j = if decide (i = j) then 0%Q else mget a i j.
Proof.
  intros Ha Hi Hj.
  destruct (square_mget n a i j Ha Hi Hj) as (ra & Hra & Hxa).
  assert (length ra = n) as Hlen.
  { destruct (square_lookup n a i Ha Hi) as (r' & Hr' & Hl). congruence. }
  apply (mget_lookup _ i j (<[i := 0%Q]> ra)).
  - unfold fill_diagonal. rewrite list_lookup_imap, Hra. reflexivity.
  - destruct (decide (i = j)) as [->|Hne].
    + apply list_lookup_insert_eq. lia.
    + by rewrite list_lookup_insert_ne.
Qed.

Lemma square_madd n a u v x : square n a -> square n (madd a u v x).
Proof.
  intros [H1 H2]. split.
  - unfold madd. by rewrite length_alter.
  - apply Forall_forall. intros row Hrow.
    apply list_elem_of_lookup in Hrow as [i Hi].
    unfold madd in Hi. rewrite Forall_forall in H2.
    destruct (decide (u = i)) as [->|Hne].
    + rewrite list_lookup_alter_eq in Hi.
      destruct (a !! i) as [ra|] eqn:Ea; [|discriminate Hi].
      injection Hi as <-. rewrite length_alter.
      apply H2. eapply list_elem_of_lookup_2; eauto.
    + rewrite list_lookup_alter_ne in Hi by done.
      apply H2. eapply list_elem_of_lookup_2; eauto.
Qed.

Lemma mget_madd n a u v x i j :
  square n a -> (i < n)%nat -> (j < n)%nat ->
  mget (madd a u v x) i j =
    if decide (i = u /\ j = v) then (mget a i j + x)%Q else mget a i j.
Proof.
  intros Ha Hi Hj.
  destruct (square_mget n a i j Ha Hi Hj) as (ra & Hra & Hxa).
  unfold madd.
  destruct (decide (i = u /\ j = v)) as [[-> ->]|Hne].
  - apply (mget_lookup _ u v (alter (fun y => (y + x)%Q) v ra)).
    + rewrite list_lookup_alter_eq, Hra. reflexivity.
    + rewrite list_lookup_alter_eq, Hxa. reflexivity.
  - destruct (decide (u = i)) as [->|Hu].
    + apply (mget_lookup _ i j (alter (fun y => (y + x)%Q) v ra)).
      * rewrite list_lookup_alter_eq, Hra. reflexivity.
      * rewrite list_lookup_alter_ne; [done|]. intros ->. by apply Hne.
    + apply (mget_lookup _ i j ra); [|exact Hxa].
      by rewrite list_lookup_alter_ne.
Qed.

Lemma square_zeros n : square n (zeros n).
Proof.
  split; unfold zeros.
  - by rewrite length_replicate.
  - apply Forall_forall. intros row Hrow.
    apply elem_of_replicate in Hrow as [-> _]. by rewrite length_replicate.
Qed.

Lemma mget_zeros n i j : mget (zeros n) i j = 0%Q.
Proof.
  unfold mget, zeros.
  destruct (replicate n (replicate n 0%Q) !! i) as [row|] eqn:E; [|done].
  apply lookup_replicate in E as [-> _].
  destruct (replicate n 0%Q !! j) as [x|] eqn:E'; [|done].
  by apply lookup_replicate in E' as [-> _].
Qed.

(** ** The Network constructor *)

Lemma Qltb_lt x y : Qltb x y = true <-> (x < y)%Q.
Proof.
  unfold Qltb. rewrite negb_true_iff, <- not_true_iff_false, Qle_bool_iff.
  split; [apply Qnot_le_lt | apply Qlt_not_le].
Qed.

Lemma Qltb_ge x y : Qltb x y = false <-> (y <= x)%Q.
Proof.
  unfold Qltb. rewrite negb_false_iff, Qle_bool_iff. reflexivity.
Qed.

Lemma existsb2_false (P : Q -> bool) n m :
  square n m ->
  existsb (existsb P) m = false <->
  forall i j, (i < n)%nat -> (j < n)%nat -> P (mget m i j) = false.
Proof.
  intros Hs. split.
  - intros H i j Hi Hj.
    destruct (square_mget n m i j Hs Hi Hj) as (row & Hrow & Hx).
    destruct (P (mget m i j)) eqn:E; [|done].
    assert (existsb (existsb P) m = true) as Hc; [|congruence].
    apply existsb_exists. exists row. split.
    + apply list_elem_of_In. eapply list_elem_of_lookup_2; eauto.
    + apply existsb_exists. exists (mget m i j). split; [|done].
      apply list_elem_of_In. eapply list_elem_of_lookup_2; eauto.
  - intros H. apply not_true_iff_false. intros Hc.
    apply existsb_exists in Hc as (row & Hrow & Hc).
    apply existsb_exists in Hc as (x & Hx & Hlt).
    apply list_elem_of_In, list_elem_of_lookup in Hrow as [i Hi].
    apply list_elem_of_In, list_elem_of_lookup in Hx as [j Hj].
    pose proof (lookup_lt_Some _ _ _ Hi) as Hil.
    pose proof (lookup_lt_Some _ _ _ Hj) as Hjl.
    destruct (square_lookup n m i Hs) as (row' & Hrow' & Hlen); [destruct Hs; lia|].
    assert (row' = row) as -> by congruence.
    specialize (H i j). rewrite (mget_lookup m i j row x Hi Hj) in H.
    destruct Hs. rewrite H in Hlt; [done|lia..].
Qed.

Lemma has_negative_spec n m :
  square n m ->
  existsb (existsb (fun x => Qltb x 0%Q)) m = false <-> nonneg n m.
Proof.
  intros Hs. rewrite (existsb2_false _ n) by done. unfold nonneg.
  apply forall_proper; intros i. apply forall_proper; intros j.
  by rewrite Qltb_ge.
Qed.

Lemma Network_init_ok n m :
  square n m -> nonneg n m ->
  Network.__init__ (Some m) None = Ok (Network.mk (fill_diagonal m)).
Proof.
  intros Hs Hn. unfold Network.__init__, Network.check_adjacency.
  assert (is_square m = true) as ->.
  { apply is_square_spec. destruct Hs as [<- ?]. by split. }
  simpl. by rewrite (proj2 (has_negative_spec n m Hs) Hn).
Qed.

Lemma check_adjacency_inv m N :
  Network.check_adjacency m = Ok N ->
  square (length m) m /\ nonneg (length m) m /\ N = Network.mk (fill_diagonal m).
Proof.
  unfold Network.check_adjacency. intros H.
  destruct (is_square m) eqn:Hsq; [|discriminate].
  simpl in H. apply is_square_spec in Hsq.
  destruct (existsb _ m) eqn:Hneg; [discriminate|].
  injection H as <-. split; [done|]. split; [|done].
  by apply (has_negative_spec _ m Hsq).
Qed.

Lemma is_network_inv N :
  is_network N ->
  let n := Network.n_nodes N in
  let A := Network.adjacency_matrix N in
  square n A /\ nonneg n A /\ (forall i, (i < n)%nat -> mget A i i = 0%Q).
Proof.
  intros (a & e & Hm).
  assert (exists m, Network.check_adjacency m = Ok N) as [m Hm'].
  { unfold Network.__init__ in Hm. destruct a as [m|], e as [e|]; try done.
    - by exists m.
    - destruct (Network._build_adj_from_edges (Some e)) as [m| |]; try done.
      by exists m. }
  clear Hm. apply check_adjacency_inv in Hm' as (Hs & Hn & ->).
  simpl. unfold Network.n_nodes. simpl.
  assert (length (fill_diagonal m) = length m) as Hl
    by (unfold fill_diagonal; by rewrite length_imap).
  rewrite Hl. split; [by apply square_fill_diagonal|]. split.
  - intros i j Hi Hj. rewrite (mget_fill_diagonal (length m)) by done.
    destruct (decide (i = j)); [apply Qle_refl | by apply Hn].
  - intros i Hi. rewrite (mget_fill_diagonal (length m)) by done.
    by destruct (decide (i = i)).
Qed.


(** ** Breadth-first search *)

Lemma unvisited_replicate n : unvisited (replicate n false) = n.
Proof. induction n; simpl; congruence. Qed.

Lemma unvisited_insert v i :
  v !! i = Some false -> S (unvisited (<[i := true]> v)) = unvisited v.
Proof.
  revert i. induction v as [|b v IH]; intros [|i] H; simpl in *; try done.
  - by injection H as ->.
  - rewrite <- (IH i H). destruct b; simpl; lia.
Qed.

Lemma nonzero_from_spec k mask j :
  j ∈ nonzero_from k mask <->
  exists i, j = (k + i)%nat /\ mask !! i = Some true.
Proof.
  revert k. induction mask as [|b mask IH]; intros k; simpl.
  - split; [by intros ?%elem_of_nil | by intros (i & _ & ?)].
  - destruct b.
    + rewrite elem_of_cons, IH. split.
      * intros [->|(i & -> & Hi)]; [exists 0%nat | exists (S i)]; split; try done; lia.
      * intros ([|i] & -> & Hi); [left; lia | right; exists i; split; [lia|done]].
    + rewrite IH. split.
      * intros (i & -> & Hi). exists (S i). split; [lia|done].
      * intros ([|i] & -> & Hi); [done|]. exists i. split; [lia|done].
Qed.

Lemma nonzero_spec mask j : j ∈ nonzero mask <-> mask !! j = Some true.
Proof.
  unfold nonzero. rewrite nonzero_from_spec. split.
  - by intros (i & -> & Hi).
  - intros H. by exists j.
Qed.

Lemma neighbours_spec (row : list Q) j :
  j ∈ nonzero (map (Qltb 0%Q) row) <->
  exists x, row !! j = Some x /\ (0 < x)%Q.
Proof.
  rewrite nonzero_spec, list_lookup_fmap. split.
  - destruct (row !! j) as [x|]; [|done]. simpl. intros [= H].
    exists x. split; [done|]. by apply Qltb_lt.
  - intros (x & -> & Hx). simpl. f_equal. by apply Qltb_lt.
Qed.

Lemma bfs_order_insert adj root tr q x z :
  bfs_order adj root tr q -> x ∉ q -> bfs_order adj root (<[x := z]> tr) q.
Proof.
  induction 1 as [Hr|q y p Hq IH Hy Hp Hty He]; intros Hx.
  - apply bo_root. rewrite list_lookup_insert_ne; [done|].
    intros ->. apply Hx. by left.
  - apply not_elem_of_app in Hx as [Hx1 Hx2].
    eapply bo_snoc; eauto.
    rewrite list_lookup_insert_ne; [done|].
    intros ->. apply Hx2. by left.
Qed.

Lemma bfs_order_bound adj n root tr q :
  length tr = n -> bfs_order adj root tr q -> forall x, x ∈ q -> (x < n)%nat.
Proof.
  intros Hl. induction 1 as [Hr|q y p Hq IH Hy Hp Hty He]; intros x Hx.
  - apply list_elem_of_singleton in Hx as ->. apply lookup_lt_Some in Hr. lia.
  - apply elem_of_app in Hx as [Hx|Hx]; [by apply IH|].
    apply list_elem_of_singleton in Hx as ->. apply lookup_lt_Some in Hty. lia.
Qed.

Section bfs_proofs.
Variable adj : matrix.
Variable n root : nat.
Hypothesis Hsq : square n adj.

(** One neighbour: the invariant is kept, the measure is unchanged, the
    queue only grows at its end, and the neighbour is in the queue
    afterwards. *)
Lemma bfs_visit_spec cur st nb :
  bfs_inv adj n root st -> cur ∈ queue st -> edge adj cur nb -> (nb < n)%nat ->
  exists st', bfs_visit cur st nb = Ok st' /\
    bfs_inv adj n root st' /\ measure st' = measure st /\
    (exists l, queue st' = queue st ++ l) /\ nb ∈ queue st'.
Proof.
  intros Hinv Hcur He Hnb. destruct Hinv as [Hvl Htl Hv Hu Ho].
  unfold bfs_visit.
  destruct (lookup_lt_is_Some_2 (visited st) nb) as [b Hb]; [lia|].
  rewrite Hb. destruct b.
  - exists st. split; [done|]. split; [by constructor|]. split; [done|].
    split; [exists []; by rewrite app_nil_r | by apply Hv].
  - assert (nb ∉ queue st) as Hnq.
    { intros Hc. apply Hv in Hc. congruence. }
    eexists. split; [reflexivity|]. simpl. split; [|split; [|split]].
    + constructor; simpl.
      * by rewrite length_insert.
      * by rewrite length_insert.
      * intros x. rewrite elem_of_app, list_elem_of_singleton.
        destruct (decide (nb = x)) as [<-|Hne].
        -- rewrite list_lookup_insert_eq by lia. tauto.
        -- rewrite list_lookup_insert_ne by done. rewrite Hv.
           split; [tauto|]. intros [?|?]; [done|]. congruence.
      * intros x Hx Hnx. apply not_elem_of_app in Hnx as [Hx1 Hx2].
        rewrite list_lookup_insert_ne; [by apply Hu|].
        intros ->. apply Hx2. by left.
      * eapply bo_snoc; eauto.
        -- by apply bfs_order_insert.
        -- apply list_lookup_insert_eq. lia.
    + unfold measure. simpl. rewrite length_app. simpl.
      rewrite <- (unvisited_insert _ _ Hb). lia.
    + by exists [nb].
    + apply elem_of_app. right. by left.
Qed.

Lemma bfs_neighbours_spec cur nbs : forall st,
  bfs_inv adj n root st -> cur ∈ queue st ->
  (forall nb, nb ∈ nbs -> edge adj cur nb /\ (nb < n)%nat) ->
  exists st', bfs_neighbours cur st nbs = Ok st' /\
    bfs_inv adj n root st' /\ measure st' = measure st /\
    (exists l, queue st' = queue st ++ l) /\
    (forall nb, nb ∈ nbs -> nb ∈ queue st').
Proof.
  induction nbs as [|nb nbs IH]; intros st Hinv Hcur Hnbs; simpl.
  - exists st. split; [done|]. split; [done|]. split; [done|].
    split; [exists []; by rewrite app_nil_r|]. by intros ? ?%elem_of_nil.
  - destruct (Hnbs nb) as [He Hlt]; [by left|].
    destruct (bfs_visit_spec cur st nb Hinv Hcur He Hlt)
      as (st1 & Hrun1 & Hinv1 & Hm1 & [l1 Hq1] & Hin1).
    rewrite Hrun1. simpl.
    destruct (IH st1) as (st2 & Hrun2 & Hinv2 & Hm2 & [l2 Hq2] & Hin2).
    + done.
    + rewrite Hq1. apply elem_of_app. by left.
    + intros nb' Hnb'. apply Hnbs. by right.
    + exists st2. split; [done|]. split; [done|]. split; [congruence|]. split.
      * exists (l1 ++ l2). rewrite Hq2, Hq1. by rewrite app_assoc.
      * intros nb' [->|Hnb']%elem_of_cons; [|by apply Hin2].
        rewrite Hq2. apply elem_of_app. by left.
Qed.

(** The outer loop stops by itself when the fuel covers the unprocessed part
    of the queue and the unvisited nodes; the queue it leaves is closed
    under the edges. *)
Lemma bfs_loop_spec fuel : forall i st,
  bfs_inv adj n root st ->
  (length (queue st) - i + unvisited (visited st) <= fuel)%nat ->
  closed_upto adj n i (queue st) ->
  exists st', bfs_loop fuel adj i st = Ok st' /\ bfs_inv adj n root st' /\
    measure st' = measure st /\
    closed_upto adj n (length (queue st')) (queue st').
Proof.
  induction fuel as [|fuel IH]; intros i st Hinv Hfuel Hcl.
  - destruct (queue st !! i) as [cur|] eqn:Hc.
    + apply lookup_lt_Some in Hc. lia.
    + exists st. simpl. rewrite Hc. split; [done|]. split; [done|].
      split; [done|]. apply lookup_ge_None in Hc.
      intros k u v Hk. apply Hcl. lia.
  - simpl. destruct (queue st !! i) as [cur|] eqn:Hc.
    + pose proof (lookup_lt_Some _ _ _ Hc) as Hi.
      assert (cur ∈ queue st) as Hcur by (eapply list_elem_of_lookup_2; eauto).
      assert (cur < n)%nat as Hcn.
      { eapply bfs_order_bound; [|apply Hinv|done]. apply Hinv. }
      destruct (square_lookup n adj cur Hsq Hcn) as (row & Hrow & Hlen).
      rewrite Hrow.
      assert (forall nb, nb ∈ nonzero (map (Qltb 0%Q) row) <->
                edge adj cur nb /\ (nb < n)%nat) as Hnbs.
      { intros nb. rewrite neighbours_spec. unfold edge, mget. rewrite Hrow.
        split.
        - intros (x & Hx & Hpos). rewrite Hx. split; [done|].
          apply lookup_lt_Some in Hx. lia.
        - intros [Hpos Hlt].
          destruct (lookup_lt_is_Some_2 row nb) as [x Hx]; [lia|].
          rewrite Hx in Hpos. by exists x. }
      destruct (bfs_neighbours_spec cur (nonzero (map (Qltb 0%Q) row)) st Hinv Hcur)
        as (st1 & Hrun1 & Hinv1 & Hm1 & [l1 Hq1] & Hin1).
      { intros nb. apply Hnbs. }
      rewrite Hrun1. simpl.
      destruct (IH (S i) _ Hinv1) as (st' & Hrun & Hinv' & Hm' & Hcl').
      * unfold measure in Hm1. rewrite Hq1 in *. rewrite length_app in *. lia.
      * intros k u v Hk Hu He Hv. rewrite Hq1 in Hu.
        destruct (decide (k = i)) as [->|Hne].
        -- rewrite lookup_app_l in Hu by done.
           assert (u = cur) as -> by congruence.
           apply Hin1, Hnbs. done.
        -- rewrite lookup_app_l in Hu by lia.
           rewrite Hq1. apply elem_of_app. left.
           apply (Hcl k u v); [lia|done..].
      * exists st'. split; [done|]. split; [done|]. split; [congruence|done].
    + exists st. split; [done|]. split; [done|]. split; [done|].
      apply lookup_ge_None in Hc. intros k u v Hk. apply Hcl. lia.
Qed.
End bfs_proofs.


(** [bfs] returns on a square matrix and an in-bounds root. *)
Lemma bfs_returns N (root : Z) :
  let adj := adjacency_matrix N in
  let n := n_nodes N in
  square n adj -> 0 <= root < Z.of_nat n ->
  exists tr q, bfs N root = Ok tr /\ bfs_post adj n (Z.to_nat root) tr q.
Proof.
  intros adj n Hsq Hroot. unfold bfs. fold n. fold adj.
  destruct (Z.ltb_spec root 0); [lia|].
  destruct (Z.leb_spec (Z.of_nat n) root); [lia|]. simpl.
  set (r := Z.to_nat root).
  assert (r < n)%nat as Hr by lia.
  set (st := mk_bfs _ _ _).
  assert (bfs_inv adj n r st) as Hinv.
  { constructor; simpl.
    - by rewrite length_insert, length_replicate.
    - by rewrite length_insert, length_replicate.
    - intros x. rewrite list_elem_of_singleton.
      destruct (decide (r = x)) as [<-|Hne].
      + rewrite list_lookup_insert_eq by (rewrite length_replicate; lia). tauto.
      + rewrite list_lookup_insert_ne by done. split; [|congruence].
        intros [? _]%lookup_replicate. done.
    - intros x Hx Hnx. rewrite list_lookup_insert_ne.
      + by apply lookup_replicate_2.
      + intros ->. apply Hnx. by left.
    - apply bo_root. rewrite list_lookup_insert_eq by (rewrite length_replicate; lia).
      f_equal. lia. }
  assert (measure st = n) as Hm.
  { unfold measure, st. simpl.
    assert (replicate n false !! r = Some false) as Hf by (by apply lookup_replicate_2).
    pose proof (unvisited_insert _ _ Hf) as Hu. rewrite unvisited_replicate in Hu. lia. }
  destruct (bfs_loop_spec adj n r Hsq n 0%nat st Hinv) as (st' & Hrun & Hinv' & Hm' & Hcl).
  { unfold measure in Hm. lia. }
  { intros k u v Hk. lia. }
  exists (path_trace st'), (queue st'). rewrite Hrun. simpl. split; [done|].
  destruct Hinv' as [Hvl Htl Hv Hu Ho]. constructor; try done.
  - intros u v [k Hk]%list_elem_of_lookup. apply (Hcl k). by eapply lookup_lt_Some.
    done.
  - unfold measure in *. lia.
Qed.

(** ** Path reconstruction *)

Lemma py_index_in_range {A} (l : list A) (i : Z) :
  0 <= i < Z.of_nat (length l) ->
  exists x, l !! Z.to_nat i = Some x /\ py_index l i = Ok x.
Proof.
  intros Hi. destruct (lookup_lt_is_Some_2 l (Z.to_nat i)) as [x Hx]; [lia|].
  exists x. split; [done|]. rewrite <- (Z2Nat.id i) by lia. by apply py_index_nat.
Qed.

(** From a queued node the walk along the predecessors reaches the root
    within the fuel, and the nodes it passes form a path of the tree. *)
Lemma path_walk_spec adj root tr q :
  bfs_order adj root tr q ->
  forall x, x ∈ q -> forall fuel acc, (length q <= S fuel)%nat ->
  exists l, path_walk fuel tr (Z.of_nat x) acc = Ok (acc ++ map Z.of_nat l) /\
    tree_path adj root x (rev l ++ [x]) /\ (forall y, y ∈ l -> y ∈ q).
Proof.
  induction 1 as [Hr|q y p Hq IH Hy Hp Hty He]; intros x Hx fuel acc Hfuel.
  - apply list_elem_of_singleton in Hx as ->. exists [].
    destruct fuel; simpl; rewrite (py_index_nat _ _ _ Hr); simpl;
      rewrite Z.eqb_refl, app_nil_r; (split; [done|]);
      (split; [constructor | by intros ? ?%elem_of_nil]).
  - rewrite length_app in Hfuel. simpl in Hfuel.
    apply elem_of_app in Hx as [Hx|Hx].
    + destruct (IH x Hx fuel acc) as (l & Hw & Htp & Hl); [lia|].
      exists l. split; [done|]. split; [done|].
      intros z Hz. apply elem_of_app. left. by apply Hl.
    + apply list_elem_of_singleton in Hx as ->.
      assert (p <> y) as Hne by (intros Heq; subst; by apply Hy).
      destruct fuel as [|fuel].
      { destruct Hq; simpl in Hfuel; [lia|]. rewrite length_app in Hfuel. simpl in Hfuel. lia. }
      destruct (IH p Hp fuel (acc ++ [Z.of_nat p])) as (l & Hw & Htp & Hl); [lia|].
      exists (p :: l). simpl. rewrite (py_index_nat _ _ _ Hty). simpl.
      destruct (Z.eqb_spec (Z.of_nat p) (Z.of_nat y)); [lia|].
      rewrite Hw, <- app_assoc. simpl. split; [done|]. split.
      * eapply tp_snoc; [exact Htp| |done].
        intros [Hc|Hc]%elem_of_app.
        -- apply list_elem_of_In, in_rev, list_elem_of_In in Hc. apply Hy. by apply Hl.
        -- apply list_elem_of_singleton in Hc. congruence.
      * intros z [->|Hz]%elem_of_cons; apply elem_of_app; left; [done|by apply Hl].
Qed.


Lemma path_edges_cons a b l :
  path_edges (a :: b :: l) = (a, b) :: path_edges (b :: l).
Proof. reflexivity. Qed.

Lemma path_edges_snoc l a b :
  path_edges (l ++ [a; b]) = path_edges (l ++ [a]) ++ [(a, b)].
Proof.
  induction l as [|c l IH]; [reflexivity|].
  destruct l as [|d l]; [reflexivity|].
  change ((c :: d :: l) ++ [a; b]) with (c :: d :: (l ++ [a; b])).
  change ((c :: d :: l) ++ [a]) with (c :: d :: (l ++ [a])).
  rewrite !path_edges_cons.
  change (d :: (l ++ [a; b])) with ((d :: l) ++ [a; b]).
  change (d :: (l ++ [a])) with ((d :: l) ++ [a]).
  by rewrite IH.
Qed.

Lemma tree_path_last adj root x p :
  tree_path adj root x p -> exists p', p = p' ++ [x].
Proof. destruct 1; [by exists [] | by eexists]. Qed.

Lemma tree_path_head adj root x p :
  tree_path adj root x p -> exists p', p = root :: p'.
Proof.
  induction 1 as [|u v p Hp [p' ->] Hv He]; [by exists []|].
  by exists (p' ++ [v]).
Qed.

Lemma chain_snoc es x y z : chain es x y -> chain (es ++ [(y, z)]) x z.
Proof.
  revert x. induction es as [|[u v] es IH]; intros x H; simpl in *.
  - by subst.
  - destruct H as [-> H]. split; [done|]. by apply IH.
Qed.

Lemma tree_path_edges adj root x p :
  tree_path adj root x p ->
  exists es : list (nat * nat),
    path_edges (map Z.of_nat p) = map zpair es /\
    NoDup es /\
    (length es + 1 = length p)%nat /\
    (forall u v, (u, v) ∈ es -> edge adj u v /\ u ∈ p /\ v ∈ p /\ u <> v) /\
    chain es root x.
Proof.
  induction 1 as [|u v p Hp (es & Hes & Hnd & Hlen & Hprop & Hch) Hv He].
  - exists []. split; [done|]. split; [constructor|]. split; [done|].
    split; [by intros ? ? ?%elem_of_nil|done].
  - destruct (tree_path_last _ _ _ _ Hp) as [p' ->].
    exists (es ++ [(u, v)]). split; [|split; [|split; [|split]]].
    + rewrite <- app_assoc. simpl. rewrite map_app. simpl.
      rewrite path_edges_snoc, map_app. simpl. f_equal.
      rewrite map_app in Hes. exact Hes.
    + apply NoDup_app. split; [done|]. split; [|apply NoDup_singleton].
      intros e He' ->%list_elem_of_singleton.
      apply Hv. by apply (Hprop u v).
    + rewrite !length_app in *. simpl in *. lia.
    + intros a b [Hab|Hab]%elem_of_app.
      * destruct (Hprop a b Hab) as (? & ? & ? & ?).
        split; [done|]. split; [|split; [|done]]; apply elem_of_app; by left.
      * apply list_elem_of_singleton in Hab. injection Hab as -> ->.
        split; [done|]. split; [|split].
        -- apply elem_of_app. left. apply elem_of_app. right. by left.
        -- apply elem_of_app. right. by left.
        -- intros ->. apply Hv. apply elem_of_app. right. by left.
    + by apply chain_snoc.
Qed.

(** [path_from_bfs] returns a tree path to every node the trace marks as
    reached. *)
Lemma path_from_bfs_spec adj n root tr q x v :
  bfs_post adj n root tr q -> (x < n)%nat ->
  tr !! x = Some v -> 0 <= v ->
  exists p, path_from_bfs tr (Z.of_nat x) = Ok (map Z.of_nat p) /\
    tree_path adj root x p /\ (forall y, y ∈ p -> (y < n)%nat).
Proof.
  intros [Hlen Hord Hunr Hcl Hql] Hx Hv Hpos.
  assert (x ∈ q) as Hxq.
  { destruct (decide (x ∈ q)) as [|Hn]; [done|].
    rewrite (Hunr x Hx Hn) in Hv. injection Hv as <-. lia. }
  unfold path_from_bfs.
  remember (2 * length tr)%nat as fuel eqn:Hfuel.
  destruct (Z.ltb_spec (Z.of_nat x) 0); [lia|].
  destruct (Z.leb_spec (Z.of_nat (length tr)) (Z.of_nat x)); [lia|]. simpl.
  rewrite (py_index_nat _ _ _ Hv). simpl.
  destruct (Z.ltb_spec v 0); [lia|].
  destruct (path_walk_spec adj root tr q Hord x Hxq fuel [Z.of_nat x])
    as (l & Hw & Htp & Hl); [lia|].
  rewrite Hw. simpl. exists (rev l ++ [x]). split; [|split; [done|]].
  - f_equal. rewrite map_app, map_rev. reflexivity.
  - intros y [Hy|Hy]%elem_of_app.
    + apply list_elem_of_In, in_rev, list_elem_of_In in Hy.
      eapply bfs_order_bound; [exact Hlen|exact Hord|by apply Hl].
    + apply list_elem_of_singleton in Hy as ->. done.
Qed.


(** ** One augmenting pass *)

Lemma mapM_ok {A B} (f : A -> result B) (g : A -> B) (l : list A) :
  (forall x, x ∈ l -> f x = Ok (g x)) -> mapM f l = Ok (map g l).
Proof.
  induction l as [|x l IH]; intros H; [reflexivity|].
  simpl. rewrite (H x) by (by left). simpl.
  rewrite IH by (intros y Hy; apply H; by right). reflexivity.
Qed.

Lemma foldl_Qmin_le cs : forall c y,
  y ∈ c :: cs -> (foldl Qmin c cs <= y)%Q.
Proof.
  induction cs as [|d cs IH]; intros c y Hy; simpl.
  - apply list_elem_of_singleton in Hy as ->. apply Qle_refl.
  - apply elem_of_cons in Hy as [->|Hy].
    + eapply Qle_trans; [apply IH; by left|]. apply Q.le_min_l.
    + apply elem_of_cons in Hy as [->|Hy].
      * eapply Qle_trans; [apply IH; by left|]. apply Q.le_min_r.
      * apply IH. by right.
Qed.

Lemma foldl_Qmin_pos cs : forall c,
  (forall y, y ∈ c :: cs -> (0 < y)%Q) -> (0 < foldl Qmin c cs)%Q.
Proof.
  induction cs as [|d cs IH]; intros c H; simpl.
  - apply H. by left.
  - apply IH. intros y [->|Hy]%elem_of_cons.
    + apply Q.min_glb_lt; apply H; [by left | right; by left].
    + apply H. right. by right.
Qed.

Lemma mget_push n m u v a i j :
  square n m -> (i < n)%nat -> (j < n)%nat -> u <> v ->
  mget (madd (madd m u v a) v u (- a)%Q) i j =
    if decide (i = u /\ j = v) then (mget m i j + a)%Q
    else if decide (i = v /\ j = u) then (mget m i j + - a)%Q
    else mget m i j.
Proof.
  intros Hs Hi Hj Hne.
  rewrite (mget_madd n) by (try apply square_madd; done).
  rewrite (mget_madd n) by done.
  destruct (decide (i = v /\ j = u)) as [[-> ->]|Hd1];
    destruct (decide (_ = u /\ _ = v)) as [[? ?]|H2]; done.
Qed.

Section send.
Variable n : nat.
Variable A : matrix.
Variable a : Q.
Hypothesis Ha : (0 <= a)%Q.

(** Pushing [a] along distinct in-bounds edges with at least [a] of room:
    the loop of [send_flow_along] ends normally and keeps the flow square,
    below the capacities and skew-symmetric. *)
Lemma send_edges_spec (es : list (nat * nat)) : forall m,
  square n m -> within n A m -> skew n m -> NoDup es ->
  (forall u v, (u, v) ∈ es ->
     (u < n)%nat /\ (v < n)%nat /\ u <> v /\ (mget m u v + a <= mget A u v)%Q) ->
  exists m', Flow.send_edges m (map zpair es) a = (m', Ok tt) /\
    square n m' /\ within n A m' /\ skew n m'.
Proof.
  induction es as [|[u v] es IH]; intros m Hs Hw Hk Hnd Hes.
  - exists m. done.
  - destruct (Hes u v) as (Hu & Hv & Hne & Hcap); [by left|].
    apply NoDup_cons in Hnd as [Hnin Hnd].
    simpl. unfold zpair at 1. simpl.
    rewrite (proj1 Hs).
    destruct (Z.ltb_spec (Z.of_nat u) 0); [lia|].
    destruct (Z.ltb_spec (Z.of_nat v) 0); [lia|].
    destruct (Z.leb_spec (Z.of_nat n) (Z.of_nat u)); [lia|].
    destruct (Z.leb_spec (Z.of_nat n) (Z.of_nat v)); [lia|].
    simpl. rewrite !Nat2Z.id.
    set (m2 := madd (madd m u v a) v u (- a)%Q).
    assert (forall i j, (i < n)%nat -> (j < n)%nat ->
              mget m2 i j = if decide (i = u /\ j = v) then (mget m i j + a)%Q
                else if decide (i = v /\ j = u) then (mget m i j + - a)%Q
                else mget m i j) as Hm2.
    { intros i j Hi Hj. by apply (mget_push n). }
    apply IH; try done.
    + by do 2 apply square_madd.
    + intros i j Hi Hj. rewrite Hm2 by done. specialize (Hw i j Hi Hj).
      destruct (decide (i = u /\ j = v)) as [[-> ->]|Hd1]; [done|].
      destruct (decide (i = v /\ j = u)) as [[-> ->]|Hd2]; [lra|done].
    + intros i j Hi Hj. rewrite !Hm2 by done.
      pose proof (Hk i j Hi Hj) as Hij.
      destruct (decide (i = u /\ j = v)) as [[-> ->]|Hd1].
      * destruct (decide (v = u /\ u = v)) as [[? ?]|_]; [done|].
        destruct (decide (v = v /\ u = u)) as [_|Hd3]; [lra|tauto].
      * destruct (decide (i = v /\ j = u)) as [[-> ->]|Hd2].
        -- destruct (decide (u = u /\ v = v)) as [_|Hd3]; [lra|tauto].
        -- destruct (decide (j = u /\ i = v)) as [[? ?]|_]; [tauto|].
           destruct (decide (j = v /\ i = u)) as [[? ?]|_]; [tauto|done].
    + intros u' v' Hin.
      destruct (Hes u' v') as (Hu' & Hv' & Hne' & Hcap'); [by right|].
      split; [done|]. split; [done|]. split; [done|].
      rewrite Hm2 by done.
      destruct (decide (u' = u /\ v' = v)) as [[-> ->]|Hd1]; [done|].
      destruct (decide (u' = v /\ v' = u)) as [[-> ->]|Hd2]; [lra|done].
Qed.
End send.


Lemma bind_Ok {A B} (a : A) (k : A -> result B) : (Ok a ≫= k) = k a.
Proof. reflexivity. Qed.

Lemma bfs_order_root adj root tr q : bfs_order adj root tr q -> root ∈ q.
Proof. induction 1; [by left|]. apply elem_of_app. by left. Qed.

Lemma bfs_order_trace adj root tr q x :
  bfs_order adj root tr q -> x ∈ q -> exists p, tr !! x = Some (Z.of_nat p).
Proof.
  induction 1 as [Hr|q y p Hq IH Hy Hp Hty He]; intros Hx.
  - apply list_elem_of_singleton in Hx as ->. by exists root.
  - apply elem_of_app in Hx as [Hx|Hx]; [by apply IH|].
    apply list_elem_of_singleton in Hx as ->. by exists p.
Qed.

Lemma bfs_unreached_sound adj n root tr q x v :
  bfs_post adj n root tr q -> tr !! x = Some v -> v < 0 ->
  ~ reachable adj n root x.
Proof.
  intros [Hlen Hord Hunr Hcl Hql] Hx Hv Hreach.
  assert (x ∈ q) as Hxq.
  { clear Hx. induction Hreach as [|u w Hu IH He Hw].
    - by eapply bfs_order_root.
    - by apply (Hcl u w). }
  destruct (bfs_order_trace _ _ _ _ _ Hord Hxq) as [p Hp]. 
  rewrite Hp in Hx. injection Hx as <-. lia.
Qed.

Lemma tree_path_reachable adj n root x p :
  tree_path adj root x p -> (forall y, y ∈ p -> (y < n)%nat) ->
  reachable adj n root x.
Proof.
  induction 1 as [|u v p Hp IH Hv He]; intros Hb; [constructor|].
  eapply reach_step; [|exact He|].
  - apply IH. intros y Hy. apply Hb, elem_of_app. by left.
  - apply Hb, elem_of_app. right. by left.
Qed.

Lemma Qsum_alter (row : list Q) v x :
  (v < length row)%nat ->
  (Qsum (alter (fun y => y + x)%Q v row) == Qsum row + x)%Q.
Proof.
  revert v. induction row as [|y row IH]; intros v Hv; simpl in Hv; [lia|].
  destruct v as [|v].
  - change (y + x + Qsum row == y + Qsum row + x)%Q. ring.
  - change (y + Qsum (alter (fun y => y + x)%Q v row) == y + Qsum row + x)%Q.
    rewrite IH by lia. ring.
Qed.

Lemma row_sum_madd n m u v x i :
  square n m -> (u < n)%nat -> (v < n)%nat -> (i < n)%nat ->
  (row_sum (madd m u v x) i == row_sum m i + at_node u x i)%Q.
Proof.
  intros Hs Hu Hv Hi. unfold row_sum, madd, at_node. rewrite !nth_lookup.
  destruct (square_lookup n m i Hs Hi) as (row & Hrow & Hlen).
  destruct (decide (i = u)) as [->|Hne].
  - rewrite list_lookup_alter_eq, Hrow. simpl. apply Qsum_alter. lia.
  - rewrite list_lookup_alter_ne, Hrow by done. simpl. ring.
Qed.

Lemma row_sum_push n m u v a i :
  square n m -> (u < n)%nat -> (v < n)%nat -> (i < n)%nat ->
  (row_sum (madd (madd m u v a) v u (- a)%Q) i ==
   row_sum m i + at_node u a i - at_node v a i)%Q.
Proof.
  intros Hs Hu Hv Hi.
  rewrite (row_sum_madd n), (row_sum_madd n); try done; [|by apply square_madd].
  unfold at_node. destruct (decide (i = v)); ring.
Qed.

(** Pushing [a] along a chain from [x] to [y] adds [a] to the net outflow
    of [x], removes [a] from that of [y] and leaves the others. *)
Lemma send_edges_row_sum n a (es : list (nat * nat)) : forall m x y,
  square n m -> chain es x y ->
  (forall u v, (u, v) ∈ es -> (u < n)%nat /\ (v < n)%nat) ->
  forall i, (i < n)%nat ->
  (row_sum (fst (Flow.send_edges m (map zpair es) a)) i ==
   row_sum m i + at_node x a i - at_node y a i)%Q.
Proof.
  induction es as [|[u v] es IH]; intros m x y Hs Hch Hes i Hi; simpl in *.
  - subst. ring.
  - destruct Hch as [-> Hch]. destruct (Hes x v) as [Hx Hv]; [by left|].
    unfold zpair at 1. simpl. rewrite (proj1 Hs).
    destruct (Z.ltb_spec (Z.of_nat x) 0); [lia|].
    destruct (Z.ltb_spec (Z.of_nat v) 0); [lia|].
    destruct (Z.leb_spec (Z.of_nat n) (Z.of_nat x)); [lia|].
    destruct (Z.leb_spec (Z.of_nat n) (Z.of_nat v)); [lia|].
    simpl. rewrite !Nat2Z.id.
    rewrite (IH _ v y); try done.
    + rewrite (row_sum_push n) by done. ring.
    + by do 2 apply square_madd.
    + intros u' v' Hin. apply Hes. by right.
Qed.

Section iteration.
Variable N : Network.t.
Variable source sink : Z.
Let n := n_nodes N.
Let A := adjacency_matrix N.
Hypothesis Hsq : square n A.
Hypothesis Hsource : 0 <= source < Z.of_nat n.
Hypothesis Hsink : 0 <= sink < Z.of_nat n.
Hypothesis Hdiff : source <> sink.

Lemma residual_square f : ek_inv N source sink f -> square n (residual N f).
Proof.
  intros Hinv. apply square_fill_diagonal, square_zip_with; [done|apply Hinv].
Qed.

Lemma mget_residual f i j :
  ek_inv N source sink f -> (i < n)%nat -> (j < n)%nat ->
  mget (residual N f) i j =
    if decide (i = j) then 0%Q
    else (mget A i j - mget (Flow.flow_matrix f) i j)%Q.
Proof.
  intros Hinv Hi Hj. unfold residual.
  rewrite (mget_fill_diagonal n); try done.
  - destruct (decide (i = j)); [done|].
    apply (mget_zip_with Qminus n); try done. apply Hinv.
  - apply square_zip_with; [done|apply Hinv].
Qed.

Lemma residual_network f :
  ek_inv N source sink f ->
  __init__ (Some (mat_sub A (Flow.flow_matrix f))) None = Ok (mk (residual N f)).
Proof.
  intros Hinv. apply (Network_init_ok n).
  - apply square_zip_with; [done|apply Hinv].
  - intros i j Hi Hj. unfold mat_sub.
    rewrite (mget_zip_with Qminus n); try done; [|apply Hinv].
    pose proof (ek_within _ _ _ _ Hinv i j Hi Hj) as Hw. fold A in Hw. lra.
Qed.

(** One pass of the loop under the invariant: it stops because the sink
    cannot be reached in the residual network, or it augments and keeps
    the invariant. No pass raises or diverges. *)
Lemma ek_iteration_spec f :
  ek_inv N source sink f ->
  (ek_iteration N source sink f = Ok (true, f) /\
   ~ reachable (residual N f) n (Z.to_nat source) (Z.to_nat sink)) \/
  (exists f', ek_iteration N source sink f = Ok (false, f') /\
     ek_inv N source sink f' /\
     reachable (residual N f) n (Z.to_nat source) (Z.to_nat sink)).
Proof.
  intros Hinv. unfold ek_iteration. fold A.
  rewrite (residual_network f Hinv), bind_Ok.
  pose proof (residual_square f Hinv) as Hrsq.
  assert (n_nodes (mk (residual N f)) = n) as Hrn by apply Hrsq.
  destruct (bfs_returns (mk (residual N f)) source) as (tr & q & Hbfs & Hpost).
  { by rewrite Hrn. } { by rewrite Hrn. }
  simpl adjacency_matrix in *. rewrite Hrn in Hpost.
  rewrite Hbfs, bind_Ok.
  destruct (py_index_in_range tr sink) as (v & Hv & Hidx).
  { rewrite (post_len _ _ _ _ _ Hpost). done. }
  rewrite Hidx, bind_Ok.
  destruct (Z.ltb_spec v 0) as [Hneg|Hpos].
  { left. split; [done|]. by eapply bfs_unreached_sound. }
  right.
  destruct (path_from_bfs_spec _ n _ tr q (Z.to_nat sink) v Hpost)
    as (p & Hpath & Htp & Hbound); [lia|done|done|].
  rewrite Z2Nat.id in Hpath by lia. rewrite Hpath, bind_Ok.
  destruct (tree_path_edges _ _ _ _ Htp) as (es & Hes & Hnd & Hlen & Hprop & Hch).
  rewrite Hes.
  set (cap := fun e : nat * nat => mget (residual N f) (fst e) (snd e)).
  assert (forall u v, (u, v) ∈ es -> (u < n)%nat /\ (v < n)%nat) as Hesb.
  { intros u w Hin. destruct (Hprop u w Hin) as (_ & Hu & Hw & _).
    split; by apply Hbound. }
  rewrite (mapM_ok _ (fun e => match e with (x, y) => 
      mget (residual N f) (Z.to_nat x) (Z.to_nat y) end) (map zpair es)).
  2:{ intros [x y] Hin. apply list_elem_of_fmap in Hin as ([u w] & [= -> ->] & Hin).
      simpl. destruct (Hesb u w Hin). rewrite !Nat2Z.id.
      by apply (mat_index_nat n). }
  rewrite bind_Ok, map_map.
  destruct (tree_path_head _ _ _ _ Htp) as [p1 Hp1].
  destruct (tree_path_last _ _ _ _ Htp) as [p2 Hp2].
  assert (2 <= length p)%nat as Hlp.
  { destruct p1 as [|y p1]; [|rewrite Hp1; simpl; lia].
    rewrite Hp1 in Hp2. destruct p2 as [|z [|? ?]]; simpl in Hp2; try done.
    injection Hp2 as Heq. lia. }
  destruct es as [|e0 es0] eqn:Ees; [simpl in Hlen; lia|]. rewrite <- Ees in *.
  assert (exists a, py_min (map cap es) = Ok a /\ (0 < a)%Q /\
            forall e, e ∈ es -> (a <= cap e)%Q) as (a & Hmin & Hapos & Hale).
  { rewrite Ees. simpl. eexists. split; [reflexivity|]. split.
    - apply foldl_Qmin_pos. intros y Hy.
      change (cap e0 :: map cap es0) with (map cap (e0 :: es0)) in Hy.
      apply list_elem_of_fmap in Hy as ([u w] & -> & Hin).
      rewrite <- Ees in Hin. by apply (Hprop u w).
    - intros e He. apply foldl_Qmin_le.
      change (cap e0 :: map cap es0) with (map cap (e0 :: es0)).
      apply list_elem_of_fmap. by exists e. }
  rewrite (map_ext _ cap)
    by (intros [u w]; unfold cap; simpl; by rewrite !Nat2Z.id).
  rewrite Hmin, bind_Ok.
  unfold Flow.send_flow_along.
  assert ((length (map Z.of_nat p) <? 2)%nat = false) as ->.
  { apply Nat.ltb_ge. by rewrite length_map. }
  rewrite Hes.
  destruct (send_edges_spec n A a (Qlt_le_weak _ _ Hapos) es (Flow.flow_matrix f))
    as (m' & Hsend & Hsq' & Hw' & Hk'); try apply Hinv; try done.
  { intros u w Hin. destruct (Hesb u w Hin) as [Hu Hw].
    destruct (Hprop u w Hin) as (_ & _ & _ & Hne).
    split; [done|]. split; [done|]. split; [done|].
    pose proof (Hale (u, w) Hin) as Hle. unfold cap in Hle. simpl in Hle.
    rewrite mget_residual in Hle by done.
    destruct (decide (u = w)); [done|]. lra. }
  pose proof (send_edges_row_sum n a es (Flow.flow_matrix f) _ _
                (ek_square _ _ _ _ Hinv) Hch Hesb) as Hrow.
  rewrite Hsend in *. simpl in Hrow. simpl. eexists. split; [reflexivity|]. split.
  - constructor; simpl; try done; try apply Hinv.
    intros i Hi Hns Hnt. rewrite Hrow by done. unfold at_node.
    destruct (decide (i = Z.to_nat source)); [lia|].
    destruct (decide (i = Z.to_nat sink)); [lia|].
    rewrite (ek_conserved _ _ _ _ Hinv i Hi Hns Hnt). ring.
  - eapply tree_path_reachable; eauto.
Qed.
End iteration.


(** ** The checks of the Flow constructor *)

Lemma isclose_spec r t x y :
  isclose r t x y = true <-> (Qabs (x - y) <= t + r * Qabs y)%Q.
Proof. apply Qle_bool_iff. Qed.

Lemma tol_zero : (Flow._EPS + default_rtol * Qabs 0 == Flow._EPS)%Q.
Proof. reflexivity. Qed.

Lemma forallb_zip_lookup {A B} (P : A * B -> bool) (a : list A) (b : list B) :
  forallb P (zip a b) = true <->
  forall i x y, a !! i = Some x -> b !! i = Some y -> P (x, y) = true.
Proof.
  rewrite forallb_forall. split.
  - intros H i x y Hx Hy. apply H, list_elem_of_In.
    apply (list_elem_of_lookup_2 _ i). apply lookup_zip_with_Some. eauto.
  - intros H [x y] Hin. apply list_elem_of_In, list_elem_of_lookup in Hin as [i Hi].
    apply lookup_zip_with_Some in Hi as (x' & y' & [= -> ->] & Hx & Hy). eauto.
Qed.

Lemma forallb_lookup {A} (P : A -> bool) (l : list A) :
  forallb P l = true <-> forall i x, l !! i = Some x -> P x = true.
Proof.
  rewrite forallb_forall. split.
  - intros H i x Hx. apply H, list_elem_of_In. by apply (list_elem_of_lookup_2 _ i).
  - intros H x Hin. apply list_elem_of_In, list_elem_of_lookup in Hin as [i Hi]. eauto.
Qed.

Lemma allclose_spec r t n a b :
  square n a -> square n b ->
  allclose r t a b = true <->
  forall i j, (i < n)%nat -> (j < n)%nat ->
    isclose r t (mget a i j) (mget b i j) = true.
Proof.
  intros Ha Hb. unfold allclose, allclose_vec. rewrite forallb_zip_lookup. split.
  - intros H i j Hi Hj.
    destruct (square_mget n a i j Ha Hi Hj) as (ra & Hra & Hxa).
    destruct (square_mget n b i j Hb Hi Hj) as (rb & Hrb & Hxb).
    specialize (H i ra rb Hra Hrb). simpl in H.
    rewrite forallb_zip_lookup in H. by apply (H j).
  - intros H i ra rb Hra Hrb. simpl. apply forallb_zip_lookup.
    intros j x y Hx Hy. simpl.
    pose proof (lookup_lt_Some _ _ _ Hra) as Hi.
    pose proof (lookup_lt_Some _ _ _ Hx) as Hj.
    destruct (square_lookup n a i Ha) as (ra' & Hra' & Hla); [destruct Ha; lia|].
    assert (ra' = ra) as -> by congruence.
    rewrite <- (mget_lookup a i j ra x Hra Hx), <- (mget_lookup b i j rb y Hrb Hy).
    apply H; destruct Ha; lia.
Qed.

Lemma nth_mget (m : matrix) i j row :
  m !! i = Some row -> nth j row 0%Q = mget m i j.
Proof.
  intros H. unfold mget. rewrite H, nth_lookup. by destruct (row !! j).
Qed.

Lemma square_transpose n m : square n m -> square n (transpose m).
Proof.
  intros [Hl Hf]. unfold transpose. split.
  - by rewrite length_map, length_seq.
  - apply Forall_forall. intros row Hrow.
    apply list_elem_of_fmap in Hrow as (j & -> & _). by rewrite length_map.
Qed.

Lemma lookup_transpose n m j :
  square n m -> (j < n)%nat ->
  transpose m !! j = Some (map (fun row => nth j row 0%Q) m).
Proof.
  intros [Hl Hf] Hj. unfold transpose.
  rewrite list_lookup_fmap.
  assert (seq 0 (length m) !! j = Some j) as ->; [|done].
  apply lookup_seq. split; [done|lia].
Qed.

Lemma mget_transpose n m i j :
  square n m -> (i < n)%nat -> (j < n)%nat ->
  mget (transpose m) i j = mget m j i.
Proof.
  intros Hs Hi Hj.
  destruct (square_lookup n m j Hs Hj) as (row & Hrow & Hlen).
  apply (mget_lookup _ i j (map (fun row => nth i row 0%Q) m)).
  - by apply (lookup_transpose n).
  - rewrite list_lookup_fmap, Hrow. simpl. f_equal. by apply nth_mget.
Qed.

Lemma square_mat_neg n m : square n m -> square n (mat_neg m).
Proof.
  intros [Hl Hf]. unfold mat_neg. split.
  - by rewrite length_map.
  - apply Forall_forall. intros row Hrow.
    apply list_elem_of_fmap in Hrow as (r & -> & Hr). rewrite length_map.
    rewrite Forall_forall in Hf. by apply Hf.
Qed.

Lemma mget_mat_neg n m i j :
  square n m -> (i < n)%nat -> (j < n)%nat ->
  mget (mat_neg m) i j = (- mget m i j)%Q.
Proof.
  intros Hs Hi Hj.
  destruct (square_mget n m i j Hs Hi Hj) as (row & Hrow & Hx).
  apply (mget_lookup _ i j (map Qopp row)).
  - unfold mat_neg. by rewrite list_lookup_fmap, Hrow.
  - by rewrite list_lookup_fmap, Hx.
Qed.

Lemma lookup_diag n m i :
  square n m -> (i < n)%nat -> diag m !! i = Some (mget m i i).
Proof.
  intros Hs Hi. destruct (square_lookup n m i Hs Hi) as (row & Hrow & Hlen).
  unfold diag. rewrite list_lookup_imap, Hrow. simpl. f_equal.
  by apply nth_mget.
Qed.

Lemma lookup_net_flow n f i :
  square n (Flow.flow_matrix f) -> (i < n)%nat ->
  Flow.net_flow f !! i =
    Some (col_sum (Flow.flow_matrix f) i - row_sum (Flow.flow_matrix f) i)%Q.
Proof.
  intros Hs Hi. destruct (square_lookup n _ i Hs Hi) as (row & Hrow & Hlen).
  unfold Flow.net_flow, Flow.flow_in, Flow.flow_out.
  rewrite lookup_zip_with, !list_lookup_fmap, (lookup_transpose n), Hrow by done.
  simpl. unfold col_sum, row_sum. rewrite nth_lookup, Hrow. reflexivity.
Qed.

Lemma length_net_flow n f :
  square n (Flow.flow_matrix f) -> length (Flow.net_flow f) = n.
Proof.
  intros Hs. unfold Flow.net_flow, Flow.flow_in, Flow.flow_out.
  rewrite length_zip_with, !length_map.
  destruct (square_transpose n _ Hs) as [-> _]. destruct Hs as [-> _]. lia.
Qed.

(** [_conserves_flow] decides the three entry-wise conditions. *)
Lemma conserves_flow_spec f :
  let m := Flow.flow_matrix f in
  square (length m) m ->
  Flow._conserves_flow f = true <->
  skew_close m /\ diag_close m /\
  conserves m (Flow.sources f ++ Flow.sinks f).
Proof.
  intros m Hs. set (n := length m) in *. unfold Flow._conserves_flow. fold m.
  pose proof (square_mat_neg n _ (square_transpose n m Hs)) as Hs'.
  assert (allclose default_rtol Flow._EPS m (mat_neg (transpose m)) = true
          <-> skew_close m) as H1.
  { rewrite (allclose_spec _ _ n) by done. unfold skew_close. fold n.
    apply forall_proper; intros i. apply forall_proper; intros j.
    split; intros H Hi Hj; specialize (H Hi Hj).
    - apply isclose_spec in H.
      rewrite (mget_mat_neg n), (mget_transpose n) in H by (try apply square_transpose; done).
      rewrite Qabs_opp in H.
      assert (mget m i j - - mget m j i == mget m i j + mget m j i)%Q as E by ring.
      by rewrite E in H.
    - apply isclose_spec.
      rewrite (mget_mat_neg n), (mget_transpose n) by (try apply square_transpose; done).
      rewrite Qabs_opp.
      assert (mget m i j - - mget m j i == mget m i j + mget m j i)%Q as E by ring.
      by rewrite E. }
  assert (forallb (fun d => isclose default_rtol Flow._EPS d 0%Q) (diag m) = true
          <-> diag_close m) as H2.
  { rewrite forallb_lookup. unfold diag_close. fold n. split.
    - intros H i Hi. specialize (H i _ (lookup_diag n m i Hs Hi)).
      apply isclose_spec in H.
      assert (mget m i i - 0 == mget m i i)%Q as E by ring.
      rewrite E, tol_zero in H. exact H.
    - intros H i x Hx. pose proof (lookup_lt_Some _ _ _ Hx) as Hi.
      unfold diag in Hi. rewrite length_imap in Hi. fold n in Hi.
      rewrite (lookup_diag n m i Hs Hi) in Hx. injection Hx as <-.
      apply isclose_spec.
      assert (mget m i i - 0 == mget m i i)%Q as E by ring.
      rewrite E, tol_zero. exact (H i Hi). }
  assert (forallb (fun b => b)
            (imap (fun idx value =>
               if bool_decide (Z.of_nat idx ∈ Flow.sources f ++ Flow.sinks f)
               then true else isclose default_rtol Flow._EPS value 0%Q)
             (Flow.net_flow f)) = true
          <-> conserves m (Flow.sources f ++ Flow.sinks f)) as H3.
  { rewrite forallb_lookup. unfold conserves. fold n. split.
    - intros H i Hi Hni.
      specialize (H i (isclose default_rtol Flow._EPS
                         (col_sum m i - row_sum m i) 0%Q)).
      rewrite list_lookup_imap, (lookup_net_flow n) in H by done. simpl in H.
      rewrite bool_decide_eq_false_2 in H by done.
      specialize (H eq_refl). apply isclose_spec in H.
      assert (col_sum m i - row_sum m i - 0 == col_sum m i - row_sum m i)%Q as E by ring.
      rewrite E, tol_zero in H. exact H.
    - intros H i b Hb. pose proof (lookup_lt_Some _ _ _ Hb) as Hi.
      rewrite length_imap, (length_net_flow n) in Hi by done.
      rewrite list_lookup_imap, (lookup_net_flow n) in Hb by done. simpl in Hb.
      injection Hb as <-. case_bool_decide as Hin; [done|].
      fold m. apply isclose_spec.
      assert (col_sum m i - row_sum m i - 0 == col_sum m i - row_sum m i)%Q as E by ring.
      rewrite E, tol_zero. exact (H i Hi Hin). }
  destruct (allclose _ _ m _) eqn:E1; simpl.
  - destruct (forallb _ (diag m)) eqn:E2; simpl.
    + rewrite H3. tauto.
    + split; [done|]. intros (_ & Hd & _). apply H2 in Hd. done.
  - split; [done|]. intros (Hk & _). apply H1 in Hk. done.
Qed.


Lemma bounds_check_spec n (nodes : list Z) :
  existsb (fun node => (node <? 0) || (Z.of_nat n <=? node)) nodes = false
  <-> in_bounds n nodes.
Proof.
  unfold in_bounds. rewrite <- not_true_iff_false, existsb_exists. split.
  - intros H x Hx.
    destruct (Z.ltb_spec x 0) as [Hlt|Hge].
    { exfalso. apply H. exists x. split; [by apply list_elem_of_In|].
      apply orb_true_iff. left. by apply Z.ltb_lt. }
    destruct (Z.leb_spec (Z.of_nat n) x) as [Hle|Hlt]; [|lia].
    exfalso. apply H. exists x. split; [by apply list_elem_of_In|].
    apply orb_true_iff. right. by apply Z.leb_le.
  - intros H (x & Hx & Hb). apply list_elem_of_In, H in Hx.
    apply orb_true_iff in Hb as [Hb|Hb]; [apply Z.ltb_lt in Hb | apply Z.leb_le in Hb]; lia.
Qed.

Lemma Flow_init_spec m srcs snks f :
  Flow.__init__ m srcs snks = Ok f <->
  square (length m) m /\
  in_bounds (length m) (fromkeys srcs ++ fromkeys snks) /\
  Flow._conserves_flow (Flow.mk m (fromkeys srcs) (fromkeys snks)) = true /\
  f = Flow.mk m (fromkeys srcs) (fromkeys snks).
Proof.
  unfold Flow.__init__. simpl.
  destruct (is_square m) eqn:Hsq; simpl.
  - apply is_square_spec in Hsq.
    destruct (existsb _ _) eqn:Hb; simpl.
    + split; [done|]. intros (_ & Hin & _). apply bounds_check_spec in Hin. congruence.
    + apply bounds_check_spec in Hb.
      destruct (Flow._conserves_flow _) eqn:Hc; simpl.
      * split; [intros [= <-]; done | intros (_ & _ & _ & ->); done].
      * split; [done|]. intros (_ & _ & ? & _). done.
  - split; [done|]. intros (Hs & _). apply is_square_spec in Hs. congruence.
Qed.

Lemma Qsum_zero (l : list Q) : Forall (fun x => x = 0%Q) l -> Qsum l = 0%Q.
Proof. induction 1 as [|x l -> _ IH]; [done|]. simpl. by rewrite IH. Qed.

Lemma col_sum_zeros n i : col_sum (zeros n) i = 0%Q.
Proof.
  unfold col_sum, zeros. apply Qsum_zero, Forall_forall.
  intros x Hx. apply list_elem_of_fmap in Hx as (row & -> & Hrow).
  apply elem_of_replicate in Hrow as [-> _].
  rewrite nth_lookup. destruct (replicate n 0%Q !! i) eqn:E; [|done].
  by apply lookup_replicate in E as [-> _].
Qed.

Lemma row_sum_zeros n i : row_sum (zeros n) i = 0%Q.
Proof.
  unfold row_sum, zeros. apply Qsum_zero, Forall_forall. intros x Hx.
  rewrite nth_lookup in Hx.
  destruct (replicate n (replicate n 0%Q) !! i) eqn:E; simpl in Hx.
  - apply lookup_replicate in E as [-> _]. by apply elem_of_replicate in Hx as [-> _].
  - by apply elem_of_nil in Hx.
Qed.

Lemma zero_flow_ok n srcs snks :
  in_bounds n (fromkeys srcs ++ fromkeys snks) ->
  Flow.zero_flow n srcs snks =
    Ok (Flow.mk (zeros n) (fromkeys srcs) (fromkeys snks)).
Proof.
  intros Hb. unfold Flow.zero_flow. apply Flow_init_spec.
  assert (length (zeros n) = n) as Hl by apply square_zeros.
  rewrite Hl. split; [apply square_zeros|]. split; [done|]. split; [|done].
  apply conserves_flow_spec; simpl; rewrite ?Hl; [apply square_zeros|].
  split; [|split].
  - intros i j _ _. by rewrite !mget_zeros.
  - intros i _. by rewrite mget_zeros.
  - intros i _ _. by rewrite col_sum_zeros, row_sum_zeros.
Qed.

(** ** The loop of Edmonds-Karp *)

Section loop.
Variable N : Network.t.
Variable source sink : Z.
Let n := n_nodes N.
Hypothesis Hnet : is_network N.
Hypothesis Hsource : 0 <= source < Z.of_nat n.
Hypothesis Hsink : 0 <= sink < Z.of_nat n.
Hypothesis Hdiff : source <> sink.

Lemma zero_flow_inv :
  ek_inv N source sink (Flow.mk (zeros n) [source] [sink]).
Proof.
  destruct (is_network_inv N Hnet) as (Hsq & Hnn & _).
  constructor; simpl; try done.
  - apply square_zeros.
  - intros i j Hi Hj. rewrite mget_zeros. by apply Hnn.
  - intros i j _ _. by rewrite !mget_zeros.
  - intros i _ _ _. by rewrite row_sum_zeros.
Qed.

Lemma augments_inv k f f' :
  ek_inv N source sink f -> augments N source sink k f f' ->
  ek_inv N source sink f'.
Proof.
  destruct (is_network_inv N Hnet) as (Hsq & _ & _).
  intros Hinv Haug. induction Haug as [|k f f1 f2 Hit Haug IH]; [done|].
  apply IH.
  destruct (ek_iteration_spec N source sink Hsq Hsource Hsink Hdiff f Hinv)
    as [[Hc _]|(f' & Hc & Hinv' & _)]; congruence.
Qed.

(** The loop with budget [k]: converged after fewer than [k] augmenting
    passes, or [k] augmenting passes and [ConvergenceFailure]. *)
Lemma ek_loop_spec k : forall f,
  ek_inv N source sink f ->
  (exists j f', (j < k)%nat /\ ek_loop k N source sink f = Ok f' /\
     augments N source sink j f f' /\
     ek_iteration N source sink f' = Ok (true, f') /\
     ~ reachable (residual N f') n (Z.to_nat source) (Z.to_nat sink)) \/
  (ek_loop k N source sink f = Raise ConvergenceFailure /\
   exists f', augments N source sink k f f').
Proof.
  destruct (is_network_inv N Hnet) as (Hsq & _ & _).
  induction k as [|k IH]; intros f Hinv.
  - right. split; [done|]. exists f. constructor.
  - simpl.
    destruct (ek_iteration_spec N source sink Hsq Hsource Hsink Hdiff f Hinv)
      as [[Hc Hnr]|(f1 & Hc & Hinv1 & _)]; rewrite Hc, bind_Ok; simpl.
    + left. exists 0%nat, f. split; [lia|]. split; [done|].
      split; [constructor|]. done.
    + destruct (IH f1 Hinv1) as [(j & f' & Hj & Hrun & Haug & Hlast)|[Hrun [f' Haug]]].
      * left. exists (S j), f'. split; [lia|]. split; [done|].
        split; [by econstructor|done].
      * right. split; [done|]. exists f'. by econstructor.
Qed.
End loop.

(** ** A converged flow is a maximum flow *)

Lemma sum_over_cons x l h : sum_over (x :: l) h = (h x + sum_over l h)%Q.
Proof. reflexivity. Qed.

Lemma sum_over_ext l h g :
  (forall x, x ∈ l -> (h x == g x)%Q) -> (sum_over l h == sum_over l g)%Q.
Proof.
  induction l as [|x l IH]; intros H; [reflexivity|].
  rewrite !sum_over_cons, IH, (H x); [reflexivity|by left|].
  intros y Hy. apply H. by right.
Qed.

Lemma sum_over_le l h g :
  (forall x, x ∈ l -> (h x <= g x)%Q) -> (sum_over l h <= sum_over l g)%Q.
Proof.
  induction l as [|x l IH]; intros H; [apply Qle_refl|].
  rewrite !sum_over_cons. apply Qplus_le_compat; [apply H; by left|].
  apply IH. intros y Hy. apply H. by right.
Qed.

Lemma sum_over_plus l h g :
  (sum_over l (fun x => h x + g x) == sum_over l h + sum_over l g)%Q.
Proof.
  induction l as [|x l IH]; [reflexivity|].
  rewrite !sum_over_cons, IH. ring.
Qed.

Lemma sum_over_opp l h :
  (sum_over l (fun x => - h x) == - sum_over l h)%Q.
Proof.
  induction l as [|x l IH]; [reflexivity|].
  rewrite !sum_over_cons, IH. ring.
Qed.

Lemma sum_over_zero l h :
  (forall x, x ∈ l -> (h x == 0)%Q) -> (sum_over l h == 0)%Q.
Proof.
  induction l as [|x l IH]; intros H; [reflexivity|].
  rewrite sum_over_cons, IH, (H x); [reflexivity|by left|].
  intros y Hy. apply H. by right.
Qed.

Lemma sum_over_swap l1 l2 (h : nat -> nat -> Q) :
  (sum_over l1 (fun x => sum_over l2 (fun y => h x y)) ==
   sum_over l2 (fun y => sum_over l1 (fun x => h x y)))%Q.
Proof.
  induction l1 as [|x l1 IH].
  - simpl. symmetry. apply sum_over_zero. intros y _. reflexivity.
  - rewrite sum_over_cons, IH.
    rewrite <- sum_over_plus. apply sum_over_ext. intros y _.
    rewrite sum_over_cons. reflexivity.
Qed.

Lemma sum_over_split (P : nat -> bool) l h :
  (sum_over l h ==
   sum_over (List.filter P l) h + sum_over (List.filter (fun x => negb (P x)) l) h)%Q.
Proof.
  induction l as [|x l IH]; [reflexivity|].
  simpl. destruct (P x); simpl; rewrite !sum_over_cons, IH; ring.
Qed.

Lemma sum_over_single l h s :
  NoDup l -> s ∈ l -> (forall x, x ∈ l -> x <> s -> (h x == 0)%Q) ->
  (sum_over l h == h s)%Q.
Proof.
  induction 1 as [|x l Hx Hnd IH]; intros Hs Hz; [by apply elem_of_nil in Hs|].
  rewrite sum_over_cons.
  apply elem_of_cons in Hs as [->|Hs].
  - rewrite sum_over_zero; [ring|]. intros y Hy. apply Hz; [by right|].
    intros ->. done.
  - rewrite IH, (Hz x); [ring|by left| |done|].
    + intros ->. done.
    + intros y Hy. apply Hz. by right.
Qed.

Lemma map_nth_seq (row : list Q) :
  map (fun j => nth j row 0%Q) (seq 0 (length row)) = row.
Proof.
  apply list_eq. intros i. rewrite list_lookup_fmap.
  destruct (decide (i < length row)%nat) as [Hi|Hi].
  - rewrite lookup_seq_lt by done. simpl. rewrite nth_lookup.
    destruct (lookup_lt_is_Some_2 row i Hi) as [x ->]. reflexivity.
  - rewrite lookup_seq_ge by lia. simpl. symmetry. apply lookup_ge_None_2. lia.
Qed.

Lemma row_sum_sum_over n m i :
  square n m -> (i < n)%nat ->
  row_sum m i = sum_over (seq 0 n) (fun j => mget m i j).
Proof.
  intros Hs Hi. destruct (square_lookup n m i Hs Hi) as (row & Hrow & Hlen).
  unfold row_sum, sum_over. rewrite nth_lookup, Hrow. simpl.
  rewrite <- Hlen. rewrite <- (map_nth_seq row) at 1.
  f_equal. apply map_ext. intros j. by apply nth_mget.
Qed.

Lemma elem_of_inside n q x : x ∈ inside n q <-> (x < n)%nat /\ x ∈ q.
Proof.
  unfold inside. rewrite list_elem_of_In, filter_In, in_seq, bool_decide_eq_true.
  split; intros [? ?]; split; try done; lia.
Qed.

Lemma elem_of_outside n q x : x ∈ outside n q <-> (x < n)%nat /\ x ∉ q.
Proof.
  unfold outside. rewrite list_elem_of_In, filter_In, in_seq, negb_true_iff,
    bool_decide_eq_false.
  split; intros [? ?]; split; try done; lia.
Qed.

Lemma NoDup_inside n q : NoDup (inside n q).
Proof. apply NoDup_ListNoDup, List.NoDup_filter, seq_NoDup. Qed.

Section cut.
Variable n : nat.
Variable A : matrix.
Variable s t : nat.
Variable q : list nat.
Hypothesis Hs : (s < n)%nat.
Hypothesis Hsq : s ∈ q.
Hypothesis Htq : t ∉ q.

Lemma skew_inside_zero g :
  square n g -> skew n g ->
  (sum_over (inside n q) (fun u => sum_over (inside n q) (fun v => mget g u v))
   == 0)%Q.
Proof.
  intros Hg Hk.
  set (X := sum_over (inside n q)
              (fun u => sum_over (inside n q) (fun v => mget g u v))).
  assert (X == - X)%Q as HX; [|lra].
  unfold X at 1.
  rewrite (sum_over_ext _ _ (fun u => - sum_over (inside n q) (fun v => mget g v u))%Q).
  - rewrite sum_over_opp. apply Qopp_comp. apply sum_over_swap.
  - intros u Hu. rewrite <- sum_over_opp. apply sum_over_ext. intros v Hv.
    apply Hk; [by apply elem_of_inside in Hu as [? _] | by apply elem_of_inside in Hv as [? _]].
Qed.

(** The value of a feasible flow is its flow across any cut that separates
    the terminals. *)
Lemma value_across g :
  feasible n A s t g -> (row_sum g s == across n q g)%Q.
Proof.
  intros (Hg & Hk & _ & Hc).
  assert (sum_over (inside n q) (fun u => row_sum g u) == row_sum g s)%Q as <-.
  { apply sum_over_single; [apply NoDup_inside|by apply elem_of_inside|].
    intros x Hx Hne. apply elem_of_inside in Hx as [Hxn Hxq].
    apply Hc; [done|done|]. intros ->. done. }
  rewrite (sum_over_ext _ _
    (fun u => sum_over (inside n q) (fun v => mget g u v) +
              sum_over (outside n q) (fun v => mget g u v))%Q).
  - rewrite sum_over_plus, (skew_inside_zero g Hg Hk). unfold across. ring.
  - intros u Hu. apply elem_of_inside in Hu as [Hun _].
    rewrite (row_sum_sum_over n) by done.
    apply (sum_over_split (fun v => bool_decide (v ∈ q))).
Qed.

Lemma across_le g g' :
  (forall u v, u ∈ q -> v ∉ q -> (u < n)%nat -> (v < n)%nat ->
     (mget g u v <= mget g' u v)%Q) ->
  (across n q g <= across n q g')%Q.
Proof.
  intros H. unfold across. apply sum_over_le. intros u Hu.
  apply sum_over_le. intros v Hv.
  apply elem_of_inside in Hu as [? ?]. apply elem_of_outside in Hv as [? ?].
  by apply H.
Qed.

(** A feasible flow that fills every edge leaving [q] has the largest
    value among the feasible flows. *)
Lemma saturated_cut_maximal f g :
  feasible n A s t f -> feasible n A s t g ->
  (forall u v, u ∈ q -> v ∉ q -> (u < n)%nat -> (v < n)%nat ->
     (mget A u v <= mget f u v)%Q) ->
  (row_sum g s <= row_sum f s)%Q.
Proof.
  intros Hf Hg Hsat.
  rewrite (value_across g Hg), (value_across f Hf).
  apply Qle_trans with (across n q A).
  - apply across_le. intros u v _ _ Hu Hv. by apply Hg.
  - by apply across_le.
Qed.
End cut.


Lemma bfs_order_reachable adj n root tr q :
  length tr = n -> bfs_order adj root tr q ->
  forall x, x ∈ q -> reachable adj n root x.
Proof.
  intros Hlen. induction 1 as [Hr|q y p Hq IH Hy Hp Hty He]; intros x Hx.
  - apply list_elem_of_singleton in Hx as ->. constructor.
  - apply elem_of_app in Hx as [Hx|Hx]; [by apply IH|].
    apply list_elem_of_singleton in Hx as ->.
    apply (reach_step _ _ _ p); [by apply IH|done|].
    apply lookup_lt_Some in Hty. lia.
Qed.

Lemma value_row_sum N source sink f :
  ek_inv N source sink f -> 0 <= source < Z.of_nat (n_nodes N) ->
  exists v, Flow.value f = Ok v /\
    (v == row_sum (Flow.flow_matrix f) (Z.to_nat source))%Q.
Proof.
  intros Hinv Hs. unfold Flow.value. rewrite (ek_sources _ _ _ _ Hinv).
  destruct (square_lookup _ _ (Z.to_nat source) (ek_square _ _ _ _ Hinv))
    as (row & Hrow & Hlen); [lia|].
  assert (py_index (Flow.flow_out f) source = Ok (Qsum row)) as Hidx.
  { rewrite <- (Z2Nat.id source) by lia. apply py_index_nat.
    unfold Flow.flow_out. by rewrite list_lookup_fmap, Hrow. }
  simpl. rewrite Hidx. simpl. eexists. split; [reflexivity|].
  unfold row_sum. rewrite nth_lookup, Hrow. simpl. ring.
Qed.

Section maximum.
Variable N : Network.t.
Variable source sink : Z.
Let n := n_nodes N.
Let A := adjacency_matrix N.
Hypothesis Hnet : is_network N.
Hypothesis Hsource : 0 <= source < Z.of_nat n.
Hypothesis Hsink : 0 <= sink < Z.of_nat n.
Hypothesis Hdiff : source <> sink.

Lemma ek_inv_feasible f :
  ek_inv N source sink f ->
  feasible n A (Z.to_nat source) (Z.to_nat sink) (Flow.flow_matrix f).
Proof.
  intros Hinv. split; [apply Hinv|]. split; [apply Hinv|]. split; [apply Hinv|].
  intros i Hi Hns Hnt. apply (ek_conserved _ _ _ _ Hinv); [done|lia|lia].
Qed.

(** A flow kept by the loop whose residual network does not connect the
    terminals is a maximum flow: the nodes the search reaches form a cut
    whose leaving edges are all full. *)
Lemma converged_is_maximum f :
  ek_inv N source sink f ->
  ~ reachable (residual N f) n (Z.to_nat source) (Z.to_nat sink) ->
  is_maximum_flow N source sink f.
Proof.
  intros Hinv Hunreach.
  destruct (is_network_inv N Hnet) as (Hsq & _ & _). fold n A in Hsq.
  split; [by apply ek_inv_feasible|].
  split; [by apply (value_row_sum N source sink)|].
  intros g Hg.
  pose proof (residual_square N source sink Hsq f Hinv) as Hrsq.
  assert (n_nodes (mk (residual N f)) = n) as Hrn by apply Hrsq.
  destruct (bfs_returns (mk (residual N f)) source) as (tr & q & _ & Hpost).
  { by rewrite Hrn. } { by rewrite Hrn. }
  simpl adjacency_matrix in Hpost. rewrite Hrn in Hpost.
  destruct Hpost as [Hlen Hord Hunr Hcl Hql].
  apply (saturated_cut_maximal n A (Z.to_nat source) (Z.to_nat sink) q);
    try done.
  - lia.
  - by eapply bfs_order_root.
  - intros Hin. apply Hunreach. by apply (bfs_order_reachable _ _ _ tr q).
  - by apply ek_inv_feasible.
  - intros u v Hu Hv Hun Hvn.
    assert (~ edge (residual N f) u v) as Hne.
    { intros He. apply Hv. by apply (Hcl u v). }
    unfold edge in Hne.
    rewrite (mget_residual N source sink Hsq f u v Hinv Hun Hvn) in Hne.
    destruct (decide (u = v)) as [->|_]; [done|].
    apply Qnot_lt_le in Hne. fold A in Hne. lra.
Qed.
End maximum.

(** ** Further facts used by the claims *)

Lemma matrix_ext n (a b : matrix) :
  square n a -> square n b ->
  (forall i j, (i < n)%nat -> (j < n)%nat -> mget a i j = mget b i j) ->
  a = b.
Proof.
  intros Ha Hb H. apply list_eq. intros i.
  destruct (decide (i < n)%nat) as [Hi|Hi].
  - destruct (square_lookup n a i Ha Hi) as (ra & Hra & Hla).
    destruct (square_lookup n b i Hb Hi) as (rb & Hrb & Hlb).
    rewrite Hra, Hrb. f_equal. apply list_eq. intros j.
    destruct (decide (j < n)%nat) as [Hj|Hj].
    + destruct (lookup_lt_is_Some_2 ra j) as [x Hx]; [lia|].
      destruct (lookup_lt_is_Some_2 rb j) as [y Hy]; [lia|].
      rewrite Hx, Hy. f_equal.
      rewrite <- (mget_lookup a i j ra x Hra Hx), <- (mget_lookup b i j rb y Hrb Hy).
      by apply H.
    + rewrite !lookup_ge_None_2; [done|lia|lia].
  - destruct Ha as [Ha _], Hb as [Hb _].
    rewrite !lookup_ge_None_2; [done|lia|lia].
Qed.

Lemma Qplus_0_l_eq (x : Q) : (0 + x)%Q = x.
Proof. destruct x as [p q]. unfold Qplus. simpl. by rewrite Z.mul_1_r. Qed.

Lemma Qplus_0_r_eq (x : Q) : (x + 0)%Q = x.
Proof.
  destruct x as [p q]. unfold Qplus. simpl.
  by rewrite Z.mul_1_r, Z.add_0_r, Pos.mul_1_r.
Qed.

Lemma zero_pad_square n a : square n a -> zero_pad n a = a.
Proof.
  intros [Hl Hf]. unfold zero_pad. rewrite Hl, Nat.sub_diag. simpl.
  rewrite app_nil_r. rewrite <- (map_id a) at 2. apply map_ext_in.
  intros row Hrow. rewrite Forall_forall in Hf.
  rewrite (Hf row) by (by apply list_elem_of_In). rewrite Nat.sub_diag. simpl.
  by rewrite app_nil_r.
Qed.

Lemma square_map (g : Q -> Q) n m : square n m -> square n (map (map g) m).
Proof.
  intros [Hl Hf]. split.
  - by rewrite length_map.
  - apply Forall_forall. intros row Hrow.
    apply list_elem_of_fmap in Hrow as (r & -> & Hr). rewrite length_map.
    rewrite Forall_forall in Hf. by apply Hf.
Qed.

Lemma mget_map (g : Q -> Q) n m i j :
  square n m -> (i < n)%nat -> (j < n)%nat ->
  mget (map (map g) m) i j = g (mget m i j).
Proof.
  intros Hs Hi Hj.
  destruct (square_mget n m i j Hs Hi Hj) as (row & Hrow & Hx).
  apply (mget_lookup _ i j (map g row)).
  - by rewrite list_lookup_fmap, Hrow.
  - by rewrite list_lookup_fmap, Hx.
Qed.

Lemma map_length_const {A} (l : list (list A)) k :
  Forall (fun row => length row = k) l -> map length l = replicate (length l) k.
Proof. induction 1 as [|row l Hr _ IH]; [done|]. simpl. by rewrite Hr, IH. Qed.

Lemma square_shape n m : square n m -> map length m = replicate n n.
Proof. intros [Hl Hf]. rewrite <- Hl at 1. by apply map_length_const. Qed.

Lemma path_edges_cover (path : list Z) x :
  (2 <= length path)%nat -> x ∈ path ->
  exists u v, (u, v) ∈ path_edges path /\ (x = u \/ x = v).
Proof.
  induction path as [|a path IH]; intros Hlen Hx; [simpl in Hlen; lia|].
  destruct path as [|b path]; [simpl in Hlen; lia|].
  rewrite path_edges_cons.
  apply elem_of_cons in Hx as [->|Hx].
  - exists a, b. split; [by left|by left].
  - destruct path as [|c path].
    + apply list_elem_of_singleton in Hx as ->.
      exists a, b. split; [by left|by right].
    + destruct (IH ltac:(simpl; lia) Hx) as (u & v & Hin & Huv).
      exists u, v. split; [by right|done].
Qed.

Lemma send_edges_rejects (es : list (Z * Z)) amount : forall m,
  (exists u v, (u, v) ∈ es /\
     (u < 0 \/ Z.of_nat (length m) <= u \/ v < 0 \/ Z.of_nat (length m) <= v)) ->
  snd (Flow.send_edges m es amount) = Raise PathInvalidIndex.
Proof.
  induction es as [|[u v] es IH]; intros m (u' & v' & Hin & Hbad).
  - by apply elem_of_nil in Hin.
  - simpl.
    destruct ((u <? 0) || (v <? 0) || (Z.of_nat (length m) <=? u)
              || (Z.of_nat (length m) <=? v)) eqn:Hchk; [done|].
    apply IH. exists u', v'. unfold madd. rewrite !length_alter.
    split; [|done].
    apply elem_of_cons in Hin as [[= -> ->]|Hin]; [|done].
    exfalso. apply orb_false_iff in Hchk as [Hchk H4].
    apply orb_false_iff in Hchk as [Hchk H3].
    apply orb_false_iff in Hchk as [H1 H2].
    apply Z.ltb_ge in H1, H2. apply Z.leb_gt in H3, H4. lia.
Qed.

Lemma ek_loops_agree k : forall G s t f,
  same_outcome (Network.ek_loop k G s t f) (ek_fn_loop k G s t f).
Proof.
  induction k as [|k IH]; intros G s t f; [exact I|].
  simpl. change (ek_fn_iteration G s t f) with (Network.ek_iteration G s t f).
  destruct (Network.ek_iteration G s t f) as [[b f']|e|]; simpl.
  - destruct b; [done|apply IH].
  - destruct e; done.
  - exact I.
Qed.

Lemma edmonds_karp_unfold N source sink maxiter :
  source <> sink ->
  0 <= source < Z.of_nat (n_nodes N) ->
  0 <= sink < Z.of_nat (n_nodes N) ->
  Network.edmonds_karp N source sink maxiter =
    ek_loop (Z.to_nat maxiter) N source sink
      (Flow.mk (zeros (n_nodes N)) [source] [sink]).
Proof.
  intros Hne Hs Ht. unfold Network.edmonds_karp.
  destruct (Z.eqb_spec source sink); [done|].
  destruct (Z.ltb_spec source 0); [lia|]. destruct (Z.ltb_spec sink 0); [lia|].
  destruct (Z.leb_spec (Z.of_nat (n_nodes N)) source); [lia|].
  destruct (Z.leb_spec (Z.of_nat (n_nodes N)) sink); [lia|]. simpl.
  rewrite zero_flow_ok; [done|].
  intros x. change (fromkeys [source] ++ fromkeys [sink]) with [source; sink].
  intros [->|[->|[]%elem_of_nil]%elem_of_cons]%elem_of_cons; done.
Qed.

Lemma net3_is_network : is_network (Network.mk net3).
Proof. exists (Some net3), None. reflexivity. Defined.

Lemma amounts_check_spec (d : list (Z * Q)) :
  existsb (fun p => Qltb (snd p) 0%Q) d = false <-> amounts_nonneg d.
Proof.
  unfold amounts_nonneg. rewrite <- not_true_iff_false, existsb_exists. split.
  - intros H p Hp. apply Qltb_ge.
    destruct (Qltb (snd p) 0%Q) eqn:E; [|done].
    exfalso. apply H. exists p. split; [by apply list_elem_of_In|done].
  - intros H (p & Hp & Hlt). apply list_elem_of_In, H in Hp.
    apply Qltb_lt in Hlt. lra.
Qed.

Lemma zero_network_ok n :
  Network.__init__ (Some (zeros n)) None = Ok (Network.mk (zeros n)).
Proof.
  rewrite (Network_init_ok n); [|apply square_zeros|].
  - do 2 f_equal. apply (matrix_ext n).
    + apply square_fill_diagonal, square_zeros.
    + apply square_zeros.
    + intros i j Hi Hj. rewrite (mget_fill_diagonal n), mget_zeros; try done.
      * by destruct (decide (i = j)).
      * apply square_zeros.
  - intros i j _ _. by rewrite mget_zeros.
Qed.

Lemma allclose_refl r t n (a : matrix) :
  (0 <= r)%Q -> (0 <= t)%Q -> square n a -> allclose r t a a = true.
Proof.
  intros Hr Ht Hs. apply (allclose_spec r t n); try done.
  intros i j _ _. apply isclose_spec.
  assert (mget a i j - mget a i j == 0)%Q as -> by ring.
  change (Qabs 0) with 0%Q.
  assert (0 <= r * Qabs (mget a i j))%Q as Hn
    by (apply Qmult_le_0_compat; [done|apply Qabs_nonneg]).
  lra.
Qed.

Lemma edmonds_karp_inv N source sink maxiter f :
  is_network N ->
  source <> sink ->
  0 <= source < Z.of_nat (n_nodes N) ->
  0 <= sink < Z.of_nat (n_nodes N) ->
  Network.edmonds_karp N source sink maxiter = Ok f ->
  ek_inv N source sink f.
Proof.
  intros Hnet Hne Hs Ht Hrun.
  rewrite edmonds_karp_unfold in Hrun by done.
  destruct (ek_loop_spec N source sink Hnet Hs Ht Hne (Z.to_nat maxiter) _
              (zero_flow_inv N source sink Hnet))
    as [(k & f' & _ & Hrun' & Haug & _)|[Hrun' _]]; [|congruence].
  assert (f' = f) as -> by congruence.
  eapply augments_inv; eauto. by apply zero_flow_inv.
Qed.

Lemma edmonds_karp_fn_unfold G s t mi :
  0 <= s < Z.of_nat (n_nodes G) ->
  0 <= t < Z.of_nat (n_nodes G) ->
  edmonds_karp G s t mi =
    ek_fn_loop (Z.to_nat mi) G s t (Flow.mk (zeros (n_nodes G)) [s] [t]).
Proof.
  intros Hs Ht. unfold edmonds_karp.
  rewrite zero_flow_ok; [done|].
  intros x. change (fromkeys [s] ++ fromkeys [t]) with [s; t].
  intros [->|[->|[]%elem_of_nil]%elem_of_cons]%elem_of_cons; done.
Qed.

Lemma ek_fn_loop_exhausted G s t k f f' :
  augments G s t k f f' ->
  ek_fn_loop k G s t f = Raise (TubePlanningError EmptyString).
Proof.
  induction 1 as [|k f f1 f2 Hit Haug IH]; [done|].
  simpl. change (ek_fn_iteration G s t f) with (ek_iteration G s t f).
  by rewrite Hit, bind_Ok.
Qed.

Lemma ek_fn_loop_converged G s t j f f' :
  augments G s t j f f' ->
  ek_iteration G s t f' = Ok (true, f') ->
  forall k, (j < k)%nat -> ek_fn_loop k G s t f = Ok f'.
Proof.
  induction 1 as [f|j f f1 f2 Hit Haug IH]; intros Hlast k Hk.
  - destruct k as [|k]; [lia|]. simpl.
    change (ek_fn_iteration G s t f) with (ek_iteration G s t f).
    by rewrite Hlast, bind_Ok.
  - destruct k as [|k]; [lia|]. simpl.
    change (ek_fn_iteration G s t f) with (ek_iteration G s t f).
    rewrite Hit, bind_Ok. simpl. apply IH; [done|lia].
Qed.

(** [capacity_constraint] accepts a square, skew-symmetric flow with
    [|F| <= A]. *)
Lemma capacity_constraint_ok N f :
  let n := n_nodes N in
  let A := adjacency_matrix N in
  let F := Flow.flow_matrix f in
  square n A -> square n F -> skew n F ->
  (forall i j, (i < n)%nat -> (j < n)%nat -> (Qabs (mget F i j) <= mget A i j)%Q) ->
  Network.capacity_constraint N f = Ok true.
Proof.
  intros n A F HA HF Hk Hcap. unfold capacity_constraint. fold A F.
  rewrite (square_shape n F), (square_shape n A) by done.
  rewrite bool_decide_eq_true_2 by done. simpl.
  assert (allclose default_rtol Flow._EPS F (mat_neg (transpose F)) = true) as ->.
  { apply (allclose_spec _ _ n); try done.
    - by apply square_mat_neg, square_transpose.
    - intros i j Hi Hj. apply isclose_spec.
      rewrite (mget_mat_neg n), (mget_transpose n) by (try apply square_transpose; done).
      assert (mget F i j - - mget F j i == 0)%Q as E
        by (pose proof (Hk i j Hi Hj); lra).
      rewrite E. change (Qabs 0) with 0%Q.
      assert (0 <= default_rtol * Qabs (- mget F j i))%Q as Hn
        by (apply Qmult_le_0_compat; [done|apply Qabs_nonneg]).
      unfold Flow._EPS. lra. }
  simpl.
  assert (existsb (existsb (fun d => Qltb Flow._EPS d))
            (mat_sub (map (map Qabs) F) A) = false) as ->; [|done].
  apply (existsb2_false _ n).
  - apply square_zip_with; [by apply square_map|done].
  - intros i j Hi Hj. apply Qltb_ge. unfold mat_sub.
    rewrite (mget_zip_with Qminus n), (mget_map Qabs n); try done;
      [|by apply square_map].
    specialize (Hcap i j Hi Hj). unfold Flow._EPS. lra.
Qed.



(** ** The examples are whole *)

Lemma whole_matrix_2 (a b c d : Z) i j :
  whole (mget [[inject_Z a; inject_Z b]; [inject_Z c; inject_Z d]] i j).
Proof.
  destruct i as [|[|i]], j as [|[|j]]; unfold mget; simpl;
    try (by exists 0); by eexists.
Qed.

Lemma net3_whole : whole_capacities (Network.mk net3).
Proof.
  split; [intros i j; apply (whole_matrix_2 0 3 3 0)|].
  vm_compute. discriminate.
Qed.

Lemma whole_amounts_1 (node k : Z) :
  0 <= k <= 2 ^ 52 -> whole_amounts [(node, inject_Z k)].
Proof.
  intros Hk. split.
  - intros p ->%list_elem_of_singleton. by exists k.
  - unfold total, exact_range. remember (2 ^ 52) as B eqn:HB in *.
    assert (inject_Z k <= inject_Z B)%Q as H
      by (rewrite <- Zle_Qle; apply Hk).
    simpl. lra.
Qed.

(** ** Facts used by the further properties *)

(** ** Breadth-first search, as seen by a caller *)

Lemma bfs_order_pred adj root tr q x :
  bfs_order adj root tr q -> x ∈ q ->
  exists p, p ∈ q /\ tr !! x = Some (Z.of_nat p) /\ (x <> root -> edge adj p x).
Proof.
  induction 1 as [Hr|q y p Hq IH Hy Hp Hty He]; intros Hx.
  - apply list_elem_of_singleton in Hx as ->. exists root.
    split; [by left|]. by split.
  - apply elem_of_app in Hx as [Hx|Hx].
    + destruct (IH Hx) as (p' & Hp' & Ht & Hedge). exists p'.
      split; [apply elem_of_app; by left|]. by split.
    + apply list_elem_of_singleton in Hx as ->. exists p.
      split; [apply elem_of_app; by left|]. by split.
Qed.

Lemma bfs_post_complete adj n root tr q x :
  bfs_post adj n root tr q -> reachable adj n root x -> x ∈ q.
Proof.
  intros [Hlen Hord Hunr Hcl Hql]. induction 1 as [|u w Hu IH He Hw].
  - by eapply bfs_order_root.
  - by apply (Hcl u w).
Qed.

Lemma bfs_order_self adj root tr q :
  bfs_order adj root tr q -> tr !! root = Some (Z.of_nat root).
Proof. by induction 1. Qed.

(** ** The path to a reached node *)

Lemma tree_path_NoDup adj root x p : tree_path adj root x p -> NoDup p.
Proof.
  induction 1 as [|u v p Hp IH Hv He].
  - apply NoDup_singleton.
  - apply NoDup_app. split; [done|]. split; [|apply NoDup_singleton].
    intros y Hy ->%list_elem_of_singleton. done.
Qed.

(** ** Terminals of a Flow *)

Lemma elem_of_dedup seen l x : x ∈ dedup seen l <-> x ∈ l /\ x ∉ seen.
Proof.
  revert seen. induction l as [|y l IH]; intros seen; simpl.
  - split; [by intros ?%elem_of_nil|by intros [?%elem_of_nil _]].
  - case_bool_decide as Hy.
    + rewrite IH, elem_of_cons. split; [tauto|].
      intros [[->|Hx] Hs]; [done|tauto].
    + rewrite !elem_of_cons, IH, elem_of_cons. split.
      * intros [->|[Hx Hs]]; [tauto|]. tauto.
      * intros [[->|Hx] Hs]; [tauto|].
        destruct (decide (x = y)); tauto.
Qed.

Lemma elem_of_fromkeys l x : x ∈ fromkeys l <-> x ∈ l.
Proof.
  unfold fromkeys. rewrite elem_of_dedup. split; [tauto|].
  intros Hx. split; [done|]. by intros ?%elem_of_nil.
Qed.

Lemma NoDup_dedup seen l : NoDup (dedup seen l).
Proof.
  revert seen. induction l as [|y l IH]; intros seen; simpl.
  - apply NoDup_nil_2.
  - case_bool_decide as Hy; [apply IH|].
    apply NoDup_cons. split; [|apply IH].
    rewrite elem_of_dedup. intros [_ Hn]. apply Hn. by left.
Qed.

Lemma sublist_dedup seen l : dedup seen l `sublist_of` l.
Proof.
  revert seen. induction l as [|y l IH]; intros seen; simpl; [done|].
  case_bool_decide as Hy.
  - by apply sublist_cons.
  - by apply sublist_skip.
Qed.

Lemma dedup_NoDup seen l :
  NoDup l -> (forall x, x ∈ l -> x ∉ seen) -> dedup seen l = l.
Proof.
  revert seen. induction l as [|y l IH]; intros seen Hnd Hs; simpl; [done|].
  apply NoDup_cons in Hnd as [Hy Hnd].
  rewrite bool_decide_eq_false_2 by (apply Hs; by left).
  f_equal. apply IH; [done|].
  intros x Hx [->|Hx']%elem_of_cons; [done|].
  apply (Hs x); [by right|done].
Qed.

Lemma fromkeys_NoDup l : NoDup l -> fromkeys l = l.
Proof.
  intros Hnd. apply dedup_NoDup; [done|]. intros x _ ?%elem_of_nil. done.
Qed.

Lemma fromkeys_idemp l : fromkeys (fromkeys l) = fromkeys l.
Proof. apply fromkeys_NoDup, NoDup_dedup. Qed.

Lemma in_bounds_fromkeys n srcs snks :
  in_bounds n (fromkeys srcs ++ fromkeys snks) <-> in_bounds n (srcs ++ snks).
Proof.
  unfold in_bounds. split; intros H x Hx; apply H;
    rewrite elem_of_app in *; rewrite ?elem_of_fromkeys in *; done.
Qed.

(** ** The zero flow *)

Lemma value_zero_matrix n srcs snks :
  in_bounds n (srcs ++ snks) ->
  Flow.value (Flow.mk (zeros n) srcs snks) = Ok 0%Q.
Proof.
  intros Hb.
  assert (forall l : list Q, Forall (fun x => x = 0%Q) l ->
          forall nodes, in_bounds (length l) nodes ->
          mapM (py_index l) nodes = Ok (map (fun _ => 0%Q) nodes)) as Hmap.
  { intros l Hl nodes Hn. apply mapM_ok. intros x Hx.
    destruct (py_index_in_range l x (Hn x Hx)) as (y & Hy & ->).
    f_equal. rewrite Forall_lookup in Hl. by apply (Hl _ _ Hy). }
  assert (forall nodes : list Z, Qsum (map (fun _ => 0%Q) nodes) = 0%Q) as Hz.
  { intros nodes. apply Qsum_zero, Forall_forall. intros x Hx.
    apply list_elem_of_fmap in Hx as (? & -> & _). done. }
  assert (Forall (fun x => x = 0%Q) (Flow.flow_out (Flow.mk (zeros n) srcs snks)))
    as Hout.
  { apply Forall_forall. intros x Hx. unfold Flow.flow_out in Hx. simpl in Hx.
    apply list_elem_of_fmap in Hx as (row & -> & Hrow).
    apply elem_of_replicate in Hrow as [-> _].
    apply Qsum_zero, Forall_replicate. done. }
  assert (Forall (fun x => x = 0%Q) (Flow.flow_in (Flow.mk (zeros n) srcs snks)))
    as Hin.
  { apply Forall_forall. intros x Hx. unfold Flow.flow_in in Hx. simpl in Hx.
    apply list_elem_of_fmap in Hx as (col & -> & Hcol).
    apply Qsum_zero, Forall_forall. intros y Hy.
    unfold transpose in Hcol.
    apply list_elem_of_fmap in Hcol as (j & -> & _).
    apply list_elem_of_fmap in Hy as (row & -> & Hrow).
    apply elem_of_replicate in Hrow as [-> _].
    destruct (decide (j < n)%nat).
    - by rewrite nth_lookup, lookup_replicate_2.
    - rewrite nth_overflow; [done|]. rewrite length_replicate. lia. }
  assert (length (Flow.flow_out (Flow.mk (zeros n) srcs snks)) = n) as Hlo.
  { unfold Flow.flow_out. simpl. unfold zeros.
    by rewrite length_map, length_replicate. }
  assert (length (Flow.flow_in (Flow.mk (zeros n) srcs snks)) = n) as Hli.
  { unfold Flow.flow_in, transpose. simpl. unfold zeros.
    by rewrite !length_map, length_seq, length_replicate. }
  unfold Flow.value. cbn [Flow.sources Flow.sinks].
  destruct srcs as [|s srcs].
  - destruct snks as [|t snks]; [done|].
    rewrite (Hmap _ Hin); [|by rewrite Hli]. simpl. by rewrite Hz.
  - rewrite (Hmap _ Hout).
    + simpl. by rewrite Hz.
    + rewrite Hlo. intros x Hx. apply Hb, elem_of_app. by left.
Qed.

(** ** The value of a flow at the source and at the sink *)

Lemma col_sum_transpose n m j :
  square n m -> (j < n)%nat -> col_sum m j = row_sum (transpose m) j.
Proof.
  intros Hs Hj. unfold col_sum, row_sum.
  by rewrite nth_lookup, (lookup_transpose n).
Qed.

Lemma col_sum_sum_over n m j :
  square n m -> (j < n)%nat ->
  col_sum m j = sum_over (seq 0 n) (fun i => mget m i j).
Proof.
  intros Hs Hj. rewrite (col_sum_transpose n), (row_sum_sum_over n); try done.
  - unfold sum_over. f_equal. apply map_ext_in. intros i Hi%in_seq.
    apply (mget_transpose n); [done|done|lia].
  - by apply square_transpose.
Qed.

Lemma skew_col_sum n m j :
  square n m -> skew n m -> (j < n)%nat -> (col_sum m j == - row_sum m j)%Q.
Proof.
  intros Hs Hk Hj.
  rewrite (col_sum_sum_over n), (row_sum_sum_over n) by done.
  rewrite <- sum_over_opp. apply sum_over_ext. intros i Hi.
  apply list_elem_of_In, in_seq in Hi. apply Hk; lia.
Qed.

Lemma filter_all {A} (P : A -> bool) (l : list A) :
  (forall x, x ∈ l -> P x = true) -> List.filter P l = l.
Proof.
  induction l as [|x l IH]; intros H; simpl; [done|].
  rewrite (H x) by (by left). f_equal. apply IH. intros y Hy. apply H. by right.
Qed.

Lemma skew_total_zero n m :
  square n m -> skew n m -> (sum_over (seq 0 n) (fun i => row_sum m i) == 0)%Q.
Proof.
  intros Hs Hk.
  pose proof (skew_inside_zero n (seq 0 n) m Hs Hk) as H.
  assert (inside n (seq 0 n) = seq 0 n) as Hin.
  { apply filter_all. intros x Hx. by apply bool_decide_eq_true_2. }
  rewrite Hin in H. rewrite <- H. apply sum_over_ext. intros i Hi.
  apply list_elem_of_In, in_seq in Hi.
  rewrite (row_sum_sum_over n) by (done || lia). reflexivity.
Qed.

Lemma sum_over_two l h s t :
  NoDup l -> s ∈ l -> t ∈ l -> s <> t ->
  (forall x, x ∈ l -> x <> s -> x <> t -> (h x == 0)%Q) ->
  (sum_over l h == h s + h t)%Q.
Proof.
  intros Hnd Hs Ht Hne Hz.
  assert (sum_over l h ==
          sum_over l (fun x => at_node s (h s) x + (h x - at_node s (h s) x)))%Q
    as ->.
  { apply sum_over_ext. intros x _. ring. }
  rewrite sum_over_plus.
  rewrite (sum_over_single l (at_node s (h s)) s); try done.
  - rewrite (sum_over_single l (fun x => h x - at_node s (h s) x)%Q t); try done.
    + unfold at_node. rewrite decide_True by done.
      rewrite decide_False by done. ring.
    + intros x Hx Hxt. unfold at_node.
      destruct (decide (x = s)) as [->|Hxs]; [ring|].
      rewrite Hz by done. ring.
  - intros x Hx Hxs. unfold at_node. by rewrite decide_False.
Qed.

(** Out of the source comes what goes into the sink. *)
Lemma feasible_source_sink n A s t g :
  (s < n)%nat -> (t < n)%nat -> s <> t -> feasible n A s t g ->
  (row_sum g s == col_sum g t)%Q.
Proof.
  intros Hs Ht Hne (Hsq & Hk & _ & Hc).
  rewrite (skew_col_sum n) by done.
  pose proof (skew_total_zero n g Hsq Hk) as Hz.
  rewrite (sum_over_two _ _ s t) in Hz.
  - lra.
  - apply NoDup_ListNoDup, seq_NoDup.
  - apply list_elem_of_In, in_seq. lia.
  - apply list_elem_of_In, in_seq. lia.
  - done.
  - intros x Hx%list_elem_of_In%in_seq Hxs Hxt. apply Hc; [lia|done|done].
Qed.

Lemma zeros_feasible n A s t : nonneg n A -> feasible n A s t (zeros n).
Proof.
  intros Hnn. split; [apply square_zeros|]. split; [|split].
  - intros i j _ _. by rewrite !mget_zeros.
  - intros i j Hi Hj. rewrite mget_zeros. by apply Hnn.
  - intros i _ _ _. by rewrite row_sum_zeros.
Qed.

(** What [edmonds_karp] returns is a maximum flow that satisfies the
    invariant of the loop. *)
Lemma edmonds_karp_maximum N source sink maxiter f :
  is_network N ->
  source <> sink ->
  0 <= source < Z.of_nat (n_nodes N) ->
  0 <= sink < Z.of_nat (n_nodes N) ->
  Network.edmonds_karp N source sink maxiter = Ok f ->
  ek_inv N source sink f /\ is_maximum_flow N source sink f.
Proof.
  intros Hnet Hne Hs Ht Hrun. rewrite edmonds_karp_unfold in Hrun by done.
  destruct (ek_loop_spec N source sink Hnet Hs Ht Hne (Z.to_nat maxiter) _
              (zero_flow_inv N source sink Hnet))
    as [(j & f' & Hj & Hrun' & Haug & Hlast & Hunr)|[Hrun' _]];
    rewrite Hrun in Hrun'; [|done].
  injection Hrun' as <-.
  assert (ek_inv N source sink f) as Hinv.
  { eapply (augments_inv N source sink Hnet Hs Ht Hne j); [|exact Haug].
    by apply zero_flow_inv. }
  split; [done|]. by apply converged_is_maximum.
Qed.

(** ** The flow returned by [edmonds_karp] is a valid Flow *)

Lemma ek_inv_valid N source sink f :
  ek_inv N source sink f ->
  0 <= source < Z.of_nat (n_nodes N) ->
  0 <= sink < Z.of_nat (n_nodes N) ->
  Flow._conserves_flow f = true /\
  Flow.__init__ (Flow.flow_matrix f) [source] [sink] = Ok f.
Proof.
  intros Hinv Hs Ht.
  pose proof Hinv as [Hsq Hw Hk Hc Hsrc Hsnk].
  pose proof (proj1 Hsq) as Hlen.
  assert (Flow._conserves_flow f = true) as Hcons.
  { apply conserves_flow_spec; rewrite ?Hlen; [done|].
    assert (forall i, (i < n_nodes N)%nat -> (mget (Flow.flow_matrix f) i i == 0)%Q)
      as Hd.
    { intros i Hi. pose proof (Hk i i Hi Hi). lra. }
    split; [|split].
    - intros i j Hi Hj. rewrite Hlen in Hi, Hj.
      pose proof (Hk i j Hi Hj) as Hij.
      assert (mget (Flow.flow_matrix f) i j + mget (Flow.flow_matrix f) j i == 0)%Q
        as -> by lra.
      change (Qabs 0) with 0%Q.
      pose proof (Qabs_nonneg (mget (Flow.flow_matrix f) j i)).
      unfold Flow._EPS, default_rtol. lra.
    - intros i Hi. rewrite Hlen in Hi. rewrite (Hd i Hi). by vm_compute.
    - intros i Hi Hterm. rewrite Hlen in Hi.
      rewrite Hsrc, Hsnk in Hterm.
      rewrite (skew_col_sum (n_nodes N)) by done.
      rewrite Hc; [by vm_compute|done|..].
      + intros Heq. apply Hterm. rewrite Heq. by left.
      + intros Heq. apply Hterm. rewrite Heq. right. by left. }
  split; [done|]. apply Flow_init_spec. rewrite Hlen.
  assert (fromkeys [source] = [source]) as Hfs
    by (apply fromkeys_NoDup, NoDup_singleton).
  assert (fromkeys [sink] = [sink]) as Hft
    by (apply fromkeys_NoDup, NoDup_singleton).
  rewrite Hfs, Hft. split; [done|]. split.
  - intros x [->|[->|[]%elem_of_nil]%elem_of_cons]%elem_of_cons; done.
  - split.
    + rewrite <- Hsrc, <- Hsnk. by destruct f.
    + rewrite <- Hsrc, <- Hsnk. by destruct f.
Qed.

(** ** The budget of passes *)

Lemma ek_loop_mono N source sink k : forall f r,
  ek_loop k N source sink f = r -> r <> Raise ConvergenceFailure ->
  forall k', (k <= k')%nat -> ek_loop k' N source sink f = r.
Proof.
  induction k as [|k IH]; intros f r Hrun Hr k' Hk; simpl in Hrun.
  - congruence.
  - destruct k' as [|k']; [lia|]. simpl.
    destruct (ek_iteration N source sink f) as [[b f1]|e|]; simpl in *;
      [|done|done].
    destruct b; [done|]. apply IH; [done|done|lia].
Qed.

(** ** The module-level function does not validate its terminals *)

Lemma path_walk_stop fuel tr cur acc :
  py_index tr cur = Ok cur -> path_walk fuel tr cur acc = Ok acc.
Proof. intros H. destruct fuel; simpl; by rewrite H, bind_Ok, Z.eqb_refl. Qed.

(** ** Sending flow along a path *)

Lemma send_edges_effect n a (es : list (Z * Z)) : forall m,
  square n m -> edges_in_bounds n es ->
  exists m', Flow.send_edges m es a = (m', Ok tt) /\ square n m' /\
    forall i j, (i < n)%nat -> (j < n)%nat ->
      (mget m' i j ==
       mget m i j +
       a * inject_Z (crossings es (Z.of_nat i) (Z.of_nat j)
                     - crossings es (Z.of_nat j) (Z.of_nat i)))%Q.
Proof.
  induction es as [|[u v] es IH]; intros m Hsq Hb.
  - exists m. split; [done|]. split; [done|]. intros i j _ _. simpl.
    change (inject_Z (0 - 0)) with 0%Q. ring.
  - destruct (Hb u v) as [Hu Hv]; [by left|].
    cbn [Flow.send_edges]. rewrite (proj1 Hsq).
    destruct (Z.ltb_spec u 0); [lia|]. destruct (Z.ltb_spec v 0); [lia|].
    destruct (Z.leb_spec (Z.of_nat n) u); [lia|].
    destruct (Z.leb_spec (Z.of_nat n) v); [lia|]. cbn [orb].
    set (m2 := madd (madd m (Z.to_nat u) (Z.to_nat v) a)
                 (Z.to_nat v) (Z.to_nat u) (- a)%Q).
    assert (square n m2) as Hsq2 by (by do 2 apply square_madd).
    destruct (IH m2 Hsq2) as (m' & Hrun & Hsq' & Hent).
    { intros u' v' Hin. apply Hb. by right. }
    exists m'. split; [done|]. split; [done|].
    intros i j Hi Hj. rewrite (Hent i j Hi Hj). unfold m2.
    rewrite (mget_madd n) by (done || by apply square_madd).
    rewrite (mget_madd n) by done.
    cbn [crossings].
    unfold Z.sub. rewrite !Z.opp_add_distr, !inject_Z_plus, !inject_Z_opp.
    assert (forall x y : nat, (x < n)%nat -> (y < n)%nat ->
              bool_decide ((u, v) = (Z.of_nat x, Z.of_nat y)) =
              bool_decide (x = Z.to_nat u /\ y = Z.to_nat v)) as Hdec.
    { intros x y Hx Hy. apply bool_decide_ext. split.
      - intros [= -> ->]. lia.
      - intros [-> ->]. f_equal; lia. }
    rewrite (Hdec i j), (Hdec j i) by done.
    destruct (decide (i = Z.to_nat v /\ j = Z.to_nat u)) as [Hvu|Hvu];
      destruct (decide (i = Z.to_nat u /\ j = Z.to_nat v)) as [Huv|Huv].
    + rewrite !bool_decide_eq_true_2 by tauto.
      change (inject_Z 1) with 1%Q. ring.
    + rewrite (bool_decide_eq_false_2 (i = _ /\ _)) by done.
      rewrite bool_decide_eq_true_2 by tauto.
      change (inject_Z 1) with 1%Q. change (inject_Z 0) with 0%Q. ring.
    + rewrite (bool_decide_eq_true_2 (i = _ /\ _)) by done.
      rewrite bool_decide_eq_false_2 by tauto.
      change (inject_Z 1) with 1%Q. change (inject_Z 0) with 0%Q. ring.
    + rewrite !bool_decide_eq_false_2 by tauto.
      change (inject_Z 0) with 0%Q. ring.
Qed.

Lemma path_edges_in_bounds n (path : list Z) :
  in_bounds n path -> edges_in_bounds n (path_edges path).
Proof.
  intros Hb u v Hin. unfold path_edges in Hin.
  apply elem_of_zip_l in Hin as Hu. apply elem_of_zip_r in Hin as Hv.
  split; apply Hb.
  - destruct path as [|x path]; [by apply elem_of_nil in Hu|].
    apply list_elem_of_In in Hu. apply list_elem_of_In.
    clear -Hu. revert x Hu. induction path as [|y path IH]; intros x Hu; [done|].
    destruct Hu as [<-|Hu]; [by left|]. right. by apply IH.
  - destruct path as [|x path]; [by apply elem_of_nil in Hv|]. by right.
Qed.

Lemma send_flow_along_spec (f : Flow.t) (path : list Z) (amount : Q) :
  let n := length (Flow.flow_matrix f) in
  square n (Flow.flow_matrix f) ->
  (2 <= length path)%nat ->
  in_bounds n path ->
  exists f', Flow.send_flow_along f path amount = (f', Ok tt) /\
    Flow.sources f' = Flow.sources f /\ Flow.sinks f' = Flow.sinks f /\
    square n (Flow.flow_matrix f') /\
    forall i j, (i < n)%nat -> (j < n)%nat ->
      (mget (Flow.flow_matrix f') i j ==
       mget (Flow.flow_matrix f) i j +
       amount *
         inject_Z (crossings (path_edges path) (Z.of_nat i) (Z.of_nat j)
                   - crossings (path_edges path) (Z.of_nat j) (Z.of_nat i)))%Q.
Proof.
  intros n Hsq Hlen Hb. unfold Flow.send_flow_along.
  destruct (Nat.ltb_spec (length path) 2) as [|_]; [lia|].
  destruct (send_edges_effect n amount (path_edges path) (Flow.flow_matrix f)
              Hsq (path_edges_in_bounds n path Hb)) as (m' & -> & Hsq' & Hent).
  eexists. split; [reflexivity|]. simpl. done.
Qed.

(** The consecutive pairs of a path join nodes of the path. *)
Lemma path_edges_nodes (path : list Z) u v :
  (u, v) ∈ path_edges path -> u ∈ path /\ v ∈ tail path.
Proof.
  intros Hin. unfold path_edges in Hin.
  apply elem_of_zip_l in Hin as Hu. apply elem_of_zip_r in Hin as Hv.
  split; [|done].
  destruct path as [|x path]; [by apply elem_of_nil in Hu|].
  apply list_elem_of_In in Hu. apply list_elem_of_In.
  clear -Hu. revert x Hu. induction path as [|y path IH]; intros x Hu; [done|].
  destruct Hu as [<-|Hu]; [by left|]. right. by apply IH.
Qed.

Lemma crossings_none es u v : (u, v) ∉ es -> crossings es u v = 0.
Proof.
  induction es as [|e es IH]; intros Hn; [done|]. cbn [crossings].
  rewrite bool_decide_eq_false_2.
  - rewrite IH; [done|]. intros H. apply Hn. by right.
  - intros ->. apply Hn. by left.
Qed.

(** A path that visits no node twice crosses each of its consecutive pairs
    once, and never in the other direction. *)
Lemma crossings_once (path : list Z) u v :
  NoDup path -> (u, v) ∈ path_edges path ->
  crossings (path_edges path) u v = 1 /\ (v, u) ∉ path_edges path.
Proof.
  induction path as [|x path IH]; intros Hnd Hin;
    [by apply elem_of_nil in Hin|].
  destruct path as [|y path]; [by apply elem_of_nil in Hin|].
  rewrite path_edges_cons in *.
  apply NoDup_cons in Hnd as [Hx Hnd].
  assert (forall a b, (a, b) ∈ path_edges (y :: path) -> a <> x /\ b <> x)
    as Hfar.
  { intros a b [Ha Hb]%path_edges_nodes. split; intros ->; apply Hx; [done|].
    simpl in Hb. by right. }
  apply elem_of_cons in Hin as [[= -> ->]|Hin].
  - split.
    + cbn [crossings]. rewrite bool_decide_eq_true_2 by done.
      rewrite crossings_none; [done|]. intros H. by apply Hfar in H as [? _].
    + intros [[= ->]|H]%elem_of_cons.
      * apply Hx. by left.
      * by apply Hfar in H as [_ ?].
  - destruct (IH Hnd Hin) as [Hone Hback].
    pose proof (Hfar _ _ Hin) as [Hu Hv]. split.
    + cbn [crossings]. rewrite bool_decide_eq_false_2; [lia|congruence].
    + intros [[= -> ->]|H]%elem_of_cons; done.
Qed.

(** ** The Network constructor, from a matrix *)

Lemma fill_diagonal_id n m :
  square n m -> (forall i, (i < n)%nat -> mget m i i = 0%Q) ->
  fill_diagonal m = m.
Proof.
  intros Hsq Hd. apply (matrix_ext n); [by apply square_fill_diagonal|done|].
  intros i j Hi Hj. rewrite (mget_fill_diagonal n) by done.
  destruct (decide (i = j)) as [->|]; [by rewrite Hd|done].
Qed.

Lemma network_rebuild N :
  is_network N -> Network.__init__ (Some (adjacency_matrix N)) None = Ok N.
Proof.
  intros Hnet. destruct (is_network_inv N Hnet) as (Hsq & Hnn & Hd).
  rewrite (Network_init_ok (n_nodes N)) by done.
  rewrite (fill_diagonal_id (n_nodes N)) by done. by destruct N.
Qed.

(** ** The Network constructor, from an edge table *)

Lemma madd_index_inv n adj u v w adj' :
  square n adj -> madd_index adj u v w = Ok adj' ->
  exists u' v', (u' < n)%nat /\ (v' < n)%nat /\ adj' = madd adj u' v' w /\
    (0 <= u -> u' = Z.to_nat u) /\ (0 <= v -> v' = Z.to_nat v) /\
    (u < 0 -> Z.of_nat u' = u + Z.of_nat n) /\
    (v < 0 -> Z.of_nat v' = v + Z.of_nat n).
Proof.
  intros Hsq. unfold madd_index. rewrite (proj1 Hsq).
  set (u' := if u <? 0 then u + Z.of_nat n else u).
  set (v' := if v <? 0 then v + Z.of_nat n else v).
  destruct (Z.ltb_spec u' 0); [done|]. destruct (Z.leb_spec (Z.of_nat n) u'); [done|].
  destruct (Z.ltb_spec v' 0); [done|]. destruct (Z.leb_spec (Z.of_nat n) v'); [done|].
  simpl. intros [= <-]. exists (Z.to_nat u'), (Z.to_nat v').
  split; [lia|]. split; [lia|]. split; [done|].
  unfold u', v' in *.
  destruct (Z.ltb_spec u 0); destruct (Z.ltb_spec v 0); repeat split; lia.
Qed.

Lemma madd_pair_symmetric n adj u v w :
  square n adj -> symmetric_eq n adj ->
  symmetric_eq n (madd (madd adj u v w) v u w).
Proof.
  intros Hsq Hsym i j Hi Hj.
  rewrite !(mget_madd n) by (done || by apply square_madd).
  rewrite (Hsym i j Hi Hj).
  repeat case_decide; try reflexivity; exfalso; intuition congruence.
Qed.

Lemma add_edges_symmetric n edges : forall adj adj',
  square n adj -> symmetric_eq n adj -> add_edges edges adj = Ok adj' ->
  square n adj' /\ symmetric_eq n adj'.
Proof.
  induction edges as [|[[u v] w] edges IH]; intros adj adj' Hsq Hsym Hrun;
    simpl in Hrun.
  - by injection Hrun as <-.
  - destruct (u =? v); [by apply (IH adj)|].
    destruct (madd_index adj u v w) as [adj1| |] eqn:H1; [|done|done].
    simpl in Hrun.
    destruct (madd_index adj1 v u w) as [adj2| |] eqn:H2; [|done|done].
    simpl in Hrun.
    destruct (madd_index_inv n adj u v w adj1 Hsq H1)
      as (u' & v' & Hu' & Hv' & -> & Hu1 & Hv1 & Hu2 & Hv2).
    destruct (madd_index_inv n _ v u w adj2 (square_madd _ _ _ _ _ Hsq) H2)
      as (v'' & u'' & Hv'' & Hu'' & -> & Hv3 & Hu3 & Hv4 & Hu4).
    assert (u'' = u') as -> by (destruct (Z.ltb_spec u 0); lia).
    assert (v'' = v') as -> by (destruct (Z.ltb_spec v 0); lia).
    apply (IH _ _ (square_madd _ _ _ _ _ (square_madd _ _ _ _ _ Hsq))
             (madd_pair_symmetric n adj u' v' w Hsq Hsym) Hrun).
Qed.

Lemma max_index_spec (edges : list (Z * Z * Q)) : forall acc,
  let M := foldl (fun acc e => Z.max (Z.max acc e.1.1) e.1.2) acc edges in
  acc <= M /\
  (forall e, e ∈ edges -> e.1.1 <= M /\ e.1.2 <= M) /\
  (M = acc \/ exists e, e ∈ edges /\ (e.1.1 = M \/ e.1.2 = M)).
Proof.
  induction edges as [|e edges IH]; intros acc M; simpl in M.
  - split; [done|]. split; [by intros e ?%elem_of_nil|by left].
  - destruct (IH (Z.max (Z.max acc e.1.1) e.1.2)) as (H1 & H2 & H3).
    fold M in H1, H2, H3. split; [lia|]. split.
    + intros e' [->|He']%elem_of_cons; [lia|by apply H2].
    + destruct H3 as [H3|(e' & He' & H3)].
      * destruct (decide (M = acc)); [by left|].
        right. exists e. split; [by left|]. lia.
      * right. exists e'. split; [by right|done].
Qed.

Lemma zeros_symmetric n : symmetric_eq n (zeros n).
Proof. intros i j _ _. by rewrite !mget_zeros. Qed.

Lemma weight_between_cons e edges i j :
  weight_between (e :: edges) i j =
    ((if joins e i j then e.2 else 0) + weight_between edges i j)%Q.
Proof. reflexivity. Qed.

Lemma madd_index_ok n adj u v w :
  square n adj -> 0 <= u < Z.of_nat n -> 0 <= v < Z.of_nat n ->
  madd_index adj u v w = Ok (madd adj (Z.to_nat u) (Z.to_nat v) w).
Proof.
  intros Hsq Hu Hv. unfold madd_index. rewrite (proj1 Hsq).
  destruct (Z.ltb_spec u 0); [lia|]. destruct (Z.ltb_spec v 0); [lia|].
  destruct (Z.ltb_spec u 0); [lia|]. destruct (Z.ltb_spec v 0); [lia|].
  destruct (Z.leb_spec (Z.of_nat n) u); [lia|].
  destruct (Z.leb_spec (Z.of_nat n) v); [lia|]. done.
Qed.

Lemma add_edges_entries n edges : forall adj,
  square n adj ->
  (forall u v w, (u, v, w) ∈ edges -> 0 <= u < Z.of_nat n /\ 0 <= v < Z.of_nat n) ->
  exists adj', add_edges edges adj = Ok adj' /\ square n adj' /\
    (forall i, (i < n)%nat -> mget adj' i i = mget adj i i) /\
    (forall i j, (i < n)%nat -> (j < n)%nat -> i <> j ->
       (mget adj' i j ==
        mget adj i j + weight_between edges (Z.of_nat i) (Z.of_nat j))%Q).
Proof.
  induction edges as [|[[u v] w] edges IH]; intros adj Hsq Hb.
  - exists adj. split; [done|]. split; [done|]. split; [done|].
    intros i j _ _ _. unfold weight_between. simpl. ring.
  - destruct (Hb u v w) as [Hu Hv]; [by left|].
    assert (forall u' v' w', (u', v', w') ∈ edges ->
              0 <= u' < Z.of_nat n /\ 0 <= v' < Z.of_nat n) as Hb'
      by (intros u' v' w' Hin; apply (Hb u' v' w'); by right).
    cbn [add_edges]. destruct (Z.eqb_spec u v) as [->|Huv].
    + destruct (IH adj Hsq Hb') as (adj' & Hrun & Hsq' & Hd & Hent).
      exists adj'. split; [done|]. split; [done|]. split; [done|].
      intros i j Hi Hj Hij. rewrite (Hent i j Hi Hj Hij), weight_between_cons.
      unfold joins. simpl. rewrite bool_decide_eq_false_2 by lia. ring.
    + rewrite (madd_index_ok n) by done. rewrite bind_Ok.
      rewrite (madd_index_ok n) by (done || by apply square_madd).
      rewrite bind_Ok.
      set (m2 := madd (madd adj (Z.to_nat u) (Z.to_nat v) w)
                   (Z.to_nat v) (Z.to_nat u) w).
      assert (square n m2) as Hsq2 by (by do 2 apply square_madd).
      destruct (IH m2 Hsq2 Hb') as (adj' & Hrun & Hsq' & Hd & Hent).
      exists adj'. split; [done|]. split; [done|]. split.
      * intros i Hi. rewrite (Hd i Hi). unfold m2.
        rewrite !(mget_madd n) by (done || by apply square_madd).
        rewrite !decide_False by lia. done.
      * intros i j Hi Hj Hij. rewrite (Hent i j Hi Hj Hij), weight_between_cons.
        unfold m2. rewrite !(mget_madd n) by (done || by apply square_madd).
        unfold joins. simpl.
        destruct (decide (i = Z.to_nat v /\ j = Z.to_nat u)) as [Hvu|Hvu];
          destruct (decide (i = Z.to_nat u /\ j = Z.to_nat v)) as [Huv'|Huv'].
        -- lia.
        -- rewrite bool_decide_eq_true_2 by lia. ring.
        -- rewrite bool_decide_eq_true_2 by lia. ring.
        -- rewrite bool_decide_eq_false_2 by lia. ring.
Qed.

Lemma weight_between_joined edges i j :
  ~ (weight_between edges i j == 0)%Q ->
  exists e, e ∈ edges /\ joins e i j = true.
Proof.
  induction edges as [|e edges IH]; intros Hw.
  - exfalso. apply Hw. reflexivity.
  - rewrite weight_between_cons in Hw.
    destruct (joins e i j) eqn:Hj; [exists e; split; [by left|done]|].
    destruct IH as (e' & He' & Hj').
    + intros Hz. apply Hw. rewrite Hz. ring.
    + exists e'. split; [by right|done].
Qed.

(** ** Combining networks *)

Lemma Qplus_comm_eq (x y : Q) : (x + y)%Q = (y + x)%Q.
Proof.
  unfold Qplus. f_equal; [apply Z.add_comm|apply Pos.mul_comm].
Qed.

Lemma mget_outside n m i j :
  square n m -> (n <= i)%nat \/ (n <= j)%nat -> mget m i j = 0%Q.
Proof.
  intros [Hlen Hrows] Hij. unfold mget.
  destruct (m !! i) as [row|] eqn:Hrow; [|done].
  destruct (row !! j) as [x|] eqn:Hx; [|done].
  apply lookup_lt_Some in Hrow as Hi. apply lookup_lt_Some in Hx as Hj.
  rewrite Forall_lookup in Hrows. rewrite (Hrows i row Hrow) in Hj. lia.
Qed.

Lemma square_zero_pad n k a :
  square n a -> (n <= k)%nat -> square k (zero_pad k a).
Proof.
  intros [Hlen Hrows] Hk. unfold zero_pad. split.
  - rewrite length_app, length_map, length_replicate. lia.
  - apply Forall_app. split.
    + apply Forall_fmap. eapply Forall_impl; [exact Hrows|].
      intros row Hrow. simpl in *. rewrite length_app, length_replicate.
      rewrite Hrow. lia.
    + apply Forall_replicate. by rewrite length_replicate.
Qed.

Lemma mget_zero_pad n k a i j :
  square n a -> (n <= k)%nat -> mget (zero_pad k a) i j = mget a i j.
Proof.
  intros Hsq Hk. pose proof Hsq as [Hlen Hrows].
  destruct (decide (i < n)%nat) as [Hi|Hi].
  - destruct (square_lookup n a i Hsq Hi) as (row & Hrow & Hl).
    unfold mget at 1, zero_pad.
    rewrite lookup_app_l by (rewrite length_map; lia).
    rewrite list_lookup_fmap, Hrow. simpl.
    destruct (decide (j < n)%nat) as [Hj|Hj].
    + rewrite lookup_app_l by lia. unfold mget. by rewrite Hrow.
    + rewrite lookup_app_r by lia.
      rewrite (mget_outside n a i j Hsq) by lia.
      by destruct (replicate _ _ !! _) eqn:E;
        [apply lookup_replicate in E as [-> _]|].
  - rewrite (mget_outside n a i j Hsq) by lia.
    unfold mget, zero_pad.
    rewrite lookup_app_r by (rewrite length_map; lia).
    destruct (replicate _ _ !! _) as [row|] eqn:E; [|done].
    apply lookup_replicate in E as [-> _].
    by destruct (replicate _ _ !! _) eqn:E;
      [apply lookup_replicate in E as [-> _]|].
Qed.

Lemma nonneg_everywhere n m i j :
  square n m -> nonneg n m -> (0 <= mget m i j)%Q.
Proof.
  intros Hsq Hnn.
  destruct (decide ((i < n)%nat /\ (j < n)%nat)) as [[Hi Hj]|Ho];
    [by apply Hnn|].
  rewrite (mget_outside n m i j Hsq) by lia. done.
Qed.

Lemma add_spec N1 N2 :
  is_network N1 -> is_network N2 ->
  exists R, Network.__add__ N1 N2 = Ok R /\ is_network R /\
    n_nodes R = Nat.max (n_nodes N1) (n_nodes N2) /\
    forall i j,
      mget (adjacency_matrix R) i j =
        (mget (adjacency_matrix N1) i j + mget (adjacency_matrix N2) i j)%Q.
Proof.
  intros H1 H2.
  destruct (is_network_inv N1 H1) as (Hsq1 & Hnn1 & Hd1).
  destruct (is_network_inv N2 H2) as (Hsq2 & Hnn2 & Hd2).
  set (k := Nat.max (n_nodes N1) (n_nodes N2)).
  assert (exists L S,
            (if (n_nodes N2 <? n_nodes N1)%nat then N1 else N2) = L /\
            (if (n_nodes N2 <? n_nodes N1)%nat then N2 else N1) = S /\
            is_network L /\ is_network S /\ n_nodes L = k /\
            (n_nodes S <= k)%nat /\
            forall i j, (mget (adjacency_matrix L) i j + mget (adjacency_matrix S) i j)%Q =
              (mget (adjacency_matrix N1) i j + mget (adjacency_matrix N2) i j)%Q)
    as (L & S & HL & HS & HnL & HnS & HkL & HkS & Hsum).
  { destruct (Nat.ltb_spec (n_nodes N2) (n_nodes N1)).
    - exists N1, N2. repeat (split; [done || (unfold k; lia)|]). done.
    - exists N2, N1. repeat (split; [done || (unfold k; lia)|]).
      intros i j. apply Qplus_comm_eq. }
  unfold Network.__add__. rewrite HL, HS. clear HL HS.
  destruct (is_network_inv L HnL) as (HsqL & HnnL & HdL).
  destruct (is_network_inv S HnS) as (HsqS & HnnS & HdS).
  rewrite HkL in *.
  pose proof (square_zero_pad _ k _ HsqS HkS) as Hpad.
  assert (square k (mat_add (adjacency_matrix L)
                      (zero_pad k (adjacency_matrix S)))) as Hsum_sq
    by (by apply square_zip_with).
  assert (forall i j, (i < k)%nat -> (j < k)%nat ->
            mget (mat_add (adjacency_matrix L) (zero_pad k (adjacency_matrix S))) i j
            = (mget (adjacency_matrix N1) i j + mget (adjacency_matrix N2) i j)%Q)
    as Hent.
  { intros i j Hi Hj. unfold mat_add.
    rewrite (mget_zip_with Qplus k) by done.
    rewrite (mget_zero_pad (n_nodes S)) by done. apply Hsum. }
  assert (nonneg k (mat_add (adjacency_matrix L)
                      (zero_pad k (adjacency_matrix S)))) as Hsum_nn.
  { intros i j Hi Hj. rewrite Hent by done.
    pose proof (nonneg_everywhere _ _ i j Hsq1 Hnn1).
    pose proof (nonneg_everywhere _ _ i j Hsq2 Hnn2). lra. }
  eexists. split; [by apply (Network_init_ok k)|].
  split.
  { exists (Some (mat_add (adjacency_matrix L) (zero_pad k (adjacency_matrix S)))), None.
    by apply (Network_init_ok k). }
  split; [apply (square_fill_diagonal k _ Hsum_sq)|].
  intros i j. cbn [adjacency_matrix].
  destruct (decide ((i < k)%nat /\ (j < k)%nat)) as [[Hi Hj]|Ho].
  - rewrite (mget_fill_diagonal k) by done.
    destruct (decide (i = j)) as [->|Hij]; [|by apply Hent].
    assert (mget (adjacency_matrix N1) j j = 0%Q) as ->.
    { destruct (decide (j < n_nodes N1)%nat); [by apply Hd1|].
      apply (mget_outside _ _ j j Hsq1). lia. }
    assert (mget (adjacency_matrix N2) j j = 0%Q) as ->; [|done].
    destruct (decide (j < n_nodes N2)%nat); [by apply Hd2|].
    apply (mget_outside _ _ j j Hsq2). lia.
  - rewrite (mget_outside k _ i j (square_fill_diagonal k _ Hsum_sq)) by lia.
    rewrite (mget_outside _ _ i j Hsq1) by (unfold k in *; lia).
    rewrite (mget_outside _ _ i j Hsq2) by (unfold k in *; lia). done.
Qed.

Lemma network_ext N1 N2 :
  is_network N1 -> is_network N2 -> n_nodes N1 = n_nodes N2 ->
  (forall i j, mget (adjacency_matrix N1) i j = mget (adjacency_matrix N2) i j) ->
  N1 = N2.
Proof.
  intros H1 H2 Hn Hent.
  destruct (is_network_inv N1 H1) as (Hsq1 & _ & _).
  destruct (is_network_inv N2 H2) as (Hsq2 & _ & _).
  destruct N1 as [A1], N2 as [A2]. f_equal. simpl in *.
  apply (matrix_ext (n_nodes (Network.mk A1))); [done|by rewrite Hn|].
  intros i j _ _. apply Hent.
Qed.

(** ** The expansion with a super-source and a super-sink *)

Lemma square_mset k a u v x : square k a -> square k (mset a u v x).
Proof.
  intros [H1 H2]. split.
  - unfold mset. by rewrite length_alter.
  - apply Forall_forall. intros row Hrow.
    apply list_elem_of_lookup in Hrow as [i Hi].
    unfold mset in Hi. rewrite Forall_forall in H2.
    destruct (decide (u = i)) as [->|Hne].
    + rewrite list_lookup_alter_eq in Hi.
      destruct (a !! i) as [ra|] eqn:Ea; [|discriminate Hi].
      injection Hi as <-. rewrite length_insert.
      apply H2. eapply list_elem_of_lookup_2; eauto.
    + rewrite list_lookup_alter_ne in Hi by done.
      apply H2. eapply list_elem_of_lookup_2; eauto.
Qed.

Lemma mget_mset k a u v x i j :
  square k a -> (u < k)%nat -> (v < k)%nat ->
  mget (mset a u v x) i j =
    if decide (i = u /\ j = v) then x else mget a i j.
Proof.
  intros Hsq Hu Hv. unfold mget, mset.
  destruct (decide (i = u)) as [->|Hne].
  - rewrite list_lookup_alter_eq.
    destruct (square_lookup k a u Hsq Hu) as (row & -> & Hlen). simpl.
    destruct (decide (j = v)) as [->|Hne'].
    + rewrite list_lookup_insert_eq by lia. by rewrite decide_True.
    + rewrite list_lookup_insert_ne by done. by rewrite decide_False by tauto.
  - rewrite list_lookup_alter_ne by done. by rewrite decide_False by tauto.
Qed.

Lemma attached_dec super items i j :
  attached super items i j \/ ~ attached super items i j.
Proof.
  unfold attached, attaches. destruct (decide (Exists
    (fun p : Z * Q => (i = super /\ j = Z.to_nat p.1) \/
                      (j = super /\ i = Z.to_nat p.1)) items)); tauto.
Qed.

Lemma attach_sources_spec k n super items : forall e,
  (super < k)%nat -> (n <= k)%nat -> square k e ->
  (forall p, p ∈ items -> 0 <= p.1 < Z.of_nat n) ->
  exists e', attach_sources n super items e = Ok e' /\ square k e' /\
    forall i j,
      (attached super items i j ->
       exists p, p ∈ items /\ attaches super i j p /\ mget e' i j = p.2) /\
      (~ attached super items i j -> mget e' i j = mget e i j).
Proof.
  induction items as [|[node cap] items IH]; intros e Hs Hn Hsq Hb.
  - exists e. split; [done|]. split; [done|]. intros i j.
    split; [by intros ?%Exists_nil|done].
  - destruct (Hb (node, cap)) as [Hlo Hhi]; [by left|]. simpl in Hlo, Hhi.
    cbn [attach_sources].
    destruct (Z.ltb_spec node 0); [lia|].
    destruct (Z.leb_spec (Z.of_nat n) node); [lia|]. cbn [orb].
    set (e1 := mset e super (Z.to_nat node) cap).
    set (e2 := mset e1 (Z.to_nat node) super cap).
    assert (square k e1) as Hsq1 by (by apply square_mset).
    assert (square k e2) as Hsq2 by (by apply square_mset).
    destruct (IH e2 Hs Hn Hsq2) as (e' & Hrun & Hsq' & Hent).
    { intros p Hp. apply Hb. by right. }
    exists e'. split; [done|]. split; [done|]. intros i j.
    assert (mget e2 i j =
              if decide (attaches super i j (node, cap)) then cap
              else mget e i j) as He2.
    { unfold e2, e1, attaches. simpl.
      rewrite (mget_mset k) by (done || lia).
      rewrite (mget_mset k) by (done || lia).
      repeat case_decide; try done; exfalso; tauto. }
    destruct (Hent i j) as [Hyes Hno].
    destruct (attached_dec super items i j) as [Hat|Hnat].
    + split; [|intros Hc; exfalso; apply Hc; by apply Exists_cons_tl].
      intros _. destruct (Hyes Hat) as (p & Hp & Hpos & Hv).
      exists p. split; [by right|done].
    + rewrite (Hno Hnat), He2. split.
      * intros [Hhd|Htl]%Exists_cons; [|done].
        exists (node, cap). split; [by left|]. split; [done|].
        by rewrite decide_True.
      * intros Hc. rewrite decide_False; [done|].
        intros Hhd. apply Hc. by apply Exists_cons_hd.
Qed.

Lemma attach_sinks_spec k n super items : forall e,
  (super < k)%nat -> (n <= k)%nat -> square k e ->
  (forall p, p ∈ items -> 0 <= p.1 < Z.of_nat n) ->
  exists e', attach_sinks n super items e = Ok e' /\ square k e' /\
    forall i j,
      (attached super items i j ->
       exists p, p ∈ items /\ attaches super i j p /\ mget e' i j = p.2) /\
      (~ attached super items i j -> mget e' i j = mget e i j).
Proof.
  induction items as [|[node cap] items IH]; intros e Hs Hn Hsq Hb.
  - exists e. split; [done|]. split; [done|]. intros i j.
    split; [by intros ?%Exists_nil|done].
  - destruct (Hb (node, cap)) as [Hlo Hhi]; [by left|]. simpl in Hlo, Hhi.
    cbn [attach_sinks].
    destruct (Z.ltb_spec node 0); [lia|].
    destruct (Z.leb_spec (Z.of_nat n) node); [lia|]. cbn [orb].
    set (e1 := mset e (Z.to_nat node) super cap).
    set (e2 := mset e1 super (Z.to_nat node) cap).
    assert (square k e1) as Hsq1 by (by apply square_mset).
    assert (square k e2) as Hsq2 by (by apply square_mset).
    destruct (IH e2 Hs Hn Hsq2) as (e' & Hrun & Hsq' & Hent).
    { intros p Hp. apply Hb. by right. }
    exists e'. split; [done|]. split; [done|]. intros i j.
    assert (mget e2 i j =
              if decide (attaches super i j (node, cap)) then cap
              else mget e i j) as He2.
    { unfold e2, e1, attaches. simpl.
      rewrite (mget_mset k) by (done || lia).
      rewrite (mget_mset k) by (done || lia).
      repeat case_decide; try done; exfalso; tauto. }
    destruct (Hent i j) as [Hyes Hno].
    destruct (attached_dec super items i j) as [Hat|Hnat].
    + split; [|intros Hc; exfalso; apply Hc; by apply Exists_cons_tl].
      intros _. destruct (Hyes Hat) as (p & Hp & Hpos & Hv).
      exists p. split; [by right|done].
    + rewrite (Hno Hnat), He2. split.
      * intros [Hhd|Htl]%Exists_cons; [|done].
        exists (node, cap). split; [by left|]. split; [done|].
        by rewrite decide_True.
      * intros Hc. rewrite decide_False; [done|].
        intros Hhd. apply Hc. by apply Exists_cons_hd.
Qed.

Lemma attach_sources_raises n super items : forall e,
  (exists p, p ∈ items /\ (p.1 < 0 \/ Z.of_nat n <= p.1)) ->
  attach_sources n super items e =
    Raise (TubePlanningError "Source index out of bounds.").
Proof.
  induction items as [|[node cap] items IH]; intros e (p & Hp & Hbad).
  - by apply elem_of_nil in Hp.
  - cbn [attach_sources].
    destruct ((node <? 0) || (Z.of_nat n <=? node)) eqn:Hc; [done|].
    apply IH. apply elem_of_cons in Hp as [->|Hp]; [|by exists p].
    simpl in Hbad. apply orb_false_iff in Hc as [H1 H2].
    apply Z.ltb_ge in H1. apply Z.leb_gt in H2. lia.
Qed.

Lemma attach_sinks_raises n super items : forall e,
  (exists p, p ∈ items /\ (p.1 < 0 \/ Z.of_nat n <= p.1)) ->
  attach_sinks n super items e =
    Raise (TubePlanningError "Sink index out of bounds.").
Proof.
  induction items as [|[node cap] items IH]; intros e (p & Hp & Hbad).
  - by apply elem_of_nil in Hp.
  - cbn [attach_sinks].
    destruct ((node <? 0) || (Z.of_nat n <=? node)) eqn:Hc; [done|].
    apply IH. apply elem_of_cons in Hp as [->|Hp]; [|by exists p].
    simpl in Hbad. apply orb_false_iff in Hc as [H1 H2].
    apply Z.ltb_ge in H1. apply Z.leb_gt in H2. lia.
Qed.

(** The network on which the reductions run [edmonds_karp]. *)
Lemma expansion_spec N (srcs snks : list (Z * Q)) :
  is_network N ->
  let n := n_nodes N in
  let A := adjacency_matrix N in
  valid_items n srcs -> valid_items n snks ->
  exists e1 e E,
    attach_sources n n srcs (zero_pad (n + 2) A) = Ok e1 /\
    attach_sinks n (S n) snks e1 = Ok e /\
    Network.__init__ (Some e) None = Ok E /\
    is_network E /\ n_nodes E = (n + 2)%nat /\
    (forall i j, ~ attached n srcs i j -> ~ attached (S n) snks i j ->
       mget (adjacency_matrix E) i j = mget A i j) /\
    (forall i j, attached n srcs i j -> ~ attached (S n) snks i j ->
       exists p, p ∈ srcs /\ attaches n i j p /\
         mget (adjacency_matrix E) i j = p.2) /\
    (forall i j, attached (S n) snks i j ->
       exists p, p ∈ snks /\ attaches (S n) i j p /\
         mget (adjacency_matrix E) i j = p.2).
Proof.
  intros Hnet n A Hs Ht.
  destruct (is_network_inv N Hnet) as (Hsq & Hnn & Hd). fold n A in Hsq, Hnn, Hd.
  pose proof (square_zero_pad n (n + 2) A Hsq ltac:(lia)) as Hsq0.
  destruct (attach_sources_spec (n + 2) n n srcs _ ltac:(lia) ltac:(lia) Hsq0)
    as (e1 & Hrun1 & Hsq1 & Hent1).
  { intros p Hp. by apply Hs. }
  destruct (attach_sinks_spec (n + 2) n (S n) snks e1 ltac:(lia) ltac:(lia) Hsq1)
    as (e & Hrun2 & Hsq2 & Hent2).
  { intros p Hp. by apply Ht. }
  assert (forall i j, mget (zero_pad (n + 2) A) i j = mget A i j) as Hpad
    by (intros i j; apply (mget_zero_pad n); [done|lia]).
  assert (forall i j, (0 <= mget e i j)%Q) as Hnne.
  { intros i j.
    destruct (attached_dec (S n) snks i j) as [H2|H2].
    { destruct (proj1 (Hent2 i j) H2) as (p & Hp & _ & ->). by apply Ht. }
    rewrite (proj2 (Hent2 i j) H2).
    destruct (attached_dec n srcs i j) as [H1|H1].
    { destruct (proj1 (Hent1 i j) H1) as (p & Hp & _ & ->). by apply Hs. }
    rewrite (proj2 (Hent1 i j) H1), Hpad. by apply (nonneg_everywhere n). }
  exists e1, e, (Network.mk (fill_diagonal e)).
  split; [done|]. split; [done|].
  assert (Network.__init__ (Some e) None = Ok (Network.mk (fill_diagonal e)))
    as Hinit.
  { apply (Network_init_ok (n + 2)); [done|]. intros i j _ _. apply Hnne. }
  split; [done|]. split; [by exists (Some e), None|].
  split; [apply (square_fill_diagonal _ _ Hsq2)|].
  cbn [adjacency_matrix].
  assert (forall i j, mget (fill_diagonal e) i j =
            if decide (i = j) then 0%Q else mget e i j) as Hfd.
  { intros i j.
    destruct (decide ((i < n + 2)%nat /\ (j < n + 2)%nat)) as [[Hi Hj]|Ho].
    - by apply (mget_fill_diagonal (n + 2)).
    - rewrite (mget_outside (n + 2) _ i j (square_fill_diagonal _ _ Hsq2)) by lia.
      rewrite (mget_outside (n + 2) _ i j Hsq2) by lia. by destruct (decide _). }
  assert (forall super items i j, (n <= super)%nat ->
            (forall p, p ∈ items -> 0 <= p.1 < Z.of_nat n) ->
            attached super items i j -> i <> j) as Hoff.
  { intros super items i j Hsup Hb Hat.
    apply Exists_exists in Hat as (p & Hp & Hpos). specialize (Hb p Hp).
    destruct Hpos as [[-> ->]|[-> ->]]; lia. }
  split; [|split].
  - intros i j Hns Hnt. rewrite Hfd.
    rewrite (proj2 (Hent2 i j) Hnt), (proj2 (Hent1 i j) Hns), Hpad.
    destruct (decide (i = j)) as [->|]; [|done].
    destruct (decide (j < n)%nat); [by rewrite Hd|].
    rewrite (mget_outside n A j j Hsq) by lia. done.
  - intros i j Hat Hnt. rewrite Hfd, decide_False.
    + rewrite (proj2 (Hent2 i j) Hnt). by apply (proj1 (Hent1 i j)).
    + apply (Hoff n srcs); [lia| |done]. intros p Hp. by apply Hs.
  - intros i j Hat. rewrite Hfd, decide_False.
    + by apply (proj1 (Hent2 i j)).
    + apply (Hoff (S n) snks); [lia| |done]. intros p Hp. by apply Ht.
Qed.

Lemma sufficient_search_spec N (srcs snks : list (Z * Q)) maxiter :
  is_network N ->
  let n := n_nodes N in
  valid_items n srcs -> valid_items n snks ->
  exists E, expands N srcs snks E /\
    (sufficient_search N srcs snks maxiter = Raise ConvergenceFailure \/
     exists F, sufficient_search N srcs snks maxiter = Ok F /\
       ek_inv E (Z.of_nat n) (Z.of_nat (S n)) F /\
       is_maximum_flow E (Z.of_nat n) (Z.of_nat (S n)) F).
Proof.
  intros Hnet n Hs Ht.
  destruct (expansion_spec N srcs snks Hnet Hs Ht)
    as (e1 & e & E & Hrun1 & Hrun2 & Hinit & HE & HnE & H1 & H2 & H3).
  fold n in Hrun1, Hrun2, HnE, H1, H2, H3.
  exists E. split; [by repeat split|].
  unfold sufficient_search. fold n.
  rewrite Hrun1, bind_Ok, Hrun2, bind_Ok, Hinit, bind_Ok.
  assert (Z.of_nat n <> Z.of_nat (S n)) as Hne by lia.
  assert (0 <= Z.of_nat n < Z.of_nat (n_nodes E)) as Hb1 by lia.
  assert (0 <= Z.of_nat (S n) < Z.of_nat (n_nodes E)) as Hb2 by lia.
  destruct (Network.edmonds_karp E (Z.of_nat n) (Z.of_nat (S n)) maxiter)
    as [F|e'|] eqn:Hrun.
  - right. exists F. split; [done|].
    by apply (edmonds_karp_maximum E _ _ maxiter).
  - left. rewrite edmonds_karp_unfold in Hrun by done.
    destruct (ek_loop_spec E _ _ HE Hb1 Hb2 Hne (Z.to_nat maxiter) _
                (zero_flow_inv E _ _ HE))
      as [(j & f' & _ & Hrun' & _)|[Hrun' _]]; congruence.
  - exfalso. rewrite edmonds_karp_unfold in Hrun by done.
    destruct (ek_loop_spec E _ _ HE Hb1 Hb2 Hne (Z.to_nat maxiter) _
                (zero_flow_inv E _ _ HE))
      as [(j & f' & _ & Hrun' & _)|[Hrun' _]]; congruence.
Qed.

(** ** The flow on the original nodes *)

Lemma square_block n k F : square k F -> (n <= k)%nat -> square n (block n F).
Proof.
  intros [Hlen Hrows] Hn. unfold block. split.
  - rewrite length_take, length_map. lia.
  - apply Forall_take, Forall_fmap. eapply Forall_impl; [exact Hrows|].
    intros row Hrow. simpl in *. rewrite length_take, Hrow. lia.
Qed.

Lemma mget_block n k F i j :
  square k F -> (n <= k)%nat -> (i < n)%nat -> (j < n)%nat ->
  mget (block n F) i j = mget F i j.
Proof.
  intros Hsq Hn Hi Hj. unfold mget, block.
  rewrite lookup_take_lt by done. rewrite list_lookup_fmap.
  destruct (F !! i) as [row|]; [|done]. simpl.
  by rewrite lookup_take_lt.
Qed.

Lemma sum_over_app l1 l2 h :
  (sum_over (l1 ++ l2) h == sum_over l1 h + sum_over l2 h)%Q.
Proof.
  unfold sum_over. induction l1 as [|x l1 IH]; simpl; [ring|].
  rewrite IH. ring.
Qed.

Lemma sum_over_perm l1 l2 h :
  l1 ≡ₚ l2 -> (sum_over l1 h == sum_over l2 h)%Q.
Proof.
  induction 1 as [|x l1 l2 _ IH|x y l|l1 l2 l3 _ IH1 _ IH2].
  - reflexivity.
  - rewrite !sum_over_cons, IH. reflexivity.
  - rewrite !sum_over_cons. ring.
  - by rewrite IH1.
Qed.

Lemma sum_over_support l l' h :
  NoDup l -> NoDup l' -> (forall x, x ∈ l' -> x ∈ l) ->
  (forall x, x ∈ l -> x ∉ l' -> (h x == 0)%Q) ->
  (sum_over l h == sum_over l' h)%Q.
Proof.
  intros Hl Hl' Hsub Hz.
  rewrite (sum_over_split (fun x => bool_decide (x ∈ l')) l h).
  rewrite (sum_over_zero (List.filter (fun x => negb _) l)).
  - rewrite Qplus_0_r. apply sum_over_perm, NoDup_Permutation.
    + apply NoDup_ListNoDup, List.NoDup_filter. by apply NoDup_ListNoDup.
    + done.
    + intros x. rewrite list_elem_of_In, filter_In, bool_decide_eq_true,
        <- list_elem_of_In. split; [tauto|]. intros Hx. split; [by apply Hsub|done].
  - intros x Hx. apply list_elem_of_In, filter_In in Hx as [Hx Hn].
    apply negb_true_iff, bool_decide_eq_false in Hn.
    apply Hz; [by apply list_elem_of_In|done].
Qed.

Section base_flow.
Variable N : Network.t.
Variable srcs snks : list (Z * Q).
Variable E : Network.t.
Variable f : Flow.t.
Let n := n_nodes N.
Let A := adjacency_matrix N.
Let F := Flow.flow_matrix f.
Hypothesis Hnet : is_network N.
Hypothesis Hs : valid_items n srcs.
Hypothesis Ht : valid_items n snks.
Hypothesis HE : expands N srcs snks E.
Hypothesis Hinv : ek_inv E (Z.of_nat n) (Z.of_nat (S n)) f.

Lemma base_square_F : square (n + 2) F.
Proof.
  destruct HE as (_ & HnE & _). pose proof (ek_square _ _ _ _ Hinv) as H.
  by rewrite HnE in H.
Qed.

Lemma base_skew_F i j : (mget F i j == - mget F j i)%Q.
Proof.
  destruct HE as (_ & HnE & _).
  destruct (decide ((i < n + 2)%nat /\ (j < n + 2)%nat)) as [[Hi Hj]|Ho].
  - apply (ek_skew _ _ _ _ Hinv); by rewrite HnE.
  - rewrite (mget_outside _ _ i j base_square_F) by lia.
    rewrite (mget_outside _ _ j i base_square_F) by lia. reflexivity.
Qed.

Lemma base_within_F i j : (mget F i j <= mget (adjacency_matrix E) i j)%Q.
Proof.
  destruct HE as (HEnet & HnE & _).
  destruct (is_network_inv E HEnet) as (HsqE & HnnE & _). rewrite HnE in *.
  destruct (decide ((i < n + 2)%nat /\ (j < n + 2)%nat)) as [[Hi Hj]|Ho].
  - apply (ek_within _ _ _ _ Hinv); by rewrite HnE.
  - rewrite (mget_outside _ _ i j base_square_F) by lia.
    rewrite (mget_outside _ _ i j HsqE) by lia. apply Qle_refl.
Qed.

Lemma not_attached_other super items i j :
  (n <= super)%nat -> i <> super -> j <> super -> ~ attached super items i j.
Proof.
  intros _ Hi Hj (p & _ & [[-> _]|[-> _]])%Exists_exists; done.
Qed.

Lemma not_attached_node super items j :
  Z.of_nat j ∉ map fst items ->
  (forall p, p ∈ items -> 0 <= p.1 < Z.of_nat n) ->
  (n <= super)%nat -> (j < n)%nat ->
  ~ attached super items super j /\ ~ attached super items j super.
Proof.
  intros Hj Hb Hsup Hjn.
  split; intros (p & Hp & Hpos)%Exists_exists; specialize (Hb p Hp).
  - destruct Hpos as [[_ ->]|[-> _]]; [|lia].
    apply Hj, list_elem_of_fmap. exists p. split; [lia|done].
  - destruct Hpos as [[-> _]|[_ ->]]; [lia|].
    apply Hj, list_elem_of_fmap. exists p. split; [lia|done].
Qed.

(** No flow between a node that is not a source and the super-source. *)
Lemma base_no_source i :
  (i < n)%nat -> Z.of_nat i ∉ map fst srcs ->
  (mget F n i == 0)%Q /\ (mget F i n == 0)%Q.
Proof.
  intros Hi Hns. destruct HE as (HEnet & HnE & H1 & _).
  destruct (is_network_inv N Hnet) as (Hsq & _ & _). fold n A in Hsq.
  destruct (not_attached_node n srcs i Hns) as [Ha Hb];
    [intros p Hp; by apply Hs|lia|done|].
  pose proof (base_within_F n i) as Hw1. pose proof (base_within_F i n) as Hw2.
  rewrite H1 in Hw1; [|done|apply not_attached_other; lia].
  rewrite H1 in Hw2; [|done|apply not_attached_other; lia].
  fold A in Hw1, Hw2.
  rewrite (mget_outside n A n i Hsq) in Hw1 by lia.
  rewrite (mget_outside n A i n Hsq) in Hw2 by lia.
  pose proof (base_skew_F n i). split; lra.
Qed.

(** No flow between a node that is not a sink and the super-sink. *)
Lemma base_no_sink i :
  (i < n)%nat -> Z.of_nat i ∉ map fst snks ->
  (mget F (S n) i == 0)%Q /\ (mget F i (S n) == 0)%Q.
Proof.
  intros Hi Hns. destruct HE as (HEnet & HnE & H1 & _).
  destruct (is_network_inv N Hnet) as (Hsq & _ & _). fold n A in Hsq.
  destruct (not_attached_node (S n) snks i Hns) as [Ha Hb];
    [intros p Hp; by apply Ht|lia|done|].
  pose proof (base_within_F (S n) i) as Hw1.
  pose proof (base_within_F i (S n)) as Hw2.
  rewrite H1 in Hw1; [|apply not_attached_other; lia|done].
  rewrite H1 in Hw2; [|apply not_attached_other; lia|done].
  fold A in Hw1, Hw2.
  rewrite (mget_outside n A (S n) i Hsq) in Hw1 by lia.
  rewrite (mget_outside n A i (S n) Hsq) in Hw2 by lia.
  pose proof (base_skew_F (S n) i). split; lra.
Qed.

(** No flow between the two synthetic nodes, nor from one to itself. *)
Lemma base_no_super i j :
  (n <= i)%nat -> (n <= j)%nat -> (mget F i j == 0)%Q.
Proof.
  intros Hi Hj. destruct HE as (HEnet & HnE & H1 & _).
  destruct (is_network_inv N Hnet) as (Hsq & _ & _). fold n A in Hsq.
  assert (forall super items a b, (n <= a)%nat -> (n <= b)%nat ->
            (forall p, p ∈ items -> 0 <= p.1 < Z.of_nat n) ->
            ~ attached super items a b) as Hna.
  { intros super items a b Ha Hb Hbd (p & Hp & Hpos)%Exists_exists.
    specialize (Hbd p Hp). destruct Hpos as [[-> ->]|[-> ->]]; lia. }
  pose proof (base_within_F i j) as Hw1. pose proof (base_within_F j i) as Hw2.
  rewrite H1 in Hw1;
    [|apply Hna; try done; intros p Hp; by apply Hs
     |apply Hna; try done; intros p Hp; by apply Ht].
  rewrite H1 in Hw2;
    [|apply Hna; try done; intros p Hp; by apply Hs
     |apply Hna; try done; intros p Hp; by apply Ht].
  fold A in Hw1, Hw2.
  rewrite (mget_outside n A i j Hsq) in Hw1 by lia.
  rewrite (mget_outside n A j i Hsq) in Hw2 by lia.
  pose proof (base_skew_F i j). lra.
Qed.

Lemma base_square : square n (block n F).
Proof. apply (square_block n (n + 2)); [apply base_square_F|lia]. Qed.

Lemma base_mget i j :
  (i < n)%nat -> (j < n)%nat -> mget (block n F) i j = mget F i j.
Proof. intros. apply (mget_block n (n + 2)); [apply base_square_F|lia|done..]. Qed.

Lemma base_skew : skew n (block n F).
Proof. intros i j Hi Hj. rewrite !base_mget by done. apply base_skew_F. Qed.

Lemma base_within : within n A (block n F).
Proof.
  intros i j Hi Hj. rewrite base_mget by done.
  destruct HE as (_ & _ & H1 & _). rewrite <- H1.
  - apply base_within_F.
  - apply not_attached_other; lia.
  - apply not_attached_other; lia.
Qed.

(** The net outflow of a node in the flow on the original nodes is what it
    receives from the super-source minus what it sends to the super-sink. *)
Lemma base_row_sum i :
  (i < n)%nat ->
  (row_sum (block n F) i == mget F n i - mget F i (S n))%Q.
Proof.
  intros Hi. destruct HE as (_ & HnE & _).
  pose proof (ek_conserved _ _ _ _ Hinv i) as Hc. rewrite HnE in Hc.
  specialize (Hc ltac:(lia) ltac:(lia) ltac:(lia)). fold F in Hc.
  rewrite (row_sum_sum_over (n + 2)) in Hc by (apply base_square_F || lia).
  replace (seq 0 (n + 2)) with (seq 0 n ++ [n; S n]) in Hc.
  2:{ rewrite (seq_app n 2 0). simpl. done. }
  rewrite sum_over_app in Hc. unfold sum_over at 2 in Hc. simpl in Hc.
  rewrite (row_sum_sum_over n) by (apply base_square || done).
  assert (sum_over (seq 0 n) (fun j => mget (block n F) i j) ==
          sum_over (seq 0 n) (fun j => mget F i j))%Q as ->.
  { apply sum_over_ext. intros j Hj%list_elem_of_In%in_seq.
    rewrite base_mget by lia. reflexivity. }
  pose proof (base_skew_F n i). lra.
Qed.

Lemma base_conserved i :
  (i < n)%nat -> Z.of_nat i ∉ map fst srcs ++ map fst snks ->
  (row_sum (block n F) i == 0)%Q.
Proof.
  intros Hi Hterm. rewrite base_row_sum by done.
  destruct (base_no_source i Hi) as [H1 _].
  { intros H. apply Hterm, elem_of_app. by left. }
  destruct (base_no_sink i Hi) as [_ H2].
  { intros H. apply Hterm, elem_of_app. by right. }
  lra.
Qed.

(** With distinct sources that are not sinks, the sources send out
    together what the super-source sends out. *)
Lemma base_value :
  NoDup (map fst srcs) ->
  (forall x, x ∈ map fst srcs -> x ∉ map fst snks) ->
  (Qsum (map (fun s => row_sum (block n F) (Z.to_nat s)) (map fst srcs)) ==
   row_sum F n)%Q.
Proof.
  intros Hnd Hdis.
  assert (forall s, s ∈ map fst srcs -> 0 <= s < Z.of_nat n) as Hb.
  { intros s (p & -> & Hp)%list_elem_of_fmap. by apply Hs. }
  set (l := map Z.to_nat (map fst srcs)).
  assert (Qsum (map (fun s => row_sum (block n F) (Z.to_nat s)) (map fst srcs)) =
          sum_over l (fun i => row_sum (block n F) i)) as ->.
  { unfold sum_over, l.
    by rewrite (map_map Z.to_nat (fun i => row_sum (block n F) i)). }
  assert (forall i, i ∈ l -> (i < n)%nat /\ Z.of_nat i ∈ map fst srcs) as Hl.
  { intros i (s & -> & Hin)%list_elem_of_fmap. specialize (Hb s Hin).
    split; [lia|]. by rewrite Z2Nat.id by lia. }
  rewrite (sum_over_ext l _ (fun i => mget F n i)).
  2:{ intros i Hi. destruct (Hl i Hi) as [Hin Hsrc].
      rewrite base_row_sum by done.
      destruct (base_no_sink i Hin) as [_ H2]; [by apply Hdis|]. lra. }
  rewrite (row_sum_sum_over (n + 2)) by (apply base_square_F || lia).
  symmetry. apply sum_over_support.
  - apply NoDup_ListNoDup, seq_NoDup.
  - unfold l. apply NoDup_fmap_2_strong; [|done].
    intros x y Hx Hy Heq. pose proof (Hb x Hx). pose proof (Hb y Hy). lia.
  - intros i Hi. apply list_elem_of_In, in_seq. destruct (Hl i Hi). lia.
  - intros j Hj%list_elem_of_In%in_seq Hnl.
    destruct (decide (j < n)%nat) as [Hjn|Hjn].
    + apply base_no_source; [done|]. intros Hin. apply Hnl.
      unfold l. apply list_elem_of_fmap. exists (Z.of_nat j).
      split; [lia|done].
    + apply base_no_super; lia.
Qed.

End base_flow.

(** An exactly skew-symmetric matrix that conserves flow exactly outside of
    the terminals passes the checks of the Flow constructor. *)
Lemma exact_flow_init n m srcs snks :
  square n m -> skew n m -> in_bounds n (srcs ++ snks) ->
  (forall i, (i < n)%nat -> Z.of_nat i ∉ srcs ++ snks -> (row_sum m i == 0)%Q) ->
  Flow.__init__ m srcs snks = Ok (Flow.mk m (fromkeys srcs) (fromkeys snks)).
Proof.
  intros Hsq Hk Hb Hc. pose proof (proj1 Hsq) as Hlen.
  apply Flow_init_spec. rewrite Hlen. split; [done|].
  split; [by apply in_bounds_fromkeys|]. split; [|done].
  apply conserves_flow_spec; cbn [Flow.flow_matrix Flow.sources Flow.sinks];
    rewrite ?Hlen; [done|].
  split; [|split].
  - intros i j Hi Hj. rewrite Hlen in Hi, Hj.
    pose proof (Hk i j Hi Hj) as Hij.
    assert (mget m i j + mget m j i == 0)%Q as -> by lra.
    change (Qabs 0) with 0%Q. pose proof (Qabs_nonneg (mget m j i)).
    unfold Flow._EPS, default_rtol. lra.
  - intros i Hi. rewrite Hlen in Hi. pose proof (Hk i i Hi Hi) as Hii.
    assert (mget m i i == 0)%Q as -> by lra. by vm_compute.
  - intros i Hi Hterm. rewrite Hlen in Hi.
    rewrite (skew_col_sum n) by done.
    rewrite Hc; [by vm_compute|done|].
    intros Hin. apply Hterm. apply elem_of_app.
    apply elem_of_app in Hin as [Hin|Hin]; [left|right];
      by apply elem_of_fromkeys.
Qed.

(** The value of a Flow with sources is the sum of their row sums. *)
Lemma value_of_sources n m srcs snks :
  square n m -> in_bounds n srcs -> srcs <> [] ->
  Flow.value (Flow.mk m srcs snks) =
    Ok (Qsum (map (fun s => row_sum m (Z.to_nat s)) srcs)).
Proof.
  intros Hsq Hb Hne. unfold Flow.value. cbn [Flow.sources].
  destruct srcs as [|s0 srcs0] eqn:E; [done|]. rewrite <- E in *.
  rewrite (mapM_ok _ (fun s => row_sum m (Z.to_nat s))); [done|].
  intros s Hs. specialize (Hb s Hs).
  destruct (square_lookup n m (Z.to_nat s) Hsq) as (row & Hrow & _); [lia|].
  rewrite <- (Z2Nat.id s) at 1 by lia.
  rewrite (py_index_nat _ _ (Qsum row)).
  - unfold row_sum. by rewrite nth_lookup, Hrow.
  - unfold Flow.flow_out. cbn [Flow.flow_matrix].
    by rewrite list_lookup_fmap, Hrow.
Qed.

Lemma maximum_flow_unfold N sources sinks maxiter :
  (forall x, x ∈ fromkeys sources -> x ∉ fromkeys sinks) ->
  fromkeys sources <> [] -> fromkeys sinks <> [] ->
  Network.maximum_flow N sources sinks maxiter =
    (expanded_flow ←
       sufficient_search N
         (map (fun s => (s, total_capacity N)) (fromkeys sources))
         (map (fun s => (s, total_capacity N)) (fromkeys sinks)) maxiter;
     Flow.__init__ (block (n_nodes N) (Flow.flow_matrix expanded_flow))
       (fromkeys sources) (fromkeys sinks)).
Proof.
  intros Hdis Hs Ht. unfold Network.maximum_flow.
  assert (existsb (fun s => bool_decide (s ∈ fromkeys sinks)) (fromkeys sources)
          = false) as ->.
  { apply not_true_iff_false. intros (x & Hx & Hin)%existsb_exists.
    apply bool_decide_eq_true in Hin. apply (Hdis x); [|done].
    by apply list_elem_of_In. }
  rewrite !bool_decide_eq_false_2 by done. cbn [orb].
  unfold sufficient_search, total_capacity.
  destruct (attach_sources _ _ _ _) as [e1| |]; [|done|done]. simpl.
  destruct (attach_sinks _ _ _ _) as [e2| |]; [|done|done]. simpl.
  by destruct (check_adjacency e2) as [E| |].
Qed.

Lemma total_capacity_pos N : (0 < total_capacity N)%Q.
Proof.
  unfold total_capacity.
  destruct (Qle_bool _ 0) eqn:E; [done|].
  apply Qnot_le_lt. intros H. apply Qle_bool_iff in H. congruence.
Qed.

Lemma valid_items_const n nodes cap :
  in_bounds n nodes -> (0 <= cap)%Q ->
  valid_items n (map (fun s => (s, cap)) nodes).
Proof.
  intros Hb Hc p (s & -> & Hs)%list_elem_of_fmap. split; [by apply Hb|done].
Qed.

Lemma map_fst_const (nodes : list Z) (cap : Q) :
  map fst (map (fun s => (s, cap)) nodes) = nodes.
Proof. rewrite map_map. simpl. apply map_id. Qed.

(** What [maximum_flow] returns for valid terminals. *)
Lemma maximum_flow_spec N sources sinks maxiter :
  is_network N ->
  let n := n_nodes N in
  let A := adjacency_matrix N in
  let S := fromkeys sources in
  let T := fromkeys sinks in
  in_bounds n (sources ++ sinks) ->
  sources <> [] -> sinks <> [] ->
  (forall x, x ∈ sources -> x ∉ sinks) ->
  exists E,
    expands N (map (fun s => (s, total_capacity N)) S)
              (map (fun s => (s, total_capacity N)) T) E /\
    (Network.maximum_flow N sources sinks maxiter = Raise ConvergenceFailure \/
     exists fe,
       ek_inv E (Z.of_nat n) (Z.of_nat (Datatypes.S n)) fe /\
       is_maximum_flow E (Z.of_nat n) (Z.of_nat (Datatypes.S n)) fe /\
       Network.maximum_flow N sources sinks maxiter =
         Ok (Flow.mk (block n (Flow.flow_matrix fe)) S T)).
Proof.
  intros Hnet n A S T Hb Hs Ht Hdis.
  assert (S <> []) as HS.
  { intros HS. destruct sources as [|x ?]; [done|].
    assert (x ∈ S) as Hx by (apply elem_of_fromkeys; by left).
    rewrite HS in Hx. by apply elem_of_nil in Hx. }
  assert (T <> []) as HT.
  { intros HT. destruct sinks as [|x ?]; [done|].
    assert (x ∈ T) as Hx by (apply elem_of_fromkeys; by left).
    rewrite HT in Hx. by apply elem_of_nil in Hx. }
  assert (in_bounds n (S ++ T)) as Hb' by (by apply in_bounds_fromkeys).
  assert (in_bounds n S) as HbS by (intros x Hx; apply Hb', elem_of_app; by left).
  assert (in_bounds n T) as HbT by (intros x Hx; apply Hb', elem_of_app; by right).
  pose proof (total_capacity_pos N) as Hpos.
  destruct (sufficient_search_spec N
              (map (fun s => (s, total_capacity N)) S)
              (map (fun s => (s, total_capacity N)) T) maxiter Hnet)
    as (E & HE & Hout).
  { apply valid_items_const; [done|lra]. }
  { apply valid_items_const; [done|lra]. }
  exists E. split; [done|].
  rewrite maximum_flow_unfold; [|..|done|done].
  2:{ intros x Hx Hx'. apply (Hdis x); by apply elem_of_fromkeys. }
  fold S T n.
  destruct Hout as [->|(fe & -> & Hinv & Hmax)]; [by left|].
  right. exists fe. split; [done|]. split; [done|].
  rewrite bind_Ok.
  rewrite (exact_flow_init n).
  - unfold S, T. by rewrite !fromkeys_idemp.
  - eapply base_square; eauto.
  - eapply base_skew; eauto.
  - done.
  - intros i Hi Hterm.
    eapply (base_conserved N _ _ E fe Hnet); eauto.
    + apply valid_items_const; [done|lra].
    + apply valid_items_const; [done|lra].
    + by rewrite !map_fst_const.
Qed.

(** ** [maximum_flow] returns a maximum flow *)

Lemma square_tabulate k h : square k (tabulate k h).
Proof.
  unfold tabulate. split; [by rewrite length_map, length_seq|].
  apply Forall_fmap, Forall_forall. intros i _. simpl.
  by rewrite length_map, length_seq.
Qed.

Lemma mget_tabulate k h i j :
  (i < k)%nat -> (j < k)%nat -> mget (tabulate k h) i j = h i j.
Proof.
  intros Hi Hj. unfold mget, tabulate.
  rewrite list_lookup_fmap, lookup_seq_lt by done. simpl.
  rewrite list_lookup_fmap, lookup_seq_lt by done. done.
Qed.

Lemma map_nth_rows (m : matrix) :
  map (fun i => nth i m []) (seq 0 (length m)) = m.
Proof.
  apply list_eq. intros i. rewrite list_lookup_fmap.
  destruct (decide (i < length m)%nat) as [Hi|Hi].
  - rewrite lookup_seq_lt by done. simpl. rewrite nth_lookup.
    destruct (lookup_lt_is_Some_2 m i Hi) as [x ->]. reflexivity.
  - rewrite lookup_seq_ge by lia. simpl. symmetry. apply lookup_ge_None_2. lia.
Qed.

Lemma total_sum_over n (m : matrix) :
  length m = n ->
  Qsum (map Qsum m) = sum_over (seq 0 n) (fun i => row_sum m i).
Proof.
  intros <-. unfold sum_over, row_sum.
  rewrite <- (map_nth_rows m) at 1. by rewrite map_map.
Qed.

Lemma sum_over_nonneg l h :
  (forall x, x ∈ l -> (0 <= h x)%Q) -> (0 <= sum_over l h)%Q.
Proof.
  intros H. rewrite <- (sum_over_zero l (fun _ => 0%Q)) by done.
  by apply sum_over_le.
Qed.

Lemma sum_over_ge_term l h s :
  (forall x, x ∈ l -> (0 <= h x)%Q) -> s ∈ l -> (h s <= sum_over l h)%Q.
Proof.
  induction l as [|x l IH]; intros Hnn Hs; [by apply elem_of_nil in Hs|].
  rewrite sum_over_cons.
  assert (0 <= sum_over l h)%Q as Hrest
    by (apply sum_over_nonneg; intros y Hy; apply Hnn; by right).
  assert (0 <= h x)%Q as Hx by (apply Hnn; by left).
  apply elem_of_cons in Hs as [->|Hs]; [lra|].
  assert (h s <= sum_over l h)%Q
    by (apply IH; [intros y Hy; apply Hnn; by right|done]).
  lra.
Qed.

Section capacity.
Variable N : Network.t.
Let n := n_nodes N.
Let A := adjacency_matrix N.
Hypothesis Hnet : is_network N.

Lemma row_sum_le_total s :
  (s < n)%nat -> (row_sum A s <= total_capacity N)%Q.
Proof.
  intros Hs. destruct (is_network_inv N Hnet) as (Hsq & Hnn & _).
  fold n A in Hsq, Hnn.
  assert (row_sum A s <= Qsum (map Qsum A))%Q as Hle.
  { rewrite (total_sum_over n) by apply Hsq.
    apply (sum_over_ge_term _ (fun i => row_sum A i)).
    - intros i Hi%list_elem_of_In%in_seq.
      rewrite (row_sum_sum_over n) by (done || lia).
      apply sum_over_nonneg. intros j Hj%list_elem_of_In%in_seq.
      apply Hnn; lia.
    - apply list_elem_of_In, in_seq. lia. }
  unfold total_capacity. fold A.
  destruct (Qle_bool _ 0) eqn:E; [|done].
  apply Qle_bool_iff in E. lra.
Qed.

Lemma col_sum_le_total s :
  (s < n)%nat -> (col_sum A s <= total_capacity N)%Q.
Proof.
  intros Hs. destruct (is_network_inv N Hnet) as (Hsq & Hnn & _).
  fold n A in Hsq, Hnn.
  assert (col_sum A s <= Qsum (map Qsum A))%Q as Hle.
  { rewrite (total_sum_over n) by apply Hsq.
    assert (sum_over (seq 0 n) (fun i => row_sum A i) ==
            sum_over (seq 0 n) (fun j => col_sum A j))%Q as ->.
    { rewrite (sum_over_ext _ _
                 (fun i => sum_over (seq 0 n) (fun j => mget A i j))).
      2:{ intros i Hi%list_elem_of_In%in_seq.
          rewrite (row_sum_sum_over n) by (done || lia). reflexivity. }
      rewrite sum_over_swap. apply sum_over_ext.
      intros j Hj%list_elem_of_In%in_seq.
      rewrite (col_sum_sum_over n) by (done || lia). reflexivity. }
    apply (sum_over_ge_term _ (fun j => col_sum A j)).
    - intros j Hj%list_elem_of_In%in_seq.
      rewrite (col_sum_sum_over n) by (done || lia).
      apply sum_over_nonneg. intros i Hi%list_elem_of_In%in_seq.
      apply Hnn; lia.
    - apply list_elem_of_In, in_seq. lia. }
  unfold total_capacity. fold A.
  destruct (Qle_bool _ 0) eqn:E; [|done].
  apply Qle_bool_iff in E. lra.
Qed.

(** The net outflow of a node in a flow within the capacities is at most
    the total capacity, in absolute value. *)
Lemma net_outflow_bounded S T g s :
  multi_feasible n A S T g -> (s < n)%nat ->
  (row_sum g s <= total_capacity N)%Q /\ (- row_sum g s <= total_capacity N)%Q.
Proof.
  intros (Hsq & Hk & Hw & _) Hs.
  destruct (is_network_inv N Hnet) as (HsqA & _ & _). fold n A in HsqA.
  split.
  - apply Qle_trans with (row_sum A s); [|by apply row_sum_le_total].
    rewrite !(row_sum_sum_over n) by done.
    apply sum_over_le. intros j Hj%list_elem_of_In%in_seq. apply Hw; lia.
  - apply Qle_trans with (col_sum A s); [|by apply col_sum_le_total].
    rewrite <- (skew_col_sum n) by done.
    rewrite !(col_sum_sum_over n) by done.
    apply sum_over_le. intros j Hj%list_elem_of_In%in_seq. apply Hw; lia.
Qed.

End capacity.

Lemma attached_const super nodes cap i j :
  attached super (map (fun s => (s, cap)) nodes) i j <->
  exists s, s ∈ nodes /\
    ((i = super /\ j = Z.to_nat s) \/ (j = super /\ i = Z.to_nat s)).
Proof.
  unfold attached. rewrite Exists_exists. split.
  - intros (p & (s & -> & Hs)%list_elem_of_fmap & Hpos). by exists s.
  - intros (s & Hs & Hpos). exists (s, cap).
    split; [apply list_elem_of_fmap; by exists s|done].
Qed.

Section lifting.
Variable N : Network.t.
Variable S T : list Z.
Variable E : Network.t.
Variable g : matrix.
Let n := n_nodes N.
Let A := adjacency_matrix N.
Let cap := total_capacity N.
Hypothesis Hnet : is_network N.
Hypothesis HbS : in_bounds n S.
Hypothesis HbT : in_bounds n T.
Hypothesis HndS : NoDup S.
Hypothesis Hdis : forall x, x ∈ S -> x ∉ T.
Hypothesis HE :
  expands N (map (fun s => (s, cap)) S) (map (fun s => (s, cap)) T) E.
Hypothesis Hg : multi_feasible n A S T g.

Lemma lift_entry i j :
  (i < n + 2)%nat -> (j < n + 2)%nat ->
  mget (lift n S T g) i j =
    if bool_decide ((i < n)%nat /\ (j < n)%nat) then mget g i j
    else if bool_decide (i = n /\ Z.of_nat j ∈ S) then row_sum g j
    else if bool_decide (j = n /\ Z.of_nat i ∈ S) then (- row_sum g i)%Q
    else if bool_decide (i = Datatypes.S n /\ Z.of_nat j ∈ T) then row_sum g j
    else if bool_decide (j = Datatypes.S n /\ Z.of_nat i ∈ T) then (- row_sum g i)%Q
    else 0%Q.
Proof. intros Hi Hj. unfold lift. by rewrite mget_tabulate. Qed.

Lemma node_of_S x : Z.of_nat x ∈ S -> (x < n)%nat.
Proof. intros Hx. specialize (HbS _ Hx). lia. Qed.

Lemma node_of_T x : Z.of_nat x ∈ T -> (x < n)%nat.
Proof. intros Hx. specialize (HbT _ Hx). lia. Qed.

Lemma expanded_source_edge s :
  Z.of_nat s ∈ S ->
  mget (adjacency_matrix E) n s = cap /\ mget (adjacency_matrix E) s n = cap.
Proof.
  intros Hs. pose proof (node_of_S s Hs) as Hsn.
  destruct HE as (_ & _ & _ & H2 & _). fold n in H2.
  assert (forall i j, (i = n /\ j = s) \/ (i = s /\ j = n) ->
            mget (adjacency_matrix E) i j = cap) as Hboth.
  { intros i j Hij. destruct (H2 i j) as (p & Hp & _ & ->).
    - apply attached_const. exists (Z.of_nat s). split; [done|].
      rewrite Nat2Z.id. destruct Hij as [[-> ->]|[-> ->]]; [by left|by right].
    - intros (t & Ht & Hpos)%attached_const. specialize (HbT t Ht).
      destruct Hij as [[-> ->]|[-> ->]]; destruct Hpos as [[? ?]|[? ?]]; lia.
    - by apply list_elem_of_fmap in Hp as (x & -> & _). }
  split; apply Hboth; [by left|by right].
Qed.

Lemma expanded_sink_edge t :
  Z.of_nat t ∈ T ->
  mget (adjacency_matrix E) (Datatypes.S n) t = cap /\
  mget (adjacency_matrix E) t (Datatypes.S n) = cap.
Proof.
  intros Ht. pose proof (node_of_T t Ht) as Htn.
  destruct HE as (_ & _ & _ & _ & H3). fold n in H3.
  assert (forall i j, (i = Datatypes.S n /\ j = t) \/ (i = t /\ j = Datatypes.S n) ->
            mget (adjacency_matrix E) i j = cap) as Hboth.
  { intros i j Hij. destruct (H3 i j) as (p & Hp & _ & ->).
    - apply attached_const. exists (Z.of_nat t). split; [done|].
      rewrite Nat2Z.id. destruct Hij as [[-> ->]|[-> ->]]; [by left|by right].
    - by apply list_elem_of_fmap in Hp as (x & -> & _). }
  split; apply Hboth; [by left|by right].
Qed.

Lemma expanded_block i j :
  (i < n)%nat -> (j < n)%nat -> mget (adjacency_matrix E) i j = mget A i j.
Proof.
  intros Hi Hj. destruct HE as (_ & _ & H1 & _). fold n A in H1.
  apply H1; intros (p & _ & [[? ?]|[? ?]])%Exists_exists; lia.
Qed.

Lemma lift_feasible :
  feasible (n + 2) (adjacency_matrix E) n (Datatypes.S n) (lift n S T g).
Proof.
  destruct Hg as (Hsq & Hk & Hw & Hc).
  destruct HE as (HEnet & HnE & _).
  destruct (is_network_inv E HEnet) as (HsqE & HnnE & _). rewrite HnE in *.
  split; [apply square_tabulate|]. split; [|split].
  - intros i j Hi Hj. rewrite !lift_entry by done.
    repeat case_bool_decide; destruct_and?; subst;
      try (exfalso; lia); try reflexivity;
      try (by apply Hk); try ring;
      try (match goal with H : Z.of_nat ?x ∈ S |- _ =>
             pose proof (node_of_S x H) end);
      try (match goal with H : Z.of_nat ?x ∈ T |- _ =>
             pose proof (node_of_T x H) end);
      try (exfalso; lia); try (exfalso; tauto).
    all: exfalso;
      repeat match goal with
             | H : ~ (_ /\ _) |- _ => apply H; split; (done || lia)
             end.
  - intros i j Hi Hj. rewrite lift_entry by done.
    repeat case_bool_decide; destruct_and?; subst.
    + rewrite expanded_block by done. by apply Hw.
    + rewrite (proj1 (expanded_source_edge j ltac:(done))).
      apply (net_outflow_bounded N Hnet S T g); [done|by apply node_of_S].
    + rewrite (proj2 (expanded_source_edge i ltac:(done))).
      apply (net_outflow_bounded N Hnet S T g); [done|by apply node_of_S].
    + rewrite (proj1 (expanded_sink_edge j ltac:(done))).
      apply (net_outflow_bounded N Hnet S T g); [done|by apply node_of_T].
    + rewrite (proj2 (expanded_sink_edge i ltac:(done))).
      apply (net_outflow_bounded N Hnet S T g); [done|by apply node_of_T].
    + by apply HnnE.
  - intros i Hi Hin HiS.
    assert (i < n)%nat as Hlt by lia.
    rewrite (row_sum_sum_over (n + 2)) by (apply square_tabulate || done).
    replace (seq 0 (n + 2)) with (seq 0 n ++ [n; Datatypes.S n]).
    2:{ rewrite (seq_app n 2 0). simpl. done. }
    rewrite sum_over_app. unfold sum_over at 2. simpl.
    rewrite (sum_over_ext _ _ (fun j => mget g i j)).
    2:{ intros j Hj%list_elem_of_In%in_seq. rewrite lift_entry by lia.
        rewrite bool_decide_eq_true_2 by lia. reflexivity. }
    rewrite <- (row_sum_sum_over n) by done.
    rewrite !lift_entry by lia.
    rewrite !(bool_decide_eq_false_2 (_ /\ (n < n)%nat)) by lia.
    rewrite !(bool_decide_eq_false_2 (_ /\ (Datatypes.S n < n)%nat)) by lia.
    rewrite !(bool_decide_eq_false_2 (i = n /\ _)) by lia.
    rewrite !(bool_decide_eq_false_2 (i = Datatypes.S n /\ _)) by lia.
    rewrite !(bool_decide_eq_false_2 (Datatypes.S n = n /\ _)) by lia.
    rewrite !(bool_decide_eq_false_2 (n = Datatypes.S n /\ _)) by lia.
    destruct (decide (Z.of_nat i ∈ S)) as [HS|HS];
      destruct (decide (Z.of_nat i ∈ T)) as [HT|HT].
    + exfalso. by apply (Hdis _ HS).
    + rewrite !(bool_decide_eq_true_2 (n = n /\ _)) by done.
      rewrite !(bool_decide_eq_false_2 (Datatypes.S n = Datatypes.S n /\ _)) by tauto.
      ring.
    + rewrite !(bool_decide_eq_false_2 (n = n /\ _)) by tauto.
      rewrite !(bool_decide_eq_true_2 (Datatypes.S n = Datatypes.S n /\ _)) by done.
      ring.
    + rewrite !(bool_decide_eq_false_2 (n = n /\ _)) by tauto.
      rewrite !(bool_decide_eq_false_2 (Datatypes.S n = Datatypes.S n /\ _)) by tauto.
      rewrite Hc; [ring|done|].
      intros [?|?]%elem_of_app; tauto.
Qed.

Lemma lift_value : (row_sum (lift n S T g) n == outflow g S)%Q.
Proof.
  rewrite (row_sum_sum_over (n + 2)) by (apply square_tabulate || lia).
  replace (seq 0 (n + 2)) with (seq 0 n ++ [n; Datatypes.S n]).
  2:{ rewrite (seq_app n 2 0). simpl. done. }
  rewrite sum_over_app. unfold sum_over at 2. simpl.
  rewrite !lift_entry by lia.
  rewrite !(bool_decide_eq_false_2 ((n < n)%nat /\ _)) by lia.
  assert (Z.of_nat n ∉ S) as HnS by (intros H%node_of_S; lia).
  assert (Z.of_nat (Datatypes.S n) ∉ S) as HnS' by (intros H%node_of_S; lia).
  assert (Z.of_nat n ∉ T) as HnT by (intros H%node_of_T; lia).
  rewrite !(bool_decide_eq_false_2 (_ /\ _ ∈ S)) by tauto.
  rewrite !(bool_decide_eq_false_2 (_ /\ _ ∈ T)) by (intros [? ?]; done || lia).
  set (l := map Z.to_nat S).
  assert (outflow g S = sum_over l (fun i => row_sum g i)) as ->.
  { unfold outflow, sum_over, l.
    by rewrite (map_map Z.to_nat (fun i => row_sum g i)). }
  rewrite (sum_over_support (seq 0 n) l).
  - rewrite (sum_over_ext l _ (fun i => row_sum g i)); [ring|].
    intros i (s & -> & Hs)%list_elem_of_fmap. pose proof (HbS s Hs).
    rewrite lift_entry by lia.
    rewrite bool_decide_eq_false_2 by lia.
    rewrite bool_decide_eq_true_2; [reflexivity|].
    split; [done|]. by rewrite Z2Nat.id by lia.
  - apply NoDup_ListNoDup, seq_NoDup.
  - unfold l. apply NoDup_fmap_2_strong; [|done].
    intros x y Hx Hy Heq. pose proof (HbS x Hx). pose proof (HbS y Hy). lia.
  - intros i (s & -> & Hs)%list_elem_of_fmap. pose proof (HbS s Hs).
    apply list_elem_of_In, in_seq. lia.
  - intros j Hj%list_elem_of_In%in_seq Hnl. rewrite lift_entry by lia.
    rewrite bool_decide_eq_false_2 by lia.
    rewrite bool_decide_eq_false_2.
    + rewrite bool_decide_eq_false_2 by lia.
      rewrite bool_decide_eq_false_2 by lia.
      rewrite bool_decide_eq_false_2 by lia. reflexivity.
    + intros [_ Hin]. apply Hnl. unfold l. apply list_elem_of_fmap.
      exists (Z.of_nat j). split; [lia|done].
Qed.

End lifting.

Lemma maximum_flow_optimal (N : Network.t) (sources sinks : list Z)
    (maxiter : Z) (f : Flow.t) :
  is_network N ->
  let n := n_nodes N in
  let A := adjacency_matrix N in
  let S := fromkeys sources in
  let T := fromkeys sinks in
  in_bounds n (sources ++ sinks) ->
  sources <> [] -> sinks <> [] ->
  (forall x, x ∈ sources -> x ∉ sinks) ->
  Network.maximum_flow N sources sinks maxiter = Ok f ->
  multi_feasible n A S T (Flow.flow_matrix f) /\
  exists v, Flow.value f = Ok v /\
    (v == outflow (Flow.flow_matrix f) S)%Q /\
    forall g, multi_feasible n A S T g -> (outflow g S <= v)%Q.
Proof.
  intros Hnet n A S T Hb Hs Ht Hdis Hrun.
  destruct (maximum_flow_spec N sources sinks maxiter Hnet Hb Hs Ht Hdis)
    as (E & HE & [Hfail|(fe & Hinv & Hmax & Hrun')]); [congruence|].
  fold n S T in HE, Hinv, Hmax, Hrun'.
  rewrite Hrun in Hrun'. injection Hrun' as ->.
  cbn [Flow.flow_matrix].
  pose proof (total_capacity_pos N) as Hpos.
  assert (in_bounds n (S ++ T)) as Hb' by (by apply in_bounds_fromkeys).
  assert (in_bounds n S) as HbS by (intros x Hx; apply Hb', elem_of_app; by left).
  assert (in_bounds n T) as HbT by (intros x Hx; apply Hb', elem_of_app; by right).
  assert (forall x, x ∈ S -> x ∉ T) as Hdis'.
  { intros x Hx Hx'. apply (Hdis x); by apply elem_of_fromkeys. }
  assert (valid_items n (map (fun s => (s, total_capacity N)) S)) as Hvs
    by (apply valid_items_const; [done|lra]).
  assert (valid_items n (map (fun s => (s, total_capacity N)) T)) as Hvt
    by (apply valid_items_const; [done|lra]).
  pose proof (base_square N _ _ E fe HE Hinv) as Hsq. fold n in Hsq.
  assert (S <> []) as HS.
  { intros HS. destruct sources as [|x ?]; [done|].
    assert (x ∈ S) as Hx by (apply elem_of_fromkeys; by left).
    rewrite HS in Hx. by apply elem_of_nil in Hx. }
  pose proof (base_value N _ _ E fe Hnet Hvs Hvt HE Hinv) as Hval.
  rewrite !map_fst_const in Hval. fold n in Hval.
  specialize (Hval (NoDup_dedup _ _) Hdis').
  split.
  - split; [done|]. split; [by apply (base_skew N _ _ E fe HE Hinv)|].
    split; [by apply (base_within N _ _ E fe HE Hinv)|].
    intros i Hi Hterm.
    apply (base_conserved N _ _ E fe Hnet Hvs Hvt HE Hinv i Hi).
    by rewrite !map_fst_const.
  - eexists. split; [by apply (value_of_sources n)|].
    split; [reflexivity|]. intros g Hg.
    fold (outflow (block n (Flow.flow_matrix fe)) S). unfold outflow at 2.
    rewrite Hval.
    rewrite <- (lift_value N S T g HbS HbT (NoDup_dedup _ _)).
    fold n. destruct Hmax as (_ & _ & Hmax). rewrite !Nat2Z.id in Hmax.
    pose proof HE as (HEnet & HnE & _). rewrite HnE in Hmax.
    apply Hmax.
    by apply (lift_feasible N S T E g Hnet HbS HbT Hdis').
Qed.

(** ** The direction of the flow at the two terminals *)

Lemma crossings_nonneg es u v : 0 <= crossings es u v.
Proof.
  induction es as [|e es IH]; simpl; [done|]. case_bool_decide; lia.
Qed.

Lemma crossings_absent es u v : (u, v) ∉ es -> crossings es u v = 0.
Proof.
  induction es as [|e es IH]; intros Hn; simpl; [done|].
  rewrite bool_decide_eq_false_2.
  - rewrite IH; [done|]. intros H. apply Hn. by right.
  - intros ->. apply Hn. by left.
Qed.

Lemma path_edges_elem (path : list Z) u v :
  (u, v) ∈ path_edges path -> u ∈ removelast path /\ v ∈ tail path.
Proof.
  unfold path_edges. intros H. split.
  - by apply elem_of_zip_l in H.
  - by apply elem_of_zip_r in H.
Qed.

Lemma crossings_into_head (path : list Z) s x :
  NoDup path -> head path = Some s -> crossings (path_edges path) x s = 0.
Proof.
  intros Hnd Hs. apply crossings_absent. intros [_ H]%path_edges_elem.
  destruct path as [|y path]; [done|]. injection Hs as ->. simpl in H.
  by apply NoDup_cons in Hnd as [Hnd _].
Qed.

Lemma crossings_out_of_last (path : list Z) t x :
  NoDup path -> last path = Some t -> crossings (path_edges path) t x = 0.
Proof.
  intros Hnd Ht. apply crossings_absent. intros [H _]%path_edges_elem.
  apply last_Some in Ht as [l ->]. rewrite removelast_last in H.
  apply NoDup_app in Hnd as (_ & Hnd & _). apply (Hnd t H). by left.
Qed.

Section augmenting.
Variable N : Network.t.
Variable source sink : Z.
Let n := n_nodes N.
Let A := adjacency_matrix N.
Hypothesis Hnet : is_network N.
Hypothesis Hsource : 0 <= source < Z.of_nat n.
Hypothesis Hsink : 0 <= sink < Z.of_nat n.
Hypothesis Hdiff : source <> sink.

(** A pass that augments sends a positive amount along a path without
    repeated nodes from the source to the sink. *)
Lemma ek_iteration_augment f f' :
  ek_inv N source sink f ->
  ek_iteration N source sink f = Ok (false, f') ->
  exists (path : list Z) (a : Q),
    (0 < a)%Q /\ NoDup path /\ head path = Some source /\
    last path = Some sink /\ in_bounds n path /\ (2 <= length path)%nat /\
    Flow.send_flow_along f path a = (f', Ok tt).
Proof.
  destruct (is_network_inv N Hnet) as (Hsq & _ & _). fold n A in Hsq.
  intros Hinv. unfold ek_iteration.
  rewrite (residual_network N source sink Hsq f Hinv), bind_Ok.
  pose proof (residual_square N source sink Hsq f Hinv) as Hrsq. fold n in Hrsq.
  assert (n_nodes (mk (residual N f)) = n) as Hrn by apply Hrsq.
  destruct (bfs_returns (mk (residual N f)) source) as (tr & q & Hbfs & Hpost).
  { by rewrite Hrn. } { by rewrite Hrn. }
  simpl adjacency_matrix in *. rewrite Hrn in Hpost.
  rewrite Hbfs, bind_Ok.
  destruct (py_index_in_range tr sink) as (v & Hv & Hidx).
  { rewrite (post_len _ _ _ _ _ Hpost). done. }
  rewrite Hidx, bind_Ok.
  destruct (Z.ltb_spec v 0) as [Hneg|Hpos]; [done|].
  destruct (path_from_bfs_spec _ n _ tr q (Z.to_nat sink) v Hpost)
    as (p & Hpath & Htp & Hbound); [lia|done|done|].
  rewrite Z2Nat.id in Hpath by lia. rewrite Hpath, bind_Ok.
  destruct (tree_path_edges _ _ _ _ Htp) as (es & Hes & Hnd & Hlen & Hprop & Hch).
  rewrite Hes.
  set (cap := fun e : nat * nat => mget (residual N f) (fst e) (snd e)).
  assert (forall u v, (u, v) ∈ es -> (u < n)%nat /\ (v < n)%nat) as Hesb.
  { intros u w Hin. destruct (Hprop u w Hin) as (_ & Hu & Hw & _).
    split; by apply Hbound. }
  rewrite (mapM_ok _ (fun e => match e with (x, y) =>
      mget (residual N f) (Z.to_nat x) (Z.to_nat y) end) (map zpair es)).
  2:{ intros [x y] Hin. apply list_elem_of_fmap in Hin as ([u w] & [= -> ->] & Hin).
      simpl. destruct (Hesb u w Hin). rewrite !Nat2Z.id.
      by apply (mat_index_nat n). }
  rewrite bind_Ok, map_map.
  destruct (tree_path_head _ _ _ _ Htp) as [p1 Hp1].
  destruct (tree_path_last _ _ _ _ Htp) as [p2 Hp2].
  assert (2 <= length p)%nat as Hlp.
  { destruct p1 as [|y p1]; [|rewrite Hp1; simpl; lia].
    rewrite Hp1 in Hp2. destruct p2 as [|z [|? ?]]; simpl in Hp2; try done.
    injection Hp2 as Heq. lia. }
  destruct es as [|e0 es0] eqn:Ees; [simpl in Hlen; lia|]. rewrite <- Ees in *.
  assert (exists a, py_min (map cap es) = Ok a /\ (0 < a)%Q) as (a & Hmin & Hapos).
  { rewrite Ees. simpl. eexists. split; [reflexivity|].
    apply foldl_Qmin_pos. intros y Hy.
    change (cap e0 :: map cap es0) with (map cap (e0 :: es0)) in Hy.
    apply list_elem_of_fmap in Hy as ([u w] & -> & Hin).
    rewrite <- Ees in Hin. by apply (Hprop u w). }
  rewrite (map_ext _ cap)
    by (intros [u w]; unfold cap; simpl; by rewrite !Nat2Z.id).
  rewrite Hmin, bind_Ok.
  intros Hrun. exists (map Z.of_nat p), a.
  split; [done|].
  split; [apply NoDup_fmap_2; [apply Nat2Z.inj'|]; by eapply tree_path_NoDup|].
  split; [rewrite Hp1; simpl; f_equal; lia|].
  split; [rewrite Hp2, map_app; simpl; rewrite last_snoc; f_equal; lia|].
  split.
  { intros y (y' & -> & Hy')%list_elem_of_fmap. specialize (Hbound y' Hy'). lia. }
  split; [by rewrite length_map|].
  destruct (Flow.send_flow_along f (map Z.of_nat p) a) as [f1 r] eqn:Hsend.
  simpl in Hrun. destruct r as [[]| |]; simpl in Hrun; [|done|done].
  by injection Hrun as <-.
Qed.

Lemma ek_iteration_one_way f f' :
  ek_inv N source sink f ->
  one_way_terminals n (Z.to_nat source) (Z.to_nat sink) (Flow.flow_matrix f) ->
  ek_iteration N source sink f = Ok (false, f') ->
  one_way_terminals n (Z.to_nat source) (Z.to_nat sink) (Flow.flow_matrix f').
Proof.
  intros Hinv [Hout Hin] Hrun.
  destruct (ek_iteration_augment f f' Hinv Hrun)
    as (path & a & Ha & Hnd & Hhd & Hlt & Hb & Hlen & Hsend).
  pose proof (ek_square _ _ _ _ Hinv) as Hsq. fold n in Hsq.
  destruct (send_flow_along_spec f path a) as (f1 & Hsend' & _ & _ & _ & Hent);
    rewrite ?(proj1 Hsq); try done.
  rewrite Hsend in Hsend'. injection Hsend' as <-.
  rewrite (proj1 Hsq) in Hent.
  split; intros x Hx.
  - rewrite (Hent (Z.to_nat source) x) by lia. rewrite Z2Nat.id by lia.
    rewrite (crossings_into_head path source) by done.
    pose proof (crossings_nonneg (path_edges path) source (Z.of_nat x)) as Hc.
    specialize (Hout x Hx).
    assert (0 <= inject_Z (crossings (path_edges path) source (Z.of_nat x) - 0))%Q
      as Hc'.
    { rewrite Z.sub_0_r. change 0%Q with (inject_Z 0).
      by rewrite <- Zle_Qle. }
    pose proof (Qmult_le_0_compat _ _ (Qlt_le_weak _ _ Ha) Hc'). lra.
  - rewrite (Hent x (Z.to_nat sink)) by lia. rewrite Z2Nat.id by lia.
    rewrite (crossings_out_of_last path sink) by done.
    pose proof (crossings_nonneg (path_edges path) (Z.of_nat x) sink) as Hc.
    specialize (Hin x Hx).
    assert (0 <= inject_Z (crossings (path_edges path) (Z.of_nat x) sink - 0))%Q
      as Hc'.
    { rewrite Z.sub_0_r. change 0%Q with (inject_Z 0).
      by rewrite <- Zle_Qle. }
    pose proof (Qmult_le_0_compat _ _ (Qlt_le_weak _ _ Ha) Hc'). lra.
Qed.

Lemma augments_one_way k f f' :
  ek_inv N source sink f ->
  one_way_terminals n (Z.to_nat source) (Z.to_nat sink) (Flow.flow_matrix f) ->
  augments N source sink k f f' ->
  one_way_terminals n (Z.to_nat source) (Z.to_nat sink) (Flow.flow_matrix f').
Proof.
  intros Hinv Hone Haug. induction Haug as [f|k f f1 f2 Hstep Haug IH]; [done|].
  apply IH.
  - apply (augments_inv N source sink Hnet Hsource Hsink Hdiff 1 f f1); [done|].
    econstructor; [exact Hstep|constructor].
  - by apply (ek_iteration_one_way f f1).
Qed.

Lemma edmonds_karp_one_way maxiter f :
  Network.edmonds_karp N source sink maxiter = Ok f ->
  one_way_terminals n (Z.to_nat source) (Z.to_nat sink) (Flow.flow_matrix f).
Proof.
  intros Hrun. rewrite edmonds_karp_unfold in Hrun by done.
  destruct (ek_loop_spec N source sink Hnet Hsource Hsink Hdiff
              (Z.to_nat maxiter) _ (zero_flow_inv N source sink Hnet))
    as [(j & f' & _ & Hrun' & Haug & _)|[Hrun' _]]; [|congruence].
  rewrite Hrun in Hrun'. injection Hrun' as <-.
  eapply augments_one_way; [by apply zero_flow_inv| |exact Haug].
  split; intros x _; simpl; by rewrite mget_zeros.
Qed.

End augmenting.

(** ** [sufficient_flow] respects the supplies and meets the demands *)

Lemma total_Qsum (d : list (Z * Q)) : (total d == Qsum (map snd d))%Q.
Proof.
  unfold total.
  assert (forall (l : list Q) acc, (foldl Qplus acc l == acc + Qsum l)%Q) as H.
  { induction l as [|x l IH]; intros acc; simpl; [ring|]. rewrite IH. ring. }
  rewrite H. ring.
Qed.

(** What the search of [sufficient_flow] returns. *)
Lemma sufficient_search_returns N (srcs snks : list (Z * Q)) maxiter fe :
  is_network N ->
  let n := n_nodes N in
  valid_items n srcs -> valid_items n snks ->
  sufficient_search N srcs snks maxiter = Ok fe ->
  exists E, expands N srcs snks E /\
    ek_inv E (Z.of_nat n) (Z.of_nat (S n)) fe /\
    is_maximum_flow E (Z.of_nat n) (Z.of_nat (S n)) fe /\
    one_way_terminals (n + 2) n (S n) (Flow.flow_matrix fe).
Proof.
  intros Hnet n Hs Ht Hrun.
  destruct (expansion_spec N srcs snks Hnet Hs Ht)
    as (e1 & e & E & Hrun1 & Hrun2 & Hinit & HE & HnE & H1 & H2 & H3).
  fold n in Hrun1, Hrun2, HnE, H1, H2, H3.
  exists E. split; [by repeat split|].
  unfold sufficient_search in Hrun. fold n in Hrun.
  rewrite Hrun1, bind_Ok, Hrun2, bind_Ok, Hinit, bind_Ok in Hrun.
  assert (Z.of_nat n <> Z.of_nat (S n)) as Hne by lia.
  assert (0 <= Z.of_nat n < Z.of_nat (n_nodes E)) as Hb1 by lia.
  assert (0 <= Z.of_nat (S n) < Z.of_nat (n_nodes E)) as Hb2 by lia.
  destruct (edmonds_karp_maximum E _ _ maxiter fe HE Hne Hb1 Hb2 Hrun)
    as [Hinv Hmax].
  split; [done|]. split; [done|].
  pose proof (edmonds_karp_one_way E _ _ HE Hb1 Hb2 Hne maxiter fe Hrun) as H.
  by rewrite HnE, !Nat2Z.id in H.
Qed.

Lemma attach_sources_ok_bounds n super items : forall e e',
  attach_sources n super items e = Ok e' ->
  forall p, p ∈ items -> 0 <= p.1 < Z.of_nat n.
Proof.
  induction items as [|[node cap] items IH]; intros e e' Hrun p Hp.
  - by apply elem_of_nil in Hp.
  - cbn [attach_sources] in Hrun.
    destruct ((node <? 0) || (Z.of_nat n <=? node)) eqn:Hc; [done|].
    apply elem_of_cons in Hp as [->|Hp]; [|by eapply IH].
    apply orb_false_iff in Hc as [Hc1 Hc2].
    apply Z.ltb_ge in Hc1. apply Z.leb_gt in Hc2. simpl. lia.
Qed.

Lemma attach_sinks_ok_bounds n super items : forall e e',
  attach_sinks n super items e = Ok e' ->
  forall p, p ∈ items -> 0 <= p.1 < Z.of_nat n.
Proof.
  induction items as [|[node cap] items IH]; intros e e' Hrun p Hp.
  - by apply elem_of_nil in Hp.
  - cbn [attach_sinks] in Hrun.
    destruct ((node <? 0) || (Z.of_nat n <=? node)) eqn:Hc; [done|].
    apply elem_of_cons in Hp as [->|Hp]; [|by eapply IH].
    apply orb_false_iff in Hc as [Hc1 Hc2].
    apply Z.ltb_ge in Hc1. apply Z.leb_gt in Hc2. simpl. lia.
Qed.

Lemma sufficient_search_ok_bounds N srcs snks maxiter fe :
  sufficient_search N srcs snks maxiter = Ok fe ->
  forall p, p ∈ srcs ++ snks -> 0 <= p.1 < Z.of_nat (n_nodes N).
Proof.
  unfold sufficient_search. intros Hrun p Hp.
  destruct (attach_sources _ _ srcs _) as [e1| |] eqn:H1; [|done|done].
  rewrite bind_Ok in Hrun.
  destruct (attach_sinks _ _ snks _) as [e2| |] eqn:H2; [|done|done].
  apply elem_of_app in Hp as [Hp|Hp].
  - by apply (attach_sources_ok_bounds _ _ _ _ _ H1).
  - by apply (attach_sinks_ok_bounds _ _ _ _ _ H2).
Qed.

Lemma sum_over_deficit l (h g : nat -> Q) x :
  (forall y, y ∈ l -> (h y <= g y)%Q) -> x ∈ l ->
  (g x - h x <= sum_over l g - sum_over l h)%Q.
Proof.
  intros Hle Hx.
  assert (sum_over l g - sum_over l h == sum_over l (fun y => g y - h y))%Q as ->.
  { rewrite (sum_over_ext l (fun y => g y - h y)%Q (fun y => g y + - h y)%Q)
      by (intros; ring).
    rewrite sum_over_plus, sum_over_opp. ring. }
  apply (sum_over_ge_term l (fun y => g y - h y)%Q); [|done].
  intros y Hy. specialize (Hle y Hy). lra.
Qed.

Lemma NoDup_keys_unique (items : list (Z * Q)) k v1 v2 :
  NoDup (map fst items) -> (k, v1) ∈ items -> (k, v2) ∈ items -> v1 = v2.
Proof.
  induction items as [|[k' v'] items IH]; intros Hnd H1 H2.
  - by apply elem_of_nil in H1.
  - simpl in Hnd. apply NoDup_cons in Hnd as [Hk Hnd].
    apply elem_of_cons in H1 as [E1|H1]; apply elem_of_cons in H2 as [E2|H2].
    + congruence.
    + exfalso. apply Hk. apply list_elem_of_fmap. exists (k, v2).
      split; [simpl; congruence|done].
    + exfalso. apply Hk. apply list_elem_of_fmap. exists (k, v1).
      split; [simpl; congruence|done].
    + by apply IH.
Qed.

Section terminals.
Variable N : Network.t.
Variable srcs snks : list (Z * Q).
Variable E : Network.t.
Let n := n_nodes N.
Hypothesis Hs : valid_items n srcs.
Hypothesis Ht : valid_items n snks.
Hypothesis HE : expands N srcs snks E.

Lemma expands_source_cap s c :
  NoDup (map fst srcs) -> (s, c) ∈ srcs ->
  mget (adjacency_matrix E) n (Z.to_nat s) = c.
Proof.
  intros Hnd Hin. destruct HE as (_ & _ & _ & H2 & _). fold n in H2.
  destruct (Hs _ Hin) as [Hb _]. simpl in Hb.
  destruct (H2 n (Z.to_nat s)) as (p & Hp & Hpos & ->).
  - apply Exists_exists. exists (s, c). split; [done|]. by left.
  - intros (p & Hp & [[? ?]|[? ?]])%Exists_exists; lia.
  - destruct (Hs _ Hp) as [Hb' _]. destruct p as [k v]. simpl in *.
    assert (k = s) as ->
      by (destruct Hpos as [[_ ?]|[? _]]; simpl in *; lia).
    by apply (NoDup_keys_unique srcs s).
Qed.

Lemma expands_sink_cap t d :
  NoDup (map fst snks) -> (t, d) ∈ snks ->
  mget (adjacency_matrix E) (Z.to_nat t) (S n) = d.
Proof.
  intros Hnd Hin. destruct HE as (_ & _ & _ & _ & H3). fold n in H3.
  destruct (Ht _ Hin) as [Hb _]. simpl in Hb.
  destruct (H3 (Z.to_nat t) (S n)) as (p & Hp & Hpos & ->).
  - apply Exists_exists. exists (t, d). split; [done|]. by right.
  - destruct (Ht _ Hp) as [Hb' _]. destruct p as [k v]. simpl in *.
    assert (k = t) as ->
      by (destruct Hpos as [[? _]|[_ ?]]; simpl in *; lia).
    by apply (NoDup_keys_unique snks t).
Qed.

Lemma sum_of_items (items : list (Z * Q)) (g : nat -> Q) :
  (forall t d, (t, d) ∈ items -> g (Z.to_nat t) = d) ->
  sum_over (map Z.to_nat (map fst items)) g = Qsum (map snd items).
Proof.
  induction items as [|[t d] items IH]; intros Hg; [done|].
  unfold sum_over in *. simpl. rewrite (Hg t d) by (apply elem_of_cons; by left).
  f_equal. apply IH. intros t' d' Hin. apply Hg. by (apply elem_of_cons; right).
Qed.

(** All the flow into the super-sink comes from the sinks. *)
Lemma inflow_at_sinks (fe : Flow.t) :
  is_network N -> ek_inv E (Z.of_nat n) (Z.of_nat (S n)) fe ->
  NoDup (map fst snks) ->
  (col_sum (Flow.flow_matrix fe) (S n) ==
   sum_over (map Z.to_nat (map fst snks))
     (fun i => mget (Flow.flow_matrix fe) i (S n)))%Q.
Proof.
  intros Hnet Hinv Hnd. set (Fe := Flow.flow_matrix fe).
  assert (forall t, t ∈ map fst snks -> 0 <= t < Z.of_nat n) as Hb.
  { intros t (p & -> & Hp)%list_elem_of_fmap. by apply Ht. }
  rewrite (col_sum_sum_over (n + 2))
    by (apply (base_square_F N srcs snks E fe HE Hinv) || lia).
  apply sum_over_support.
  - apply NoDup_ListNoDup, seq_NoDup.
  - apply NoDup_fmap_2_strong; [|done].
    intros x y Hx Hy Heq. pose proof (Hb x Hx). pose proof (Hb y Hy). lia.
  - intros i (t & -> & Hin)%list_elem_of_fmap. specialize (Hb t Hin).
    apply list_elem_of_In, in_seq. lia.
  - intros j Hj%list_elem_of_In%in_seq Hnl.
    destruct (decide (j < n)%nat) as [Hjn|Hjn].
    + apply (base_no_sink N srcs snks E fe Hnet Ht HE Hinv j Hjn).
      intros Hin. apply Hnl. apply list_elem_of_fmap. exists (Z.of_nat j).
      split; [lia|done].
    + apply (base_no_super N srcs snks E fe Hnet Hs Ht HE Hinv); lia.
Qed.

End terminals.

Lemma sufficient_flow_spec (N : Network.t) (supply demand : list (Z * Q))
    (maxiter : Z) (f : Flow.t) :
  is_network N ->
  NoDup (map fst supply) -> NoDup (map fst demand) ->
  (forall x, x ∈ map fst supply -> x ∉ map fst demand) ->
  Network.sufficient_flow N supply demand maxiter = Ok f ->
  let n := n_nodes N in
  let A := adjacency_matrix N in
  let F := Flow.flow_matrix f in
  (Flow.sources f = map fst supply /\ Flow.sinks f = map fst demand) /\
  (square n F /\ skew n F /\ within n A F) /\
  (forall i, (i < n)%nat -> Z.of_nat i ∉ map fst supply ++ map fst demand ->
     (row_sum F i == 0)%Q) /\
  (forall s c, (s, c) ∈ supply ->
     0 <= s < Z.of_nat n /\
     (0 <= row_sum F (Z.to_nat s))%Q /\ (row_sum F (Z.to_nat s) <= c)%Q) /\
  exists v, Flow.value f = Ok v /\ (total demand <= v + Flow._EPS)%Q /\
    forall t d, (t, d) ∈ demand ->
      0 <= t < Z.of_nat n /\
      (- row_sum F (Z.to_nat t) <= d)%Q /\
      (d - - row_sum F (Z.to_nat t) <= total demand - v)%Q.
Proof.
  intros Hnet HndS HndT Hdis Hrun n A F.
  unfold sufficient_flow in Hrun.
  destruct (bool_decide (supply = []) || bool_decide (demand = [])) eqn:Hemp;
    [done|].
  apply orb_false_iff in Hemp as [Hs0 _]. apply bool_decide_eq_false in Hs0.
  destruct (existsb _ supply) eqn:Hns; [done|].
  destruct (existsb _ demand) eqn:Hnd; [done|]. cbn [orb] in Hrun.
  apply amounts_check_spec in Hns, Hnd.
  destruct (Qltb _ (total demand)) eqn:Hsup; [done|].
  destruct (sufficient_search N supply demand maxiter) as [fe| |] eqn:Hsearch;
    [|done|done].
  rewrite bind_Ok in Hrun.
  destruct (Flow.value fe) as [v| |] eqn:Hv; [|done|done].
  rewrite bind_Ok in Hrun.
  destruct (Qltb (v + Flow._EPS) (total demand)) eqn:Hmet; [done|].
  apply Qltb_ge in Hmet. fold n in Hrun.
  pose proof (sufficient_search_ok_bounds N _ _ _ _ Hsearch) as Hbounds.
  fold n in Hbounds.
  assert (valid_items n supply) as Hvs.
  { intros p Hp. split; [apply Hbounds, elem_of_app; by left|by apply Hns]. }
  assert (valid_items n demand) as Hvt.
  { intros p Hp. split; [apply Hbounds, elem_of_app; by right|by apply Hnd]. }
  destruct (sufficient_search_returns N supply demand maxiter fe Hnet Hvs Hvt
              Hsearch) as (E & HE & Hinv & Hmax & Hout & Hin).
  fold n in Hinv, Hmax, Hout, Hin.
  set (Fe := Flow.flow_matrix fe) in *.
  pose proof (base_square N _ _ E fe HE Hinv) as Hsq.
  pose proof (base_skew N _ _ E fe HE Hinv) as Hsk.
  pose proof (base_within N _ _ E fe HE Hinv) as Hwi.
  pose proof (base_conserved N _ _ E fe Hnet Hvs Hvt HE Hinv) as Hcons.
  fold n Fe in Hsq, Hsk, Hwi, Hcons.
  assert (in_bounds n (map fst supply ++ map fst demand)) as Hib.
  { intros x [Hx|Hx]%elem_of_app;
      apply list_elem_of_fmap in Hx as (p & -> & Hp);
      apply Hbounds, elem_of_app; [by left|by right]. }
  rewrite (exact_flow_init n) in Hrun; [|done|done|done|done].
  injection Hrun as <-.
  rewrite !fromkeys_NoDup by done.
  cbn [Flow.sources Flow.sinks Flow.flow_matrix]. unfold F.
  cbn [Flow.flow_matrix].
  split; [done|]. split; [done|]. split; [done|].
  (* the flow on the synthetic edges *)
  pose proof (base_within_F N _ _ E fe HE Hinv) as HwF. fold Fe in HwF.
  assert (forall s c, (s, c) ∈ supply ->
            0 <= s < Z.of_nat n /\
            (row_sum (block n Fe) (Z.to_nat s) == mget Fe n (Z.to_nat s))%Q /\
            (0 <= mget Fe n (Z.to_nat s))%Q /\ (mget Fe n (Z.to_nat s) <= c)%Q)
    as Hsrc.
  { intros s c Hsc. destruct (Hvs _ Hsc) as [Hb _]. simpl in Hb.
    split; [done|]. split; [|split].
    - assert (Z.to_nat s < n)%nat as Hlt by lia.
      pose proof (base_row_sum N _ _ E fe HE Hinv _ Hlt) as Hrs.
      destruct (base_no_sink N _ _ E fe Hnet Hvt HE Hinv _ Hlt) as [_ Hz].
      { rewrite Z2Nat.id by lia. apply Hdis, list_elem_of_fmap.
        by exists (s, c). }
      fold n Fe in Hrs, Hz. lra.
    - apply Hout. lia.
    - rewrite <- (expands_source_cap N supply demand E Hvs HE s c HndS Hsc).
      apply HwF. }
  assert (forall t d, (t, d) ∈ demand ->
            0 <= t < Z.of_nat n /\
            (- row_sum (block n Fe) (Z.to_nat t) == mget Fe (Z.to_nat t) (S n))%Q /\
            (mget Fe (Z.to_nat t) (S n) <= d)%Q)
    as Hsnk.
  { intros t d Htd. destruct (Hvt _ Htd) as [Hb _]. simpl in Hb.
    split; [done|]. split.
    - assert (Z.to_nat t < n)%nat as Hlt by lia.
      pose proof (base_row_sum N _ _ E fe HE Hinv _ Hlt) as Hrs.
      destruct (base_no_source N _ _ E fe Hnet Hvs HE Hinv _ Hlt) as [Hz _].
      { rewrite Z2Nat.id by lia. intros Hx. apply (Hdis _ Hx).
        apply list_elem_of_fmap. by exists (t, d). }
      fold n Fe in Hrs, Hz. lra.
    - rewrite <- (expands_sink_cap N supply demand E Hvt HE t d HndT Htd).
      apply HwF. }
  split.
  { intros s c Hsc. destruct (Hsrc s c Hsc) as (Hb & Heq & H0 & Hc).
    split; [done|]. rewrite Heq. by split. }
  (* the value of the flow, at the sources and at the sinks *)
  destruct (value_row_sum E _ _ fe Hinv) as (v' & Hv' & Hval).
  { destruct HE as (_ & -> & _). lia. }
  rewrite Hv in Hv'. injection Hv' as <-. rewrite Nat2Z.id in Hval.
  pose proof (base_value N _ _ E fe Hnet Hvs Hvt HE Hinv HndS Hdis) as Hbase.
  fold n Fe in Hbase, Hval.
  exists (Qsum (map (fun s => row_sum (block n Fe) (Z.to_nat s))
                (map fst supply))).
  split.
  { apply (value_of_sources n); [done| |].
    - intros x Hx. apply Hib, elem_of_app. by left.
    - by destruct supply. }
  split; [lra|].
  intros t d Htd. destruct (Hsnk t d Htd) as (Hb & Heq & Hd).
  split; [done|]. split; [lra|].
  destruct Hmax as (Hfeas & _). rewrite !Nat2Z.id in Hfeas.
  pose proof HE as (_ & HnE & _). rewrite HnE in Hfeas. fold n in Hfeas.
  pose proof (feasible_source_sink (n + 2) _ n (S n) _ ltac:(lia) ltac:(lia)
                ltac:(lia) Hfeas) as Hio.
  pose proof (inflow_at_sinks N supply demand E Hvs Hvt HE fe Hnet Hinv HndT)
    as Hsum.
  fold n Fe in Hio, Hsum.
  set (l := map Z.to_nat (map fst demand)) in *.
  pose proof (sum_of_items demand (fun i => mget (adjacency_matrix E) i (S n)))
    as Hcap.
  fold l in Hcap.
  pose proof (total_Qsum demand) as Htot. rewrite <- Hcap in Htot.
  2:{ intros t' d' Hin'. by apply (expands_sink_cap N supply demand E Hvt HE). }
  assert (Z.to_nat t ∈ l) as Hl.
  { unfold l. apply list_elem_of_fmap. exists t. split; [done|].
    apply list_elem_of_fmap. by exists (t, d). }
  pose proof (sum_over_deficit l (fun i => mget Fe i (S n))
                (fun i => mget (adjacency_matrix E) i (S n)) (Z.to_nat t)
                ltac:(intros; apply HwF) Hl) as Hdef.
  cbv beta in Hdef.
  pose proof (expands_sink_cap N supply demand E Hvt HE t d HndT Htd) as Hc.
  fold n in Hc. rewrite Hc in Hdef. lra.
Qed.

(** ** The registry of proposals *)

Lemma proposal_init_cases reg name adj_mat edge_table :
  (name ∈ Proposal.names_in_use reg /\
   exists msg,
     Proposal.__init__ reg name adj_mat edge_table =
       (reg, Raise (TubePlanningError msg))) \/
  ((name ∉ Proposal.names_in_use reg) /\
   exists net,
     Network.__init__ adj_mat edge_table = Ok net /\
     Proposal.__init__ reg name adj_mat edge_table =
       (reg ++ [Proposal.mk name net], Ok (Proposal.mk name net))) \/
  ((name ∉ Proposal.names_in_use reg) /\
   (forall net, Network.__init__ adj_mat edge_table <> Ok net) /\
   Proposal.__init__ reg name adj_mat edge_table =
     (reg, match Network.__init__ adj_mat edge_table with
           | Ok _ => Diverge
           | Raise e => Raise e
           | Diverge => Diverge
           end)).
Proof.
  unfold Proposal.__init__. case_bool_decide as Hin.
  - left. split; [done|]. by eexists.
  - right. destruct (Network.__init__ adj_mat edge_table) as [net|e|] eqn:Hnet.
    + left. split; [done|]. by exists net.
    + right. by repeat split.
    + right. by repeat split.
Qed.

(** ** The constructor of [PerformanceCriteria] *)

Lemma values_check_spec (l : list Q) :
  existsb (fun v => Qltb v 0%Q) l = false <-> forall v, v ∈ l -> (0 <= v)%Q.
Proof.
  rewrite <- not_true_iff_false, existsb_exists. split.
  - intros H v Hv. apply Qltb_ge. destruct (Qltb v 0%Q) eqn:E; [|done].
    exfalso. apply H. exists v. split; [by apply list_elem_of_In|done].
  - intros H (v & Hv & Hlt). apply list_elem_of_In, H in Hv.
    apply Qltb_lt in Hlt. lra.
Qed.

Lemma post_init_spec (weight : Q) :
  ((0 < weight)%Q /\ Criteria.__post_init__ weight = Ok tt) \/
  ((weight <= 0)%Q /\
   Criteria.__post_init__ weight =
     Raise (TubePlanningError "Criteria.weight must be positive.")).
Proof.
  unfold Criteria.__post_init__.
  destruct (Qle_bool weight 0) eqn:E.
  - right. by apply Qle_bool_iff in E.
  - left. split; [|done]. apply Qnot_le_lt. intros H.
    apply Qle_bool_iff in H. congruence.
Qed.

(** ** Evaluating a group of criteria *)

Lemma essential_loop_spec proposed current k crits : forall score failed r,
  CriteriaGroup.essential_loop crits proposed current k score failed = Ok r <->
  exists vals, Forall2 (evaluates proposed current k) crits vals /\
    r = (foldl Qplus score vals, failed ++ failing crits vals).
Proof.
  induction crits as [|crit crits IH]; intros score failed r; simpl.
  - split.
    + intros [= <-]. exists []. split; [constructor|].
      unfold failing. simpl. by rewrite app_nil_r.
    + intros (vals & Hall & ->). apply Forall2_nil_inv_l in Hall as ->.
      unfold failing. simpl. by rewrite app_nil_r.
  - destruct (Criteria.evaluate_any crit proposed current k) as [v| |] eqn:Hv.
    + rewrite bind_Ok, IH. split.
      * intros (vals & Hall & ->). exists (v :: vals).
        split; [by constructor|]. unfold failing. simpl.
        destruct (Qle_bool v 0); simpl; [|done]. by rewrite <- app_assoc.
      * intros (vals & Hall & ->).
        apply Forall2_cons_inv_l in Hall as (v' & vals' & Hev & Hall & ->).
        unfold evaluates in Hev. rewrite Hv in Hev. injection Hev as <-.
        exists vals'. split; [done|]. unfold failing. simpl.
        destruct (Qle_bool v 0); simpl; [|done]. by rewrite <- app_assoc.
    + split; [done|]. intros (vals & Hall & _).
      apply Forall2_cons_inv_l in Hall as (v' & vals' & Hev & _).
      unfold evaluates in Hev. congruence.
    + split; [done|]. intros (vals & Hall & _).
      apply Forall2_cons_inv_l in Hall as (v' & vals' & Hev & _).
      unfold evaluates in Hev. congruence.
Qed.

Lemma desirable_loop_spec proposed current k crits : forall score r,
  CriteriaGroup.desirable_loop crits proposed current k score = Ok r <->
  exists vals, Forall2 (evaluates proposed current k) crits vals /\
    r = foldl Qplus score vals.
Proof.
  induction crits as [|crit crits IH]; intros score r; simpl.
  - split.
    + intros [= <-]. exists []. split; [constructor|done].
    + intros (vals & Hall & ->). by apply Forall2_nil_inv_l in Hall as ->.
  - destruct (Criteria.evaluate_any crit proposed current k) as [v| |] eqn:Hv.
    + rewrite bind_Ok, IH. split.
      * intros (vals & Hall & ->). exists (v :: vals). split; [by constructor|done].
      * intros (vals & Hall & ->).
        apply Forall2_cons_inv_l in Hall as (v' & vals' & Hev & Hall & ->).
        unfold evaluates in Hev. rewrite Hv in Hev. injection Hev as <-.
        by exists vals'.
    + split; [done|]. intros (vals & Hall & _).
      apply Forall2_cons_inv_l in Hall as (v' & vals' & Hev & _).
      unfold evaluates in Hev. congruence.
    + split; [done|]. intros (vals & Hall & _).
      apply Forall2_cons_inv_l in Hall as (v' & vals' & Hev & _).
      unfold evaluates in Hev. congruence.
Qed.

Lemma failing_sublist crits vals : sublist (failing crits vals) crits.
Proof.
  revert vals. induction crits as [|c crits IH]; intros [|v vals];
    unfold failing; simpl; try apply sublist_nil_l.
  destruct (Qle_bool v 0); simpl.
  - apply sublist_skip, IH.
  - apply sublist_cons, IH.
Qed.

Lemma failing_nil crits vals :
  length crits = length vals ->
  failing crits vals = [] <-> forall v, v ∈ vals -> (0 < v)%Q.
Proof.
  revert vals. induction crits as [|c crits IH]; intros [|v vals] Hlen;
    try done.
  - split; [|done]. intros _ v Hv. by apply elem_of_nil in Hv.
  - unfold failing. simpl. destruct (Qle_bool v 0) eqn:E; simpl.
    + split; [done|]. intros H. apply Qle_bool_iff in E.
      specialize (H v ltac:(by left)). lra.
    + fold (failing crits vals). rewrite IH by (simpl in Hlen; lia). split.
      * intros H v' [->|Hv']%elem_of_cons; [|by apply H].
        apply Qnot_le_lt. intros Hle. apply Qle_bool_iff in Hle. congruence.
      * intros H v' Hv'. apply H. by right.
Qed.

(** ** Ranking the proposals *)

Lemma evaluate_each_spec current criteria k ps : forall acc res,
  evaluate_each ps current criteria k acc = Ok res <->
  exists rs, Forall2 (scored current criteria k) ps rs /\ res = acc ++ rs.
Proof.
  induction ps as [|p ps IH]; intros acc res; simpl.
  - split.
    + intros [= <-]. exists []. split; [constructor|by rewrite app_nil_r].
    + intros (rs & Hall & ->). apply Forall2_nil_inv_l in Hall as ->.
      by rewrite app_nil_r.
  - destruct (evaluate_proposal p current criteria k) as [[s f]| |] eqn:Hp.
    + rewrite bind_Ok, IH. simpl. split.
      * intros (rs & Hall & ->). exists ((p, s, f) :: rs).
        split; [|by rewrite <- app_assoc].
        constructor; [|done]. split; [done|]. by rewrite Hp.
      * intros (rs & Hall & ->).
        apply Forall2_cons_inv_l in Hall as (r & rs' & [Hfst Hev] & Hall & ->).
        rewrite Hp in Hev. injection Hev as Hs Hf.
        exists rs'. split; [done|]. rewrite <- app_assoc. simpl.
        destruct r as [[p' s'] f']. unfold score_of in Hs. simpl in *.
        by subst.
    + split; [done|]. intros (rs & Hall & _).
      apply Forall2_cons_inv_l in Hall as (r & rs' & [_ Hev] & _). congruence.
    + split; [done|]. intros (rs & Hall & _).
      apply Forall2_cons_inv_l in Hall as (r & rs' & [_ Hev] & _). congruence.
Qed.

Lemma descending_cons x l :
  descending (x :: l) <->
  (forall y, y ∈ l -> (score_of y <= score_of x)%Q) /\ descending l.
Proof.
  split.
  - intros H. split.
    + intros y (j & Hj)%list_elem_of_lookup_1.
      by apply (H 0%nat (S j) x y ltac:(lia)).
    + intros i j a b Hij Ha Hb. by apply (H (S i) (S j) a b ltac:(lia)).
  - intros [Hx Hl] i j a b Hij Ha Hb.
    destruct j as [|j]; [lia|]. simpl in Hb.
    destruct i as [|i]; simpl in Ha.
    + injection Ha as <-. apply Hx. by apply list_elem_of_lookup_2 in Hb.
    + by apply (Hl i j a b ltac:(lia)).
Qed.

Lemma rank_insert_perm x l : rank_insert x l ≡ₚ l ++ [x].
Proof.
  induction l as [|y l IH]; simpl; [done|].
  destruct (Qle_bool (score_of x) (score_of y)) eqn:E;
    unfold score_of in E; rewrite E.
  - by rewrite IH.
  - change (x :: y :: l ≡ₚ (y :: l) ++ [x]).
    by rewrite <- Permutation_cons_append.
Qed.

Lemma rank_insert_descending x l :
  descending l -> descending (rank_insert x l).
Proof.
  induction l as [|y l IH]; intros Hl; simpl.
  - intros i j a b Hij Ha Hb. destruct j as [|j]; [lia|]. simpl in Hb.
    by rewrite lookup_nil in Hb.
  - apply descending_cons in Hl as [Hy Hl].
    destruct (Qle_bool (score_of x) (score_of y)) eqn:E;
      unfold score_of in E; rewrite E.
    + apply descending_cons. split; [|by apply IH].
      intros z Hz. rewrite rank_insert_perm in Hz.
      apply elem_of_app in Hz as [Hz| ->%list_elem_of_singleton];
        [by apply Hy|]. by apply Qle_bool_iff.
    + assert (score_of y < score_of x)%Q as Hlt.
      { apply Qnot_le_lt. intros H. apply Qle_bool_iff in H.
        unfold score_of in H. congruence. }
      apply descending_cons. split.
      * intros z [->|Hz]%elem_of_cons; [lra|]. specialize (Hy z Hz). lra.
      * apply descending_cons. by split.
Qed.

Lemma with_score_none q l :
  (forall y, y ∈ l -> ~ (score_of y == q)%Q) -> with_score q l = [].
Proof.
  induction l as [|y l IH]; intros H; [done|]. unfold with_score. simpl.
  destruct (Qeq_bool (score_of y) q) eqn:E.
  - apply Qeq_bool_iff in E. destruct (H y); [by left|done].
  - apply IH. intros z Hz. apply H. by right.
Qed.

Lemma rank_insert_stable q x l :
  descending l ->
  with_score q (rank_insert x l) = with_score q (l ++ [x]).
Proof.
  induction l as [|y l IH]; intros Hl; simpl; [done|].
  apply descending_cons in Hl as [Hy Hl].
  destruct (Qle_bool (score_of x) (score_of y)) eqn:E;
    unfold score_of in E; rewrite E.
  - unfold with_score in *. simpl. rewrite IH by done. done.
  - assert (score_of y < score_of x)%Q as Hlt.
    { apply Qnot_le_lt. intros H. apply Qle_bool_iff in H.
      unfold score_of in H. congruence. }
    change (with_score q ([x] ++ y :: l) = with_score q ((y :: l) ++ [x])).
    unfold with_score. rewrite !List.filter_app.
    fold (with_score q (y :: l)) (with_score q [x]).
    destruct (Qeq_bool (score_of x) q) eqn:Ex.
    + apply Qeq_bool_iff in Ex.
      rewrite (with_score_none q (y :: l)); [by rewrite app_nil_r|].
      intros z [->|Hz]%elem_of_cons Hq; [lra|]. specialize (Hy z Hz). lra.
    + unfold with_score at 1 4. simpl. rewrite Ex. by rewrite app_nil_r.
Qed.

Lemma sort_by_score_snoc l x :
  sort_by_score (l ++ [x]) = rank_insert x (sort_by_score l).
Proof. unfold sort_by_score. by rewrite foldl_app. Qed.

Lemma sort_by_score_spec l :
  sort_by_score l ≡ₚ l /\ descending (sort_by_score l) /\
  forall q, with_score q (sort_by_score l) = with_score q l.
Proof.
  induction l as [|x l (IHp & IHd & IHs)] using rev_ind.
  - split; [done|]. split; [|done]. intros i j a b _ Ha. by destruct i.
  - rewrite sort_by_score_snoc. split; [by rewrite rank_insert_perm, IHp|].
    split; [by apply rank_insert_descending|]. intros q.
    rewrite rank_insert_stable by done. unfold with_score in *.
    by rewrite !List.filter_app, IHs.
Qed.

(** ** How the flow computations can end *)

Lemma attach_sources_outcome n super items : forall e,
  returns_or_planning_error (attach_sources n super items e).
Proof.
  induction items as [|[node cap] items IH]; intros e; cbn [attach_sources].
  - left. by eexists.
  - destruct ((node <? 0) || (Z.of_nat n <=? node)); [|apply IH].
    right. by eexists.
Qed.

Lemma attach_sinks_outcome n super items : forall e,
  returns_or_planning_error (attach_sinks n super items e).
Proof.
  induction items as [|[node cap] items IH]; intros e; cbn [attach_sinks].
  - left. by eexists.
  - destruct ((node <? 0) || (Z.of_nat n <=? node)); [|apply IH].
    right. by eexists.
Qed.

Lemma edmonds_karp_outcome N source sink maxiter :
  is_network N ->
  returns_or_planning_error (Network.edmonds_karp N source sink maxiter).
Proof.
  intros Hnet.
  destruct (decide (source <> sink /\ 0 <= source < Z.of_nat (n_nodes N) /\
                    0 <= sink < Z.of_nat (n_nodes N))) as [(Hne & Hs & Ht)|Hbad].
  - rewrite edmonds_karp_unfold by done.
    destruct (ek_loop_spec N source sink Hnet Hs Ht Hne (Z.to_nat maxiter) _
                (zero_flow_inv N source sink Hnet))
      as [(k & f' & _ & -> & _)|[-> _]].
    + left. by eexists.
    + right. by eexists.
  - right. unfold Network.edmonds_karp.
    destruct (Z.eqb_spec source sink); [by eexists|].
    destruct (Z.ltb_spec source 0); [by eexists|].
    destruct (Z.ltb_spec sink 0); [by eexists|].
    destruct (Z.leb_spec (Z.of_nat (n_nodes N)) source); [by eexists|].
    destruct (Z.leb_spec (Z.of_nat (n_nodes N)) sink); [by eexists|].
    exfalso. apply Hbad. lia.
Qed.

Lemma sufficient_search_outcome N srcs snks maxiter :
  returns_or_planning_error (sufficient_search N srcs snks maxiter).
Proof.
  unfold sufficient_search.
  destruct (attach_sources_outcome (n_nodes N) (n_nodes N) srcs
              (zero_pad (n_nodes N + 2) (adjacency_matrix N)))
    as [[e1 ->]|[msg ->]]; [|right; by eexists].
  rewrite bind_Ok.
  destruct (attach_sinks_outcome (n_nodes N) (S (n_nodes N)) snks e1)
    as [[e2 ->]|[msg ->]]; [|right; by eexists].
  rewrite bind_Ok.
  destruct (Network.__init__ (Some e2) None) as [E| |] eqn:HE.
  - rewrite bind_Ok. apply edmonds_karp_outcome. by exists (Some e2), None.
  - right. simpl in HE. unfold check_adjacency in HE.
    destruct (negb (is_square e2)); [injection HE as <-; by eexists|].
    destruct (existsb _ e2); [injection HE as <-; by eexists|done].
  - simpl in HE. unfold check_adjacency in HE.
    destruct (negb (is_square e2)); [done|]. by destruct (existsb _ e2).
Qed.

Lemma flow_init_outcome m srcs snks :
  returns_or_planning_error (Flow.__init__ m srcs snks).
Proof.
  unfold Flow.__init__.
  destruct (negb (is_square m)); [right; by eexists|].
  destruct (existsb _ _); [right; by eexists|].
  destruct (negb _); [right; by eexists|]. left. by eexists.
Qed.

Lemma maximum_flow_guards N sources sinks maxiter :
  planning_error (Network.maximum_flow N sources sinks maxiter) \/
  ((forall x, x ∈ fromkeys sources -> x ∉ fromkeys sinks) /\
   fromkeys sources <> [] /\ fromkeys sinks <> []).
Proof.
  destruct (existsb (fun s => bool_decide (s ∈ fromkeys sinks))
              (fromkeys sources)) eqn:Hex.
  { left. unfold Network.maximum_flow. rewrite Hex. by eexists. }
  destruct (decide (fromkeys sources = [])) as [Hs|Hs].
  { left. unfold Network.maximum_flow. rewrite Hex, Hs. by eexists. }
  destruct (decide (fromkeys sinks = [])) as [Ht|Ht].
  { left. unfold Network.maximum_flow.
    rewrite Hex, Ht, (bool_decide_eq_false_2 _ Hs). by eexists. }
  right. split; [|done]. intros x Hx Hx'. apply not_true_iff_false in Hex.
  apply Hex. apply existsb_exists. exists x.
  split; [by apply list_elem_of_In|]. by apply bool_decide_eq_true.
Qed.

Lemma maximum_flow_outcome N sources sinks maxiter :
  returns_or_planning_error (Network.maximum_flow N sources sinks maxiter).
Proof.
  destruct (maximum_flow_guards N sources sinks maxiter)
    as [Herr|(Hdis & Hs & Ht)]; [by right|].
  rewrite maximum_flow_unfold by done.
  destruct (sufficient_search_outcome N
              (map (fun s => (s, total_capacity N)) (fromkeys sources))
              (map (fun s => (s, total_capacity N)) (fromkeys sinks)) maxiter)
    as [[fe ->]|[msg ->]]; [|right; by eexists].
  rewrite bind_Ok. apply flow_init_outcome.
Qed.

(** What a call of [maximum_flow] that returns says about its arguments. *)
Lemma maximum_flow_ok_inv N sources sinks maxiter f :
  Network.maximum_flow N sources sinks maxiter = Ok f ->
  in_bounds (n_nodes N) (sources ++ sinks) /\ sources <> [] /\ sinks <> [] /\
  (forall x, x ∈ sources -> x ∉ sinks).
Proof.
  intros Hrun.
  destruct (maximum_flow_guards N sources sinks maxiter)
    as [[msg Herr]|(Hdis & Hs & Ht)]; [congruence|].
  rewrite maximum_flow_unfold in Hrun by done.
  destruct (sufficient_search N _ _ maxiter) as [fe| |] eqn:Hsearch;
    [|done|done].
  pose proof (sufficient_search_ok_bounds N _ _ _ _ Hsearch) as Hb.
  split.
  - intros x Hx.
    assert (x ∈ fromkeys sources ++ fromkeys sinks) as Hx'.
    { apply elem_of_app in Hx as [Hx|Hx]; apply elem_of_app;
        [left|right]; by apply elem_of_fromkeys. }
    apply (Hb (x, total_capacity N)).
    rewrite <- map_app. apply list_elem_of_fmap. by exists x.
  - split; [by intros ->|]. split; [by intros ->|].
    intros x Hx Hx'. apply (Hdis x); by apply elem_of_fromkeys.
Qed.

(** ** A proposal never lowers the maximum flow *)

Lemma row_sum_zero_pad n k g i :
  square n g -> (n <= k)%nat -> (row_sum (zero_pad k g) i == row_sum g i)%Q.
Proof.
  intros Hsq Hk. pose proof (square_zero_pad n k g Hsq Hk) as Hsqp.
  destruct (decide (i < k)%nat) as [Hik|Hik].
  - rewrite (row_sum_sum_over k) by done.
    rewrite (sum_over_ext _ _ (fun j => mget g i j))
      by (intros j _; by rewrite (mget_zero_pad n)).
    replace (seq 0 k) with (seq 0 n ++ seq n (k - n))
      by (rewrite <- seq_app; f_equal; lia).
    rewrite sum_over_app.
    rewrite (sum_over_zero (seq n (k - n))).
    2:{ intros j Hj%list_elem_of_In%in_seq.
        rewrite (mget_outside n g i j Hsq) by lia. reflexivity. }
    destruct (decide (i < n)%nat) as [Hin|Hin].
    + rewrite (row_sum_sum_over n g i) by done. ring.
    + rewrite (sum_over_zero (seq 0 n)).
      2:{ intros j _. rewrite (mget_outside n g i j Hsq) by lia. reflexivity. }
      unfold row_sum. rewrite nth_overflow by (destruct Hsq as [-> _]; lia).
      simpl. ring.
  - unfold row_sum.
    rewrite !nth_overflow;
      [reflexivity|destruct Hsq as [-> _]; lia|destruct Hsqp as [-> _]; lia].
Qed.

Section padding.
Variable n k : nat.
Variable A A' : matrix.
Variable S T : list Z.
Hypothesis Hnk : (n <= k)%nat.
Hypothesis Hgrow : forall i j, (mget A i j <= mget A' i j)%Q.
Hypothesis Hnonneg : forall i j, (0 <= mget A' i j)%Q.

(** A feasible flow of a network is, padded with zeros, a feasible flow of
    a network with more nodes and no smaller capacities. *)
Lemma pad_feasible g :
  multi_feasible n A S T g -> multi_feasible k A' S T (zero_pad k g).
Proof.
  intros (Hsq & Hsk & Hwi & Hcons).
  split; [by apply (square_zero_pad n)|]. split; [|split].
  - intros i j _ _. rewrite !(mget_zero_pad n) by done.
    destruct (decide ((i < n)%nat /\ (j < n)%nat)) as [[Hi Hj]|Ho];
      [by apply Hsk|].
    rewrite (mget_outside n g i j Hsq), (mget_outside n g j i Hsq) by lia.
    reflexivity.
  - intros i j _ _. rewrite (mget_zero_pad n) by done.
    destruct (decide ((i < n)%nat /\ (j < n)%nat)) as [[Hi Hj]|Ho].
    + specialize (Hwi i j Hi Hj). specialize (Hgrow i j). lra.
    + rewrite (mget_outside n g i j Hsq) by lia. apply Hnonneg.
  - intros i Hi Hterm. rewrite (row_sum_zero_pad n) by done.
    destruct (decide (i < n)%nat) as [Hin|Hin]; [by apply Hcons|].
    unfold row_sum. rewrite nth_overflow by (destruct Hsq as [-> _]; lia).
    reflexivity.
Qed.

Lemma pad_outflow g :
  square n g -> (outflow (zero_pad k g) S == outflow g S)%Q.
Proof.
  intros Hsq. unfold outflow. induction S as [|s S' IH]; [reflexivity|].
  simpl. rewrite IH, (row_sum_zero_pad n) by done. reflexivity.
Qed.

End padding.

(** The body of [PerformanceCriteria._evaluate] for a maximum flow
    problem. *)
Lemma performance_evaluate_maximum c proposed current k :
  PerformanceCriteria.is_sufficient_problem c = false ->
  PerformanceCriteria._evaluate c proposed current k =
    (combined ← Network.__add__ current proposed;
     except_planning_error
       (combined_flow ← Network.maximum_flow combined
                          (PerformanceCriteria.sources c)
                          (PerformanceCriteria.sinks c) 1000;
        current_flow ← Network.maximum_flow current
                         (PerformanceCriteria.sources c)
                         (PerformanceCriteria.sinks c) 1000;
        v1 ← Flow.value combined_flow;
        v2 ← Flow.value current_flow;
        Ok (v1 - v2)%Q)
       (Ok (-1)%Q)).
Proof.
  unfold PerformanceCriteria._evaluate, PerformanceCriteria.is_sufficient_problem.
  by destruct (PerformanceCriteria.supplies c), (PerformanceCriteria.demands c).
Qed.

(** ** The score of a sufficient flow problem *)

Lemma dict_set_fresh d k v :
  k ∉ map fst d -> dict_set d k v = d ++ [(k, v)].
Proof.
  induction d as [|[k' v'] d IH]; intros Hk; [done|]. simpl in *.
  apply not_elem_of_cons in Hk as [Hne Hk].
  rewrite bool_decide_eq_false_2 by done. by rewrite IH.
Qed.

Lemma dict_of_unique_keys items : forall acc,
  NoDup (map fst (acc ++ items)) ->
  foldl (fun d p => dict_set d (fst p) (snd p)) acc items = acc ++ items.
Proof.
  induction items as [|[k v] items IH]; intros acc Hnd; simpl.
  - by rewrite app_nil_r.
  - rewrite dict_set_fresh.
    + rewrite IH; rewrite <- app_assoc; done.
    + rewrite map_app in Hnd. apply NoDup_app in Hnd as (_ & Hdis & _).
      intros Hin. apply (Hdis k Hin). simpl. by left.
Qed.

Lemma dict_zip_spec keys values :
  length keys = length values ->
  exists d, dict_zip keys values = Ok d /\
    (NoDup keys -> d = zip keys values).
Proof.
  intros Hlen. unfold dict_zip.
  rewrite (proj2 (Nat.ltb_ge _ _)), (proj2 (Nat.ltb_ge _ _)) by lia.
  eexists. split; [reflexivity|]. intros Hnd.
  rewrite dict_of_unique_keys; [done|]. simpl.
  by rewrite fst_zip by lia.
Qed.

(** A call of [sufficient_flow] on a Network returns a Flow that has a
    value, or raises a [TubePlanningError]. *)
Lemma sufficient_flow_outcome N supply demand maxiter :
  is_network N ->
  (exists f v, Network.sufficient_flow N supply demand maxiter = Ok f /\
     Flow.value f = Ok v) \/
  planning_error (Network.sufficient_flow N supply demand maxiter).
Proof.
  intros Hnet. unfold sufficient_flow.
  destruct (bool_decide (supply = []) || bool_decide (demand = [])) eqn:Hemp;
    [right; by eexists|].
  apply orb_false_iff in Hemp as [Hs0 _]. apply bool_decide_eq_false in Hs0.
  destruct (existsb _ supply) eqn:Hns; [right; by eexists|].
  destruct (existsb _ demand) eqn:Hnd; [right; by eexists|]. cbn [orb].
  apply amounts_check_spec in Hns, Hnd.
  destruct (Qltb _ (total demand)); [right; by eexists|].
  destruct (sufficient_search_outcome N supply demand maxiter)
    as [[fe Hsearch]|[msg ->]]; [|right; by eexists].
  rewrite Hsearch, bind_Ok.
  pose proof (sufficient_search_ok_bounds N _ _ _ _ Hsearch) as Hbounds.
  set (n := n_nodes N) in *.
  assert (valid_items n supply) as Hvs.
  { intros p Hp. split; [apply Hbounds, elem_of_app; by left|by apply Hns]. }
  assert (valid_items n demand) as Hvt.
  { intros p Hp. split; [apply Hbounds, elem_of_app; by right|by apply Hnd]. }
  destruct (sufficient_search_returns N supply demand maxiter fe Hnet Hvs Hvt
              Hsearch) as (E & HE & Hinv & _).
  fold n in Hinv.
  destruct (value_row_sum E _ _ fe Hinv) as (v & -> & _).
  { destruct HE as (_ & -> & _). lia. }
  rewrite bind_Ok.
  destruct (Qltb (v + Flow._EPS) (total demand)); [right; by eexists|].
  pose proof (base_square N _ _ E fe HE Hinv) as Hsq.
  pose proof (base_skew N _ _ E fe HE Hinv) as Hsk.
  pose proof (base_conserved N _ _ E fe Hnet Hvs Hvt HE Hinv) as Hcons.
  fold n in Hsq, Hsk, Hcons.
  assert (in_bounds n (map fst supply ++ map fst demand)) as Hib.
  { intros x [Hx|Hx]%elem_of_app;
      apply list_elem_of_fmap in Hx as (p & -> & Hp);
      apply Hbounds, elem_of_app; [by left|by right]. }
  rewrite (exact_flow_init n) by done.
  left. eexists. eexists. split; [reflexivity|].
  apply (value_of_sources n); [done| |].
  - intros x Hx. rewrite elem_of_fromkeys in Hx. apply Hib, elem_of_app.
    by left.
  - destruct supply as [|p supply]; [done|]. intros Hnil.
    assert (fst p ∈ fromkeys (map fst (p :: supply))) as Hin
      by (apply elem_of_fromkeys; by left).
    rewrite Hnil in Hin. by apply elem_of_nil in Hin.
Qed.

Lemma performance_evaluate_sufficient c proposed current k sup dem :
  PerformanceCriteria.supplies c = Some sup ->
  PerformanceCriteria.demands c = Some dem ->
  PerformanceCriteria._evaluate c proposed current k =
    (combined ← Network.__add__ current proposed;
     except_planning_error
       (source_caps ← dict_zip (PerformanceCriteria.sources c) sup;
        sink_caps ← dict_zip (PerformanceCriteria.sinks c) dem;
        flow ← Network.sufficient_flow combined source_caps sink_caps 1000;
        v ← Flow.value flow;
        Ok (if Qle_bool (foldl Qplus 0%Q dem) v then 1%Q else (-1)%Q))
       (Ok (-1)%Q)).
Proof.
  unfold PerformanceCriteria._evaluate. by intros -> ->.
Qed.

(** ** Scoring with performance criteria always returns *)

Lemma performance_evaluate_returns c proposed current k :
  is_network proposed -> is_network current -> well_formed c ->
  exists v, Criteria.evaluate c proposed current k = Ok v.
Proof.
  intros Hp Hc (Hw & Hs0 & Ht0 & Hwf).
  destruct (add_spec current proposed Hc Hp) as (R & HR & HnetR & Hn & Hent).
  unfold Criteria.evaluate. simpl.
  destruct (PerformanceCriteria.is_sufficient_problem c) eqn:Hmode.
  - unfold PerformanceCriteria.is_sufficient_problem in Hmode.
    destruct (PerformanceCriteria.supplies c) as [sup|] eqn:Hsup; [|done].
    destruct (PerformanceCriteria.demands c) as [dem|] eqn:Hdem; [|done].
    destruct (Hwf sup dem eq_refl eq_refl) as (Hl1 & Hl2 & _).
    rewrite (performance_evaluate_sufficient c proposed current k sup dem Hsup
               Hdem), HR, bind_Ok.
    destruct (dict_zip_spec _ sup Hl1) as (d1 & -> & _).
    destruct (dict_zip_spec _ dem Hl2) as (d2 & -> & _).
    rewrite !bind_Ok.
    destruct (sufficient_flow_outcome R d1 d2 1000 HnetR)
      as [(f & v & -> & Hv)|[msg ->]]; [|by eexists].
    rewrite bind_Ok, Hv. by eexists.
  - rewrite (performance_evaluate_maximum c proposed current k Hmode), HR,
      bind_Ok.
    destruct (maximum_flow_outcome R (PerformanceCriteria.sources c)
                (PerformanceCriteria.sinks c) 1000) as [[f1 H1]|[msg1 H1]];
      rewrite H1; [|by eexists].
    destruct (maximum_flow_outcome current (PerformanceCriteria.sources c)
                (PerformanceCriteria.sinks c) 1000) as [[f2 H2]|[msg2 H2]];
      rewrite H2; [|by eexists].
    destruct (maximum_flow_ok_inv R _ _ _ _ H1) as (Hb1 & Hs & Ht & Hdis).
    destruct (maximum_flow_ok_inv current _ _ _ _ H2) as (Hb2 & _ & _ & _).
    destruct (maximum_flow_optimal R _ _ 1000 f1 HnetR Hb1 Hs Ht Hdis H1)
      as (_ & v1 & Hv1 & _).
    destruct (maximum_flow_optimal current _ _ 1000 f2 Hc Hb2 Hs Ht Hdis H2)
      as (_ & v2 & Hv2 & _).
    simpl. rewrite Hv1, Hv2. by eexists.
Qed.

Lemma performance_group_values crits proposed current k :
  is_network proposed -> is_network current ->
  (forall c, c ∈ crits -> well_formed c) ->
  exists vals,
    Forall2 (evaluates proposed current k) (map performance crits) vals.
Proof.
  intros Hp Hc. induction crits as [|c crits IH]; intros Hwf.
  - exists []. constructor.
  - destruct IH as (vals & Hvals); [intros c' Hc'; apply Hwf; by right|].
    destruct (performance_evaluate_returns c proposed current k Hp Hc)
      as (v & Hv); [apply Hwf; by left|].
    exists (v :: vals). by constructor.
Qed.

(** * Statements about the program *)

(** C1: on the Network built from [[0,3],[3,0]], [edmonds_karp(0, 1)] (with
    the default budget of 1000 passes) returns a Flow, and the value of
    that Flow is exactly 3. *)
Theorem C1_edmonds_karp_value_3 :
  exists N f,
    Network.__init__ (Some net3) None = Ok N /\
    Network.edmonds_karp N 0 1 1000 = Ok f /\
    Flow.value f = Ok 3%Q.
Proof.
  eexists; eexists.
  split; [vm_compute; reflexivity|].
  split; vm_compute; reflexivity.
Qed.

(** C2, the defect: the constructor accepts [lopsided] with terminals 0 and
    1, although [F[0][1]] and [-F[1][0]] differ by 1, far more than 1e-9:
    the skew-symmetry test [np.allclose(F, -F.T, atol=1e-9)] keeps numpy's
    relative tolerance 1e-5. The entries are whole numbers; the
    constructor on doubles accepts the matrix as well. *)
Theorem C2_relative_tolerance_counterexample :
  (exists f, Flow.__init__ lopsided [0] [1] = Ok f /\
     ~ (Qabs (mget (Flow.flow_matrix f) 0 1 - - mget (Flow.flow_matrix f) 1 0)
        <= Flow._EPS)%Q) /\
  Double.Flow.__init__ Double.lopsided [0] [1] =
    Ok (Double.Flow.mk Double.lopsided [0] [1]).
Proof.
  split; [|vm_compute; reflexivity].
  eexists. split; [vm_compute; reflexivity|].
  simpl. intros H. apply Qle_bool_iff in H. vm_compute in H. discriminate.
Qed.

(** C3, the part of the claim the code keeps, and the defect. On a Network
    with whole capacities and distinct in-bounds [source] and [sink],
    [edmonds_karp] with any budget either returns a Flow [f], reached from
    the zero flow by fewer augmenting passes than the budget, on which the
    next pass found the sink unreached: the sink cannot be reached in the
    residual network of [f], and [f] is a maximum flow; or it raises
    [ConvergenceFailure], every pass of the budget having found the sink
    and augmented. But on the Network [Double.rounded], in double
    precision, [edmonds_karp(0, 3)] does neither: its third pass raises
    "Adjacency matrix must be non-negative.". *)
Theorem C3_edmonds_karp_rounding_failure :
  (forall (N : Network.t) (source sink maxiter : Z),
     is_network N -> whole_capacities N ->
     source <> sink ->
     0 <= source < Z.of_nat (n_nodes N) ->
     0 <= sink < Z.of_nat (n_nodes N) ->
     let f0 := Flow.mk (zeros (n_nodes N)) [source] [sink] in
     (exists k f,
        (k < Z.to_nat maxiter)%nat /\
        Network.edmonds_karp N source sink maxiter = Ok f /\
        augments N source sink k f0 f /\
        ek_iteration N source sink f = Ok (true, f) /\
        ~ reachable (residual N f) (n_nodes N) (Z.to_nat source)
            (Z.to_nat sink) /\
        is_maximum_flow N source sink f) \/
     (Network.edmonds_karp N source sink maxiter = Raise ConvergenceFailure /\
      exists f, augments N source sink (Z.to_nat maxiter) f0 f)) /\
  (exists N,
     Double.Network.__init__ Double.rounded = Ok N /\
     Double.Network.edmonds_karp N 0 3 1000 = Raise NegativeCapacity).
Proof.
  split.
  - intros N source sink maxiter Hnet _ Hne Hs Ht f0.
    rewrite edmonds_karp_unfold by done.
    destruct (ek_loop_spec N source sink Hnet Hs Ht Hne (Z.to_nat maxiter) f0)
      as [(k & f & Hk & Hrun & Haug & Hlast & Hunr)|Hfail].
    + by apply zero_flow_inv.
    + left. exists k, f. repeat (split; [done|]).
      apply converged_is_maximum; try done.
      apply (augments_inv N source sink Hnet Hs Ht Hne k f0 f); [|done].
      by apply zero_flow_inv.
    + by right.
  - eexists. split; [vm_compute; reflexivity|]. vm_compute. reflexivity.
Qed.

Lemma C3_edmonds_karp_rounding_failure_witness :
  (exists k f,
     (k < 1000)%nat /\
     Network.edmonds_karp (Network.mk net3) 0 1 1000 = Ok f /\
     augments (Network.mk net3) 0 1 k (Flow.mk (zeros 2) [0] [1]) f /\
     ek_iteration (Network.mk net3) 0 1 f = Ok (true, f) /\
     ~ reachable (residual (Network.mk net3) f) 2 0 1 /\
     is_maximum_flow (Network.mk net3) 0 1 f) \/
  (Network.edmonds_karp (Network.mk net3) 0 1 1000 = Raise ConvergenceFailure /\
   exists f, augments (Network.mk net3) 0 1 1000 (Flow.mk (zeros 2) [0] [1]) f).
Proof.
  apply (proj1 C3_edmonds_karp_rounding_failure (Network.mk net3) 0 1 1000).
  - exact net3_is_network.
  - exact net3_whole.
  - discriminate.
  - split; [discriminate|reflexivity].
  - split; [discriminate|reflexivity].
Defined.




(** C5, the part of the claim the code keeps, and the defect. A path of
    length < 2, or with an out-of-bounds index, makes [send_flow_along]
    raise [InvalidInput], and a path of length < 2 leaves the flow
    untouched. But on a flow over 3 nodes, [send_flow_along([0, 1, 5], 1)]
    raises at the pair [(1, 5)] after the pair [(0, 1)] has been applied:
    the flow matrix is left changed, and no longer conserves flow at
    node 1. *)
Theorem C5_send_flow_along_partial_update :
  (forall (f : Flow.t) (path : list Z) (amount : Q),
     (length path < 2)%nat \/
     (exists x, x ∈ path /\
        (x < 0 \/ Z.of_nat (length (Flow.flow_matrix f)) <= x)) ->
     exists e, snd (Flow.send_flow_along f path amount) = Raise e /\
       InvalidPath e /\
       ((length path < 2)%nat -> fst (Flow.send_flow_along f path amount) = f))
  /\
  (exists f f',
     Flow.zero_flow 3 [0] [2] = Ok f /\
     Flow.send_flow_along f [0; 1; 5] 1 = (f', Raise PathInvalidIndex) /\
     Flow.flow_matrix f' = [[0; 1; 0]; [-1; 0; 0]; [0; 0; 0]]%Q /\
     Flow.flow_matrix f' <> Flow.flow_matrix f /\
     Flow._conserves_flow f' = false).
Proof.
  split.
  - intros f path amount H. unfold Flow.send_flow_along.
    destruct (Nat.ltb_spec (length path) 2) as [Hshort|Hlong].
    + exists PathTooShort. split; [done|]. split; [by left|done].
    + destruct H as [H|(x & Hx & Hbad)]; [lia|].
      exists PathInvalidIndex.
      destruct (path_edges_cover path x Hlong Hx) as (u & v & Hin & Huv).
      pose proof (send_edges_rejects (path_edges path) amount
                    (Flow.flow_matrix f)) as Hrej.
      destruct (Flow.send_edges _ _ _) as [m r]. simpl in *.
      split; [|split; [by right|lia]].
      apply Hrej. exists u, v. split; [done|]. destruct Huv as [<-|<-]; lia.
  - eexists; eexists. split; [vm_compute; reflexivity|].
    split; [vm_compute; reflexivity|].
    split; [reflexivity|]. split; [discriminate|]. vm_compute. reflexivity.
Qed.

Lemma C5_send_flow_along_partial_update_witness :
  exists e, snd (Flow.send_flow_along (Flow.mk (zeros 3) [0] [2]) [0; 1; 5] 1)
            = Raise e /\ InvalidPath e.
Proof.
  destruct (proj1 C5_send_flow_along_partial_update
              (Flow.mk (zeros 3) [0] [2]) [0; 1; 5] 1%Q) as (e & He & Hk & _).
  - right. exists 5. split; [right; right; left|]. right. vm_compute. discriminate.
  - exists e. by split.
Defined.

(** C6, the part of the claim the code keeps, and the defect. (1) A matrix
    [A - F] with a negative entry is not searched: the Network constructor
    rejects it and the pass raises "Adjacency matrix must be
    non-negative.". (2) On whole capacities no such entry arises: in a run
    of [edmonds_karp] from the zero flow, before every pass [A - F] is
    entry-wise non-negative and the pass builds and searches the residual
    network without raising. (3) But in double precision it does arise: on
    the Network [Double.rounded], after two augmenting passes of
    [edmonds_karp(0, 3)] the entry [A[1][3] - F[1][3]] is negative, and the
    third pass raises. *)
Theorem C6_negative_residual_is_rejected :
  (forall (N : Network.t) (source sink : Z) f i j,
     is_network N ->
     square (n_nodes N) (Flow.flow_matrix f) ->
     (i < n_nodes N)%nat -> (j < n_nodes N)%nat ->
     (mget (mat_sub (adjacency_matrix N) (Flow.flow_matrix f)) i j < 0)%Q ->
     ek_iteration N source sink f = Raise NegativeCapacity) /\
  (forall (N : Network.t) (source sink : Z),
     is_network N -> whole_capacities N ->
     source <> sink ->
     0 <= source < Z.of_nat (n_nodes N) ->
     0 <= sink < Z.of_nat (n_nodes N) ->
     forall k f,
       augments N source sink k
         (Flow.mk (zeros (n_nodes N)) [source] [sink]) f ->
       nonneg (n_nodes N) (mat_sub (adjacency_matrix N) (Flow.flow_matrix f)) /\
       exists r, ek_iteration N source sink f = Ok r) /\
  (exists N f0 f1 f2,
     Double.Network.__init__ Double.rounded = Ok N /\
     Double.Flow.zero_flow 4 [0] [3] = Ok f0 /\
     Double.Network.ek_iteration N 0 3 f0 = Ok (false, f1) /\
     Double.Network.ek_iteration N 0 3 f1 = Ok (false, f2) /\
     Double.negative
       (Double.entry
          (Double.mat_sub (Double.Network.adjacency_matrix N)
             (Double.Flow.flow_matrix f2)) 1 3) = true /\
     Double.Network.ek_iteration N 0 3 f2 = Raise NegativeCapacity).
Proof.
  split; [|split].
  - intros N source sink f i j Hnet Hf Hi Hj Hneg.
    destruct (is_network_inv N Hnet) as (Hsq & Hnn & _).
    unfold ek_iteration, Network.__init__, Network.check_adjacency.
    assert (square (n_nodes N)
              (mat_sub (adjacency_matrix N) (Flow.flow_matrix f))) as Hsub
      by (by apply square_zip_with).
    assert (is_square (mat_sub (adjacency_matrix N) (Flow.flow_matrix f))
            = true) as ->.
    { apply is_square_spec. by rewrite (proj1 Hsub). }
    simpl.
    destruct (existsb _ (mat_sub (adjacency_matrix N) (Flow.flow_matrix f)))
      eqn:Hex; [done|].
    apply (has_negative_spec _ _ Hsub) in Hex. specialize (Hex i j Hi Hj). lra.
  - intros N source sink Hnet _ Hne Hs Ht k f Haug.
    destruct (is_network_inv N Hnet) as (Hsq & Hnn & _).
    assert (ek_inv N source sink f) as Hinv.
    { eapply augments_inv; eauto. by apply zero_flow_inv. }
    split.
    + intros i j Hi Hj. unfold mat_sub.
      rewrite (mget_zip_with Qminus (n_nodes N)); try done; [|apply Hinv].
      pose proof (ek_within _ _ _ _ Hinv i j Hi Hj) as Hw. lra.
    + destruct (ek_iteration_spec N source sink Hsq Hs Ht Hne f Hinv)
        as [[Hc _]|(f' & Hc & _)]; eauto.
  - do 4 eexists.
    split; [vm_compute; reflexivity|]. split; [vm_compute; reflexivity|].
    split; [vm_compute; reflexivity|]. split; [vm_compute; reflexivity|].
    split; [vm_compute; reflexivity|]. vm_compute. reflexivity.
Qed.

Lemma C6_negative_residual_is_rejected_witness :
  ek_iteration (Network.mk net1) 0 1 overfull = Raise NegativeCapacity.
Proof.
  apply (proj1 C6_negative_residual_is_rejected (Network.mk net1) 0 1 overfull
           0%nat 1%nat).
  - exists (Some net1), None. reflexivity.
  - split; [reflexivity|]. repeat constructor.
  - vm_compute. lia.
  - vm_compute. lia.
  - reflexivity.
Defined.

(** C7: [maximum_flow] raises [ConflictingTerminals] whenever the
    deduplicated sources and sinks share a node or one of them is empty,
    whatever the network; in particular [maximum_flow([0], [0])] does. *)
Theorem C7_maximum_flow_conflicting_terminals :
  (forall (N : Network.t) (sources sinks : list Z) (maxiter : Z),
     (exists x, x ∈ fromkeys sources /\ x ∈ fromkeys sinks) \/
     fromkeys sources = [] \/ fromkeys sinks = [] ->
     exists e, Network.maximum_flow N sources sinks maxiter = Raise e /\
       ConflictingTerminals e) /\
  (forall (N : Network.t) (maxiter : Z),
     Network.maximum_flow N [0] [0] maxiter = Raise TerminalsNotDisjoint).
Proof.
  split; [|reflexivity].
  intros N sources sinks maxiter H. unfold Network.maximum_flow.
  destruct (existsb _ (fromkeys sources)) eqn:Hex.
  - exists TerminalsNotDisjoint. split; [done|]. by left.
  - exists TerminalsMissing. split; [|by right].
    destruct H as [(x & Hx1 & Hx2)|H].
    + assert (existsb (fun s => bool_decide (s ∈ fromkeys sinks)) (fromkeys sources) = true)
        as Hc; [|congruence].
      apply existsb_exists. exists x. split; [by apply list_elem_of_In|].
      by apply bool_decide_eq_true.
    + destruct H as [-> | ->]; [done|].
      by rewrite orb_true_r.
Qed.

Lemma C7_maximum_flow_conflicting_terminals_witness :
  exists e, Network.maximum_flow (Network.mk net3) [0; 1; 0] [1] 1000 = Raise e /\
    ConflictingTerminals e.
Proof.
  apply (proj1 C7_maximum_flow_conflicting_terminals).
  left. exists 1. split; [right; left | left].
Defined.

(** C8: for a Network [N], combining [N] with the zero-capacity Network of
    the same size, on either side, returns [N] itself (the same capacity
    matrix), and [__eq__] finds the sum equal to [N]. *)
Theorem C8_combine_with_zero_network (N : Network.t) :
  is_network N ->
  exists Z0 : Network.t,
    Network.__init__ (Some (zeros (n_nodes N))) None = Ok Z0 /\
    Network.__add__ N Z0 = Ok N /\
    Network.__add__ Z0 N = Ok N /\
    (forall R, Network.__add__ N Z0 = Ok R -> Network.__eq__ R N = Ok true).
Proof.
  intros Hnet. destruct (is_network_inv N Hnet) as (Hsq & Hnn & Hdiag).
  destruct N as [A]. unfold n_nodes in *. simpl in *. set (n := length A) in *.
  exists (Network.mk (zeros n)). split; [apply zero_network_ok|].
  assert (length (zeros n) = n) as Hzl by apply square_zeros.
  assert (forall M, square n M ->
            (forall i j, (i < n)%nat -> (j < n)%nat -> mget M i j = mget A i j) ->
            Network.__init__ (Some M) None = Ok (Network.mk A)) as Hinit.
  { intros M HM Heq. rewrite (Network_init_ok n); try done.
    - do 2 f_equal. apply (matrix_ext n); try done.
      + by apply square_fill_diagonal.
      + intros i j Hi Hj. rewrite (mget_fill_diagonal n) by done.
        destruct (decide (i = j)) as [->|_]; [by rewrite Hdiag | by apply Heq].
    - intros i j Hi Hj. rewrite Heq by done. by apply Hnn. }
  assert (Network.__add__ (Network.mk A) (Network.mk (zeros n)) = Ok (Network.mk A))
    as Hadd1.
  { unfold Network.__add__, n_nodes. simpl. rewrite Hzl. fold n.
    rewrite Nat.ltb_irrefl. simpl. rewrite Hzl. rewrite (zero_pad_square n) by done.
    apply Hinit.
    - apply square_zip_with; [apply square_zeros|done].
    - intros i j Hi Hj. unfold mat_add.
      rewrite (mget_zip_with Qplus n); try done; [|apply square_zeros].
      by rewrite mget_zeros, Qplus_0_l_eq. }
  split; [done|]. split.
  - unfold Network.__add__, n_nodes. simpl. rewrite Hzl. fold n.
    rewrite Nat.ltb_irrefl. simpl. fold n.
    rewrite (zero_pad_square n) by apply square_zeros.
    apply Hinit.
    + apply square_zip_with; [done|apply square_zeros].
    + intros i j Hi Hj. unfold mat_add.
      rewrite (mget_zip_with Qplus n); try done; [|apply square_zeros].
      by rewrite mget_zeros, Qplus_0_r_eq.
  - intros R HR. rewrite Hadd1 in HR. injection HR as <-.
    unfold Network.__eq__. simpl. rewrite bool_decide_eq_true_2 by done.
    f_equal. by apply (allclose_refl _ _ n).
Qed.

Lemma C8_combine_with_zero_network_witness :
  exists Z0 : Network.t,
    Network.__init__ (Some (zeros 2)) None = Ok Z0 /\
    Network.__add__ (Network.mk net3) Z0 = Ok (Network.mk net3) /\
    Network.__add__ Z0 (Network.mk net3) = Ok (Network.mk net3) /\
    (forall R, Network.__add__ (Network.mk net3) Z0 = Ok R ->
       Network.__eq__ R (Network.mk net3) = Ok true).
Proof.
  apply (C8_combine_with_zero_network (Network.mk net3)).
  exists (Some net3), None. reflexivity.
Defined.




(** C10: for distinct in-bounds [s] and [t], the module-level function
    [edmonds_karp(G, s, t, m)] and the method [G.edmonds_karp(s, t, m)]
    have the same outcome: they return Flows with equal matrix, sources and
    sinks, or they both raise (an exception of the same class). *)
Theorem C10_function_and_method_agree (G : Network.t) (s t m : Z) :
  s <> t ->
  0 <= s < Z.of_nat (n_nodes G) ->
  0 <= t < Z.of_nat (n_nodes G) ->
  same_outcome (Network.edmonds_karp G s t m) (edmonds_karp G s t m).
Proof.
  intros Hne Hs Ht.
  unfold Network.edmonds_karp, edmonds_karp.
  destruct (Z.eqb_spec s t); [done|].
  destruct (Z.ltb_spec s 0); [lia|]. destruct (Z.ltb_spec t 0); [lia|].
  destruct (Z.leb_spec (Z.of_nat (n_nodes G)) s); [lia|].
  destruct (Z.leb_spec (Z.of_nat (n_nodes G)) t); [lia|]. simpl.
  destruct (Flow.zero_flow _ _ _) as [f|e|]; simpl.
  - apply ek_loops_agree.
  - destruct e; done.
  - exact I.
Qed.

Lemma C10_function_and_method_agree_witness :
  same_outcome (Network.edmonds_karp (Network.mk net3) 0 1 1000)
               (edmonds_karp (Network.mk net3) 0 1 1000).
Proof.
  apply (C10_function_and_method_agree (Network.mk net3) 0 1 1000).
  - discriminate.
  - vm_compute. split; [discriminate|reflexivity].
  - vm_compute. split; [discriminate|reflexivity].
Defined.

(** * Further properties of the program *)

(** X1: for a Network and an in-bounds [root], [bfs(root)] returns (it
    neither raises nor runs forever) a trace with one entry per node, in
    which the root is its own predecessor, every node that can be reached
    from the root along edges of positive capacity has as entry a reached
    node from which an edge of positive capacity leads to it, and every
    other node has the entry [-1]. *)
Theorem X1_bfs_trace_reachability (N : Network.t) (root : Z) :
  is_network N ->
  0 <= root < Z.of_nat (n_nodes N) ->
  let adj := adjacency_matrix N in
  let n := n_nodes N in
  let r := Z.to_nat root in
  exists tr, Network.bfs N root = Ok tr /\ length tr = n /\
    tr !! r = Some root /\
    forall x, (x < n)%nat ->
      (reachable adj n r x ->
         exists p, tr !! x = Some (Z.of_nat p) /\ (p < n)%nat /\
           reachable adj n r p /\ (x <> r -> edge adj p x)) /\
      (~ reachable adj n r x -> tr !! x = Some (-1)).
Proof.
  intros Hnet Hroot adj n r.
  destruct (is_network_inv N Hnet) as (Hsq & _ & _).
  destruct (bfs_returns N root Hsq Hroot) as (tr & q & Hrun & Hpost).
  fold adj n r in Hpost.
  pose proof Hpost as [Hlen Hord Hunr Hcl Hql].
  exists tr. split; [done|]. split; [done|]. split.
  - rewrite (bfs_order_self _ _ _ _ Hord). f_equal. unfold r. lia.
  - intros x Hx. split.
    + intros Hreach.
      pose proof (bfs_post_complete _ _ _ _ _ _ Hpost Hreach) as Hxq.
      destruct (bfs_order_pred _ _ _ _ x Hord Hxq) as (p & Hp & Ht & He).
      exists p. split; [done|].
      split; [by eapply bfs_order_bound|].
      split; [by eapply bfs_order_reachable|done].
    + intros Hnr. apply Hunr; [done|]. intros Hxq. apply Hnr.
      by eapply bfs_order_reachable.
Qed.

(** X2: on the trace that [bfs(root)] returns, [path_from_bfs(trace,
    dest)] for an in-bounds [dest] returns, when [dest] can be reached from
    the root, a path that starts at the root, ends at [dest], repeats no
    node, stays in bounds and follows edges of positive capacity only; and
    it raises "Destination is unreachable from root." when [dest] cannot be
    reached. *)
Theorem X2_bfs_path_to_reached_node (N : Network.t) (root dest : Z)
    (tr : list Z) :
  is_network N ->
  0 <= root < Z.of_nat (n_nodes N) ->
  0 <= dest < Z.of_nat (n_nodes N) ->
  Network.bfs N root = Ok tr ->
  let adj := adjacency_matrix N in
  let n := n_nodes N in
  (reachable adj n (Z.to_nat root) (Z.to_nat dest) ->
   exists path, Network.path_from_bfs tr dest = Ok path /\
     head path = Some root /\ last path = Some dest /\ NoDup path /\
     (forall y, y ∈ path -> 0 <= y < Z.of_nat n) /\
     (forall u v, (u, v) ∈ path_edges path ->
        (0 < mget adj (Z.to_nat u) (Z.to_nat v))%Q)) /\
  (~ reachable adj n (Z.to_nat root) (Z.to_nat dest) ->
   Network.path_from_bfs tr dest =
     Raise (TubePlanningError "Destination is unreachable from root.")).
Proof.
  intros Hnet Hroot Hdest Hrun adj n.
  destruct (is_network_inv N Hnet) as (Hsq & _ & _).
  destruct (bfs_returns N root Hsq Hroot) as (tr' & q & Hrun' & Hpost).
  rewrite Hrun in Hrun'. injection Hrun' as <-. fold adj n in Hpost.
  pose proof Hpost as [Hlen Hord Hunr Hcl Hql].
  split.
  - intros Hreach.
    pose proof (bfs_post_complete _ _ _ _ _ _ Hpost Hreach) as Hxq.
    destruct (bfs_order_trace _ _ _ _ _ Hord Hxq) as [p Hp].
    destruct (path_from_bfs_spec adj n (Z.to_nat root) tr q (Z.to_nat dest)
                (Z.of_nat p) Hpost) as (path & Hpath & Htree & Hb);
      [lia|done|lia|].
    rewrite Z2Nat.id in Hpath by lia.
    exists (map Z.of_nat path). split; [done|].
    destruct (tree_path_head _ _ _ _ Htree) as [p1 Hp1].
    destruct (tree_path_last _ _ _ _ Htree) as [p2 Hp2].
    split; [rewrite Hp1; simpl; f_equal; lia|].
    split; [rewrite Hp2, map_app; simpl; rewrite last_snoc; f_equal; lia|].
    split.
    { apply NoDup_fmap_2; [apply Nat2Z.inj'|]. by eapply tree_path_NoDup. }
    split.
    { intros y (y' & -> & Hy')%list_elem_of_fmap. specialize (Hb y' Hy'). lia. }
    intros u v Huv.
    destruct (tree_path_edges _ _ _ _ Htree) as (es & Hes & _ & _ & Hedge & _).
    rewrite Hes in Huv. apply list_elem_of_fmap in Huv as ([u' v'] & Heq & Hin).
    injection Heq as -> ->. rewrite !Nat2Z.id. by apply (Hedge u' v').
  - intros Hnr. unfold path_from_bfs. rewrite Hlen.
    destruct (Z.ltb_spec dest 0); [lia|].
    destruct (Z.leb_spec (Z.of_nat n) dest); [lia|]. simpl.
    assert (tr !! Z.to_nat dest = Some (-1)) as Hd.
    { apply Hunr; [lia|]. intros Hq. apply Hnr.
      by eapply bfs_order_reachable. }
    rewrite <- (Z2Nat.id dest) at 1 by lia.
    rewrite (py_index_nat _ _ _ Hd). done.
Qed.

(** X4: the sources and the sinks of a constructed Flow have no
    duplicates, have the members of the arguments, keep their order (they
    are sub-sequences of the arguments, and the arguments themselves when
    these have no duplicates), and constructing a Flow again from the
    matrix and the terminals of a Flow gives the same Flow. *)
Theorem X4_flow_terminals_deduplicated (m : matrix) (srcs snks : list Z)
    (f : Flow.t) :
  Flow.__init__ m srcs snks = Ok f ->
  (NoDup (Flow.sources f) /\ NoDup (Flow.sinks f)) /\
  (forall x, x ∈ Flow.sources f <-> x ∈ srcs) /\
  (forall x, x ∈ Flow.sinks f <-> x ∈ snks) /\
  (Flow.sources f `sublist_of` srcs /\ Flow.sinks f `sublist_of` snks) /\
  (NoDup srcs -> Flow.sources f = srcs) /\
  (NoDup snks -> Flow.sinks f = snks) /\
  Flow.__init__ m (Flow.sources f) (Flow.sinks f) = Ok f.
Proof.
  intros Hf. pose proof Hf as Hf'.
  apply Flow_init_spec in Hf as (Hsq & Hb & Hc & ->). simpl.
  split; [split; apply NoDup_dedup|].
  split; [apply elem_of_fromkeys|]. split; [apply elem_of_fromkeys|].
  split; [split; apply sublist_dedup|].
  split; [apply fromkeys_NoDup|]. split; [apply fromkeys_NoDup|].
  apply Flow_init_spec. by rewrite !fromkeys_idemp.
Qed.

Lemma X4_flow_terminals_deduplicated_witness :
  Flow.sources (Flow.mk (zeros 3) [0; 2] [1]) = [0; 2] /\
  Flow.__init__ (zeros 3) [0; 2] [1] = Ok (Flow.mk (zeros 3) [0; 2] [1]).
Proof.
  destruct (X4_flow_terminals_deduplicated (zeros 3) [0; 2; 0] [1; 1]
              (Flow.mk (zeros 3) [0; 2] [1])) as (_ & _ & _ & _ & _ & _ & H).
  - vm_compute. reflexivity.
  - split; [reflexivity|exact H].
Defined.

(** X3: [Flow.zero_flow(n, sources, sinks)] returns a Flow exactly when
    every terminal is a valid node index; the Flow holds the [n * n] zero
    matrix and the deduplicated terminals, and its [value] is exactly 0;
    otherwise the call raises "Source or sink index out of bounds.". *)
Theorem X3_zero_flow (n : nat) (srcs snks : list Z) :
  (in_bounds n (srcs ++ snks) ->
   exists f, Flow.zero_flow n srcs snks = Ok f /\
     Flow.flow_matrix f = zeros n /\
     Flow.sources f = fromkeys srcs /\ Flow.sinks f = fromkeys snks /\
     Flow.value f = Ok 0%Q) /\
  (~ in_bounds n (srcs ++ snks) ->
   Flow.zero_flow n srcs snks =
     Raise (TubePlanningError "Source or sink index out of bounds.")).
Proof.
  split.
  - intros Hb. apply in_bounds_fromkeys in Hb.
    eexists. split; [by apply zero_flow_ok|]. simpl.
    repeat (split; [done|]). by apply value_zero_matrix.
  - intros Hnb. unfold Flow.zero_flow, Flow.__init__.
    assert (is_square (zeros n) = true) as ->.
    { apply is_square_spec. rewrite (proj1 (square_zeros n)).
      apply square_zeros. }
    cbn [negb Flow.sources Flow.sinks].
    rewrite (proj1 (square_zeros n)).
    destruct (existsb _ _) eqn:Hex; [done|].
    exfalso. apply Hnb. by apply in_bounds_fromkeys, bounds_check_spec.
Qed.

Lemma X3_zero_flow_witness :
  (exists f, Flow.zero_flow 6 [0; 4] [3] = Ok f /\
     Flow.flow_matrix f = zeros 6 /\
     Flow.sources f = fromkeys [0; 4] /\ Flow.sinks f = fromkeys [3] /\
     Flow.value f = Ok 0%Q) /\
  Flow.zero_flow 6 [0; 6] [3] =
    Raise (TubePlanningError "Source or sink index out of bounds.").
Proof.
  split.
  - apply (proj1 (X3_zero_flow 6 [0; 4] [3])).
    intros x Hx. repeat (apply elem_of_cons in Hx as [->|Hx]; [lia|]).
    by apply elem_of_nil in Hx.
  - apply (proj2 (X3_zero_flow 6 [0; 6] [3])).
    intros H. specialize (H 6).
    assert (6 ∈ [0; 6] ++ [3]) as Hin by (right; left).
    apply H in Hin. lia.
Defined.

Lemma X1_bfs_trace_reachability_witness :
  exists tr, Network.bfs (Network.mk net3) 0 = Ok tr /\ length tr = 2%nat /\
    tr !! 0%nat = Some 0.
Proof.
  destruct (X1_bfs_trace_reachability (Network.mk net3) 0)
    as (tr & H1 & H2 & H3 & _).
  - exact net3_is_network.
  - split; [discriminate|reflexivity].
  - exists tr. split; [exact H1|]. split; [exact H2|exact H3].
Defined.

Lemma X2_bfs_path_to_reached_node_witness :
  exists path, Network.path_from_bfs [0; 0] 1 = Ok path /\
    head path = Some 0 /\ last path = Some 1.
Proof.
  destruct (X2_bfs_path_to_reached_node (Network.mk net3) 0 1 [0; 0])
    as [H _].
  - exact net3_is_network.
  - split; [discriminate|reflexivity].
  - split; [discriminate|reflexivity].
  - vm_compute. reflexivity.
  - destruct H as (path & H1 & H2 & H3 & _).
    + apply (reach_step _ _ _ 0%nat 1%nat); [constructor|reflexivity|].
      unfold n_nodes. simpl. lia.
    + exists path. split; [exact H1|]. split; [exact H2|exact H3].
Defined.

(** X5: on a Network whose capacities are whole numbers that add up to
    at most [2^52], the [value] of the Flow that [edmonds_karp] returns is
    defined, is the net outflow of the source and equally the net inflow of
    the sink, is non-negative, and is at most the total capacity leaving
    the source and at most the total capacity entering the sink. *)
Theorem X5_edmonds_karp_value (N : Network.t) (source sink maxiter : Z)
    (f : Flow.t) :
  is_network N -> whole_capacities N ->
  source <> sink ->
  0 <= source < Z.of_nat (n_nodes N) ->
  0 <= sink < Z.of_nat (n_nodes N) ->
  Network.edmonds_karp N source sink maxiter = Ok f ->
  let A := adjacency_matrix N in
  let F := Flow.flow_matrix f in
  let s := Z.to_nat source in
  let t := Z.to_nat sink in
  exists v, Flow.value f = Ok v /\
    (v == row_sum F s)%Q /\ (v == col_sum F t)%Q /\
    (0 <= v)%Q /\ (v <= row_sum A s)%Q /\ (v <= col_sum A t)%Q.
Proof.
  intros Hnet _ Hne Hs Ht Hrun A F s t.
  destruct (edmonds_karp_maximum N source sink maxiter f Hnet Hne Hs Ht Hrun)
    as [Hinv (Hfeas & (v & Hv & Hvs) & Hmax)].
  destruct (is_network_inv N Hnet) as (HsqA & Hnn & _).
  fold A F s t in Hfeas, Hvs, Hmax, HsqA, Hnn.
  pose proof Hfeas as (HsqF & Hk & Hw & Hc).
  assert (s < n_nodes N)%nat as Hsn by (unfold s; lia).
  assert (t < n_nodes N)%nat as Htn by (unfold t; lia).
  assert (s <> t) as Hst by (unfold s, t; lia).
  exists v. split; [done|]. split; [done|].
  pose proof (feasible_source_sink _ _ _ _ _ Hsn Htn Hst Hfeas) as Hio.
  split; [by rewrite Hvs|]. split; [|split].
  - rewrite Hvs. rewrite <- (row_sum_zeros (n_nodes N) s).
    apply Hmax. by apply zeros_feasible.
  - rewrite Hvs. rewrite !(row_sum_sum_over (n_nodes N)) by done.
    apply sum_over_le. intros j Hj%list_elem_of_In%in_seq. apply Hw; lia.
  - rewrite Hvs, Hio. rewrite !(col_sum_sum_over (n_nodes N)) by done.
    apply sum_over_le. intros j Hj%list_elem_of_In%in_seq. apply Hw; lia.
Qed.

Lemma X5_edmonds_karp_value_witness :
  exists v, Flow.value (Flow.mk [[0; 3]; [-3; 0]]%Q [0] [1]) = Ok v /\
    (0 <= v)%Q /\ (v <= row_sum net3 0)%Q.
Proof.
  destruct (X5_edmonds_karp_value (Network.mk net3) 0 1 1000
              (Flow.mk [[0; 3]; [-3; 0]]%Q [0] [1]))
    as (v & Hv & _ & _ & H0 & H1 & _).
  - exact net3_is_network.
  - exact net3_whole.
  - discriminate.
  - split; [discriminate|reflexivity].
  - split; [discriminate|reflexivity].
  - vm_compute. reflexivity.
  - exists v. split; [exact Hv|]. split; [exact H0|exact H1].
Defined.

(** X6: on a Network whose capacities are whole numbers that add up to
    at most [2^52], the Flow that [edmonds_karp] returns, built by in-place
    updates of the zero flow, still passes the checks of the Flow
    constructor: [_conserves_flow] holds, [Flow(F, [source], [sink])]
    returns the same Flow; its matrix is exactly skew-symmetric, and at
    every node other than the two terminals the row sum and the column sum
    are zero. *)
Theorem X6_edmonds_karp_result_is_valid_flow (N : Network.t)
    (source sink maxiter : Z) (f : Flow.t) :
  is_network N -> whole_capacities N ->
  source <> sink ->
  0 <= source < Z.of_nat (n_nodes N) ->
  0 <= sink < Z.of_nat (n_nodes N) ->
  Network.edmonds_karp N source sink maxiter = Ok f ->
  Flow._conserves_flow f = true /\
  Flow.__init__ (Flow.flow_matrix f) [source] [sink] = Ok f /\
  skew (n_nodes N) (Flow.flow_matrix f) /\
  (forall i, (i < n_nodes N)%nat ->
     Z.of_nat i <> source -> Z.of_nat i <> sink ->
     (row_sum (Flow.flow_matrix f) i == 0)%Q /\
     (col_sum (Flow.flow_matrix f) i == 0)%Q).
Proof.
  intros Hnet _ Hne Hs Ht Hrun.
  pose proof (edmonds_karp_inv N source sink maxiter f Hnet Hne Hs Ht Hrun)
    as Hinv.
  destruct (ek_inv_valid N source sink f Hinv Hs Ht) as [Hc Hi].
  split; [done|]. split; [done|]. split; [apply Hinv|].
  intros i Hi' H1 H2.
  pose proof (ek_conserved _ _ _ _ Hinv i Hi' H1 H2) as Hr.
  split; [done|].
  rewrite (skew_col_sum (n_nodes N)); [lra|apply Hinv|apply Hinv|done].
Qed.

Lemma X6_edmonds_karp_result_is_valid_flow_witness :
  Flow.__init__ [[0; 3]; [-3; 0]]%Q [0] [1] =
    Ok (Flow.mk [[0; 3]; [-3; 0]]%Q [0] [1]).
Proof.
  destruct (X6_edmonds_karp_result_is_valid_flow (Network.mk net3) 0 1 1000
              (Flow.mk [[0; 3]; [-3; 0]]%Q [0] [1])) as (_ & H & _).
  - exact net3_is_network.
  - exact net3_whole.
  - discriminate.
  - split; [discriminate|reflexivity].
  - split; [discriminate|reflexivity].
  - vm_compute. reflexivity.
  - exact H.
Defined.

(** X7: an outcome of [edmonds_karp] other than the exhausted budget
    does not depend on the budget: whatever the call returns or raises with
    [maxiter = m], unless it is "Maximum iterations reached without
    convergence.", it returns or raises with every [maxiter >= m]. *)
Theorem X7_edmonds_karp_budget_monotone (N : Network.t)
    (source sink m m' : Z) (r : result Flow.t) :
  m <= m' ->
  Network.edmonds_karp N source sink m = r ->
  r <> Raise ConvergenceFailure ->
  Network.edmonds_karp N source sink m' = r.
Proof.
  intros Hm Hrun Hr. unfold Network.edmonds_karp in *.
  destruct (source =? sink); [done|].
  destruct (_ || _); [done|].
  destruct (Flow.zero_flow _ _ _) as [f|e|]; simpl in *; [|done|done].
  apply (ek_loop_mono N source sink (Z.to_nat m)); [done|done|lia].
Qed.

Lemma X7_edmonds_karp_budget_monotone_witness :
  Network.edmonds_karp (Network.mk net3) 0 1 1000 =
    Ok (Flow.mk [[0; 3]; [-3; 0]]%Q [0] [1]).
Proof.
  apply (X7_edmonds_karp_budget_monotone (Network.mk net3) 0 1 2 1000).
  - lia.
  - vm_compute. reflexivity.
  - discriminate.
Defined.

(** X8: the module-level [edmonds_karp] does not validate its
    terminals: on a Network, with an in-bounds [s = t] and a positive
    budget, the first pass finds the one-node path [[s]], and [min] over its
    empty sequence of edges raises a [ValueError]; the method rejects the
    same call with the TubePlanningError "Source and sink must differ.". *)
Theorem X8_function_with_equal_terminals (G : Network.t) (s mi : Z) :
  is_network G ->
  0 <= s < Z.of_nat (n_nodes G) ->
  0 < mi ->
  (exists msg, edmonds_karp G s s mi = Raise (ValueError msg)) /\
  Network.edmonds_karp G s s mi =
    Raise (TubePlanningError "Source and sink must differ.").
Proof.
  intros Hnet Hs Hmi. split.
  - destruct (is_network_inv G Hnet) as (Hsq & Hnn & Hdiag).
    assert (fromkeys [s] = [s]) as Hfs
      by (apply fromkeys_NoDup, NoDup_singleton).
    unfold edmonds_karp. rewrite zero_flow_ok.
    2:{ rewrite Hfs. intros x Hx. simpl in Hx. rewrite !elem_of_cons in Hx.
        destruct Hx as [->|[->|[]%elem_of_nil]]; done. }
    rewrite bind_Ok.
    destruct (Z.to_nat mi) as [|k] eqn:Hk; [lia|]. cbn [ek_fn_loop].
    unfold ek_fn_iteration. cbn [Flow.flow_matrix].
    assert (square (n_nodes G) (mat_sub (adjacency_matrix G) (zeros (n_nodes G))))
      as Hsub by (apply square_zip_with; [done|apply square_zeros]).
    rewrite (Network_init_ok (n_nodes G)); [|done|].
    2:{ intros i j Hi Hj. unfold mat_sub.
        rewrite (mget_zip_with Qminus (n_nodes G)); try done;
          [|apply square_zeros].
        rewrite mget_zeros. specialize (Hnn i j Hi Hj). simpl in Hnn. lra. }
    rewrite bind_Ok.
    set (rg := Network.mk _).
    pose proof (square_fill_diagonal _ _ Hsub) as Hfd.
    assert (n_nodes rg = n_nodes G) as Hn by apply Hfd.
    assert (square (n_nodes rg) (adjacency_matrix rg)) as Hrg
      by (by rewrite Hn).
    destruct (bfs_returns rg s Hrg) as (tr & q & -> & Hpost); [lia|].
    rewrite bind_Ok.
    pose proof (bfs_order_self _ _ _ _ (post_order _ _ _ _ _ Hpost)) as Hself.
    rewrite Z2Nat.id in Hself by lia.
    pose proof (post_len _ _ _ _ _ Hpost) as Hlen.
    assert (py_index tr s = Ok s) as Hidx.
    { rewrite <- (Z2Nat.id s) at 1 by lia. by apply py_index_nat. }
    rewrite Hidx, bind_Ok.
    destruct (Z.ltb_spec s 0); [lia|].
    unfold path_from_bfs. rewrite Hlen, Hn.
    destruct (Z.ltb_spec s 0); [lia|].
    destruct (Z.leb_spec (Z.of_nat (n_nodes G)) s); [lia|]. simpl.
    rewrite Hidx, bind_Ok.
    destruct (Z.ltb_spec s 0); [lia|].
    rewrite (path_walk_stop _ _ _ _ Hidx), bind_Ok. simpl. by eexists.
  - unfold Network.edmonds_karp. by rewrite Z.eqb_refl.
Qed.

Lemma X8_function_with_equal_terminals_witness :
  exists msg, edmonds_karp (Network.mk net3) 0 0 1000 = Raise (ValueError msg).
Proof.
  apply (X8_function_with_equal_terminals (Network.mk net3) 0 1000).
  - exact net3_is_network.
  - split; [discriminate|reflexivity].
  - reflexivity.
Defined.

(** X9: on a Flow with a square matrix and an in-bounds path that visits
    no node twice, [send_flow_along(path, amount)] raises "Path must
    contain at least two nodes." and leaves the Flow as it is when the path
    has fewer than two nodes; otherwise it returns normally, keeps the
    shape and the terminals, and changes every entry at most once:
    [F[i][j]] becomes [F[i][j] + amount] when the path steps from [i] to
    [j], [F[i][j] - amount] when it steps from [j] to [i], and is left as
    it is otherwise. *)
Theorem X9_send_flow_along_effect (f : Flow.t) (path : list Z) (amount : Q) :
  let n := length (Flow.flow_matrix f) in
  square n (Flow.flow_matrix f) ->
  in_bounds n path ->
  NoDup path ->
  ((length path < 2)%nat ->
     Flow.send_flow_along f path amount = (f, Raise PathTooShort)) /\
  ((2 <= length path)%nat ->
   exists f', Flow.send_flow_along f path amount = (f', Ok tt) /\
    Flow.sources f' = Flow.sources f /\ Flow.sinks f' = Flow.sinks f /\
    square n (Flow.flow_matrix f') /\
    forall i j, (i < n)%nat -> (j < n)%nat ->
      let forward := (Z.of_nat i, Z.of_nat j) ∈ path_edges path in
      let backward := (Z.of_nat j, Z.of_nat i) ∈ path_edges path in
      (forward ->
         (mget (Flow.flow_matrix f') i j
          == mget (Flow.flow_matrix f) i j + amount)%Q) /\
      (backward ->
         (mget (Flow.flow_matrix f') i j
          == mget (Flow.flow_matrix f) i j - amount)%Q) /\
      (~ forward -> ~ backward ->
         (mget (Flow.flow_matrix f') i j == mget (Flow.flow_matrix f) i j)%Q)).
Proof.
  intros n Hsq Hb Hnd. split.
  - intros Hshort. unfold Flow.send_flow_along.
    by destruct (Nat.ltb_spec (length path) 2) as [_|Hge]; [|lia].
  - intros Hlen.
    destruct (send_flow_along_spec f path amount Hsq Hlen Hb)
      as (f' & Hrun & Hsrc & Hsnk & Hsq' & Hent).
    exists f'. repeat (split; [done|]).
    intros i j Hi Hj forward backward. rewrite (Hent i j Hi Hj).
    split; [|split].
    + intros Hf. destruct (crossings_once path _ _ Hnd Hf) as [-> Hn].
      rewrite (crossings_none _ _ _ Hn). change (inject_Z (1 - 0)) with 1%Q.
      ring.
    + intros Hf. destruct (crossings_once path _ _ Hnd Hf) as [-> Hn].
      rewrite (crossings_none _ _ _ Hn).
      change (inject_Z (0 - 1)) with (-1)%Q. ring.
    + intros Hf Hk. rewrite !crossings_none by done.
      change (inject_Z (0 - 0)) with 0%Q. ring.
Qed.

Lemma X9_send_flow_along_effect_witness :
  exists f', Flow.send_flow_along (Flow.mk (zeros 3) [0] [2]) [0; 1; 2] 5
             = (f', Ok tt) /\
    (mget (Flow.flow_matrix f') 1 0 == 0 - 5)%Q.
Proof.
  destruct (X9_send_flow_along_effect (Flow.mk (zeros 3) [0] [2]) [0; 1; 2] 5)
    as [_ Hlong].
  - apply square_zeros.
  - intros x Hx. repeat (apply elem_of_cons in Hx as [->|Hx]; [simpl; lia|]).
    by apply elem_of_nil in Hx.
  - apply NoDup_ListNoDup. repeat constructor; simpl; intuition discriminate.
  - destruct Hlong as (f' & Hrun & _ & _ & _ & Hent); [simpl; lia|].
    exists f'. split; [exact Hrun|].
    apply (Hent 1%nat 0%nat); [simpl; lia|simpl; lia|].
    apply elem_of_cons. by left.
Defined.

(** X10: for an in-bounds path of at least two nodes (it may repeat
    nodes), [send_flow_along] returns normally, keeps the matrix square and
    keeps an exactly skew-symmetric matrix exactly skew-symmetric: every
    step adds [amount] to [F[u][v]] and subtracts it from [F[v][u]]. *)
Theorem X10_send_flow_along_keeps_skew (f : Flow.t) (path : list Z)
    (amount : Q) :
  let n := length (Flow.flow_matrix f) in
  let F := Flow.flow_matrix f in
  let F' := Flow.flow_matrix (fst (Flow.send_flow_along f path amount)) in
  square n F ->
  (2 <= length path)%nat ->
  in_bounds n path ->
  snd (Flow.send_flow_along f path amount) = Ok tt /\
  square n F' /\
  (skew n F -> skew n F').
Proof.
  intros n F F' Hsq Hlen Hb.
  destruct (send_flow_along_spec f path amount Hsq Hlen Hb)
    as (f' & Hrun & _ & _ & Hsq' & Hent).
  unfold F'. rewrite Hrun. simpl. split; [done|]. split; [done|].
  intros Hk i j Hi Hj. rewrite (Hent i j Hi Hj), (Hent j i Hj Hi).
  specialize (Hk i j Hi Hj). unfold F in Hk. rewrite Hk.
  unfold Z.sub. rewrite !inject_Z_plus, !inject_Z_opp. ring.
Qed.

Lemma X10_send_flow_along_keeps_skew_witness :
  snd (Flow.send_flow_along (Flow.mk (zeros 3) [0] [2]) [0; 1; 2] 5) = Ok tt /\
  skew 3 (Flow.flow_matrix
            (fst (Flow.send_flow_along (Flow.mk (zeros 3) [0%Z] [2%Z])
                    [0%Z; 1%Z; 2%Z] 5))).
Proof.
  destruct (X10_send_flow_along_keeps_skew (Flow.mk (zeros 3) [0] [2])
              [0; 1; 2] 5) as (Hrun & _ & Hskew).
  - apply square_zeros.
  - simpl. lia.
  - intros x Hx. repeat (apply elem_of_cons in Hx as [->|Hx]; [simpl; lia|]).
    by apply elem_of_nil in Hx.
  - split; [exact Hrun|]. apply Hskew.
    intros i j _ _. cbn [Flow.flow_matrix]. by rewrite !mget_zeros.
Defined.

(** X12: [Network(adj_mat=m)] on a two-dimensional array (a nested
    sequence with at least one row, all rows of one length) raises
    "Adjacency matrix must be square." when [m] is not square, raises
    "Adjacency matrix must be non-negative." when [m] is square with a
    negative entry, and otherwise returns a Network with as many nodes as
    [m] has rows, whose matrix is [m] with the diagonal set to zero; and
    constructing a Network from the matrix of that Network returns it
    again. *)
Theorem X12_network_from_matrix (m : matrix) :
  rectangular m ->
  (~ square (length m) m ->
   Network.__init__ (Some m) None =
     Raise (TubePlanningError "Adjacency matrix must be square.")) /\
  (square (length m) m -> ~ nonneg (length m) m ->
   Network.__init__ (Some m) None = Raise NegativeCapacity) /\
  (square (length m) m -> nonneg (length m) m ->
   exists N, Network.__init__ (Some m) None = Ok N /\
     n_nodes N = length m /\
     (forall i j, (i < length m)%nat -> (j < length m)%nat ->
        mget (adjacency_matrix N) i j = if decide (i = j) then 0%Q else mget m i j) /\
     Network.__init__ (Some (adjacency_matrix N)) None = Ok N).
Proof.
  intros _. split; [|split].
  - intros Hns. unfold Network.__init__, check_adjacency.
    destruct (is_square m) eqn:Hsq; [|done].
    by apply is_square_spec in Hsq.
  - intros Hsq Hnn. unfold Network.__init__, check_adjacency.
    rewrite (proj2 (is_square_spec m) Hsq). simpl.
    destruct (existsb _ m) eqn:Hex; [done|].
    by apply (has_negative_spec (length m) m Hsq) in Hex.
  - intros Hsq Hnn. eexists.
    split; [by apply (Network_init_ok (length m))|].
    split; [apply (square_fill_diagonal _ _ Hsq)|].
    split; [intros i j Hi Hj; by apply (mget_fill_diagonal (length m))|].
    apply network_rebuild. exists (Some m), None.
    by apply (Network_init_ok (length m)).
Qed.

Lemma X12_network_from_matrix_witness :
  Network.__init__ (Some [[0; 1; 2]; [3; 4; 5]]%Q) None =
    Raise (TubePlanningError "Adjacency matrix must be square.") /\
  Network.__init__ (Some [[0; -1]; [1; 0]]%Q) None = Raise NegativeCapacity /\
  exists N, Network.__init__ (Some [[7; 1]; [2; 7]]%Q) None = Ok N /\
    n_nodes N = 2%nat.
Proof.
  assert (rectangular [[0; 1; 2]; [3; 4; 5]]%Q) as R1
    by (split; [discriminate|]; exists 3%nat; repeat constructor).
  assert (rectangular [[0; -1]; [1; 0]]%Q) as R2
    by (split; [discriminate|]; exists 2%nat; repeat constructor).
  assert (rectangular [[7; 1]; [2; 7]]%Q) as R3
    by (split; [discriminate|]; exists 2%nat; repeat constructor).
  split; [|split].
  - apply (proj1 (X12_network_from_matrix _ R1)).
    intros [_ H]. apply Forall_cons in H as [H _]. discriminate H.
  - apply (proj1 (proj2 (X12_network_from_matrix _ R2))).
    + split; [reflexivity|]. repeat constructor.
    + intros H. specialize (H 0%nat 1%nat). simpl in H.
      assert (0 <= -1)%Q as Hc by (apply H; lia). by vm_compute in Hc.
  - destruct (proj2 (proj2 (X12_network_from_matrix _ R3)))
      as (N & HN & Hn & _).
    + split; [reflexivity|]. repeat constructor.
    + intros i j Hi Hj. simpl in Hi, Hj.
      destruct i as [|[|i]]; [| |lia]; (destruct j as [|[|j]]; [| |lia]);
        by vm_compute.
    + exists N. split; [exact HN|exact Hn].
Defined.

(** X13: a Network built from an edge table has an exactly symmetric,
    non-negative capacity matrix with zero diagonal; the table is not
    empty, every node index of the table is below the number of nodes, and
    when there are nodes some row of the table names the last node. *)
Theorem X13_edge_table_network_is_symmetric (edges : list (Z * Z * Q))
    (N : Network.t) :
  Network.__init__ None (Some edges) = Ok N ->
  let n := n_nodes N in
  let A := adjacency_matrix N in
  edges <> [] /\
  (forall i j, (i < n)%nat -> (j < n)%nat -> mget A i j = mget A j i) /\
  (forall i j, (i < n)%nat -> (j < n)%nat -> (0 <= mget A i j)%Q) /\
  (forall i, (i < n)%nat -> mget A i i = 0%Q) /\
  (forall u v w, (u, v, w) ∈ edges -> u < Z.of_nat n /\ v < Z.of_nat n) /\
  (n = 0%nat \/
   exists u v w, (u, v, w) ∈ edges /\
     (u = Z.of_nat n - 1 \/ v = Z.of_nat n - 1)).
Proof.
  intros Hinit n A.
  assert (is_network N) as Hnet by (by exists None, (Some edges)).
  destruct (is_network_inv N Hnet) as (HsqA & Hnn & Hd).
  fold n A in HsqA, Hnn, Hd.
  unfold Network.__init__, _build_adj_from_edges in Hinit.
  case_bool_decide as Hne; [done|].
  set (M := foldl _ (-1) edges) in Hinit.
  destruct (add_edges edges (zeros (Z.to_nat (M + 1)))) as [adj| |] eqn:Hadd;
    [|done|done].
  simpl in Hinit.
  destruct (add_edges_symmetric (Z.to_nat (M + 1)) edges _ adj
              (square_zeros _) (zeros_symmetric _) Hadd) as [Hsq Hsym].
  apply check_adjacency_inv in Hinit as (_ & _ & HN).
  assert (n = Z.to_nat (M + 1)) as Hn.
  { unfold n, n_nodes. rewrite HN. simpl.
    apply (square_fill_diagonal _ _ Hsq). }
  destruct (max_index_spec edges (-1)) as (HM1 & HM2 & HM3). fold M in HM1, HM2, HM3.
  split; [done|]. split; [|split; [done|split; [done|split]]].
  - intros i j Hi Hj. unfold A. rewrite HN. simpl.
    rewrite !(mget_fill_diagonal (Z.to_nat (M + 1))) by (done || lia).
    destruct (decide (i = j)) as [->|Hij].
    + by rewrite decide_True.
    + rewrite decide_False by done. apply Hsym; lia.
  - intros u v w Hin. destruct (HM2 _ Hin) as [Hu Hv]. simpl in Hu, Hv. lia.
  - destruct HM3 as [HM3|([[u v] w] & Hin & HM3)]; [left; lia|].
    right. exists u, v, w. split; [done|]. simpl in HM3. lia.
Qed.

Lemma X13_edge_table_network_is_symmetric_witness :
  mget [[0; 5; 0]; [5; 0; 2]; [0; 2; 0]]%Q 1 2 =
  mget [[0; 5; 0]; [5; 0; 2]; [0; 2; 0]]%Q 2 1.
Proof.
  destruct (X13_edge_table_network_is_symmetric
              [(0, 1, 2%Q); (1, 0, 3%Q); (2, 1, 2%Q); (1, 1, 9%Q)]
              (Network.mk [[0; 5; 0]; [5; 0; 2]; [0; 2; 0]]%Q))
    as (_ & H & _).
  - vm_compute. reflexivity.
  - apply (H 1%nat 2%nat); unfold n_nodes; simpl; lia.
Defined.

(** X14: for a non-empty edge table without negative node indices, whose
    weights are whole numbers of absolute values that add up to at most
    [2^52], the capacity between two distinct nodes of the Network built
    from it is the sum of the weights of all rows that join these two
    nodes, in either orientation (rows [(u, u, w)] are dropped); the
    Network is built when all these sums are non-negative, and the
    constructor raises "Adjacency matrix must be non-negative." when one of
    them is negative. *)
Theorem X14_edge_table_weights_accumulate (edges : list (Z * Z * Q)) :
  edges <> [] ->
  whole_weights edges ->
  (forall u v w, (u, v, w) ∈ edges -> 0 <= u /\ 0 <= v) ->
  ((forall i j : Z, i <> j -> (0 <= weight_between edges i j)%Q) ->
   exists N, Network.__init__ None (Some edges) = Ok N /\
     forall i j, (i < n_nodes N)%nat -> (j < n_nodes N)%nat -> i <> j ->
       (mget (adjacency_matrix N) i j ==
        weight_between edges (Z.of_nat i) (Z.of_nat j))%Q) /\
  ((exists i j : Z, i <> j /\ (weight_between edges i j < 0)%Q) ->
   Network.__init__ None (Some edges) = Raise NegativeCapacity).
Proof.
  intros Hne _ Hpos.
  unfold Network.__init__, _build_adj_from_edges.
  rewrite bool_decide_eq_false_2 by done.
  set (M := foldl _ (-1) edges).
  destruct (max_index_spec edges (-1)) as (HM1 & HM2 & _). fold M in HM1, HM2.
  set (n := Z.to_nat (M + 1)).
  destruct (add_edges_entries n edges (zeros n) (square_zeros n))
    as (adj & -> & Hsq & Hd & Hent).
  { intros u v w Hin. destruct (Hpos u v w Hin), (HM2 _ Hin). simpl in *.
    unfold n. lia. }
  rewrite bind_Ok. pose proof (proj1 Hsq) as Hlen.
  assert (forall i j, (i < n)%nat -> (j < n)%nat -> i <> j ->
            (mget adj i j == weight_between edges (Z.of_nat i) (Z.of_nat j))%Q)
    as Hent'.
  { intros i j Hi Hj Hij. rewrite (Hent i j Hi Hj Hij), mget_zeros. ring. }
  split.
  - intros Hw. exists (Network.mk (fill_diagonal adj)).
    split.
    + apply (Network_init_ok n adj Hsq). intros i j Hi Hj.
      destruct (decide (i = j)) as [->|Hij].
      * rewrite (Hd j Hj), mget_zeros. done.
      * rewrite (Hent' i j Hi Hj Hij). apply Hw. lia.
    + unfold n_nodes. simpl.
      rewrite (proj1 (square_fill_diagonal n adj Hsq)).
      intros i j Hi Hj Hij. rewrite (mget_fill_diagonal n) by done.
      rewrite decide_False by done. by apply Hent'.
  - intros (i & j & Hij & Hneg). unfold check_adjacency.
    rewrite (proj2 (is_square_spec adj)) by (by rewrite Hlen). simpl.
    destruct (existsb _ adj) eqn:Hex; [done|].
    apply (has_negative_spec n adj Hsq) in Hex.
    assert (0 <= i < Z.of_nat n /\ 0 <= j < Z.of_nat n) as [Hi Hj].
    { destruct (weight_between_joined edges i j) as ([[u v] w] & Hin & Hj).
      { intros Hz. rewrite Hz in Hneg. by apply Qlt_irrefl in Hneg. }
      destruct (Hpos u v w Hin), (HM2 _ Hin). apply bool_decide_eq_true in Hj.
      simpl in *. unfold n. lia. }
    specialize (Hex (Z.to_nat i) (Z.to_nat j)).
    rewrite Hent' in Hex by lia. rewrite !Z2Nat.id in Hex by lia.
    assert (0 <= weight_between edges i j)%Q by (apply Hex; lia). lra.
Qed.

Lemma X14_edge_table_weights_accumulate_witness :
  exists N,
    Network.__init__ None (Some [(0, 1, 2%Q); (1, 0, 3%Q); (2, 1, 2%Q)]) = Ok N /\
    (mget (adjacency_matrix N) 0 1 == 5)%Q.
Proof.
  destruct (X14_edge_table_weights_accumulate
              [(0, 1, 2%Q); (1, 0, 3%Q); (2, 1, 2%Q)]) as [H _].
  - discriminate.
  - split; [|vm_compute; discriminate].
    intros e He.
    repeat (apply elem_of_cons in He as [->|He]; [by eexists (_ : Z)|]).
    by apply elem_of_nil in He.
  - intros u v w Hin.
    repeat (apply elem_of_cons in Hin as [[= -> -> ->]|Hin]; [lia|]).
    by apply elem_of_nil in Hin.
  - destruct H as (N & HN & Hent).
    + intros i j _. unfold weight_between, joins. simpl.
      repeat case_bool_decide; by vm_compute.
    + exists N. split; [exact HN|].
      assert (n_nodes N = 3%nat) as Hn.
      { vm_compute in HN. injection HN as <-. reflexivity. }
      rewrite (Hent 0%nat 1%nat) by (rewrite ?Hn; lia).
      reflexivity.
Defined.

(** X15: the sum [N1 + N2] of two Networks never raises: it is a Network
    with as many nodes as the larger of the two, and its capacity between
    [i] and [j] is the sum of the two capacities, a node that a Network does
    not have counting as one without edges.  So an edge of only one of the
    two keeps its capacity, and no capacity of either Network shrinks. *)
Theorem X15_add_networks (N1 N2 : Network.t) :
  is_network N1 -> is_network N2 ->
  exists R, Network.__add__ N1 N2 = Ok R /\ is_network R /\
    n_nodes R = Nat.max (n_nodes N1) (n_nodes N2) /\
    forall i j,
      mget (adjacency_matrix R) i j =
        (mget (adjacency_matrix N1) i j + mget (adjacency_matrix N2) i j)%Q /\
      (mget (adjacency_matrix N2) i j = 0%Q ->
         mget (adjacency_matrix R) i j = mget (adjacency_matrix N1) i j) /\
      (mget (adjacency_matrix N1) i j = 0%Q ->
         mget (adjacency_matrix R) i j = mget (adjacency_matrix N2) i j) /\
      (mget (adjacency_matrix N1) i j <= mget (adjacency_matrix R) i j)%Q /\
      (mget (adjacency_matrix N2) i j <= mget (adjacency_matrix R) i j)%Q.
Proof.
  intros H1 H2. destruct (add_spec N1 N2 H1 H2) as (R & HR & Hnet & Hn & Hent).
  exists R. split; [done|]. split; [done|]. split; [done|]. intros i j.
  destruct (is_network_inv N1 H1) as (Hsq1 & Hnn1 & _).
  destruct (is_network_inv N2 H2) as (Hsq2 & Hnn2 & _).
  pose proof (nonneg_everywhere _ _ i j Hsq1 Hnn1) as Hp1.
  pose proof (nonneg_everywhere _ _ i j Hsq2 Hnn2) as Hp2.
  rewrite Hent. split; [done|]. split; [|split; [|split]].
  - intros ->. apply Qplus_0_r_eq.
  - intros ->. apply Qplus_0_l_eq.
  - lra.
  - lra.
Qed.

Lemma X15_add_networks_witness :
  exists R, Network.__add__ (Network.mk net3) (Network.mk (zeros 3)) = Ok R /\
    n_nodes R = 3%nat.
Proof.
  destruct (X15_add_networks (Network.mk net3) (Network.mk (zeros 3)))
    as (R & HR & _ & Hn & _).
  - exact net3_is_network.
  - exists (Some (zeros 3)), None. apply zero_network_ok.
  - exists R. split; [exact HR|exact Hn].
Defined.

(** X16: the sum of Networks is commutative: [N1 + N2] and [N2 + N1] are
    the same Network, also for Networks of different sizes. *)
Theorem X16_add_commutative (N1 N2 : Network.t) :
  is_network N1 -> is_network N2 ->
  Network.__add__ N1 N2 = Network.__add__ N2 N1.
Proof.
  intros H1 H2.
  destruct (add_spec N1 N2 H1 H2) as (R12 & E12 & Hn12 & Hs12 & Hent12).
  destruct (add_spec N2 N1 H2 H1) as (R21 & E21 & Hn21 & Hs21 & Hent21).
  rewrite E12, E21. f_equal. apply network_ext; try done; [lia|].
  intros i j. rewrite Hent12, Hent21. apply Qplus_comm_eq.
Qed.

Lemma X16_add_commutative_witness :
  Network.__add__ (Network.mk net3) (Network.mk (zeros 3)) =
  Network.__add__ (Network.mk (zeros 3)) (Network.mk net3).
Proof.
  apply (X16_add_commutative (Network.mk net3) (Network.mk (zeros 3))).
  - exact net3_is_network.
  - exists (Some (zeros 3)), None. apply zero_network_ok.
Defined.

(** X17: a Network equals itself; for Networks of different sizes,
    neither of size 1, [N1 == N2] raises a [ValueError] instead of
    returning [False]; and [==] is not identity of the matrices: the
    Networks of [[0,1],[1,0]] and [[0,1.000001],[1.000001,0]] compare
    equal, while those of [[0,3],[3,0]] and the 2-node zero matrix do
    not. *)
Theorem X17_network_equality (N1 N2 : Network.t) :
  is_network N1 -> is_network N2 ->
  Network.__eq__ N1 N1 = Ok true /\
  (n_nodes N2 <> n_nodes N1 -> n_nodes N1 <> 1%nat -> n_nodes N2 <> 1%nat ->
   exists msg, Network.__eq__ N1 N2 = Raise (ValueError msg)) /\
  Network.__eq__ (Network.mk unit_link) (Network.mk near_unit_link) = Ok true /\
  Network.__eq__ (Network.mk net3) (Network.mk (zeros 2)) = Ok false.
Proof.
  intros H1 H2.
  destruct (is_network_inv N1 H1) as (Hsq1 & _ & _).
  destruct (is_network_inv N2 H2) as (Hsq2 & _ & _).
  split; [|split; [|split]].
  - unfold Network.__eq__. rewrite bool_decide_eq_true_2 by done.
    f_equal. by apply (allclose_refl _ _ (n_nodes N1)).
  - intros Hn Hn1 Hn2. unfold Network.__eq__.
    rewrite (proj1 Hsq1), (proj1 Hsq2).
    rewrite !bool_decide_eq_false_2 by done. by eexists.
  - vm_compute. reflexivity.
  - vm_compute. reflexivity.
Qed.

Lemma X17_network_equality_witness :
  exists msg,
    Network.__eq__ (Network.mk net3) (Network.mk (zeros 3)) =
      Raise (ValueError msg).
Proof.
  apply (X17_network_equality (Network.mk net3) (Network.mk (zeros 3))).
  - exact net3_is_network.
  - exists (Some (zeros 3)), None. apply zero_network_ok.
  - discriminate.
  - discriminate.
  - discriminate.
Defined.

(** X18: for a Network and a Flow with a square matrix,
    [capacity_constraint] never returns [False] (a violated condition
    raises); it raises "Flow matrix and adjacency matrix shapes differ."
    when the sizes differ; and it returns [True] when the sizes agree, the
    flow matrix is exactly skew-symmetric and [|F[i][j]| <= A[i][j]] for
    all [i], [j]. *)
Theorem X18_capacity_constraint (N : Network.t) (f : Flow.t) :
  is_network N ->
  let n := n_nodes N in
  let A := adjacency_matrix N in
  let F := Flow.flow_matrix f in
  square (length F) F ->
  Network.capacity_constraint N f <> Ok false /\
  (length F <> n ->
   Network.capacity_constraint N f =
     Raise (TubePlanningError
              "Flow matrix and adjacency matrix shapes differ.")) /\
  (length F = n -> skew n F ->
   (forall i j, (i < n)%nat -> (j < n)%nat ->
      (Qabs (mget F i j) <= mget A i j)%Q) ->
   Network.capacity_constraint N f = Ok true).
Proof.
  intros Hnet n A F HF.
  destruct (is_network_inv N Hnet) as (HA & _ & _). fold n A in HA.
  split; [|split].
  - unfold capacity_constraint.
    repeat (destruct (negb _) || destruct (existsb _ _)); done.
  - intros Hn. unfold capacity_constraint. fold A F.
    rewrite (square_shape (length F) F), (square_shape n A) by done.
    rewrite bool_decide_eq_false_2; [done|].
    intros Hshape. apply Hn.
    apply (f_equal length) in Hshape. by rewrite !length_replicate in Hshape.
  - intros Hn Hk Hcap. rewrite Hn in HF. by apply capacity_constraint_ok.
Qed.

Lemma X18_capacity_constraint_witness :
  Network.capacity_constraint (Network.mk net3)
    (Flow.mk [[0; 3]; [-3; 0]]%Q [0] [1]) = Ok true.
Proof.
  destruct (X18_capacity_constraint (Network.mk net3)
              (Flow.mk [[0; 3]; [-3; 0]]%Q [0] [1])) as (_ & _ & H).
  - exact net3_is_network.
  - split; [reflexivity|]. repeat constructor.
  - apply H; [reflexivity| |].
    + intros i j Hi Hj. unfold n_nodes in Hi, Hj. simpl in Hi, Hj.
      destruct i as [|[|i]]; [| |lia]; (destruct j as [|[|j]]; [| |lia]);
        by vm_compute.
    + intros i j Hi Hj. unfold n_nodes in Hi, Hj. simpl in Hi, Hj.
      destruct i as [|[|i]]; [| |lia]; (destruct j as [|[|j]]; [| |lia]);
        apply Qle_bool_iff; by vm_compute.
Defined.

(** X19: for a Network whose capacities are whole numbers that add up to
    at most [2^52], and in-bounds non-empty [sources] and [sinks] that
    share no node, [maximum_flow] either raises the convergence error of
    the Edmonds-Karp loop or returns a Flow on the nodes of the Network
    itself (the super-source and super-sink are cut away): its terminals
    are the given ones without repetitions, its matrix is square, exactly
    skew-symmetric, within the capacities and conserves flow at every
    non-terminal node, and its value is defined and non-negative. *)
Theorem X19_maximum_flow_returns_valid_flow (N : Network.t)
    (sources sinks : list Z) (maxiter : Z) :
  is_network N -> whole_capacities N ->
  let n := n_nodes N in
  let A := adjacency_matrix N in
  in_bounds n (sources ++ sinks) ->
  sources <> [] -> sinks <> [] ->
  (forall x, x ∈ sources -> x ∉ sinks) ->
  Network.maximum_flow N sources sinks maxiter = Raise ConvergenceFailure \/
  exists f v,
    Network.maximum_flow N sources sinks maxiter = Ok f /\
    Flow.sources f = fromkeys sources /\ Flow.sinks f = fromkeys sinks /\
    square n (Flow.flow_matrix f) /\
    skew n (Flow.flow_matrix f) /\
    within n A (Flow.flow_matrix f) /\
    (forall i, (i < n)%nat -> Z.of_nat i ∉ sources ++ sinks ->
       (row_sum (Flow.flow_matrix f) i == 0)%Q) /\
    Flow.value f = Ok v /\ (0 <= v)%Q.
Proof.
  intros Hnet _ n A Hb Hs Ht Hdis.
  destruct (maximum_flow_spec N sources sinks maxiter Hnet Hb Hs Ht Hdis)
    as (E & HE & [Hfail|(fe & Hinv & Hmax & Hrun)]); [by left|].
  right. fold n in HE, Hinv, Hmax, Hrun.
  pose proof (total_capacity_pos N) as Hpos.
  assert (in_bounds n (fromkeys sources ++ fromkeys sinks)) as Hb'
    by (by apply in_bounds_fromkeys).
  assert (in_bounds n (fromkeys sources)) as HbS
    by (intros x Hx; apply Hb', elem_of_app; by left).
  assert (in_bounds n (fromkeys sinks)) as HbT
    by (intros x Hx; apply Hb', elem_of_app; by right).
  assert (valid_items n (map (fun s => (s, total_capacity N)) (fromkeys sources)))
    as Hvs by (apply valid_items_const; [done|lra]).
  assert (valid_items n (map (fun s => (s, total_capacity N)) (fromkeys sinks)))
    as Hvt by (apply valid_items_const; [done|lra]).
  pose proof (base_square N _ _ E fe HE Hinv) as Hsq.
  fold n in Hsq.
  eexists. eexists. split; [exact Hrun|]. cbn [Flow.sources Flow.sinks Flow.flow_matrix].
  split; [done|]. split; [done|]. split; [done|].
  split; [by apply (base_skew N _ _ E fe HE Hinv)|].
  split; [by apply (base_within N _ _ E fe HE Hinv)|].
  split.
  { intros i Hi Hterm. apply (base_conserved N _ _ E fe Hnet Hvs Hvt HE Hinv i Hi).
    rewrite !map_fst_const. intros Hin. apply Hterm.
    apply elem_of_app. apply elem_of_app in Hin as [Hin|Hin]; [left|right];
      by apply elem_of_fromkeys. }
  split.
  { apply (value_of_sources n); [done|done|].
    intros Hnil. destruct sources as [|x ?]; [done|].
    assert (x ∈ fromkeys (x :: sources)) as Hx by (apply elem_of_fromkeys; by left).
    rewrite Hnil in Hx. by apply elem_of_nil in Hx. }
  pose proof (base_value N _ _ E fe Hnet Hvs Hvt HE Hinv) as Hval.
  rewrite !map_fst_const in Hval. fold n in Hval. rewrite Hval.
  - destruct Hmax as (_ & _ & Hmax). rewrite Nat2Z.id in Hmax.
    destruct HE as (HEnet & HnE & _).
    destruct (is_network_inv E HEnet) as (_ & HnnE & _).
    rewrite <- (row_sum_zeros (n_nodes E) n). apply Hmax.
    by apply zeros_feasible.
  - apply NoDup_dedup.
  - intros x Hx Hx'. apply (Hdis x); by apply elem_of_fromkeys.
Qed.

Lemma X19_maximum_flow_returns_valid_flow_witness :
  Network.maximum_flow (Network.mk net3) [0] [1] 1000 = Raise ConvergenceFailure \/
  exists f v,
    Network.maximum_flow (Network.mk net3) [0] [1] 1000 = Ok f /\
    Flow.value f = Ok v /\ (0 <= v)%Q.
Proof.
  destruct (X19_maximum_flow_returns_valid_flow (Network.mk net3) [0] [1] 1000)
    as [H|(f & v & H1 & _ & _ & _ & _ & _ & _ & H2 & H3)].
  - exact net3_is_network.
  - exact net3_whole.
  - intros x Hx. simpl in Hx.
    repeat (apply elem_of_cons in Hx as [->|Hx];
            [vm_compute; split; [discriminate|reflexivity]|]).
    by apply elem_of_nil in Hx.
  - discriminate.
  - discriminate.
  - intros x ->%list_elem_of_singleton Hx%list_elem_of_singleton. discriminate.
  - left. exact H.
  - right. exists f, v. split; [exact H1|]. split; [exact H2|exact H3].
Defined.

(** X20: under the same conditions (whole capacities that add up to at
    most [2^52]), a Flow that [maximum_flow] returns is a maximum flow of
    the multi-terminal problem: it is feasible (square, skew-symmetric,
    within the capacities, conserving outside the terminals, nothing
    flowing into a source or out of a sink), its value is the total flow
    out of the sources, and no feasible flow sends more out of the
    sources. *)
Theorem X20_maximum_flow_is_maximum (N : Network.t) (sources sinks : list Z)
    (maxiter : Z) (f : Flow.t) :
  is_network N -> whole_capacities N ->
  let n := n_nodes N in
  let A := adjacency_matrix N in
  let S := fromkeys sources in
  let T := fromkeys sinks in
  in_bounds n (sources ++ sinks) ->
  sources <> [] -> sinks <> [] ->
  (forall x, x ∈ sources -> x ∉ sinks) ->
  Network.maximum_flow N sources sinks maxiter = Ok f ->
  multi_feasible n A S T (Flow.flow_matrix f) /\
  exists v, Flow.value f = Ok v /\
    (v == outflow (Flow.flow_matrix f) S)%Q /\
    forall g, multi_feasible n A S T g -> (outflow g S <= v)%Q.
Proof.
  intros Hnet _ n A S T Hb Hs Ht Hdis Hrun.
  destruct (maximum_flow_optimal N sources sinks maxiter f Hnet Hb Hs Ht Hdis
              Hrun) as (Hfeas & v & Hv & Hval & Hmax).
  split; [exact Hfeas|]. exists v. split; [exact Hv|].
  split; [exact Hval|]. intros g Hg. by apply Hmax.
Qed.

Lemma X20_maximum_flow_is_maximum_witness :
  exists v, Flow.value (Flow.mk [[0; 3]; [-3; 0]]%Q [0] [1]) = Ok v /\
    forall g, multi_feasible 2 net3 [0] [1] g -> (outflow g [0%Z] <= v)%Q.
Proof.
  destruct (X20_maximum_flow_is_maximum (Network.mk net3) [0] [1] 1000
              (Flow.mk [[0; 3]; [-3; 0]]%Q [0] [1]))
    as (_ & v & Hv & _ & Hmax).
  - exact net3_is_network.
  - exact net3_whole.
  - intros x Hx. simpl in Hx.
    repeat (apply elem_of_cons in Hx as [->|Hx];
            [vm_compute; split; [discriminate|reflexivity]|]).
    by apply elem_of_nil in Hx.
  - discriminate.
  - discriminate.
  - intros x ->%list_elem_of_singleton Hx%list_elem_of_singleton. discriminate.
  - vm_compute. reflexivity.
  - exists v. split; [exact Hv|exact Hmax].
Defined.

(** X21: in a Flow that the [edmonds_karp] method returns for distinct
    in-bounds terminals of a Network, nothing flows into the source and
    nothing flows out of the sink: [F[source][x] >= 0 >= F[x][source]] and
    [F[x][sink] >= 0 >= F[sink][x]] for every node [x]. *)
Theorem X21_edmonds_karp_flow_direction (N : Network.t)
    (source sink maxiter : Z) (f : Flow.t) :
  is_network N ->
  source <> sink ->
  0 <= source < Z.of_nat (n_nodes N) ->
  0 <= sink < Z.of_nat (n_nodes N) ->
  Network.edmonds_karp N source sink maxiter = Ok f ->
  let F := Flow.flow_matrix f in
  forall x, (x < n_nodes N)%nat ->
    (0 <= mget F (Z.to_nat source) x)%Q /\ (mget F x (Z.to_nat source) <= 0)%Q /\
    (0 <= mget F x (Z.to_nat sink))%Q /\ (mget F (Z.to_nat sink) x <= 0)%Q.
Proof.
  intros Hnet Hne Hs Ht Hrun F x Hx.
  destruct (edmonds_karp_one_way N source sink Hnet Hs Ht Hne maxiter f Hrun)
    as [Hout Hin].
  pose proof (edmonds_karp_inv N source sink maxiter f Hnet Hne Hs Ht Hrun) as Hinv.
  pose proof (ek_skew _ _ _ _ Hinv x (Z.to_nat source) Hx ltac:(lia)) as H1.
  pose proof (ek_skew _ _ _ _ Hinv (Z.to_nat sink) x ltac:(lia) Hx) as H2.
  specialize (Hout x Hx). specialize (Hin x Hx). fold F in H1, H2, Hout, Hin.
  split; [done|]. split; [lra|]. split; [done|lra].
Qed.

Lemma X21_edmonds_karp_flow_direction_witness :
  (0 <= mget [[0; 3]; [-3; 0]]%Q 0 1)%Q /\ (mget [[0; 3]; [-3; 0]]%Q 1 0 <= 0)%Q.
Proof.
  assert (is_network (Network.mk net3) /\ 0 <> 1 /\
          0 <= 0 < Z.of_nat (n_nodes (Network.mk net3)) /\
          0 <= 1 < Z.of_nat (n_nodes (Network.mk net3)) /\
          Network.edmonds_karp (Network.mk net3) 0 1 1000 =
            Ok (Flow.mk [[0; 3]; [-3; 0]]%Q [0] [1]))
    as (H1 & H2 & H3 & H4 & H5).
  { split; [exact net3_is_network|]. split; [discriminate|].
    split; [split; [discriminate|reflexivity]|].
    split; [split; [discriminate|reflexivity]|]. vm_compute. reflexivity. }
  destruct (X21_edmonds_karp_flow_direction (Network.mk net3) 0 1 1000 _
              H1 H2 H3 H4 H5 1%nat) as (Ha & Hb & _).
  - vm_compute. lia.
  - split; [exact Ha|exact Hb].
Defined.

(** X22: for a Network whose capacities are whole numbers that add up to
    at most [2^52], and [supply] and [demand] maps that share no node and
    whose amounts are whole numbers that add up to at most [2^52] each, a
    Flow that [sufficient_flow] returns has the keys of the two maps as
    sources and sinks, is square, exactly skew-symmetric, within the
    capacities and conserving at every other node; every source [s] sends
    out between [0] and [supply[s]], and every sink [t] takes in at most
    [demand[t]] and at least [demand[t] - 1e-9]. *)
Theorem X22_sufficient_flow_meets_demands (N : Network.t)
    (supply demand : list (Z * Q)) (maxiter : Z) (f : Flow.t) :
  is_network N -> whole_capacities N ->
  whole_amounts supply -> whole_amounts demand ->
  NoDup (map fst supply) -> NoDup (map fst demand) ->
  (forall x, x ∈ map fst supply -> x ∉ map fst demand) ->
  Network.sufficient_flow N supply demand maxiter = Ok f ->
  let n := n_nodes N in
  let A := adjacency_matrix N in
  let F := Flow.flow_matrix f in
  (Flow.sources f = map fst supply /\ Flow.sinks f = map fst demand) /\
  (square n F /\ skew n F /\ within n A F) /\
  (forall i, (i < n)%nat -> Z.of_nat i ∉ map fst supply ++ map fst demand ->
     (row_sum F i == 0)%Q) /\
  (forall s c, (s, c) ∈ supply ->
     0 <= s < Z.of_nat n /\
     (0 <= row_sum F (Z.to_nat s))%Q /\ (row_sum F (Z.to_nat s) <= c)%Q) /\
  (forall t d, (t, d) ∈ demand ->
     0 <= t < Z.of_nat n /\
     (d - Flow._EPS <= - row_sum F (Z.to_nat t))%Q /\
     (- row_sum F (Z.to_nat t) <= d)%Q).
Proof.
  intros Hnet _ _ _ HndS HndT Hdis Hrun n A F.
  destruct (sufficient_flow_spec N supply demand maxiter f Hnet HndS HndT Hdis
              Hrun) as (Hterm & Hvalid & Hcons & Hsrc & v & _ & Hmet & Hsnk).
  split; [exact Hterm|]. split; [exact Hvalid|]. split; [exact Hcons|].
  split; [exact Hsrc|]. intros t d Htd.
  destruct (Hsnk t d Htd) as (Hb & Hd & Hdef). fold n F in Hb, Hd, Hdef.
  split; [exact Hb|]. split; [lra|exact Hd].
Qed.

Lemma X22_sufficient_flow_meets_demands_witness :
  Network.sufficient_flow (Network.mk net3) [(0, 2%Q)] [(1, 2%Q)] 1000 =
    Ok (Flow.mk [[0; 2]; [-2; 0]]%Q [0] [1]) /\
  (2 - Flow._EPS <= - row_sum [[0; 2]; [-2; 0]]%Q 1)%Q.
Proof.
  assert (Network.sufficient_flow (Network.mk net3) [(0, 2%Q)] [(1, 2%Q)] 1000 =
            Ok (Flow.mk [[0; 2]; [-2; 0]]%Q [0] [1])) as Hrun
    by (vm_compute; reflexivity).
  split; [exact Hrun|].
  destruct (X22_sufficient_flow_meets_demands (Network.mk net3)
              [(0, 2%Q)] [(1, 2%Q)] 1000
              (Flow.mk [[0; 2]; [-2; 0]]%Q [0] [1]) net3_is_network
              net3_whole)
    as (_ & _ & _ & _ & H);
    [| | | | |exact Hrun|].
  - apply (whole_amounts_1 0 2). lia.
  - apply (whole_amounts_1 1 2). lia.
  - simpl. apply NoDup_singleton.
  - simpl. apply NoDup_singleton.
  - simpl. intros x ->%list_elem_of_singleton Hx%list_elem_of_singleton.
    discriminate.
  - destruct (H 1 2%Q) as (_ & H1 & _); [by apply list_elem_of_singleton|].
    exact H1.
Defined.

(** X23: in every state that the class attribute
    [Proposal._all_proposals] can reach from the empty list through calls of
    the constructor, the names are pairwise different and every member is a
    Network that the Network constructor returned; from such a state, a
    construction under a name in use raises a [TubePlanningError] and
    changes nothing, a construction that returns appends the new Proposal
    (and nothing else), and a construction that does not return, for
    whatever reason, leaves the list as it was. *)
Theorem X23_proposal_names_are_unique (reg : list Proposal.t) :
  registry reg ->
  NoDup (Proposal.names_in_use reg) /\
  (forall p, p ∈ reg -> is_network (Proposal.network p)) /\
  forall name adj_mat edge_table,
    let after := Proposal.__init__ reg name adj_mat edge_table in
    (name ∈ Proposal.names_in_use reg ->
       exists msg, after = (reg, Raise (TubePlanningError msg))) /\
    (forall p, snd after = Ok p ->
       Proposal.name p = name /\ (name ∉ Proposal.names_in_use reg) /\
       Network.__init__ adj_mat edge_table = Ok (Proposal.network p) /\
       fst after = reg ++ [p]) /\
    ((forall p, snd after <> Ok p) -> fst after = reg).
Proof.
  intros Hreg.
  assert (NoDup (Proposal.names_in_use reg) /\
          forall p, p ∈ reg -> is_network (Proposal.network p)) as [Hnd Hnet].
  { induction Hreg as [|reg name adj_mat edge_table Hreg [IHnd IHnet]].
    - split; [apply NoDup_nil_2|]. intros p Hp. by apply elem_of_nil in Hp.
    - destruct (proposal_init_cases reg name adj_mat edge_table)
        as [(_ & msg & ->)|[(Hfree & net & Hnet & ->)|(_ & _ & ->)]];
        simpl; [done| |done].
      split.
      + unfold Proposal.names_in_use. rewrite map_app. simpl.
        apply NoDup_app. split; [done|]. split; [|apply NoDup_singleton].
        intros x Hx ->%list_elem_of_singleton. by apply Hfree.
      + intros p [Hp| ->%list_elem_of_singleton]%elem_of_app; [by apply IHnet|].
        simpl. by exists adj_mat, edge_table. }
  split; [done|]. split; [done|]. intros name adj_mat edge_table after.
  unfold after.
  destruct (proposal_init_cases reg name adj_mat edge_table)
    as [(Hused & msg & ->)|[(Hfree & net & Hinit & ->)|(Hfree & Hno & ->)]];
    simpl.
  - split; [by exists msg|]. by split.
  - split; [done|]. split.
    + by intros p [= <-].
    + intros Hno. by destruct (Hno (Proposal.mk name net)).
  - split; [done|]. split; [|done].
    intros p Hp. destruct (Network.__init__ adj_mat edge_table) as [net| |];
      [by destruct (Hno net)|done|done].
Qed.

Lemma X23_proposal_names_are_unique_witness :
  NoDup (Proposal.names_in_use
           (fst (Proposal.__init__ [] "north" (Some net3) None))).
Proof.
  apply (X23_proposal_names_are_unique
           (fst (Proposal.__init__ [] "north" (Some net3) None))).
  apply registry_init. apply registry_empty.
Defined.

(** X24: [PerformanceCriteria(sources, sinks, supplies, demands,
    description=..., weight=...)] returns exactly when the weight is
    positive, there is at least one source and one sink, and, if supplies
    and demands are both given, there are as many supplies as sources, as
    many demands as sinks, and none of them is negative; it then holds the
    arguments as given.  In every other case it raises a
    [TubePlanningError]. *)
Theorem X24_performance_criteria_constructor (sources sinks : list Z)
    (supplies demands : option (list Q)) (description : string) (weight : Q) :
  let c := PerformanceCriteria.mk description weight sources sinks supplies
             demands in
  let made := PerformanceCriteria.__init__ sources sinks supplies demands
                description weight in
  (well_formed c -> made = Ok c) /\
  (~ well_formed c -> exists msg, made = Raise (TubePlanningError msg)) /\
  (forall c', made = Ok c' -> c' = c /\ well_formed c).
Proof.
  intros c made.
  assert (well_formed c /\ made = Ok c \/
          ~ well_formed c /\ exists msg, made = Raise (TubePlanningError msg))
    as Hcases.
  { unfold made, PerformanceCriteria.__init__, well_formed. simpl.
    destruct (post_init_spec weight) as [[Hw ->]|[Hw ->]].
    2:{ right. split; [|by eexists]. intros (H & _). lra. }
    rewrite bind_Ok.
    destruct (decide (sources = [])) as [->|Hs].
    { right. split; [|by eexists]. by intros (_ & H & _). }
    destruct (decide (sinks = [])) as [->|Ht].
    { right. rewrite bool_decide_eq_false_2 by done. simpl.
      split; [|by eexists]. by intros (_ & _ & H & _). }
    rewrite !bool_decide_eq_false_2 by done. simpl.
    destruct supplies as [sup|]; [|left; by repeat split].
    destruct demands as [dem|]; [|left; by repeat split].
    destruct (Nat.eqb_spec (length sources) (length sup)) as [Hl1|Hl1]; simpl.
    2:{ right. split; [|by eexists]. intros (_ & _ & _ & H).
        by destruct (H sup dem eq_refl eq_refl) as (? & _). }
    destruct (Nat.eqb_spec (length sinks) (length dem)) as [Hl2|Hl2]; simpl.
    2:{ right. split; [|by eexists]. intros (_ & _ & _ & H).
        by destruct (H sup dem eq_refl eq_refl) as (_ & ? & _). }
    destruct (existsb (fun v => Qltb v 0%Q) (sup ++ dem)) eqn:Hneg.
    - right. split; [|by eexists]. intros (_ & _ & _ & H).
      destruct (H sup dem eq_refl eq_refl) as (_ & _ & Hnn).
      apply values_check_spec in Hnn. congruence.
    - left. split; [|done]. split; [done|]. split; [done|]. split; [done|].
      intros ? ? [= <-] [= <-]. split; [done|]. split; [done|].
      by apply values_check_spec. }
  destruct Hcases as [[Hwf ->]|[Hwf (msg & ->)]].
  - split; [done|]. split; [done|]. by intros c' [= <-].
  - split; [done|]. split; [by exists msg|done].
Qed.

Lemma X24_performance_criteria_constructor_witness :
  PerformanceCriteria.__init__ [0] [1] (Some [2%Q]) (Some [2%Q]) "demand" 1%Q =
    Ok (PerformanceCriteria.mk "demand" 1%Q [0] [1] (Some [2%Q]) (Some [2%Q])).
Proof.
  apply (X24_performance_criteria_constructor [0] [1] (Some [2%Q]) (Some [2%Q])
           "demand" 1%Q).
  split; [reflexivity|]. split; [discriminate|]. split; [discriminate|].
  simpl. intros sup dem [= <-] [= <-]. split; [reflexivity|].
  split; [reflexivity|]. intros v Hv. simpl in Hv.
  repeat (apply elem_of_cons in Hv as [->|Hv]; [discriminate|]).
  by apply elem_of_nil in Hv.
Defined.

(** X25: [CriteriaGroup.evaluate] returns [(score, failed)] exactly when
    every criterion of the group evaluates; [score] is then the sum of the
    values, the essential ones first, and [failed] lists, in order, the
    essential criteria whose value is not positive.  So [failed] is a
    sublist of the essential criteria (a desirable criterion never fails
    the group), and it is empty exactly when every essential value is
    positive: an essential criterion of value [0] counts as failed. *)
Theorem X25_criteria_group_evaluate (self : CriteriaGroup.t)
    (proposed current : Network.t) (k : Criteria.costing)
    (score : Q) (failed : list Criteria.any) :
  CriteriaGroup.evaluate self proposed current k = Ok (score, failed) <->
  exists ve vd,
    Forall2 (evaluates proposed current k) (CriteriaGroup.essential self) ve /\
    Forall2 (evaluates proposed current k) (CriteriaGroup.desirable self) vd /\
    score = foldl Qplus 0%Q (ve ++ vd) /\
    failed = failing (CriteriaGroup.essential self) ve /\
    sublist failed (CriteriaGroup.essential self) /\
    (failed = [] <-> forall v, v ∈ ve -> (0 < v)%Q).
Proof.
  unfold CriteriaGroup.evaluate. split.
  - destruct (CriteriaGroup.essential_loop _ _ _ _ _ _) as [r| |] eqn:He;
      [|done|done].
    rewrite bind_Ok.
    destruct (CriteriaGroup.desirable_loop _ _ _ _ _) as [s| |] eqn:Hd;
      [|done|done].
    rewrite bind_Ok. intros [= <- <-].
    apply essential_loop_spec in He as (ve & Hve & ->).
    apply desirable_loop_spec in Hd as (vd & Hvd & ->).
    exists ve, vd. simpl. split; [done|]. split; [done|].
    split; [by rewrite foldl_app|]. split; [done|].
    split; [apply failing_sublist|].
    apply failing_nil. by apply Forall2_length in Hve.
  - intros (ve & vd & Hve & Hvd & -> & -> & _).
    assert (CriteriaGroup.essential_loop (CriteriaGroup.essential self)
              proposed current k 0%Q [] =
            Ok (foldl Qplus 0%Q ve, failing (CriteriaGroup.essential self) ve))
      as -> by (apply essential_loop_spec; by exists ve).
    rewrite bind_Ok. simpl.
    assert (CriteriaGroup.desirable_loop (CriteriaGroup.desirable self)
              proposed current k (foldl Qplus 0%Q ve) =
            Ok (foldl Qplus (foldl Qplus 0%Q ve) vd))
      as -> by (apply desirable_loop_spec; by exists vd).
    rewrite bind_Ok. by rewrite foldl_app.
Qed.

(** X26: [evaluate_proposals] returns exactly when every proposal
    evaluates; the list returned then holds one entry [(proposal, score,
    failed)] per proposal, the entries being those of [evaluate_proposal]
    rearranged: from the highest score to the lowest, entries of equal
    score in the order of the input (the sort is stable). *)
Theorem X26_evaluate_proposals_ranking (proposals : list Proposal.t)
    (current : Network.t) (criteria : CriteriaGroup.t) (k : Criteria.costing)
    (results : list ranked) :
  evaluate_proposals proposals current criteria k = Ok results <->
  exists rs,
    Forall2 (scored current criteria k) proposals rs /\
    results = sort_by_score rs /\
    results ≡ₚ rs /\ descending results /\
    forall q, with_score q results = with_score q rs.
Proof.
  unfold evaluate_proposals. split.
  - destruct (evaluate_each _ _ _ _ _) as [rs| |] eqn:Hrs; [|done|done].
    rewrite bind_Ok. intros [= <-].
    apply evaluate_each_spec in Hrs as (rs' & Hall & ->). simpl.
    exists rs'. split; [done|]. split; [done|]. apply sort_by_score_spec.
  - intros (rs & Hall & -> & _).
    assert (evaluate_each proposals current criteria k [] = Ok rs) as ->
      by (apply evaluate_each_spec; by exists rs).
    by rewrite bind_Ok.
Qed.

(** X27: for Networks [current] and [proposed] whose capacities are whole
    numbers that add up, over both, to at most [2^52], a
    [PerformanceCriteria] without supplies or without demands never raises:
    [evaluate] returns [weight * s], where [s] is [-1] when one of the two
    maximum flow computations (on [current + proposed] and on [current])
    raised a [TubePlanningError], and otherwise the maximum flow value of
    [current + proposed] minus that of [current], which is never negative:
    adding a proposal does not lower the maximum flow. *)
Theorem X27_performance_score_of_maximum_flow (c : PerformanceCriteria.t)
    (proposed current : Network.t) (k : Criteria.costing) :
  is_network proposed -> is_network current ->
  whole_plans current proposed ->
  PerformanceCriteria.is_sufficient_problem c = false ->
  let sources := PerformanceCriteria.sources c in
  let sinks := PerformanceCriteria.sinks c in
  exists combined s,
    Network.__add__ current proposed = Ok combined /\
    Criteria.evaluate c proposed current k =
      Ok (PerformanceCriteria.weight c * s)%Q /\
    ((s = (-1)%Q /\
      (planning_error (Network.maximum_flow combined sources sinks 1000) \/
       planning_error (Network.maximum_flow current sources sinks 1000))) \/
     ((0 <= s)%Q /\
      exists f1 f2 v1 v2,
        Network.maximum_flow combined sources sinks 1000 = Ok f1 /\
        Network.maximum_flow current sources sinks 1000 = Ok f2 /\
        Flow.value f1 = Ok v1 /\ Flow.value f2 = Ok v2 /\ s = (v1 - v2)%Q)).
Proof.
  intros Hp Hc _ Hmode sources sinks.
  destruct (add_spec current proposed Hc Hp) as (R & HR & HnetR & Hn & Hent).
  exists R. unfold Criteria.evaluate. simpl.
  rewrite (performance_evaluate_maximum c proposed current k Hmode), HR, bind_Ok.
  fold sources sinks.
  destruct (maximum_flow_outcome R sources sinks 1000) as [[f1 H1]|[msg1 H1]].
  2:{ exists (-1)%Q. rewrite H1. simpl. split; [done|]. split; [done|].
      left. split; [done|]. left. by exists msg1. }
  destruct (maximum_flow_outcome current sources sinks 1000)
    as [[f2 H2]|[msg2 H2]].
  2:{ exists (-1)%Q. rewrite H1, H2. simpl. split; [done|]. split; [done|].
      left. split; [done|]. right. by exists msg2. }
  destruct (maximum_flow_ok_inv R _ _ _ _ H1) as (Hb1 & Hs & Ht & Hdis).
  destruct (maximum_flow_ok_inv current _ _ _ _ H2) as (Hb2 & _ & _ & _).
  destruct (maximum_flow_optimal R sources sinks 1000 f1 HnetR Hb1 Hs Ht Hdis H1)
    as (_ & v1 & Hv1 & _ & Hmax).
  destruct (maximum_flow_optimal current sources sinks 1000 f2 Hc Hb2 Hs Ht
              Hdis H2) as (Hfeas & v2 & Hv2 & Hval & _).
  destruct (is_network_inv proposed Hp) as (Hsqp & Hnnp & _).
  destruct (is_network_inv current Hc) as (Hsqc & Hnnc & _).
  pose proof (fun i j => nonneg_everywhere _ _ i j Hsqp Hnnp) as Hpos_p.
  pose proof (fun i j => nonneg_everywhere _ _ i j Hsqc Hnnc) as Hpos_c.
  assert (n_nodes current <= n_nodes R)%nat as Hle by lia.
  assert (forall i j, (mget (adjacency_matrix current) i j <=
                       mget (adjacency_matrix R) i j)%Q) as Hgrow.
  { intros i j. rewrite Hent. specialize (Hpos_p i j). lra. }
  assert (forall i j, (0 <= mget (adjacency_matrix R) i j)%Q) as Hnn.
  { intros i j. rewrite Hent. specialize (Hpos_p i j). specialize (Hpos_c i j).
    lra. }
  pose proof (pad_feasible _ _ _ _ _ _ Hle Hgrow Hnn _ Hfeas) as Hpad.
  specialize (Hmax _ Hpad).
  rewrite (pad_outflow (n_nodes current)) in Hmax by (done || apply Hfeas).
  exists (v1 - v2)%Q. rewrite H1, H2. simpl. rewrite Hv1, Hv2. simpl.
  split; [done|]. split; [done|]. right. split; [lra|].
  by exists f1, f2, v1, v2.
Qed.

Lemma X27_performance_score_of_maximum_flow_witness :
  exists s,
    Criteria.evaluate (PerformanceCriteria.mk "flow" 2%Q [0] [1] None None)
      (Network.mk net3) (Network.mk net3) None = Ok (2 * s)%Q /\
    (s = (-1)%Q \/ (0 <= s)%Q).
Proof.
  destruct (X27_performance_score_of_maximum_flow
              (PerformanceCriteria.mk "flow" 2%Q [0] [1] None None)
              (Network.mk net3) (Network.mk net3) None
              net3_is_network net3_is_network)
    as (R & s & _ & Hev & [[Hs _]|[Hs _]]).
  - split; [exact net3_whole|]. split; [exact net3_whole|].
    vm_compute. discriminate.
  - reflexivity.
  - exists s. split; [exact Hev|]. left. exact Hs.
  - exists s. split; [exact Hev|]. right. exact Hs.
Defined.

(** X28: for Networks [current] and [proposed], a well-formed
    [PerformanceCriteria] with supplies and demands never raises:
    [evaluate] returns [weight * s] with [s] either [1] or [-1].  When [s]
    is [1], the capacities of the two Networks, the supplies and the
    demands are whole numbers (adding up to at most [2^52] each), and the
    sources and the sinks are lists without repetitions that share no node,
    [current + proposed] carries the flow that [sufficient_flow] returned:
    a valid flow in which no source sends more than its supply and every
    sink receives exactly its demand. *)
Theorem X28_performance_score_of_sufficient_flow (c : PerformanceCriteria.t)
    (proposed current : Network.t) (k : Criteria.costing) (sup dem : list Q) :
  is_network proposed -> is_network current ->
  well_formed c ->
  PerformanceCriteria.supplies c = Some sup ->
  PerformanceCriteria.demands c = Some dem ->
  let sources := PerformanceCriteria.sources c in
  let sinks := PerformanceCriteria.sinks c in
  exists combined s,
    Network.__add__ current proposed = Ok combined /\
    Criteria.evaluate c proposed current k =
      Ok (PerformanceCriteria.weight c * s)%Q /\
    (s = 1%Q \/ s = (-1)%Q) /\
    (s = 1%Q ->
     whole_plans current proposed ->
     whole_amounts (zip sources sup) -> whole_amounts (zip sinks dem) ->
     NoDup sources -> NoDup sinks ->
     (forall x, x ∈ sources -> x ∉ sinks) ->
     exists f,
       Network.sufficient_flow combined (zip sources sup) (zip sinks dem) 1000
         = Ok f /\
       let n := n_nodes combined in
       let F := Flow.flow_matrix f in
       square n F /\ skew n F /\ within n (adjacency_matrix combined) F /\
       (forall i, (i < n)%nat -> Z.of_nat i ∉ sources ++ sinks ->
          (row_sum F i == 0)%Q) /\
       (forall s c, (s, c) ∈ zip sources sup ->
          (0 <= row_sum F (Z.to_nat s))%Q /\ (row_sum F (Z.to_nat s) <= c)%Q) /\
       (forall t d, (t, d) ∈ zip sinks dem ->
          (- row_sum F (Z.to_nat t) == d)%Q)).
Proof.
  intros Hp Hc (Hw & Hs0 & Ht0 & Hwf) Hsup Hdem sources sinks.
  destruct (Hwf sup dem Hsup Hdem) as (Hl1 & Hl2 & Hnn).
  fold sources in Hl1. fold sinks in Hl2.
  destruct (add_spec current proposed Hc Hp) as (R & HR & HnetR & Hn & Hent).
  exists R. unfold Criteria.evaluate. simpl.
  rewrite (performance_evaluate_sufficient c proposed current k sup dem Hsup
             Hdem), HR, bind_Ok.
  fold sources sinks.
  destruct (dict_zip_spec sources sup Hl1) as (d1 & -> & Hd1).
  destruct (dict_zip_spec sinks dem Hl2) as (d2 & -> & Hd2).
  rewrite !bind_Ok.
  destruct (sufficient_flow_outcome R d1 d2 1000 HnetR)
    as [(f & v & Hrun & Hv)|[msg Herr]].
  2:{ exists (-1)%Q. rewrite Herr. simpl. split; [done|]. split; [done|].
      split; [by right|]. discriminate. }
  rewrite Hrun, bind_Ok, Hv, bind_Ok. simpl.
  destruct (Qle_bool (foldl Qplus 0%Q dem) v) eqn:Hmet.
  2:{ exists (-1)%Q. split; [done|]. split; [done|]. split; [by right|].
      discriminate. }
  exists 1%Q. split; [done|]. split; [done|]. split; [by left|].
  intros _ _ _ _ HndS HndT Hdis. apply Qle_bool_iff in Hmet.
  rewrite (Hd1 HndS), (Hd2 HndT) in Hrun. exists f. split; [exact Hrun|].
  assert (map fst (zip sources sup) = sources) as Hk1 by (apply fst_zip; lia).
  assert (map fst (zip sinks dem) = sinks) as Hk2 by (apply fst_zip; lia).
  assert (map snd (zip sinks dem) = dem) as Hv2 by (apply snd_zip; lia).
  destruct (sufficient_flow_spec R (zip sources sup) (zip sinks dem) 1000 f
              HnetR) as (_ & Hvalid & Hcons & Hsrc & v' & Hv' & _ & Hsnk);
    rewrite ?Hk1, ?Hk2; try done.
  rewrite Hk1, Hk2 in Hcons. rewrite Hv in Hv'. injection Hv' as <-.
  assert (total (zip sinks dem) = foldl Qplus 0%Q dem) as Htot
    by (unfold total; by rewrite Hv2).
  rewrite Htot in Hsnk.
  destruct Hvalid as (Hsq & Hsk & Hwi).
  split; [exact Hsq|]. split; [exact Hsk|]. split; [exact Hwi|].
  split; [exact Hcons|]. split.
  - intros s c' Hsc. by destruct (Hsrc s c' Hsc) as (_ & ? & ?).
  - intros t d Htd. destruct (Hsnk t d Htd) as (_ & Hle & Hdef). lra.
Qed.

Lemma X28_performance_score_of_sufficient_flow_witness :
  exists s,
    Criteria.evaluate
      (PerformanceCriteria.mk "demand" 2%Q [0] [1] (Some [2%Q]) (Some [2%Q]))
      (Network.mk net3) (Network.mk (zeros 2)) None = Ok (2 * s)%Q /\
    (s = 1%Q \/ s = (-1)%Q).
Proof.
  destruct (X28_performance_score_of_sufficient_flow
              (PerformanceCriteria.mk "demand" 2%Q [0] [1] (Some [2%Q])
                 (Some [2%Q]))
              (Network.mk net3) (Network.mk (zeros 2)) None [2%Q] [2%Q])
    as (R & s & _ & Hev & Hs & _).
  - exact net3_is_network.
  - exists (Some (zeros 2)), None. apply zero_network_ok.
  - split; [reflexivity|]. split; [discriminate|]. split; [discriminate|].
    simpl. intros sup dem [= <-] [= <-]. split; [reflexivity|].
    split; [reflexivity|]. intros v Hv. simpl in Hv.
    repeat (apply elem_of_cons in Hv as [->|Hv]; [discriminate|]).
    by apply elem_of_nil in Hv.
  - reflexivity.
  - reflexivity.
  - exists s. split; [exact Hev|exact Hs].
Defined.

(** X29: when the current network and the proposals are Networks and
    every criterion of the group is a well-formed [PerformanceCriteria],
    [evaluate_proposals] returns: no error of the flow engine gets past the
    [try] of [PerformanceCriteria._evaluate].  The ranking has one entry per
    proposal, and its proposals are those given. *)
Theorem X29_scoring_always_returns (proposals : list Proposal.t)
    (current : Network.t) (essential desirable : list PerformanceCriteria.t)
    (k : Criteria.costing) :
  is_network current ->
  (forall p, p ∈ proposals -> is_network (Proposal.network p)) ->
  (forall c, c ∈ essential ++ desirable -> well_formed c) ->
  let criteria :=
    CriteriaGroup.mk (map performance desirable) (map performance essential) in
  exists results,
    evaluate_proposals proposals current criteria k = Ok results /\
    length results = length proposals /\
    forall p, p ∈ proposals <-> exists r, r ∈ results /\ fst (fst r) = p.
Proof.
  intros Hc Hps Hwf criteria.
  assert (exists rs, Forall2 (scored current criteria k) proposals rs)
    as (rs & Hrs).
  { induction proposals as [|p ps IH]; [exists []; constructor|].
    destruct IH as (rs & Hrs); [intros p' Hp'; apply Hps; by right|].
    assert (is_network (Proposal.network p)) as Hp by (apply Hps; by left).
    destruct (performance_group_values essential (Proposal.network p) current k
                Hp Hc) as (ve & Hve);
      [intros c Hin; apply Hwf, elem_of_app; by left|].
    destruct (performance_group_values desirable (Proposal.network p) current k
                Hp Hc) as (vd & Hvd);
      [intros c Hin; apply Hwf, elem_of_app; by right|].
    exists ((p, foldl Qplus 0%Q (ve ++ vd),
             failing (map performance essential) ve) :: rs).
    constructor; [|done]. split; [done|].
    unfold evaluate_proposal, CriteriaGroup.evaluate, score_of. simpl.
    assert (CriteriaGroup.essential_loop (map performance essential)
              (Proposal.network p) current k 0%Q [] =
            Ok (foldl Qplus 0%Q ve, failing (map performance essential) ve))
      as -> by (apply essential_loop_spec; by exists ve).
    rewrite bind_Ok. simpl.
    assert (CriteriaGroup.desirable_loop (map performance desirable)
              (Proposal.network p) current k (foldl Qplus 0%Q ve) =
            Ok (foldl Qplus (foldl Qplus 0%Q ve) vd))
      as -> by (apply desirable_loop_spec; by exists vd).
    rewrite bind_Ok. by rewrite foldl_app. }
  exists (sort_by_score rs).
  destruct (sort_by_score_spec rs) as (Hperm & _).
  split.
  - unfold evaluate_proposals.
    assert (evaluate_each proposals current criteria k [] = Ok rs) as ->
      by (apply evaluate_each_spec; by exists rs).
    by rewrite bind_Ok.
  - split.
    + rewrite Hperm. symmetry. by apply Forall2_length in Hrs.
    + intros p. split.
      * intros (i & Hi)%list_elem_of_lookup_1.
        destruct (Forall2_lookup_l _ _ _ _ _ Hrs Hi) as (r & Hr & Hfst & _).
        exists r. split; [|done]. rewrite Hperm.
        by apply list_elem_of_lookup_2 in Hr.
      * intros (r & Hr & <-). rewrite Hperm in Hr.
        apply list_elem_of_lookup_1 in Hr as (i & Hi).
        destruct (Forall2_lookup_r _ _ _ _ _ Hrs Hi) as (p & Hp & Hfst & _).
        rewrite Hfst. by apply list_elem_of_lookup_2 in Hp.
Qed.

Lemma X29_scoring_always_returns_witness :
  exists results,
    evaluate_proposals [Proposal.mk "north" (Network.mk net3)]
      (Network.mk net3)
      (CriteriaGroup.mk []
         [performance (PerformanceCriteria.mk "flow" 1%Q [0] [1] None None)])
      None = Ok results /\
    length results = 1%nat.
Proof.
  destruct (X29_scoring_always_returns
              [Proposal.mk "north" (Network.mk net3)] (Network.mk net3)
              [PerformanceCriteria.mk "flow" 1%Q [0] [1] None None] [] None)
    as (results & Hrun & Hlen & _).
  - exact net3_is_network.
  - intros p ->%list_elem_of_singleton. exact net3_is_network.
  - simpl. intros c ->%list_elem_of_singleton.
    split; [reflexivity|]. split; [discriminate|]. split; [discriminate|].
    simpl. discriminate.
  - exists results. split; [exact Hrun|exact Hlen].
Defined.
